(** * rngast: Relax NG abstract syntax, simplifier and validator

    A shallow embedding of the node types ([rngast.ts]), the
    constructors ([relaxng-builder.ts]), the validator
    ([rngast-validate.ts]), the simplifier ([simplifyRngAst] and its
    passes) and the simple-form checker ([isRoot]) that the simplifier
    ends with.

    The validator only reads its patterns, so it works on immutable
    trees ([Tree]).  The simplifier rewrites the tree in place and the
    traversal keeps walking nodes that a visitor has already detached,
    so it works on a store of mutable nodes ([Simplifier.World])
    addressed by object identity. *)

From Stdlib Require Import Ascii String List ZArith Lia Bool DecimalString DecimalNat.
From stdpp Require Import base option list gmap strings.

Open Scope string_scope.
Open Scope list_scope.

(** ** Outcomes of a JavaScript computation

    A call either returns, throws an [Error] carrying a message, or (in the
    model only) uses up the recursion budget it was given. *)

Inductive Res (A : Type) : Type :=
| Ok (a : A)
| Throw (msg : string)
| OutOfFuel.
Arguments Ok {A} a.
Arguments Throw {A} msg.
Arguments OutOfFuel {A}.

Definition isOk {A} (r : Res A) : bool :=
  match r with Ok _ => true | _ => false end.

(** Template-literal interpolation of a number. *)
Definition show_nat (n : nat) : string := NilZero.string_of_uint (Nat.to_uint n).

(** ** The node types of [rngast.ts] *)

Module Ast.

Inductive NodeType :=
| ty_root | ty_grammar | ty_start | ty_define
| ty_elementNamed | ty_element | ty_attributeNamed | ty_attribute
| ty_group | ty_interleave | ty_choice | ty_optional
| ty_zeroOrMore | ty_oneOrMore | ty_mixed
| ty_ref | ty_parentRef | ty_empty | ty_text | ty_value | ty_data
| ty_notAllowed
| ty_name | ty_anyName | ty_nameChoice | ty_exceptNameClass.

#[global] Instance NodeType_eq_dec : EqDecision NodeType.
Proof. solve_decision. Defined.

(** The string held by the [type] field. *)
Definition type_name (t : NodeType) : string :=
  match t with
  | ty_root => "root" | ty_grammar => "grammar" | ty_start => "start"
  | ty_define => "define" | ty_elementNamed => "elementNamed"
  | ty_element => "element" | ty_attributeNamed => "attributeNamed"
  | ty_attribute => "attribute" | ty_group => "group"
  | ty_interleave => "interleave" | ty_choice => "choice"
  | ty_optional => "optional" | ty_zeroOrMore => "zeroOrMore"
  | ty_oneOrMore => "oneOrMore" | ty_mixed => "mixed" | ty_ref => "ref"
  | ty_parentRef => "parentRef" | ty_empty => "empty" | ty_text => "text"
  | ty_value => "value" | ty_data => "data" | ty_notAllowed => "notAllowed"
  | ty_name => "name" | ty_anyName => "anyName"
  | ty_nameChoice => "nameChoice" | ty_exceptNameClass => "exceptNameClass"
  end.

Inductive CombineMethod := cm_choice | cm_interleave.

#[global] Instance CombineMethod_eq_dec : EqDecision CombineMethod.
Proof. solve_decision. Defined.

Definition combine_name (c : CombineMethod) : string :=
  match c with cm_choice => "choice" | cm_interleave => "interleave" end.

(** A node object: the fields the interfaces of [rngast.ts] declare.  A
    field that an interface does not have is [None] (JavaScript
    [undefined]).  [C] is what a slot of the [children] array holds. *)
Record NodeOf (C : Type) : Type := mkNode {
  type : NodeType;
  name : option string;
  combine : option CombineMethod;
  value : option string;
  dataType : option string;
  children : option (list C)
}.
Arguments mkNode {C}.
Arguments type {C}.
Arguments name {C}.
Arguments combine {C}.
Arguments value {C}.
Arguments dataType {C}.
Arguments children {C}.

(** Immutable trees: what the validator reads and what a store location
    unfolds to. *)
#[warnings="-register-all"]
Inductive Tree : Type :=
| TUndefined
| TNode (n : NodeOf Tree).

(** [`${x}`] of an optional string. *)
Definition str_of (o : option string) : string := default "undefined" o.

End Ast.
Export Ast.

(** ** [relaxng-builder.ts], on immutable trees

    The constructors as the validator's callers use them (the source
    imports the module under the names [b] and [r]).  A rest parameter
    is a list; an optional parameter is an [option]. *)

Module b.
Definition leaf (t : NodeType) : Tree :=
  TNode (mkNode t None None None None None).
Definition parent (t : NodeType) (cs : list Tree) : Tree :=
  TNode (mkNode t None None None None (Some cs)).
Definition named (t : NodeType) (n : string) (cs : option (list Tree)) : Tree :=
  TNode (mkNode t (Some n) None None None cs).

Definition empty : Tree := leaf ty_empty.
Definition text : Tree := leaf ty_text.
Definition notAllowed : Tree := leaf ty_notAllowed.
Definition value (v : string) : Tree :=
  TNode (mkNode ty_value None None (Some v) None None).
Definition data (dt : string) : Tree :=
  TNode (mkNode ty_data None None None (Some dt) None).
Definition name (n : string) : Tree := named ty_name n None.
Definition ref (n : string) : Tree := named ty_ref n None.

Definition elemNamed (elemName : string) (children : list Tree) : Tree :=
  let children := match children with [] => [empty] | _ => children end in
  named ty_elementNamed elemName (Some children).
Definition elem (elemNameClass : Tree) (children : list Tree) : Tree :=
  let children := match children with [] => [empty] | _ => children end in
  parent ty_element (elemNameClass :: children).
(** [attrNamed(attrName, child = text())] *)
Definition attrNamed (attrName : string) (child : option Tree) : Tree :=
  named ty_attributeNamed attrName (Some [default text child]).
Definition attr (nameClass : Tree) (child : option Tree) : Tree :=
  parent ty_attribute [nameClass; default text child].
Definition start (child : Tree) : Tree := parent ty_start [child].
Definition define (n : string) (children : list Tree) : Tree :=
  named ty_define n (Some children).
Definition grammar (start : Tree) (defs : list Tree) : Tree :=
  parent ty_grammar (start :: defs).
Definition choice := parent ty_choice.
Definition group := parent ty_group.
Definition oneOrMore := parent ty_oneOrMore.
Definition zeroOrMore := parent ty_zeroOrMore.
Definition interleave := parent ty_interleave.
Definition mixed := parent ty_mixed.
Definition optional := parent ty_optional.
Definition root (child : Tree) : Tree := parent ty_root [child].
End b.

(** ** The validator ([rngast-validate.ts]) *)

Definition Problem := string.

Module expected.
Definition text (found : string) : Problem :=
  "Expected text but found " +:+ found.
Definition noText : Problem := "Unexpected text in element".
Definition elem (name found : string) : Problem :=
  "Expected element " +:+ name +:+ " but found " +:+ found.
Definition attr (name : string) : Problem :=
  "Expected attribute: " +:+ name.
Definition attrText (name found : string) : Problem :=
  "Expected attribute value for " +:+ name +:+ " to be text but was " +:+ found.
Definition noChildren (numMissed : nat) : Problem :=
  "Expected no contents but found " +:+ show_nat numMissed +:+ " children".
Definition unexpectedElem (name : string) : Problem :=
  "Unexpected element: " +:+ name.
Definition noMatch : Problem := "Could not find matching choice".
End expected.

(** *** The document (xast)

    [loc] stands for the identity of the node object: [addProblems]
    writes to [target.data], and the same object is reached again by
    [collectProblems]. *)

(** The property names that every plain object inherits from
    [Object.prototype]: the [in] operator and a property read find them
    in an object that has no property of its own under that name. *)
Definition objectPrototypeKeys : list string :=
  ["constructor"; "__defineGetter__"; "__defineSetter__"; "hasOwnProperty";
   "__lookupGetter__"; "__lookupSetter__"; "isPrototypeOf";
   "propertyIsEnumerable"; "toString"; "valueOf"; "__proto__";
   "toLocaleString"].

(** The value of a property: what a document holds under an attribute
    name, or [AInherited key] for what [Object.prototype] holds under
    [key]. *)
Inductive AttrValue :=
  AString (s : string) | ANull | AUndefined | AInherited (key : string).

(** What is inherited under [__proto__] is the prototype object, read
    through its accessor; the other inherited properties are
    functions. *)
Definition typeof (v : AttrValue) : string :=
  match v with
  | AString _ => "string" | ANull => "object" | AUndefined => "undefined"
  | AInherited key => if decide (key = "__proto__") then "object" else "function"
  end.

Inductive XKind := xk_comment | xk_instruction | xk_cdata | xk_doctype.

(** Attributes are a JavaScript object: keys are unique and [Object.keys]
    lists them in insertion order.  The list holds the own properties;
    the object is a plain one, so that [attr_lookup] also finds what it
    inherits from [Object.prototype]. *)
Definition Attributes := list (string * AttrValue).

#[warnings="-register-all"]
Inductive XastNode : Type :=
| XElement (loc : nat) (name : string) (attributes : Attributes)
           (children : list XastNode)
| XText (loc : nat) (value : string)
| XMisc (loc : nat) (kind : XKind).

Definition xloc (n : XastNode) : nat :=
  match n with XElement l _ _ _ | XText l _ | XMisc l _ => l end.

Definition xtype (n : XastNode) : string :=
  match n with
  | XElement _ _ _ _ => "element"
  | XText _ _ => "text"
  | XMisc _ xk_comment => "comment"
  | XMisc _ xk_instruction => "instruction"
  | XMisc _ xk_cdata => "cdata"
  | XMisc _ xk_doctype => "doctype"
  end.

(** [x(name)] of xastscript with the object identity made explicit. *)
Definition x (loc : nat) (name : string) (attrs : Attributes)
    (children : list XastNode) : XastNode :=
  XElement loc name attrs children.

Definition Context : Type := list XastNode * Attributes.
Definition ValidationResult : Type := bool * list Problem * Context.

Definition res_ok (r : ValidationResult) : bool := r.1.1.
Definition res_problems (r : ValidationResult) : list Problem := r.1.2.
Definition res_ctx (r : ValidationResult) : Context := r.2.

Module Validator.

(** *** Effects

    Matching never reads the annotations it leaves on the document, so
    the writes of [addProblems] are collected in order next to the
    value: [(loc, problems)] stands for
    [target.data.validation.push(...problems)] on the node at [loc]. *)
Definition Log : Type := list (nat * list Problem).
Definition V (A : Type) : Type := Res (A * Log).

Definition ret {A} (a : A) : V A := Ok (a, []).
Definition throw {A} (msg : string) : V A := Throw msg.
Definition bind {A B} (m : V A) (k : A -> V B) : V B :=
  match m with
  | Ok (a, w) =>
      match k a with
      | Ok (r, w') => Ok (r, w ++ w')
      | Throw e => Throw e
      | OutOfFuel => OutOfFuel
      end
  | Throw e => Throw e
  | OutOfFuel => OutOfFuel
  end.

Declare Scope validator_scope.
Delimit Scope validator_scope with V.
Notation "x <- m ;; k" := (bind m (fun x => k))
  (at level 20, m at level 99, k at level 200, only parsing) : validator_scope.
Notation "m ;; k" := (bind m (fun _ => k))
  (at level 100, k at level 200, right associativity, only parsing) : validator_scope.
Local Open Scope validator_scope.

Definition addProblems (target : XastNode) (problems : list Problem) : V unit :=
  Ok (tt, [(xloc target, problems)]).

Definition allGood (ctx : Context) : ValidationResult := (true, [], ctx).
(** [allGood()] with the default argument [[[], {}]]. *)
Definition allGood0 : ValidationResult := allGood ([], []).
Definition invalid (ctx : Context) (problem : Problem) : ValidationResult :=
  (false, [problem], ctx).

Definition elemCtx (children : list XastNode) (attributes : Attributes) : Context :=
  (children, attributes).

Definition concat2 (result1 result2 : ValidationResult) : ValidationResult :=
  let '(ok1, probs1, _) := result1 in
  let '(ok2, probs2, ctx2) := result2 in
  (ok1 && ok2, probs1 ++ probs2, ctx2).

(** [fallback(...options)]: the options are thunks, called in order. *)
Fixpoint fallback_from (result : option ValidationResult)
    (options : list (unit -> V ValidationResult)) : V ValidationResult :=
  match options with
  | [] =>
      match result with
      | None => throw "Fallback should have at least one case"
      | Some r => ret r
      end
  | opt :: options' =>
      r <- opt tt ;;
      if res_ok r then ret r else fallback_from (Some r) options'
  end.
Definition fallback := fallback_from None.

(** [chain(initialCtx, ...steps)].  Every call of the source passes two
    steps.  With no step the source returns [undefined] without
    throwing, which is not a [ValidationResult]; here that case raises
    the [TypeError] that destructuring the [undefined] gives. *)
Fixpoint chain_from (ctx : Context) (result : option ValidationResult)
    (steps : list (Context -> V ValidationResult)) : V ValidationResult :=
  match steps with
  | [] =>
      match result with
      | None => throw "TypeError: undefined is not iterable"
      | Some r => ret r
      end
  | step :: steps' =>
      r <- step ctx ;;
      let result' := match result with None => r | Some r0 => concat2 r0 r end in
      chain_from (res_ctx result') (Some result') steps'
  end.
Definition chain (initialCtx : Context) := chain_from initialCtx None.

(** [chainIfOk(initialCtx, ...steps)]: as [chain], but returns as soon
    as the accumulated result is not ok.  The case of no step is
    treated as in [chain]. *)
Fixpoint chainIfOk_from (ctx : Context) (result : option ValidationResult)
    (steps : list (Context -> V ValidationResult)) : V ValidationResult :=
  match steps with
  | [] =>
      match result with
      | None => throw "TypeError: undefined is not iterable"
      | Some r => ret r
      end
  | step :: steps' =>
      r <- step ctx ;;
      let result' := match result with None => r | Some r0 => concat2 r0 r end in
      if res_ok result' then chainIfOk_from (res_ctx result') (Some result') steps'
      else ret result'
  end.
Definition chainIfOk (initialCtx : Context) := chainIfOk_from initialCtx None.

Definition unexpected (ctx : Context) : list Problem :=
  let '(children, attrs) := ctx in
  map (fun kv => "Unexpected attribute: " +:+ kv.1) attrs
  ++ filter (fun p => p <> "")
       (map (fun ch =>
               match ch with
               | XElement _ name _ _ => expected.unexpectedElem name
               | XText _ _ => expected.noText
               | XMisc _ _ => ""
               end) children).

Definition endValidationOnNode (el : XastNode) (result : ValidationResult) : V unit :=
  let '(_, innerProbs1, ctx) := result in
  let innerProbs2 := unexpected ctx in
  addProblems el innerProbs1 ;;
  addProblems el innerProbs2.

(** [this.defs : Record<string, Define>] *)
Abbreviation Defs := (gmap string (NodeOf Tree)) (only parsing).

Definition addDef (def : NodeOf Tree) (defs : Defs) : Defs :=
  <[str_of (name def) := def]> defs.

(** [x.children] used as an array: a node without the field gives
    [undefined], and spreading, mapping or destructuring it throws. *)
Definition childrenOf (n : NodeOf Tree) : V (list Tree) :=
  match children n with
  | Some cs => ret cs
  | None => throw "TypeError: children is undefined"
  end.

(** [name in this.defs]: [this.defs] is a plain object, so the test
    holds for the names of the defines and for the names inherited from
    [Object.prototype] (a [define] named [__proto__] would replace that
    prototype; no such define is considered). *)
Definition inDefs (name : string) (defs : Defs) : bool :=
  bool_decide (is_Some (defs !! name)) || bool_decide (name ∈ objectPrototypeKeys).

(** [this.defs[name].children] used as an array; what is inherited has
    no [children]. *)
Definition childrenOfDef (defs : Defs) (name : string) : V (list Tree) :=
  match defs !! name with
  | Some d => childrenOf d
  | None => throw "TypeError: children is undefined"
  end.

Definition _getRef (defs : Defs) (name : string) : V (list Tree) :=
  if negb (inDefs name defs)
  then throw ("Referencing unknown definition: " +:+ name)
  else childrenOfDef defs name.

Definition _getRefSingle (defs : Defs) (name : string) : V Tree :=
  if negb (inDefs name defs)
  then throw ("Referencing unknown definition: " +:+ name)
  else
    cs <- childrenOfDef defs name ;;
    if decide (1 < length cs)
    then throw "Unsure how to apply definition with multiple patterns"
    else ret (nth 0 cs TUndefined).

Definition expectAttrContent (content : Tree) : V Tree :=
  match content with
  | TUndefined => throw "TypeError: content is undefined"
  | TNode n =>
      match type n with
      | ty_text | ty_value | ty_data | ty_choice | ty_ref => ret content
      | t => throw ("Cannot use in attribute context: " +:+ type_name t)
      end
  end.

Fixpoint validateAttribute (fuel : nat) (defs : Defs) (attrName : string)
    (attrValue : AttrValue) (spec : Tree) : V ValidationResult :=
  match fuel with
  | O => OutOfFuel
  | S fuel =>
      match spec with
      | TUndefined => throw "TypeError: spec is undefined"
      | TNode n =>
          match type n with
          | ty_ref =>
              d <- _getRefSingle defs (str_of (name n)) ;;
              c <- expectAttrContent d ;;
              validateAttribute fuel defs attrName attrValue c
          | ty_text =>
              match attrValue with
              | AString _ => ret allGood0
              | _ => ret (invalid ([], []) (expected.attrText attrName (typeof attrValue)))
              end
          | t => throw ("Unhandled validateAttribute: " +:+ type_name t)
          end
      end
  end.

(** [name in attrs] and [const { [name]: attr, ...restAttrs } = attrs]:
    [attr] is the own property, or else the inherited one; [restAttrs]
    has the other own properties. *)
Definition attr_lookup (k : string) (attrs : Attributes) : option AttrValue :=
  match find (fun kv => String.eqb kv.1 k) attrs with
  | Some kv => Some kv.2
  | None => if decide (k ∈ objectPrototypeKeys) then Some (AInherited k) else None
  end.
Definition attr_rest (k : string) (attrs : Attributes) : Attributes :=
  filter (fun kv => kv.1 <> k) attrs.

(** One path of a [choice]: the alternative [ch], then the remaining
    specs, chained.  [self] is [this.validateDetails]. *)
Definition choicePath (self : Context -> list Tree -> V ValidationResult)
    (ctx : Context) (restSpecs : list Tree) (ch : Tree) : V ValidationResult :=
  chain ctx
    [ (fun ctx => self ctx [ch]);
      (fun ctx => self ctx restSpecs) ].

(** The matcher.  [fuel] bounds the depth of nested calls. *)
Fixpoint validateDetails (fuel : nat) (defs : Defs) (ctx : Context)
    (specs : list Tree) {struct fuel} : V ValidationResult :=
  match fuel with
  | O => OutOfFuel
  | S fuel =>
      let '(children, attrs) := ctx in
      match specs with
      | [] | TUndefined :: _ => ret (allGood ctx)
      | TNode spec :: restSpecs =>
          match type spec with
          | ty_empty =>
              match children with
              | [] => ret allGood0
              | _ => ret (invalid ctx (expected.noChildren (length children)))
              end
          | ty_text =>
              match children with
              | [] =>
                  r <- validateDetails fuel defs ctx restSpecs ;;
                  ret (concat2 (invalid ctx (expected.text "nothing")) r)
              | XText _ _ :: restChildren =>
                  validateDetails fuel defs (restChildren, attrs) restSpecs
              | child :: _ =>
                  r <- validateDetails fuel defs ctx restSpecs ;;
                  ret (concat2 (invalid ctx (expected.text (xtype child))) r)
              end
          | ty_elementNamed =>
              match children with
              | [] =>
                  r <- validateDetails fuel defs ctx restSpecs ;;
                  ret (concat2
                         (invalid ctx (expected.elem (str_of (name spec)) "nothing")) r)
              | XElement _ cname cattrs cchildren as child :: restChildren =>
                  if decide (Some cname = name spec) then
                    cs <- childrenOf spec ;;
                    inner <- validateDetails fuel defs (elemCtx cchildren cattrs) cs ;;
                    endValidationOnNode child inner ;;
                    validateDetails fuel defs (restChildren, attrs) restSpecs
                  else
                    r <- validateDetails fuel defs ctx restSpecs ;;
                    ret (concat2
                           (invalid ctx (expected.elem (str_of (name spec)) cname)) r)
              | child :: _ =>
                  r <- validateDetails fuel defs ctx restSpecs ;;
                  ret (concat2
                         (invalid ctx (expected.elem (str_of (name spec)) (xtype child))) r)
              end
          | ty_attributeNamed =>
              match attr_lookup (str_of (name spec)) attrs with
              | Some attr =>
                  let restAttrs := attr_rest (str_of (name spec)) attrs in
                  cs <- childrenOf spec ;;
                  r1 <- validateAttribute fuel defs (str_of (name spec)) attr
                          (nth 0 cs TUndefined) ;;
                  r2 <- validateDetails fuel defs (children, restAttrs) restSpecs ;;
                  ret (concat2 r1 r2)
              | None =>
                  r <- validateDetails fuel defs ctx restSpecs ;;
                  ret (concat2 (invalid ctx (expected.attr (str_of (name spec)))) r)
              end
          | ty_ref =>
              cs <- _getRef defs (str_of (name spec)) ;;
              validateDetails fuel defs ctx (cs ++ restSpecs)
          | ty_optional =>
              fallback
                [ (fun _ =>
                     chain ctx
                       [ (fun ctx => cs <- childrenOf spec ;;
                                     validateDetails fuel defs ctx cs);
                         (fun ctx => validateDetails fuel defs ctx restSpecs) ]);
                  (fun _ => validateDetails fuel defs ctx restSpecs) ]
          | ty_choice =>
              cs <- childrenOf spec ;;
              let allPaths :=
                map (fun ch => fun _ : unit =>
                       choicePath (validateDetails fuel defs) ctx restSpecs ch)
                    cs in
              fallback (allPaths ++ [fun _ => ret (invalid ctx expected.noMatch)])
          | ty_zeroOrMore =>
              fallback
                [ (fun _ =>
                     chainIfOk ctx
                       [ (fun ctx => cs <- childrenOf spec ;;
                                     validateDetails fuel defs ctx cs);
                         (fun ctx => validateDetails fuel defs ctx specs) ]);
                  (fun _ => validateDetails fuel defs ctx restSpecs) ]
          | ty_oneOrMore =>
              chain ctx
                [ (fun ctx => cs <- childrenOf spec ;;
                              validateDetails fuel defs ctx cs);
                  (fun ctx =>
                     fallback
                       [ (fun _ => validateDetails fuel defs ctx restSpecs);
                         (fun _ => validateDetails fuel defs ctx specs) ]) ]
          | ty_group =>
              cs <- childrenOf spec ;;
              validateDetails fuel defs ctx (cs ++ restSpecs)
          | t => throw ("Unhandled validateDetails: " +:+ type_name t)
          end
      end
  end.

(** [validateNode(target, spec)] *)
Definition validateNode (fuel : nat) (defs : Defs) (target : XastNode)
    (spec : Tree) : V bool :=
  result <- validateDetails fuel defs ([target], []) [spec] ;;
  endValidationOnNode target result ;;
  ret (res_ok result).

(** [node.data?.validation || []] once the writes of [log] are done. *)
Definition validation (log : Log) (node : XastNode) : list Problem :=
  concat (map snd (filter (fun e => e.1 = xloc node) log)).

Fixpoint collectProblems (log : Log) (recursive : bool) (node : XastNode)
    : list (XastNode * Problem) :=
  let nodeProblems := map (fun p => (node, p)) (validation log node) in
  match node with
  | XElement _ _ _ children =>
      if recursive
      then nodeProblems ++ concat (map (collectProblems log recursive) children)
      else nodeProblems
  | _ => nodeProblems
  end.

(** What the tests' [check] helper returns: the verdict and the
    messages of [collectProblems(node)]. *)
Definition check (fuel : nat) (defs : Defs) (node : XastNode) (spec : Tree)
    : Res (bool * list Problem) :=
  match validateNode fuel defs node spec with
  | Ok (ok, log) => Ok (ok, map snd (collectProblems log true node))
  | Throw e => Throw e
  | OutOfFuel => OutOfFuel
  end.

(** [concat(...results)]: [results.reduce(concat2)], or [allGood()] when
    there is no result.  (The name [concat] is the list function's.) *)
Definition concat_ (results : list ValidationResult) : ValidationResult :=
  match results with
  | [] => allGood0
  | r :: rs => fold_left concat2 rs r
  end.

(** *** The class [RelaxNgValidator] *)

Record RelaxNgValidator := mkValidator {
  this_grammar : NodeOf Tree;
  this_specStart : NodeOf Tree;
  this_defs : Defs
}.

(** The loop of the constructor over [defs]: every one must be a
    [define]. *)
Fixpoint checkDefines (defs : list Tree) : Res (list (NodeOf Tree)) :=
  match defs with
  | [] => Ok []
  | TUndefined :: _ => Throw "TypeError: Cannot read properties of undefined"
  | TNode def :: defs' =>
      if decide (type def <> ty_define) then Throw "Should not have multiple starts"
      else
        match checkDefines defs' with
        | Ok ds => Ok (def :: ds)
        | Throw e => Throw e
        | OutOfFuel => OutOfFuel
        end
  end.

(** [(defs as Define[]).forEach(this.addDef.bind(this))] *)
Definition addDefs (defs : list (NodeOf Tree)) (table : Defs) : Defs :=
  fold_left (fun table def => addDef def table) defs table.

(** [new RelaxNgValidator(spec)] *)
Definition constructor (spec : Tree) : Res RelaxNgValidator :=
  match spec with
  | TNode root =>
      match children root with
      | Some (TNode grammar :: _) =>
          match children grammar with
          | Some (TNode specStart :: defs) =>
              if decide (type specStart <> ty_start)
              then Throw "Grammar should begin with start"
              else
                match checkDefines defs with
                | Ok ds => Ok (mkValidator grammar specStart (addDefs ds ∅))
                | Throw e => Throw e
                | OutOfFuel => OutOfFuel
                end
          | Some (TUndefined :: _) | Some [] =>
              Throw "TypeError: Cannot read properties of undefined"
          | None => Throw "TypeError: undefined is not iterable"
          end
      | _ => Throw "TypeError: Cannot read properties of undefined"
      end
  | TUndefined => Throw "TypeError: Cannot read properties of undefined"
  end.

(** [validate(target)]: the verdict of the start pattern; the problems
    of the top level are dropped. *)
Definition validate (fuel : nat) (this : RelaxNgValidator) (target : XastNode)
    : V bool :=
  cs <- childrenOf (this_specStart this) ;;
  result <- validateDetails fuel (this_defs this) ([target], []) cs ;;
  ret (res_ok result).

End Validator.

(** ** JavaScript arrays, as the simplifier uses them *)

Section arrays.
Context {A : Type}.

(** [arr.splice(start, deleteCount, ...items)]: the array afterwards.
    A negative [start] counts from the end; both bounds are clamped. *)
Definition splice (start : Z) (deleteCount : nat) (items : list A)
    (arr : list A) : list A :=
  let len := Z.of_nat (length arr) in
  let actualStart :=
    Z.to_nat (if (start <? 0)%Z then Z.max (len + start) 0 else Z.min start len) in
  let actualDeleteCount := Nat.min deleteCount (length arr - actualStart) in
  take actualStart arr ++ items ++ drop (actualStart + actualDeleteCount) arr.

Context `{EqDecision A}.

(** [arr.indexOf(x)]: the first index holding [x], or [-1]. *)
Fixpoint indexOf_from (i : nat) (x : A) (arr : list A) : Z :=
  match arr with
  | [] => (-1)%Z
  | y :: arr' => if decide (x = y) then Z.of_nat i else indexOf_from (S i) x arr'
  end.
Definition indexOf := indexOf_from 0.

(** [arr.sort(cmp)].  Each element in turn is placed before the first
    element already placed that it compares below.  For a comparator
    that is a consistent order this is the stable sort ECMAScript
    requires; where the comparator is not (here: two absent [combine]
    values compare as [-1] both ways) ECMAScript leaves the order to the
    engine, and nothing below depends on that order. *)
Fixpoint sort_insert (cmp : A -> A -> Z) (p : A) (sorted : list A) : list A :=
  match sorted with
  | [] => [p]
  | y :: ys => if (cmp p y <? 0)%Z then p :: y :: ys else y :: sort_insert cmp p ys
  end.
Definition sort (cmp : A -> A -> Z) (arr : list A) : list A :=
  fold_left (fun sorted p => sort_insert cmp p sorted) arr [].
End arrays.

(** ** The simplifier *)

Module Simplifier.

(** *** The store of node objects *)

Abbreviation addr := nat (only parsing).
(** What a slot of a [children] array (or a variable) holds: a
    reference to a node object, or [undefined]. *)
Abbreviation Value := (option addr) (only parsing).
Abbreviation Node := (NodeOf Value) (only parsing).

(** The objects allocated so far and the next free address.  No two
    nodes of the source share one [children] array (every constructor
    copies its rest parameter into a fresh array), so the array is held
    in the node. *)
Record World := mkWorld { cells : gmap addr Node; next : addr }.
Definition emptyWorld : World := mkWorld ∅ 0.

Definition M (A : Type) : Type := World -> Res (A * World).

Definition ret {A} (a : A) : M A := fun w => Ok (a, w).
Definition throw {A} (msg : string) : M A := fun _ => Throw msg.
Definition outOfFuel {A} : M A := fun _ => OutOfFuel.
Definition bind {A B} (m : M A) (k : A -> M B) : M B :=
  fun w =>
    match m w with
    | Ok (a, w') => k a w'
    | Throw e => Throw e
    | OutOfFuel => OutOfFuel
    end.

Declare Scope simplifier_scope.
Delimit Scope simplifier_scope with M.
Notation "x <- m ;; k" := (bind m (fun x => k))
  (at level 20, m at level 99, k at level 200, only parsing) : simplifier_scope.
Notation "' pat <- m ;; k" := (bind m (fun x => match x with pat => k end))
  (at level 20, pat pattern, m at level 99, k at level 200, only parsing)
  : simplifier_scope.
Notation "m ;; k" := (bind m (fun _ => k))
  (at level 100, k at level 200, right associativity, only parsing)
  : simplifier_scope.
Local Open Scope simplifier_scope.

(** A [TypeError] raised by the engine.  The text after the colon
    follows V8; only the fact that it is a [TypeError] matters. *)
Definition TypeError {A} (what : string) : M A := throw ("TypeError: " +:+ what).

(** A fresh object literal. *)
Definition new (n : Node) : M addr :=
  fun w => Ok (next w, mkWorld (<[next w := n]> (cells w)) (S (next w))).

(** The object at [a].  Addresses come from [new], so the lookup does
    not fail in a run that starts from [emptyWorld]. *)
Definition load (a : addr) : M Node :=
  fun w =>
    match cells w !! a with
    | Some n => Ok (n, w)
    | None => Throw "no object at this address"
    end.

Definition store (a : addr) (n : Node) : M unit :=
  fun w => Ok (tt, mkWorld (<[a := n]> (cells w)) (next w)).

(** Reading a property of [v]: throws when [v] is [undefined]. *)
Definition deref (v : Value) : M Node :=
  match v with
  | Some a => load a
  | None => TypeError "Cannot read properties of undefined"
  end.

(** [n.children] used as an array. *)
Definition childrenOf (n : Node) : M (list Value) :=
  match children n with
  | Some cs => ret cs
  | None => TypeError "children is undefined"
  end.
Definition getChildren (a : addr) : M (list Value) :=
  n <- load a ;; childrenOf n.

Definition setChildren (a : addr) (cs : list Value) : M unit :=
  n <- load a ;;
  store a (mkNode (type n) (name n) (combine n) (value n) (dataType n) (Some cs)).
Definition setName (a : addr) (nm : option string) : M unit :=
  n <- load a ;;
  store a (mkNode (type n) nm (combine n) (value n) (dataType n) (children n)).
Definition setCombine (a : addr) (c : option CombineMethod) : M unit :=
  n <- load a ;;
  store a (mkNode (type n) (name n) c (value n) (dataType n) (children n)).
Definition setType (a : addr) (t : NodeType) : M unit :=
  n <- load a ;;
  store a (mkNode t (name n) (combine n) (value n) (dataType n) (children n)).

(** [a.children.splice(start, deleteCount, ...items)] *)
Definition spliceChildren (a : addr) (start : Z) (deleteCount : nat)
    (items : list Value) : M unit :=
  cs <- getChildren a ;;
  setChildren a (splice start deleteCount items cs).
(** [a.children.push(x)] *)
Definition pushChild (a : addr) (x : Value) : M unit :=
  cs <- getChildren a ;;
  setChildren a (cs ++ [x]).

(** [arr[i]] *)
Definition at_ (cs : list Value) (i : nat) : Value := mjoin (cs !! i).

Fixpoint forEach {A} (l : list A) (f : A -> M unit) : M unit :=
  match l with
  | [] => ret tt
  | a :: l' => f a ;; forEach l' f
  end.

(** [l.map(f)] for an [f] that reads or writes the store. *)
Fixpoint mapArr {A B} (f : A -> M B) (l : list A) : M (list B) :=
  match l with
  | [] => ret []
  | a :: l' => y <- f a ;; ys <- mapArr f l' ;; ret (y :: ys)
  end.

(** *** [relaxng-builder.ts], allocating *)

Module r.
Definition leaf (t : NodeType) : M addr :=
  new (mkNode t None None None None None).
Definition parent (t : NodeType) (cs : list Value) : M addr :=
  new (mkNode t None None None None (Some cs)).

Definition empty : M addr := leaf ty_empty.
Definition text : M addr := leaf ty_text.
Definition notAllowed : M addr := leaf ty_notAllowed.
Definition value (v : string) : M addr :=
  new (mkNode ty_value None None (Some v) None None).
Definition data (dt : string) : M addr :=
  new (mkNode ty_data None None None (Some dt) None).
Definition name (n : option string) : M addr :=
  new (mkNode ty_name n None None None None).
Definition ref (n : string) : M addr :=
  new (mkNode ty_ref (Some n) None None None None).
Definition parentRef (n : string) : M addr :=
  new (mkNode ty_parentRef (Some n) None None None None).

Definition elemNamed (elemName : string) (children : list Value) : M addr :=
  children <- match children with
              | [] => e <- empty ;; ret [Some e]
              | _ => ret children
              end ;;
  new (mkNode ty_elementNamed (Some elemName) None None None (Some children)).
Definition elem (elemNameClass : Value) (children : list Value) : M addr :=
  children <- match children with
              | [] => e <- empty ;; ret [Some e]
              | _ => ret children
              end ;;
  parent ty_element (elemNameClass :: children).
(** The default [text()] is taken when the argument is [undefined]. *)
Definition attrNamed (attrName : string) (child : Value) : M addr :=
  child <- match child with
           | None => t <- text ;; ret (Some t)
           | Some _ => ret child
           end ;;
  new (mkNode ty_attributeNamed (Some attrName) None None None (Some [child])).
Definition attr (nameClass : Value) (child : Value) : M addr :=
  child <- match child with
           | None => t <- text ;; ret (Some t)
           | Some _ => ret child
           end ;;
  parent ty_attribute [nameClass; child].
Definition start (child : Value) : M addr := parent ty_start [child].
Definition define (n : option string) (children : list Value) : M addr :=
  new (mkNode ty_define n None None None (Some children)).
Definition grammar (start : Value) (defs : list Value) : M addr :=
  parent ty_grammar (start :: defs).
Definition choice := parent ty_choice.
Definition group := parent ty_group.
Definition oneOrMore := parent ty_oneOrMore.
Definition zeroOrMore := parent ty_zeroOrMore.
Definition interleave := parent ty_interleave.
Definition mixed := parent ty_mixed.
Definition optional := parent ty_optional.
(** The literal [{ type: 'root', children: [child] }]. *)
Definition root (child : Value) : M addr := parent ty_root [child].
End r.

(** The tree a value unfolds to, for reading results. *)
Fixpoint reify (fuel : nat) (w : World) (v : Value) : option Tree :=
  match fuel with
  | O => None
  | S fuel =>
      match v with
      | None => Some TUndefined
      | Some a =>
          n ← cells w !! a;
          cs ← match children n with
                | None => Some None
                | Some cs => Some <$> mapM (reify fuel w) cs
                end;
          Some (TNode (mkNode (type n) (name n) (combine n) (value n) (dataType n) cs))
      end
  end.

(** *** Tree traversal

    [visitParents] and [visit] come from the packages
    unist-util-visit-parents and unist-util-visit.  What the passes
    rely on:
    - a node is handed to the visitor (when it passes the test) before
      its children are walked;
    - the walk then goes through the [children] of that same node
      object, also when the visitor has just replaced it in its parent,
      reading [node.children.length] and [node.children[offset]] anew
      on every round and moving on to [offset + 1];
    - [EXIT] stops the whole walk, [SKIP] skips the children;
    - [visit] passes [parent = ancestors[last]] and
      [index = parent.children.indexOf(node)] (so [-1] when the node is
      no longer among them), both [undefined] at the tree itself.
    A visitor's local variables (the closure it captures) are threaded
    as [St]. *)

Inductive Action := CONTINUE | SKIP | EXIT.

Section visiting.
Context {St : Type}.
Variable test : option (list NodeType).
Variable visitor : St -> Value -> list addr -> M (Action * St).

Definition passesTest (node : Value) : M bool :=
  match test, node with
  | None, _ => ret true
  | Some _, None => ret false
  | Some tys, Some a => n <- load a ;; ret (bool_decide (type n ∈ tys))
  end.

Fixpoint visitParentsFrom (fuel : nat) (st : St) (node : Value)
    (parents : list addr) {struct fuel} : M (Action * St) :=
  match fuel with
  | O => outOfFuel
  | S fuel =>
      hit <- passesTest node ;;
      ' (result, st) <- (if hit : bool then visitor st node parents
                         else ret (CONTINUE, st)) ;;
      match result with
      | EXIT => ret (EXIT, st)
      | _ =>
          match node with
          | None => TypeError "Cannot use 'in' operator to search for 'children' in undefined"
          | Some a =>
              n <- load a ;;
              match children n, result with
              | None, _ | Some _, SKIP => ret (result, st)
              | Some _, _ =>
                  (fix walk (rounds : nat) (st : St) (offset : nat)
                     : M (Action * St) :=
                     match rounds with
                     | O => outOfFuel
                     | S rounds =>
                         cs <- getChildren a ;;
                         match cs !! offset with
                         | None => ret (result, st)
                         | Some child =>
                             ' (sub, st) <- visitParentsFrom fuel st child
                                              (parents ++ [a]) ;;
                             match sub with
                             | EXIT => ret (EXIT, st)
                             | _ => walk rounds st (S offset)
                             end
                         end
                     end) fuel st 0
              end
          end
      end
  end.

Definition visitParents (fuel : nat) (st : St) (tree : addr) : M St :=
  ' (_, st) <- visitParentsFrom fuel st (Some tree) [] ;;
  ret st.
End visiting.

(** [visit(tree, test, visitor)] *)
Definition visit {St} (fuel : nat) (test : option (list NodeType))
    (visitor : St -> Value -> option Z -> option addr -> M (Action * St))
    (st : St) (tree : addr) : M St :=
  visitParents test
    (fun st node parents =>
       match last parents with
       | None => visitor st node None None
       | Some parent =>
           cs <- getChildren parent ;;
           visitor st node (Some (indexOf node cs)) (Some parent)
       end)
    fuel st tree.

(** A visitor without local variables that returns nothing. *)
Definition plain (f : Value -> option Z -> option addr -> M unit)
    : unit -> Value -> option Z -> option addr -> M (Action * unit) :=
  fun _ node index parent => f node index parent ;; ret (CONTINUE, tt).

(** [selectAll(type, tree)] of unist-util-select: the nodes of that
    type, in document order. *)
Fixpoint selectAllFrom (fuel : nat) (t : NodeType) (node : Value) : M (list addr) :=
  match fuel with
  | O => outOfFuel
  | S fuel =>
      match node with
      | None => TypeError "Cannot read properties of undefined"
      | Some a =>
          n <- load a ;;
          below <- match children n with
                   | None => ret []
                   | Some cs =>
                       (fix each (cs : list Value) : M (list addr) :=
                          match cs with
                          | [] => ret []
                          | c :: cs' =>
                              l1 <- selectAllFrom fuel t c ;;
                              l2 <- each cs' ;;
                              ret (l1 ++ l2)
                          end) cs
                   end ;;
          ret (if decide (type n = t) then a :: below else below)
      end
  end.
Definition selectAll (fuel : nat) (t : NodeType) (tree : addr) : M (list addr) :=
  selectAllFrom fuel t (Some tree).

(** [visitPostOrder] of the source: an explicit stack of
    [(node, pass, parentCtx)], the top of the stack first. *)
Fixpoint visitPostOrderLoop (fuel : nat)
    (visitor : Value -> option nat -> option addr -> M unit)
    (stack : list (Value * nat * option (addr * nat))) : M unit :=
  match fuel with
  | O => outOfFuel
  | S fuel =>
      match stack with
      | [] => ret tt
      | (node, pass, parentCtx) :: stack =>
          match node with
          | None => TypeError "Cannot use 'in' operator to search for 'children' in undefined"
          | Some a =>
              n <- load a ;;
              match children n with
              | Some cs =>
                  if decide (pass < length cs) then
                    visitPostOrderLoop fuel visitor
                      ((at_ cs pass, 0, Some (a, pass))
                         :: (node, S pass, parentCtx) :: stack)
                  else
                    visitor node (snd <$> parentCtx) (fst <$> parentCtx) ;;
                    visitPostOrderLoop fuel visitor stack
              | None =>
                  visitor node (snd <$> parentCtx) (fst <$> parentCtx) ;;
                  visitPostOrderLoop fuel visitor stack
              end
          end
      end
  end.
Definition visitPostOrder (fuel : nat)
    (visitor : Value -> option nat -> option addr -> M unit) (tree : addr) : M unit :=
  visitPostOrderLoop fuel visitor [(Some tree, 0, None)].

(** *** 4.8: [moveNameAttributeToChild] *)

Definition moveNameAttributeToChild (fuel : nat) (three : addr) : M unit :=
  visit fuel (Some [ty_elementNamed; ty_attributeNamed])
    (plain (fun node index parent =>
       match index, parent with
       | Some index, Some parent =>
           n <- deref node ;;
           if decide (type n = ty_elementNamed) then
             nm <- r.name (name n) ;;
             cs <- childrenOf n ;;
             e <- r.elem (Some nm) cs ;;
             spliceChildren parent index 1 [Some e]
           else if decide (type n = ty_attributeNamed) then
             nm <- r.name (name n) ;;
             cs <- childrenOf n ;;
             e <- r.attr (Some nm) (at_ cs 0) ;;
             spliceChildren parent index 1 [Some e]
           else ret tt
       | _, _ => ret tt
       end))
    tt three.

(** *** 4.12: [controlChildren] *)

Definition builders (t : NodeType) : list Value -> M addr :=
  match t with
  | ty_group => r.group
  | ty_interleave => r.interleave
  | _ => r.choice
  end.

(** [children.reduce((p1, p2) => builder(p1, p2))] *)
Fixpoint reduceWith (builder : list Value -> M addr) (p1 : Value)
    (rest : list Value) : M Value :=
  match rest with
  | [] => ret p1
  | p2 :: rest' =>
      p <- builder [p1; p2] ;;
      reduceWith builder (Some p) rest'
  end.

Definition controlChildren (fuel : nat) (tree : addr) : M unit :=
  visit fuel None
    (plain (fun node index parent =>
       n <- deref node ;;
       match node, type n with
       | Some a, (ty_define | ty_oneOrMore | ty_zeroOrMore | ty_optional | ty_mixed) =>
           cs <- childrenOf n ;;
           if decide (1 < length cs) then
             g <- r.group cs ;;
             setChildren a [Some g]
           else ret tt
       | Some a, ty_element =>
           cs <- childrenOf n ;;
           if decide (2 < length cs) then
             match cs with
             | nameClass :: rest =>
                 g <- r.group rest ;;
                 setChildren a [nameClass; Some g]
             | [] => ret tt
             end
           else ret tt
       | Some a, ty_attribute =>
           cs <- childrenOf n ;;
           if decide (length cs = 1) then
             t <- r.text ;;
             setChildren a (cs ++ [Some t])
           else ret tt
       | Some a, (ty_choice | ty_group | ty_interleave) =>
           match index, parent with
           | Some index, Some parent =>
               cs <- childrenOf n ;;
               match cs with
               | [c] => spliceChildren parent index 1 [c]
               | p1 :: (_ :: _ :: _) as rest =>
                   folded <- reduceWith (builders (type n)) p1 rest ;;
                   spliceChildren parent index 1 [folded]
               | _ => ret tt
               end
           | _, _ => ret tt
           end
       | _, _ => ret tt
       end))
    tt tree.

(** *** 4.13 to 4.15: [replaceMixedOptionalAndZeroOrMore] *)

Definition replaceMixedOptionalAndZeroOrMore (fuel : nat) (tree : addr) : M unit :=
  visit fuel (Some [ty_mixed; ty_optional; ty_zeroOrMore])
    (plain (fun node index parent =>
       match index, parent with
       | Some index, Some parent =>
           n <- deref node ;;
           match type n with
           | ty_mixed =>
               cs <- childrenOf n ;;
               t <- r.text ;;
               newNode <- r.interleave [at_ cs 0; Some t] ;;
               spliceChildren parent index 1 [Some newNode]
           | ty_optional =>
               cs <- childrenOf n ;;
               e <- r.empty ;;
               newNode <- r.choice [at_ cs 0; Some e] ;;
               spliceChildren parent index 1 [Some newNode]
           | ty_zeroOrMore =>
               cs <- childrenOf n ;;
               o <- r.oneOrMore [at_ cs 0] ;;
               e <- r.empty ;;
               newNode <- r.choice [Some o; Some e] ;;
               spliceChildren parent index 1 [Some newNode]
           | _ => ret tt
           end
       | _, _ => ret tt
       end))
    tt tree.

(** *** 4.17: [eliminateCombineAttribute] *)

Definition compare (a b : option CombineMethod) : Z :=
  match a, b with
  | None, _ => -1
  | _, None => 1
  | Some a, Some b =>
      match String.compare (combine_name a) (combine_name b) with
      | Lt => -1
      | Gt => 1
      | Eq => 0
      end
  end%Z.

(** The body of the [reduce] callback of [combine]. *)
Definition combineStep (builder : list Value -> M addr) (errorName : string)
    (p1 p2 : addr) : M addr :=
  n1 <- load p1 ;;
  n2 <- load p2 ;;
  if decide (combine n1 = None /\ combine n2 = None) then
    throw ("Cannot have multiple " +:+ errorName +:+ " without specifying combine")
  else
    (if decide (combine n1 = None) then setCombine p1 (combine n2) else ret tt) ;;
    n1 <- load p1 ;;
    (if decide (combine n2 = None) then setCombine p2 (combine n1) else ret tt) ;;
    n2 <- load p2 ;;
    if decide (combine n1 <> combine n2) then
      (* a quoted string, not a template literal: the text is raised as written *)
      throw "Cannot have multiple ${errorName} with different combine values"
    else
      cs1 <- childrenOf n1 ;;
      cs2 <- childrenOf n2 ;;
      inner <- (if decide (combine n1 = Some cm_choice)
                then r.choice [at_ cs1 0; at_ cs2 0]
                else r.interleave [at_ cs1 0; at_ cs2 0]) ;;
      result <- builder [Some inner] ;;
      setCombine result (combine n1) ;;
      ret result.

Fixpoint reduceCombine (builder : list Value -> M addr) (errorName : string)
    (p1 : addr) (rest : list addr) : M addr :=
  match rest with
  | [] => ret p1
  | p2 :: rest' =>
      p <- combineStep builder errorName p1 p2 ;;
      reduceCombine builder errorName p rest'
  end.

(** [combine(items, builder, errorName)].  The comparator of the sort
    reads the [combine] field of each item. *)
Definition combine (items : list addr) (builder : list Value -> M addr)
    (errorName : string) : M addr :=
  keyed <- mapArr (fun a => n <- load a ;; ret (a, Ast.combine n)) items ;;
  match map fst (sort (fun i j => compare i.2 j.2) keyed) with
  | [] => throw "Cannot have a grammar without a start"
  | p1 :: rest => reduceCombine builder errorName p1 rest
  end.

(** [definesByName]: a [Map] from a define's name to the defines that
    carry it, in insertion order. *)
Fixpoint pushDefine (k : option string) (child : addr)
    (m : list (option string * list addr)) : list (option string * list addr) :=
  match m with
  | [] => [(k, [child])]
  | (k', defs) :: m' =>
      if decide (k = k') then (k', defs ++ [child]) :: m'
      else (k', defs) :: pushDefine k child m'
  end.

Fixpoint collectStartsAndDefines (cs : list Value) (starts : list addr)
    (definesByName : list (option string * list addr))
    : M (list addr * list (option string * list addr)) :=
  match cs with
  | [] => ret (starts, definesByName)
  | child :: cs' =>
      n <- deref child ;;
      match child, type n with
      | Some c, ty_start => collectStartsAndDefines cs' (starts ++ [c]) definesByName
      | Some c, ty_define =>
          collectStartsAndDefines cs' starts (pushDefine (name n) c definesByName)
      | _, _ => collectStartsAndDefines cs' starts definesByName
      end
  end.

(** The visitor of [eliminateCombineAttribute], at the grammar [node]. *)
Definition eliminateCombineIn (node : addr) : M unit :=
  cs <- getChildren node ;;
  ' (starts, definesByName) <- collectStartsAndDefines cs [] [] ;;
  if decide (length starts = 0) then
    throw "A grammar must have a start element"
  else
    collectedStarts <-
      combine starts (fun args => r.start (at_ args 0)) "start elements" ;;
    collectedDefines <-
      mapArr (fun kd : option string * list addr =>
                combine kd.2 (fun defs => r.define kd.1 defs)
                  ("defines for name " +:+ str_of kd.1))
             definesByName ;;
    setChildren node (Some collectedStarts :: map Some collectedDefines).

Definition eliminateCombineAttribute (fuel : nat) (tree : addr) : M unit :=
  visit fuel (Some [ty_grammar])
    (plain (fun node _ _ =>
       match node with
       | Some a => eliminateCombineIn a
       | None => ret tt
       end))
    tt tree.

(** *** 4.18: [ensureOnlyOneGrammarElement] *)

Definition ensureTopLevelGrammar (tree : addr) : M addr :=
  cs <- getChildren tree ;;
  if decide (length cs <> 1) then
    throw "Must have exactly one top level element"
  else
    n <- deref (at_ cs 0) ;;
    match at_ cs 0 with
    | Some g =>
        if decide (type n <> ty_grammar) then
          st <- r.start (Some g) ;;
          g' <- r.grammar (Some st) [] ;;
          setChildren tree (<[0 := Some g']> cs) ;;
          ret g'
        else ret g
    | None => TypeError "Cannot read properties of undefined"
    end.

(** The [do ... while] of [determineNewName], from counter [n]. *)
Fixpoint determineNewNameFrom (fuel n : nat) (name : option string)
    (names : gset (option string)) : M string :=
  match fuel with
  | O => outOfFuel
  | S fuel =>
      let n := S n in
      let newName := str_of name +:+ "__" +:+ show_nat n in
      if decide (Some newName ∈ names)
      then determineNewNameFrom fuel n name names
      else ret newName
  end.
Definition determineNewName (fuel : nat) := determineNewNameFrom fuel 0.

Abbreviation Substitutions := (gmap (option string) (list (addr * string))) (only parsing).

(** The inner loop of the renaming: the children of one grammar. *)
Fixpoint renameDefines (fuel : nat) (parent : addr) (cs : list Value)
    (names : gset (option string)) (substitutions : Substitutions)
    : M (gset (option string) * Substitutions) :=
  match cs with
  | [] => ret (names, substitutions)
  | node :: cs' =>
      n <- deref node ;;
      match node, type n with
      | Some a, ty_define =>
          if decide (name n ∈ names) then
            newName <- determineNewName fuel (name n) names ;;
            setName a (Some newName) ;;
            renameDefines fuel parent cs' names
              (<[name n := default [] (substitutions !! name n) ++ [(parent, newName)]]>
                 substitutions)
          else
            renameDefines fuel parent cs' ({[name n]} ∪ names) substitutions
      | _, _ => renameDefines fuel parent cs' names substitutions
      end
  end.

Fixpoint renameAll (fuel : nat) (allGrammars : list addr)
    (names : gset (option string)) (substitutions : Substitutions)
    : M Substitutions :=
  match allGrammars with
  | [] => ret substitutions
  | parent :: rest =>
      cs <- getChildren parent ;;
      ' (names, substitutions) <- renameDefines fuel parent cs names substitutions ;;
      renameAll fuel rest names substitutions
  end.

(** [findClosestGrammar(ancestors, refType)]; [ancestors] is given
    innermost first. *)
Fixpoint findClosestGrammarIn (innermostFirst : list addr) (skip : bool) : M addr :=
  match innermostFirst with
  | [] => throw "Each ref or parentRef must be within a grammar"
  | el :: rest =>
      n <- load el ;;
      if decide (type n = ty_grammar) then
        if skip then findClosestGrammarIn rest false else ret el
      else findClosestGrammarIn rest skip
  end.
Definition findClosestGrammar (ancestors : list addr) (refType : NodeType) : M addr :=
  findClosestGrammarIn (rev ancestors) (bool_decide (refType = ty_parentRef)).

Definition ensureOnlyOneGrammarElement (fuel : nat) (tree : addr) : M unit :=
  topGrammar <- ensureTopLevelGrammar tree ;;
  allGrammars <- selectAll fuel ty_grammar tree ;;
  substitutions <- renameAll fuel allGrammars ∅ ∅ ;;
  (* We visit all 'ref' and 'parentRef' nodes and fix them *)
  visitParents None
    (fun (_ : unit) node ancestors =>
       n <- deref node ;;
       match node with
       | Some a =>
           if decide (type n <> ty_ref /\ type n <> ty_parentRef) then ret (CONTINUE, tt)
           else
             match substitutions !! name n with
             | None => ret (CONTINUE, tt)
             | Some relevantSubs =>
                 grammar <- findClosestGrammar ancestors (type n) ;;
                 match find (fun s : addr * string => bool_decide (s.1 = grammar))
                            relevantSubs with
                 | Some (_, newName) =>
                     setName a (Some newName) ;;
                     (if decide (type n = ty_parentRef) then setType a ty_ref else ret tt) ;;
                     ret (CONTINUE, tt)
                 | None =>
                     throw ("Should have found a substitution for " +:+ str_of (name n))
                 end
             end
       | None => ret (CONTINUE, tt)
       end)
    fuel tt tree ;;
  (* Now we need to revisit all grammars and supplant them *)
  visit fuel (Some [ty_grammar])
    (plain (fun node index parent =>
       match node, index, parent with
       | Some a, Some index, Some parent =>
           if decide (a = topGrammar) then ret tt
           else
             cs <- getChildren a ;;
             forEach cs (fun child =>
               c <- deref child ;;
               if decide (type c = ty_define) then pushChild topGrammar child
               else ret tt) ;;
             cs <- getChildren a ;;
             st <- deref (at_ cs 0) ;;
             stc <- childrenOf st ;;
             spliceChildren parent index 1 [at_ stc 0]
       | _, _, _ => ret tt
       end))
    tt tree.

(** *** 4.19: [canonicalDefineAndElement] *)

Abbreviation DefineTable := (gmap (option string) addr) (only parsing).

(** [for (const define of _defines) definesByName.set(define.name, define)]
    where [_defines] is a single slot of the children array: a node
    object or [undefined].  Neither is iterable, so the loop throws
    before its body runs; the message names the variable in both cases. *)
Definition forOfSlot (_defines : Value) (definesByName : DefineTable)
    : M DefineTable :=
  TypeError "_defines is not iterable".

(** [getMapOfDefines(grammar)].  The pattern [[, _defines]] skips the
    first element of [grammar.children] and binds the second one (it is
    not a rest pattern). *)
Definition getMapOfDefines (grammar : addr) : M DefineTable :=
  cs <- getChildren grammar ;;
  let _defines := at_ cs 1 in
  forOfSlot _defines ∅.

(** The visitor of [removeUnreachableDefines]; [reachedNames] is its
    local variable. *)
Definition reachVisitor (topGrammar : addr) (definesByName : DefineTable)
    (reachedNames : gset (option string)) (node : Value) (index : option Z)
    (parent : option addr) : M (Action * gset (option string)) :=
  n <- deref node ;;
  if decide (type n = ty_ref /\ name n ∉ reachedNames) then
    let reachedNames := {[name n]} ∪ reachedNames in
    let defineToMove : Value := definesByName !! name n in
    cs <- getChildren topGrammar ;;
    let oldIndex := indexOf defineToMove cs in
    let newIndex := Z.of_nat (size reachedNames) in
    spliceChildren topGrammar oldIndex 1 [] ;;
    spliceChildren topGrammar newIndex 1 [defineToMove] ;;
    ret (CONTINUE, reachedNames)
  else if decide (type n = ty_define /\ name n ∉ reachedNames) then
    (* [topGrammar.children.slice(0, index)] builds a copy that is dropped *)
    _ <- getChildren topGrammar ;;
    ret (EXIT, reachedNames)
  else ret (CONTINUE, reachedNames).

(** The walk of [removeUnreachableDefines], once the table is there. *)
Definition reachabilityVisit (fuel : nat) (tree topGrammar : addr)
    (definesByName : DefineTable) : M unit :=
  visit fuel None (reachVisitor topGrammar definesByName) ∅ tree ;;
  ret tt.

(** From here on the passes are written for a given way [getMap] of
    building the define table.  The source calls [getMapOfDefines]:
    see [removeUnreachableDefines] to [simplifyRngAst] below. *)
Definition removeUnreachableDefinesWith (getMap : addr -> M DefineTable)
    (fuel : nat) (tree : addr) : M unit :=
  topGrammar <- ensureTopLevelGrammar tree ;;
  definesByName <- getMap topGrammar ;;
  reachabilityVisit fuel tree topGrammar definesByName.

(** [createdCount] is the visitor's local variable. *)
Definition createDefinesForEachElement (fuel : nat) (tree : addr) : M unit :=
  topGrammar <- ensureTopLevelGrammar tree ;;
  visit fuel (Some [ty_element])
    (fun (createdCount : nat) node index parent =>
       match index, parent with
       | Some index, Some parent =>
           n <- deref node ;;
           p <- load parent ;;
           if decide (type n = ty_element /\ type p <> ty_define) then
             let createdCount := createdCount + 1 in
             let newName := "elem__" +:+ show_nat createdCount in
             d <- r.define (Some newName) [node] ;;
             pushChild topGrammar (Some d) ;;
             rf <- r.ref newName ;;
             spliceChildren parent index 1 [Some rf] ;;
             ret (SKIP, createdCount)
           else ret (CONTINUE, createdCount)
       | _, _ => ret (CONTINUE, createdCount)
       end)
    0 tree ;;
  ret tt.

(** Step 3 of [canonicalDefineAndElement]: the [visit(tree, 'ref', ...)]. *)
Definition substituteRefs (fuel : nat) (tree : addr) (definesByName : DefineTable)
    : M unit :=
  visit fuel (Some [ty_ref])
    (plain (fun node index parent =>
       match index, parent with
       | Some index, Some parent =>
           n <- deref node ;;
           if decide (type n = ty_ref) then
             d <- deref (definesByName !! name n) ;;
             dcs <- childrenOf d ;;
             let defineChild := at_ dcs 0 in
             dc <- deref defineChild ;;
             if decide (type dc <> ty_element)
             then spliceChildren parent index 1 [defineChild]
             else ret tt
           else ret tt
       | _, _ => ret tt
       end))
    tt tree.

(** [arr.filter(pred)] for a predicate that reads the store. *)
Fixpoint filterArr {A} (pred : A -> M bool) (l : list A) : M (list A) :=
  match l with
  | [] => ret []
  | a :: l' =>
      keep <- pred a ;;
      rest <- filterArr pred l' ;;
      ret (if keep : bool then a :: rest else rest)
  end.

(** Step 4: drop the defines whose child is not an element. *)
Definition pruneDefines (topGrammar : addr) : M unit :=
  cs <- getChildren topGrammar ;;
  kept <- filterArr (fun ch =>
            n <- deref ch ;;
            if decide (type n <> ty_define) then ret true
            else
              ncs <- childrenOf n ;;
              c <- deref (at_ ncs 0) ;;
              ret (bool_decide (type c = ty_element))) cs ;;
  setChildren topGrammar kept.

Definition canonicalDefineAndElementWith (getMap : addr -> M DefineTable)
    (fuel : nat) (tree : addr) : M unit :=
  (* 1. Remove defines that are unreachable *)
  removeUnreachableDefinesWith getMap fuel tree ;;
  (* 2. Set all Elements as new defines. *)
  createDefinesForEachElement fuel tree ;;
  (* 3. Substitute refs. We will assume no loops are possible *)
  topGrammar <- ensureTopLevelGrammar tree ;;
  definesByName <- getMap topGrammar ;;
  substituteRefs fuel tree definesByName ;;
  (* 4. Remove defines that are not Element *)
  pruneDefines topGrammar.

(** *** 4.20: [limitLocationsOfNotAllowed] *)

(** [el.children.some((ch) => ch.type == t)] *)
Fixpoint someOfType (t : NodeType) (cs : list Value) : M bool :=
  match cs with
  | [] => ret false
  | ch :: cs' =>
      n <- deref ch ;;
      if decide (type n = t) then ret true else someOfType t cs'
  end.

Definition isOfType (t : NodeType) (v : Value) : M bool :=
  n <- deref v ;; ret (bool_decide (type n = t)).

(** The post-order walk of [limitLocationsOfNotAllowed]. *)
Definition limitNotAllowedWalk (fuel : nat) (tree : addr) : M unit :=
  visitPostOrder fuel
    (fun node index parent =>
       match index, parent with
       | Some index, Some parent =>
           let replace :=
             (na <- r.notAllowed ;;
              spliceChildren parent (Z.of_nat index) 1 [Some na]) in
           el <- deref node ;;
           match type el with
           | ty_attribute =>
               cs <- childrenOf el ;;
               hit <- isOfType ty_notAllowed (at_ cs 1) ;;
               if hit : bool then replace else ret tt
           | ty_group | ty_interleave | ty_oneOrMore =>
               cs <- childrenOf el ;;
               hit <- someOfType ty_notAllowed cs ;;
               if hit : bool then replace else ret tt
           | ty_choice =>
               cs <- childrenOf el ;;
               first <- isOfType ty_notAllowed (at_ cs 0) ;;
               if first : bool
               then spliceChildren parent (Z.of_nat index) 1 [at_ cs 1]
               else
                 second <- isOfType ty_notAllowed (at_ cs 1) ;;
                 if second : bool
                 then spliceChildren parent (Z.of_nat index) 1 [at_ cs 0]
                 else ret tt
           | _ => ret tt
           end
       | _, _ => ret tt
       end)
    tree.

Definition limitLocationsOfNotAllowedWith (getMap : addr -> M DefineTable)
    (fuel : nat) (tree : addr) : M unit :=
  limitNotAllowedWalk fuel tree ;;
  (* Now more defines may have become unreachable *)
  removeUnreachableDefinesWith getMap fuel tree.

(** *** 4.21: [avoidEmptyInGroupSpots] *)

Definition avoidEmptyInGroupSpots (fuel : nat) (tree : addr) : M unit :=
  visitPostOrder fuel
    (fun node index parent =>
       match node, index, parent with
       | Some a, Some index, Some parent =>
           el <- load a ;;
           match type el with
           | ty_group | ty_interleave =>
               cs <- childrenOf el ;;
               first <- isOfType ty_empty (at_ cs 0) ;;
               if first : bool
               then spliceChildren parent (Z.of_nat index) 1 [at_ cs 1]
               else
                 second <- isOfType ty_empty (at_ cs 1) ;;
                 if second : bool
                 then spliceChildren parent (Z.of_nat index) 1 [at_ cs 0]
                 else ret tt
           | ty_choice =>
               cs <- childrenOf el ;;
               second <- isOfType ty_empty (at_ cs 1) ;;
               if second : bool then
                 let temp := at_ cs 1 in
                 setChildren a (<[0 := temp]> (<[1 := at_ cs 0]> cs))
               else ret tt
           | ty_oneOrMore =>
               cs <- childrenOf el ;;
               first <- isOfType ty_empty (at_ cs 0) ;;
               if first : bool then
                 e <- r.empty ;;
                 spliceChildren parent (Z.of_nat index) 1 [Some e]
               else ret tt
           | _ => ret tt
           end
       | None, Some _, Some _ => _ <- deref node ;; ret tt
       | _, _, _ => ret tt
       end)
    tree.

(** *** The simple-form checker ([simple-rngast.ts]) *)

(** [a && b] *)
Definition andAlso (a b : M bool) : M bool :=
  x <- a ;; if x : bool then b else ret false.
(** [a || b] *)
Definition orElse (a b : M bool) : M bool :=
  x <- a ;; if x : bool then ret true else b.

(** [node.children.length == k] *)
Definition hasLength (k : nat) (n : Node) : M bool :=
  cs <- childrenOf n ;; ret (bool_decide (length cs = k)).
(** [node.children[i]] *)
Definition child (n : Node) (i : nat) : M Value :=
  cs <- childrenOf n ;; ret (at_ cs i).

Definition isNotAllowed (node : Value) : M bool := isOfType ty_notAllowed node.
Definition isEmpty (node : Value) : M bool := isOfType ty_empty node.
Definition isNameClass (node : Value) : M bool := ret true.

(** [isNonEmptyPattern] with [isPattern], [isAttribute], [isOneOrMore],
    [isChoice], [isGroup] and [isInterleave] unfolded into its cases. *)
Fixpoint isNonEmptyPattern (fuel : nat) (node : Value) : M bool :=
  match fuel with
  | O => outOfFuel
  | S fuel =>
      let isPattern (node : Value) : M bool :=
        orElse (isEmpty node) (isNonEmptyPattern fuel node) in
      n <- deref node ;;
      match type n with
      | ty_text | ty_data | ty_value | ty_ref => ret true
      | ty_attribute =>
          andAlso (hasLength 2 n)
            (andAlso (c <- child n 0 ;; isNameClass c)
                     (c <- child n 1 ;; isPattern c))
      | ty_oneOrMore =>
          andAlso (hasLength 1 n) (c <- child n 0 ;; isNonEmptyPattern fuel c)
      | ty_choice =>
          andAlso (hasLength 2 n)
            (andAlso (c <- child n 0 ;; isPattern c)
                     (c <- child n 1 ;; isNonEmptyPattern fuel c))
      | ty_group | ty_interleave =>
          andAlso (hasLength 2 n)
            (andAlso (c <- child n 0 ;; isNonEmptyPattern fuel c)
                     (c <- child n 1 ;; isNonEmptyPattern fuel c))
      | _ => ret false
      end
  end.

Definition isPattern (fuel : nat) (node : Value) : M bool :=
  orElse (isEmpty node) (isNonEmptyPattern fuel node).
Definition isTop (fuel : nat) (node : Value) : M bool :=
  orElse (isNotAllowed node) (isPattern fuel node).

Definition isElement (fuel : nat) (node : Value) : M bool :=
  n <- deref node ;;
  andAlso (ret (bool_decide (type n = ty_element)))
    (andAlso (hasLength 2 n)
       (andAlso (c <- child n 0 ;; isNameClass c)
                (c <- child n 1 ;; isTop fuel c))).

Definition isDefine (fuel : nat) (node : Value) : M bool :=
  n <- deref node ;;
  andAlso (ret (bool_decide (type n = ty_define)))
    (andAlso (hasLength 1 n) (c <- child n 0 ;; isElement fuel c)).

Definition isStart (fuel : nat) (node : Value) : M bool :=
  n <- deref node ;;
  andAlso (ret (bool_decide (type n = ty_start)))
    (andAlso (hasLength 1 n) (c <- child n 0 ;; isTop fuel c)).

(** [arr.every(pred)] *)
Fixpoint every (pred : Value -> M bool) (l : list Value) : M bool :=
  match l with
  | [] => ret true
  | a :: l' => andAlso (pred a) (every pred l')
  end.

Definition isGrammar (fuel : nat) (node : Value) : M bool :=
  n <- deref node ;;
  if decide (type n <> ty_grammar) then ret false
  else
    cs <- childrenOf n ;;
    match cs with
    | [] => ret false
    | start :: rest => andAlso (isStart fuel start) (every (isDefine fuel) rest)
    end.

Definition isRoot (fuel : nat) (tree : addr) : M bool :=
  n <- load tree ;;
  andAlso (hasLength 1 n) (c <- child n 0 ;; isGrammar fuel c).

(** *** [simplifyRngAst] *)

Definition simplifyRngAstWith (getMap : addr -> M DefineTable)
    (fuel : nat) (tree : addr) : M addr :=
  (* 4.8 *)
  moveNameAttributeToChild fuel tree ;;
  (* 4.12 *)
  controlChildren fuel tree ;;
  (* 4.13, 4.14, 4.15 *)
  replaceMixedOptionalAndZeroOrMore fuel tree ;;
  (* 4.17 eliminate combine attribute *)
  eliminateCombineAttribute fuel tree ;;
  (* 4.18 onlyOneGrammar *)
  ensureOnlyOneGrammarElement fuel tree ;;
  (* 4.19 define and element *)
  canonicalDefineAndElementWith getMap fuel tree ;;
  (* 4.20 notAllowed only as child of start or element *)
  limitLocationsOfNotAllowedWith getMap fuel tree ;;
  (* 4.21 *)
  avoidEmptyInGroupSpots fuel tree ;;
  (* Validate *)
  ok <- isRoot fuel tree ;;
  if ok : bool then ret tree else throw "Not valid as simplified RelaxNG".

(** The source's functions. *)
Definition removeUnreachableDefines := removeUnreachableDefinesWith getMapOfDefines.
Definition canonicalDefineAndElement := canonicalDefineAndElementWith getMapOfDefines.
Definition limitLocationsOfNotAllowed := limitLocationsOfNotAllowedWith getMapOfDefines.
Definition simplifyRngAst := simplifyRngAstWith getMapOfDefines.

(** *** Running a program and reading the tree it leaves *)

Definition run {A} (m : M A) : Res (A * World) := m emptyWorld.

(** The tree below the returned node, unfolded to depth 64. *)
Definition resultTree (m : M addr) : Res Tree :=
  match run m with
  | Ok (a, w) =>
      match reify 64 w (Some a) with
      | Some t => Ok t
      | None => OutOfFuel
      end
  | Throw e => Throw e
  | OutOfFuel => OutOfFuel
  end.

End Simplifier.

(** ** The converter ([xast-to-rngast.ts])

    From the XML document of a grammar to the tree the validator and the
    simplifier take.  The XML parser ([fromXml]) is not part of the
    model: [parsePreTextSpec] is given the tree it returns. *)

Module XastToRngast.

Definition bind {A B} (m : Res A) (k : A -> Res B) : Res B :=
  match m with
  | Ok a => k a
  | Throw e => Throw e
  | OutOfFuel => OutOfFuel
  end.

Declare Scope converter_scope.
Delimit Scope converter_scope with R.
Notation "x <- m ;; k" := (bind m (fun x => k))
  (at level 20, m at level 99, k at level 200, only parsing) : converter_scope.
Local Open Scope converter_scope.

Section arrays.
Context {A B : Type}.
Variable f : A -> Res B.
(** [l.map(f)] for an [f] that may throw. *)
Fixpoint mapRes (l : list A) : Res (list B) :=
  match l with
  | [] => Ok []
  | a :: l' => y <- f a ;; ys <- mapRes l' ;; Ok (y :: ys)
  end.
End arrays.

(** The document: a [root] node over the content nodes. *)
Record XastRoot := mkXastRoot { rootChildren : list XastNode }.

(** *** Helpers *)

(** [el.attributes[key]] *)
Definition attribute (attributes : Attributes) (key : string) : AttrValue :=
  default AUndefined (Validator.attr_lookup key attributes).

Definition ensureAttr (attributes : Attributes) (key message : string) : Res string :=
  match attribute attributes key with
  | AString s => Ok s
  | _ => Throw message
  end.

Definition ensureAtMostOneChild (children : list XastNode) (message : string)
    : Res (option XastNode) :=
  match children with
  | [] => Ok None
  | [child] => Ok (Some child)
  | _ => Throw message
  end.

(** *** The clean-up passes

    Strings hold the UTF-8 form of the JavaScript string. *)

Definition asciiWhiteSpace (c : ascii) : bool :=
  match c with
  | "009"%char | "010"%char | "011"%char | "012"%char | "013"%char | " "%char => true
  | _ => false
  end.

(** [s.trim() == '']: the string consists of white space and line
    terminators only (the ASCII ones, U+00A0, U+1680, U+2000 to U+200A,
    U+2028, U+2029, U+202F, U+205F, U+3000 and U+FEFF). *)
Fixpoint trimsToEmpty (s : string) : bool :=
  match s with
  | EmptyString => true
  | String c s1 =>
      if asciiWhiteSpace c then trimsToEmpty s1
      else
        match c, s1 with
        | "194"%char, String "160"%char s2 => trimsToEmpty s2
        | "225"%char, String "154"%char (String "128"%char s3) => trimsToEmpty s3
        | "226"%char, String "128"%char (String c3 s3) =>
            (bool_decide (128 <= nat_of_ascii c3 <= 138)
             || bool_decide (c3 = "168"%char) || bool_decide (c3 = "169"%char)
             || bool_decide (c3 = "175"%char))
            && trimsToEmpty s3
        | "226"%char, String "129"%char (String "159"%char s3) => trimsToEmpty s3
        | "227"%char, String "128"%char (String "128"%char s3) => trimsToEmpty s3
        | "239"%char, String "187"%char (String "191"%char s3) => trimsToEmpty s3
        | _, _ => false
        end
  end.

Section filtering.
(** [test] is read off [n.type]; [isValid] is the predicate of the
    [filter]. *)
Variable test : string -> bool.
Variable isValid : XastNode -> bool.

(** What [visit(tree, test, filterChildren)] leaves of [node].  The
    visitor runs on a node that passes the test before the walk reads
    its children: [node.children = node.children.filter(isValid)], and
    the walk goes through the children that are left.  Only elements
    (and the root) have children. *)
Fixpoint filterBelow (node : XastNode) : XastNode :=
  match node with
  | XElement loc name attributes children =>
      XElement loc name attributes
        (omap (fun ch =>
                 if negb (test "element") || isValid ch
                 then Some (filterBelow ch) else None)
              children)
  | _ => node
  end.

Definition filterTree (tree : XastRoot) : XastRoot :=
  mkXastRoot
    (omap (fun ch =>
             if negb (test "root") || isValid ch
             then Some (filterBelow ch) else None)
          (rootChildren tree)).
End filtering.

Definition removeWhiteSpaceNodes (tree : XastRoot) : XastRoot :=
  let isValid (ch : XastNode) : bool :=
    match ch with
    | XText _ value => negb (trimsToEmpty value)
    | _ => true
    end in
  filterTree (fun type => negb (String.eqb type "text")) isValid tree.

Definition removeDocumentationNodes (tree : XastRoot) : XastRoot :=
  let isValid (ch : XastNode) : bool :=
    match ch with
    | XElement _ name _ _ => negb (String.eqb name "a:documentation")
    | _ => false
    end in
  filterTree (fun type => String.eqb type "element") isValid tree.

(** Positions are not part of the model of the document. *)
Definition dropPositions (tree : XastRoot) : XastRoot := tree.

(** *** [relaxng-builder.ts]: [data], with the check it starts with *)

Definition isDataType (s : string) : bool :=
  bool_decide (s ∈ ["integer"; "double"; "string"]).

Definition data (dataType : string) : Res Tree :=
  if isDataType dataType then Ok (b.data dataType)
  else Throw ("Unknown data type: " +:+ dataType).

(** *** The conversion *)

Definition convertToRef (attributes : Attributes) : Res Tree :=
  name <- ensureAttr attributes "name" "Ref elements must have name." ;;
  Ok (b.ref name).

Definition convertToValue (children : list XastNode) : Res Tree :=
  match children with
  | [] => Ok (b.value "")
  | XText _ value :: _ => Ok (b.value value)
  | _ => Throw "Value elements should have single text node"
  end.

(** [convertPatternNode] and [convertAttributeContent].  In the case
    [attribute] the call of [ensureAtMostOneChild] is unfolded into the
    match on [children]; [convertAttributeContent] is the function on a
    node that is there (without a node it returns [undefined], and
    [attrNamed] takes its default). *)
Fixpoint convertPatternNode (node : XastNode) : Res Tree :=
  match node with
  | XElement _ name attributes children =>
      if decide (name = "empty") then Ok b.empty
      else if decide (name = "text") then Ok b.text
      else if decide (name = "value") then convertToValue children
      else if decide (name = "ref") then convertToRef attributes
      else if decide (name = "choice") then
        cs <- mapRes convertPatternNode children ;; Ok (b.choice cs)
      else if decide (name = "group") then
        cs <- mapRes convertPatternNode children ;; Ok (b.group cs)
      else if decide (name = "oneOrMore") then
        cs <- mapRes convertPatternNode children ;; Ok (b.oneOrMore cs)
      else if decide (name = "zeroOrMore") then
        cs <- mapRes convertPatternNode children ;; Ok (b.zeroOrMore cs)
      else if decide (name = "interleave") then
        cs <- mapRes convertPatternNode children ;; Ok (b.interleave cs)
      else if decide (name = "mixed") then
        cs <- mapRes convertPatternNode children ;; Ok (b.mixed cs)
      else if decide (name = "element") then
        elemName <- ensureAttr attributes "name" "Element elements must have name" ;;
        cs <- mapRes convertPatternNode children ;;
        Ok (b.elemNamed elemName cs)
      else if decide (name = "optional") then
        cs <- mapRes convertPatternNode children ;; Ok (b.optional cs)
      else if decide (name = "attribute") then
        attrName <- ensureAttr attributes "name" "Attribute elements must have name" ;;
        match children with
        | [] => Ok (b.attrNamed attrName None)
        | [child] =>
            content <- convertAttributeContent child ;;
            Ok (b.attrNamed attrName (Some content))
        | _ => Throw "Attribute must contain at most one child"
        end
      else Throw ("unknown pattern: " +:+ name)
  | _ => Throw ("Expected an element but found " +:+ xtype node)
  end
with convertAttributeContent (node : XastNode) : Res Tree :=
  match node with
  | XElement _ name attributes children =>
      if decide (name = "choice") then
        cs <- mapRes convertPatternNode children ;; Ok (b.choice cs)
      else if decide (name = "value") then convertToValue children
      else if decide (name = "ref") then convertToRef attributes
      else if decide (name = "text" \/ name = "data") then
        dataType <- ensureAttr attributes "type" "Data elements must have @type" ;;
        data dataType
      else Throw ("Invalid node type " +:+ name)
  | _ => Throw "Attribute content must be element"
  end.

(** [convertPatternNode(node)] for a [node] that may be [undefined]. *)
Definition convertPattern (node : option XastNode) : Res Tree :=
  match node with
  | Some node => convertPatternNode node
  | None => Throw "TypeError: Cannot read properties of undefined"
  end.

Definition convertToStart (node : option XastNode) : Res Tree :=
  match node with
  | Some (XElement _ name _ children) =>
      if decide (name <> "start") then Throw "Grammar must begin with <start>"
      else
        child <- convertPattern (head children) ;;
        Ok (b.start child)
  | Some _ => Throw "Grammar must begin with <start>"
  | None => Throw "TypeError: Cannot read properties of undefined"
  end.

Definition convertToDef (node : XastNode) : Res Tree :=
  match node with
  | XElement _ elName attributes children =>
      if decide (elName <> "define")
      then Throw "Grammar must consist of <start> and <define>s only."
      else
        match attribute attributes "name" with
        | AString name =>
            cs <- mapRes convertPatternNode children ;;
            Ok (b.define name cs)
        | _ => Throw "Each <define> must have a @name"
        end
  | _ => Throw "Grammar must consist of <start> and <define>s only."
  end.

(** [convertToGrammarElement(node)], given [node.children]. *)
Definition convertToGrammarElement (children : list XastNode) : Res Tree :=
  start <- convertToStart (head children) ;;
  defs <- mapRes convertToDef (tail children) ;;
  Ok (b.grammar start defs).

Definition convertXastToRngAst (tree : XastRoot) : Res Tree :=
  match rootChildren tree with
  | XElement _ _ _ children :: _ =>
      grammar <- convertToGrammarElement children ;;
      Ok (b.root grammar)
  | _ :: _ => Throw "top element must be a grammar element"
  | [] => Throw "TypeError: Cannot read properties of undefined"
  end.

(** [parsePreTextSpec(specData)], from [tree = fromXml(specData)] on. *)
Definition parsePreTextSpec (tree : XastRoot) : Res Tree :=
  let tree := removeWhiteSpaceNodes tree in
  let tree := removeDocumentationNodes tree in
  let tree := dropPositions tree in
  match rootChildren tree with
  | [] => Throw "TypeError: Cannot read properties of undefined"
  | XMisc _ xk_instruction :: rest => convertXastToRngAst (mkXastRoot rest)
  | _ => convertXastToRngAst tree
  end.

End XastToRngast.

(** * Vocabulary of the statements

    Nothing in this part is a function of the source: it holds the
    predicates the properties are stated with and the grammars they are
    evaluated on. *)

Module ValidatorSpec.
Import Validator.


(** The context of an element without content. *)
Definition nothing : Context := ([], []).

End ValidatorSpec.

Module SimplifierSpec.
Import Simplifier.
Local Open Scope simplifier_scope.

(** *** The define table the passes expect

    The table that the callers of [getMapOfDefines] go on to use: every
    child of the grammar after the first, entered under its name.  It
    is not what the source computes, whose [getMapOfDefines] throws
    before it has a table; it serves to state what the walk of
    [removeUnreachableDefines] does when it is handed that table. *)

Fixpoint tableOf (rest : list Value) (definesByName : DefineTable) : M DefineTable :=
  match rest with
  | [] => ret definesByName
  | define :: rest' =>
      n <- deref define ;;
      match define with
      | Some d => tableOf rest' (<[name n := d]> definesByName)
      | None => ret definesByName
      end
  end.

Definition definesAfterStart (grammar : addr) : M DefineTable :=
  cs <- getChildren grammar ;;
  tableOf (drop 1 cs) ∅.

(** The passes before the define table is first looked up. *)
Definition passesBeforeTable (fuel : nat) (tree : addr) : M unit :=
  moveNameAttributeToChild fuel tree ;;
  controlChildren fuel tree ;;
  replaceMixedOptionalAndZeroOrMore fuel tree ;;
  eliminateCombineAttribute fuel tree ;;
  ensureOnlyOneGrammarElement fuel tree.

(** *** Reading a tree *)

Definition kids (t : Tree) : list Tree :=
  match t with
  | TNode n => default [] (children n)
  | TUndefined => []
  end.

Definition typeIs (ty : NodeType) (t : Tree) : bool :=
  match t with
  | TNode n => bool_decide (type n = ty)
  | TUndefined => false
  end.

(** *** Reading the store *)

(** What a slot refers to. *)
Definition nodeAt (w : World) (v : Value) : option Node := a ← v; cells w !! a.

(** The [combine] field of the object at [a]. *)
Definition combineAt (w : World) (a : addr) : option CombineMethod :=
  n ← cells w !! a; Ast.combine n.

(** The [start] nodes among the children [cs], in order. *)
Definition startsOf (w : World) (cs : list Value) : list addr :=
  omap (fun v : Value =>
          a ← v; n ← cells w !! a;
          if decide (type n = ty_start) then Some a else None) cs.

(** Nothing is stored at or beyond the next free address. *)
Definition wellFormed (w : World) : Prop :=
  forall a, next w <= a -> cells w !! a = None.

(** The builder [eliminateCombineAttribute] passes for the starts. *)
Definition startBuilder : list Value -> M addr := fun args => r.start (at_ args 0).

(** *** Grammars *)

(** [grammar(start(optional(ref("a"))), define("a", elementNamed("p")))] *)
Definition scenario5 : M addr :=
  ra <- r.ref "a" ;;
  o <- r.optional [Some ra] ;;
  s <- r.start (Some o) ;;
  p <- r.elemNamed "p" [] ;;
  d <- r.define (Some "a") [Some p] ;;
  g <- r.grammar (Some s) [Some d] ;;
  r.root (Some g).

(** The result that scenario 5 is said to have. *)
Definition scenario5_claimed : Tree :=
  b.root (b.grammar (b.start (b.choice [b.empty; b.ref "elem__1"]))
            [b.define "elem__1" [b.elem (b.name "p") []]]).

(** [grammar(start(ref("a")), define("a", elem(name("a"), ref("b"))),
    define("b", elem(name("b"))))]: every define is reachable. *)
Definition chainOfDefines : M addr :=
  ra <- r.ref "a" ;;
  s <- r.start (Some ra) ;;
  rb <- r.ref "b" ;;
  na <- r.name (Some "a") ;;
  ea <- r.elem (Some na) [Some rb] ;;
  da <- r.define (Some "a") [Some ea] ;;
  nb <- r.name (Some "b") ;;
  eb <- r.elem (Some nb) [] ;;
  db <- r.define (Some "b") [Some eb] ;;
  g <- r.grammar (Some s) [Some da; Some db] ;;
  r.root (Some g).

(** [grammar(start(text()), define("c", elem(name("c"))))]: the define
    is not reachable. *)
Definition unreachableDefine : M addr :=
  t <- r.text ;;
  s <- r.start (Some t) ;;
  nc <- r.name (Some "c") ;;
  ec <- r.elem (Some nc) [] ;;
  dc <- r.define (Some "c") [Some ec] ;;
  g <- r.grammar (Some s) [Some dc] ;;
  r.root (Some g).

(** A grammar with two [start] nodes, neither with [combine]. *)
Definition twoStartsWithoutCombine : M addr :=
  t1 <- r.text ;;
  s1 <- r.start (Some t1) ;;
  t2 <- r.empty ;;
  s2 <- r.start (Some t2) ;;
  g <- r.parent ty_grammar [Some s1; Some s2] ;;
  r.root (Some g).

(** A grammar with two [start] nodes, one with [combine = 'choice'] and
    one with [combine = 'interleave']. *)
Definition twoStartsDifferentCombine : M addr :=
  t1 <- r.text ;;
  s1 <- r.start (Some t1) ;;
  setCombine s1 (Some cm_choice) ;;
  t2 <- r.empty ;;
  s2 <- r.start (Some t2) ;;
  setCombine s2 (Some cm_interleave) ;;
  g <- r.parent ty_grammar [Some s1; Some s2] ;;
  r.root (Some g).

(** A store with these two grammars, at addresses 4 and 9. *)
Definition twoGrammars : World :=
  match run (t1 <- r.text ;;
             s1 <- r.start (Some t1) ;;
             t2 <- r.empty ;;
             s2 <- r.start (Some t2) ;;
             g1 <- r.parent ty_grammar [Some s1; Some s2] ;;
             t3 <- r.text ;;
             s3 <- r.start (Some t3) ;;
             setCombine s3 (Some cm_choice) ;;
             t4 <- r.empty ;;
             s4 <- r.start (Some t4) ;;
             setCombine s4 (Some cm_interleave) ;;
             r.parent ty_grammar [Some s3; Some s4]) with
  | Ok (_, w) => w
  | _ => emptyWorld
  end.

End SimplifierSpec.

(** * Vocabulary of the further properties

    As before, nothing in this part is a function of the source. *)

(** Induction on a document, with the property at hand for every child
    of an element. *)
Fixpoint XastNode_nested_ind (P : XastNode -> Prop)
    (Helement : forall loc name attributes children,
        Forall P children -> P (XElement loc name attributes children))
    (Htext : forall loc value, P (XText loc value))
    (Hmisc : forall loc kind, P (XMisc loc kind))
    (node : XastNode) : P node :=
  match node with
  | XElement loc name attributes children =>
      Helement loc name attributes children
        ((fix all (l : list XastNode) : Forall P l :=
            match l with
            | [] => Forall_nil_2 P
            | n :: l' =>
                Forall_cons_2 P n l'
                  (XastNode_nested_ind P Helement Htext Hmisc n) (all l')
            end) children)
  | XText loc value => Htext loc value
  | XMisc loc kind => Hmisc loc kind
  end.

Module DocumentSpec.
Import Validator.

(** *** Documents and writes *)

(** The identities of the nodes of a document, in document order. *)
Fixpoint locs (node : XastNode) : list nat :=
  match node with
  | XElement loc _ _ children => loc :: flat_map locs children
  | XText loc _ | XMisc loc _ => [loc]
  end.

(** The identities of its elements. *)
Fixpoint elementLocs (node : XastNode) : list nat :=
  match node with
  | XElement loc _ _ children => loc :: flat_map elementLocs children
  | _ => []
  end.

(** [ctx'] is what a match can leave of [ctx]: the last children, and
    attributes of [ctx] in their order. *)
Definition remainderOf (ctx' ctx : Context) : Prop :=
  suffix ctx'.1 ctx.1 /\ sublist ctx'.2 ctx.2.

(** Every write of [log] is on an element of [children] or below. *)
Definition writesWithin (log : Log) (children : list XastNode) : Prop :=
  Forall (fun e => e.1 ∈ flat_map elementLocs children) log.

(** What is shown of a result [r] with writes [lg] that a match on
    [ctx] returned. *)
Definition confined (ctx : Context) (r : ValidationResult) (lg : Log) : Prop :=
  remainderOf (res_ctx r) ctx /\ writesWithin lg ctx.1.

Definition confinedStep (step : Context -> V ValidationResult) : Prop :=
  forall ctx r lg, step ctx = Ok (r, lg) -> confined ctx r lg.

(** The problems written on the node at [loc]. *)
Definition problemsAt (log : Log) (loc : nat) : list Problem :=
  concat (map snd (filter (fun e => e.1 = loc) log)).

(** The option returns [rl] and its result is not ok. *)
Definition failsAs (opt : unit -> V ValidationResult)
    (rl : ValidationResult * Log) : Prop :=
  opt tt = Ok rl /\ res_ok rl.1 = false.

(** *** Patterns *)

(** The size of a pattern: two for each node. *)
Fixpoint weight (t : Tree) : nat :=
  match t with
  | TUndefined => 0
  | TNode (mkNode _ _ _ _ _ cs) =>
      2 + match cs with
          | None => 0
          | Some cs => list_sum (map weight cs)
          end
  end.

Definition weights (specs : list Tree) : nat := list_sum (map weight specs).

(** A pattern without repetition and without reference: no
    [oneOrMore], [zeroOrMore] or [ref] node in it. *)
Fixpoint straight (t : Tree) : bool :=
  match t with
  | TUndefined => true
  | TNode (mkNode ty _ _ _ _ cs) =>
      negb (bool_decide (ty ∈ [ty_oneOrMore; ty_zeroOrMore; ty_ref]))
      && match cs with
         | None => true
         | Some cs => forallb straight cs
         end
  end.

(** The call does not use up its budget. *)
Definition returnsOrThrows {A} (m : V A) : Prop := m <> OutOfFuel.

End DocumentSpec.

Module StoreSpec.
Import Simplifier.
Local Open Scope simplifier_scope.

(** The [n]-th name that [determineNewName] tries. *)
Definition candidate (name : option string) (n : nat) : string :=
  str_of name +:+ "__" +:+ show_nat n.

(** The type, the name and the children of the object at [a]. *)
Definition typeAt (w : World) (a : addr) : option NodeType := type <$> cells w !! a.
Definition nameAt (w : World) (a : addr) : option string := n ← cells w !! a; name n.
Definition childrenAt (w : World) (a : addr) : option (list Value) :=
  n ← cells w !! a; children n.

(** The [define] nodes among the children [cs], in order. *)
Definition definesOf (w : World) (cs : list Value) : list addr :=
  omap (fun v : Value =>
          a ← v; n ← cells w !! a;
          if decide (type n = ty_define) then Some a else None) cs.

(** The store a program leaves. *)
Definition storeAfter {A} (m : M A) : World :=
  match run m with
  | Ok (_, w) => w
  | _ => emptyWorld
  end.

(** [root(text())]: the root is at address 1. *)
Definition bareText : World :=
  storeAfter (t <- r.text ;; r.root (Some t)).

(** A grammar (at address 9) whose children are a [define] named [a]
    with [combine = 'choice'] (at 4), an [empty] (at 5), the [start]
    (at 1) and a [define] named [b] (at 8). *)
Definition unorderedGrammar : World :=
  storeAfter (t <- r.text ;;
              s <- r.start (Some t) ;;
              ea <- r.elemNamed "a" [] ;;
              da <- r.define (Some "a") [Some ea] ;;
              setCombine da (Some cm_choice) ;;
              stray <- r.empty ;;
              eb <- r.elemNamed "b" [] ;;
              db <- r.define (Some "b") [Some eb] ;;
              r.parent ty_grammar [Some da; Some stray; Some s; Some db]).

End StoreSpec.

Module ConverterSpec.
Import XastToRngast.

(** No text node that trims to the empty string, at any depth. *)
Fixpoint noBlankText (node : XastNode) : bool :=
  match node with
  | XElement _ _ _ children => forallb noBlankText children
  | XText _ value => negb (trimsToEmpty value)
  | XMisc _ _ => true
  end.

Definition isElementOtherThan (name : string) (node : XastNode) : bool :=
  match node with
  | XElement _ n _ _ => negb (String.eqb n name)
  | _ => false
  end.

(** Below [node], every child of an element is an element, and none is
    named [a:documentation]. *)
Fixpoint elementsOnly (node : XastNode) : bool :=
  match node with
  | XElement _ _ _ children =>
      forallb (fun ch => isElementOtherThan "a:documentation" ch && elementsOnly ch)
        children
  | _ => true
  end.

(** Every [value] node of the tree holds the empty string. *)
Fixpoint valuesEmpty (t : Tree) : bool :=
  match t with
  | TUndefined => true
  | TNode (mkNode ty _ _ v _ cs) =>
      (if decide (ty = ty_value) then bool_decide (v = Some "") else true)
      && match cs with
         | None => true
         | Some cs => forallb valuesEmpty cs
         end
  end.

(** Whether [filterBelow] keeps the child [ch] of a node of type [ty]. *)
Definition keepBelow (test : string -> bool) (isValid : XastNode -> bool)
    (ty : string) (ch : XastNode) : bool :=
  negb (test ty) || isValid ch.

(** The predicates and tests of the two clean-up passes. *)
Definition isValidWS (ch : XastNode) : bool :=
  match ch with
  | XText _ value => negb (trimsToEmpty value)
  | _ => true
  end.
Definition testWS (type : string) : bool := negb (String.eqb type "text").
Definition isValidDoc (ch : XastNode) : bool := isElementOtherThan "a:documentation" ch.
Definition testDoc (type : string) : bool := String.eqb type "element".

(** What the conversion of [n], as a pattern or as the content of an
    attribute, is shown to satisfy. *)
Definition valuesEmptyWhenConverted (n : XastNode) : Prop :=
  elementsOnly n = true ->
  (forall t, convertPatternNode n = Ok t -> valuesEmpty t = true)
  /\ (forall t, convertAttributeContent n = Ok t -> valuesEmpty t = true).

End ConverterSpec.

(** ** Documents without their texts *)

Module BlankSpec.
Import Validator.

(** *** Documents without their texts *)

Definition blankValue (v : AttrValue) : AttrValue :=
  match v with
  | AString _ => AString ""
  | _ => v
  end.

Definition blankAttributes (attrs : Attributes) : Attributes :=
  map (fun kv => (kv.1, blankValue kv.2)) attrs.

(** The document with every text and every attribute value replaced by
    the empty string. *)
Fixpoint blankNode (node : XastNode) : XastNode :=
  match node with
  | XElement loc name attrs children =>
      XElement loc name (blankAttributes attrs) (map blankNode children)
  | XText loc _ => XText loc ""
  | XMisc _ _ => node
  end.

Definition blankContext (ctx : Context) : Context :=
  (map blankNode ctx.1, blankAttributes ctx.2).

Definition blankResult (r : ValidationResult) : ValidationResult :=
  (r.1, blankContext r.2).

(** The same outcome, on the blanked context. *)
Definition blankOutcome (m : V ValidationResult) : V ValidationResult :=
  match m with
  | Ok (r, lg) => Ok (blankResult r, lg)
  | Throw e => Throw e
  | OutOfFuel => OutOfFuel
  end.

(** [step] does on a blanked context what it does on the context. *)
Definition blindStep (step : Context -> V ValidationResult) : Prop :=
  forall ctx, step (blankContext ctx) = blankOutcome (step ctx).
End BlankSpec.

(** ** Trees of objects in the store *)

Module TreeStoreSpec.
Import Simplifier SimplifierSpec StoreSpec.
Local Open Scope simplifier_scope.

(** *** Trees of objects

    A tree together with the address of the object that holds each of
    its nodes. *)
#[warnings="-register-all"]
Inductive Placed : Type :=
| PNode (at_address : addr) (n : NodeOf Placed).

Definition addrOf (p : Placed) : addr := let 'PNode a _ := p in a.
Definition slotOf (p : Placed) : Value := Some (addrOf p).
Definition placedChildren (p : Placed) : option (list Placed) :=
  let 'PNode _ n := p in children n.

(** The object a node of the tree is held in. *)
Definition cellOf (p : Placed) : Node :=
  let 'PNode _ n := p in
  mkNode (type n) (name n) (Ast.combine n) (value n) (dataType n)
    (map slotOf <$> children n).

(** The tree, without the addresses. *)
Fixpoint treeOf (p : Placed) : Tree :=
  match p with
  | PNode _ (mkNode ty nm cb v dt cs) =>
      TNode (mkNode ty nm cb v dt
               match cs with
               | Some cs => Some (map treeOf cs)
               | None => None
               end)
  end.

(** Every object of the tree, with its address: the root first. *)
Fixpoint objects (p : Placed) : list (addr * Node) :=
  (addrOf p, cellOf p)
    :: match p with
       | PNode _ (mkNode _ _ _ _ _ (Some cs)) => flat_map objects cs
       | _ => []
       end.

Definition addrs (p : Placed) : list addr := (objects p).*1.

(** The store holds the tree: each of its objects is at its address. *)
Definition inStore (w : World) (p : Placed) : Prop :=
  forall a n, (a, n) ∈ objects p -> cells w !! a = Some n.

(** No object occurs twice in the tree. *)
Definition separate (p : Placed) : Prop := NoDup (addrs p).

(** The height of a tree. *)
Fixpoint height (t : Tree) : nat :=
  match t with
  | TUndefined => 1
  | TNode (mkNode _ _ _ _ _ cs) =>
      S match cs with
        | Some cs => foldr (fun c h => Nat.max (height c) h) 0 cs
        | None => 0
        end
  end.

(** *** What [moveNameAttributeToChild] makes of a tree *)

Definition nameNode (nm : option string) : Tree :=
  TNode (mkNode ty_name nm None None None None).

(** [converted t] is what takes the place of [t] in the [children] of
    its parent.  An [elementNamed] or [attributeNamed] node is replaced
    by a new [element] or [attribute] that gets the {e same} child
    objects; the walk goes on below the replaced node, so these children
    stay in their places and only what is below {e them} is converted
    ([below]). *)
Fixpoint converted (t : Tree) : Tree :=
  match t with
  | TUndefined => TUndefined
  | TNode (mkNode ty nm cb v dt cs) =>
      let below (c : Tree) : Tree :=
        match c with
        | TUndefined => TUndefined
        | TNode (mkNode ty' nm' cb' v' dt' cs') =>
            TNode (mkNode ty' nm' cb' v' dt'
                     match cs' with
                     | Some l => Some (map converted l)
                     | None => None
                     end)
        end in
      match ty with
      | ty_elementNamed =>
          b.elem (nameNode nm)
            match cs with Some l => map below l | None => [] end
      | ty_attributeNamed =>
          b.attr (nameNode nm)
            match cs with Some l => head (map below l) | None => None end
      | _ =>
          TNode (mkNode ty nm cb v dt
                   match cs with
                   | Some l => Some (map converted l)
                   | None => None
                   end)
      end
  end.

(** Every [elementNamed] and [attributeNamed] node has a [children]
    array. *)
Fixpoint namedHaveChildren (t : Tree) : bool :=
  match t with
  | TUndefined => true
  | TNode (mkNode ty _ _ _ _ cs) =>
      match cs with
      | Some l => forallb namedHaveChildren l
      | None => negb (bool_decide (ty ∈ [ty_elementNamed; ty_attributeNamed]))
      end
  end.


(** The object [n] with another [children] array. *)
Definition withChildren (n : Node) (cs : list Value) : Node :=
  mkNode (type n) (name n) (Ast.combine n) (value n) (dataType n) (Some cs).

(** The store with the object at [a] replaced. *)
Definition put (a : addr) (n : Node) (w : World) : World :=
  mkWorld (<[a := n]> (cells w)) (next w).

(** The node stays; each of its children is replaced by [f] of it. *)
Definition keepNode (f : Tree -> Tree) (t : Tree) : Tree :=
  match t with
  | TUndefined => TUndefined
  | TNode (mkNode ty nm cb v dt cs) =>
      TNode (mkNode ty nm cb v dt
               match cs with
               | Some l => Some (map f l)
               | None => None
               end)
  end.

(** Induction on a tree of objects, with the property for the children. *)
Fixpoint Placed_nested_ind (P : Placed -> Prop)
    (step : forall a n,
        match children n with Some cs => Forall P cs | None => True end ->
        P (PNode a n))
    (p : Placed) : P p :=
  match p with
  | PNode a n =>
      step a n
        match children n as o
              return match o with Some cs => Forall P cs | None => True end with
        | Some cs =>
            (fix all (cs : list Placed) : Forall P cs :=
               match cs with
               | [] => Forall_nil_2 P
               | c :: cs' => Forall_cons_2 P c cs' (Placed_nested_ind P step c) (all cs')
               end) cs
        | None => I
        end
  end.

(** *** What a walk that replaces nodes leaves

    [visit] with a visitor that puts a new node in the place of the one
    it is handed.  [live t] is what ends up in the slot that held [t];
    the object of [t] itself ends up as [keepNode live t], because the
    walk goes on through its [children] array. *)
Section replacing.
Variable test : option (list NodeType).
Variable visitor : unit -> Value -> list addr -> M (Action * unit).
Variable live : Tree -> Tree.
Variable valid : Tree -> Prop.

(** [pd] is the tree of objects that the object of [p] is the root of
    in [w'].  Objects that were allocated in [w], are not of [p] and are
    [stable] are as they were. *)
Record Kept (stable : addr -> Prop) (w : World) (p : Placed) (w' : World)
    (pd : Placed) : Prop := mkKept {
  kept_inStore : inStore w' pd;
  kept_at : addrOf pd = addrOf p;
  kept_tree : treeOf pd = keepNode live (treeOf p);
  kept_sep : NoDup (addrs pd);
  kept_in : forall x, x ∈ addrs pd -> x ∈ addrs p \/ next w <= x;
  kept_frame : forall x, x < next w -> x ∉ addrs p -> stable x ->
               cells w' !! x = cells w !! x;
  kept_wf : wellFormed w';
  kept_next : next w <= next w'
}.

(** [pl] is the tree of objects in the slot of the parent that held
    [p]. *)
Record Replaced (w : World) (par : addr) (pn : Node) (pre post : list Value)
    (p : Placed) (w' : World) (pl : Placed) : Prop := mkReplaced {
  repl_inStore : inStore w' pl;
  repl_tree : treeOf pl = live (treeOf p);
  repl_sep : NoDup (addrs pl);
  repl_in : forall x, x ∈ addrs pl -> x ∈ addrs p \/ next w <= x;
  repl_slot : cells w' !! par = Some (withChildren pn (pre ++ slotOf pl :: post))
}.

(** What the walk does at a node [p] that is a child of [par]. *)
Definition VisitSpec (p : Placed) : Prop :=
  forall fuel w parents par pn pre post,
    length (objects p) < fuel ->
    wellFormed w -> inStore w p -> NoDup (addrs p) -> valid (treeOf p) ->
    par ∉ addrs p ->
    cells w !! par = Some pn ->
    children pn = Some (pre ++ slotOf p :: post) ->
    slotOf p ∉ pre ->
    exists w' pl pd,
      visitParentsFrom test visitor fuel tt (slotOf p) (parents ++ [par]) w
      = Ok ((CONTINUE, tt), w')
      /\ Replaced w par pn pre post p w' pl
      /\ Kept (fun x => x <> par) w p w' pd.

(** The kept trees of the children [cs], in [w']. *)
Definition KeptChildren (w : World) (cs : list Placed) (w' : World)
    (ds : list Placed) : Prop :=
  Forall2 (fun c d => addrOf d = addrOf c /\ treeOf d = keepNode live (treeOf c)) cs ds
  /\ Forall (inStore w') ds
  /\ NoDup (flat_map addrs ds)
  /\ forall x, x ∈ flat_map addrs ds -> x ∈ flat_map addrs cs \/ next w <= x.

(** What a visitor that replaces [p] in its parent [par] has done when
    it returns, in [w1]: it has allocated the objects [fresh] and put in
    the slot of [p] the root of a tree [mk ds] made of these objects and
    of the first [k] children of [p]; [ds] are the trees that these
    children will be the roots of. *)
Definition Replaces (w : World) (p : Placed) (par : addr) (pn : Node)
    (pre post : list Value) (w1 : World) (mk : list Placed -> Placed)
    (fresh : list (addr * Node)) (k : nat) : Prop :=
  wellFormed w1 /\ next w <= next w1
  /\ (forall x, x < next w -> x <> par -> cells w1 !! x = cells w !! x)
  /\ Forall (fun xc => next w <= xc.1 < next w1 /\ cells w1 !! xc.1 = Some xc.2) fresh
  /\ NoDup fresh.*1
  /\ forall ds,
       Forall2 (fun c d => addrOf d = addrOf c /\ treeOf d = keepNode live (treeOf c))
         (default [] (placedChildren p)) ds ->
       cells w1 !! par = Some (withChildren pn (pre ++ slotOf (mk ds) :: post))
       /\ objects (mk ds) ≡ₚ fresh ++ flat_map objects (take k ds)
       /\ treeOf (mk ds) = live (treeOf p).

(** The trees in the slots that held the children [cs], in [w']. *)
Definition ReplacedChildren (w : World) (cs : list Placed) (w' : World)
    (ls : list Placed) : Prop :=
  Forall2 (fun c l => treeOf l = live (treeOf c)) cs ls
  /\ Forall (inStore w') ls
  /\ NoDup (flat_map addrs ls)
  /\ forall x, x ∈ flat_map addrs ls -> x ∈ flat_map addrs cs \/ next w <= x.
End replacing.

(** Induction on a tree, with the property for the children. *)
Fixpoint Tree_nested_ind (P : Tree -> Prop) (undefined : P TUndefined)
    (step : forall n,
        match children n with Some cs => Forall P cs | None => True end ->
        P (TNode n))
    (t : Tree) : P t :=
  match t with
  | TUndefined => undefined
  | TNode n =>
      step n
        match children n as o
              return match o with Some cs => Forall P cs | None => True end with
        | Some cs =>
            (fix all (cs : list Tree) : Forall P cs :=
               match cs with
               | [] => Forall_nil_2 P
               | c :: cs' =>
                   Forall_cons_2 P c cs' (Tree_nested_ind P undefined step c) (all cs')
               end) cs
        | None => I
        end
  end.

(** An [elementNamed] or [attributeNamed] node. *)
Definition isNamed (t : Tree) : bool :=
  match t with
  | TNode n => bool_decide (type n ∈ [ty_elementNamed; ty_attributeNamed])
  | TUndefined => false
  end.

(** No node of the tree is an [elementNamed] or [attributeNamed]. *)
Fixpoint noNamed (t : Tree) : bool :=
  match t with
  | TUndefined => true
  | TNode (mkNode ty _ _ _ _ cs) =>
      negb (bool_decide (ty ∈ [ty_elementNamed; ty_attributeNamed]))
      && match cs with
         | Some l => forallb noNamed l
         | None => true
         end
  end.

(** No [elementNamed] or [attributeNamed] node of the tree is the child
    of an [elementNamed] or [attributeNamed] node. *)
Fixpoint noNamedInNamed (t : Tree) : bool :=
  match t with
  | TUndefined => true
  | TNode (mkNode ty _ _ _ _ cs) =>
      match cs with
      | Some l =>
          (if bool_decide (ty ∈ [ty_elementNamed; ty_attributeNamed])
           then forallb (fun c => negb (isNamed c)) l else true)
          && forallb noNamedInNamed l
      | None => true
      end
  end.

(** The named nodes are as the builders make them: an [elementNamed]
    has a [children] array and an [attributeNamed] has one with at most
    one entry. *)
Fixpoint namedAsBuilt (t : Tree) : bool :=
  match t with
  | TUndefined => true
  | TNode (mkNode ty _ _ _ _ cs) =>
      match cs with
      | Some l =>
          (if decide (ty = ty_attributeNamed) then bool_decide (length l <= 1) else true)
          && forallb namedAsBuilt l
      | None => negb (bool_decide (ty ∈ [ty_elementNamed; ty_attributeNamed]))
      end
  end.

(** The loop of [visitParents] over the children of [a], named. *)
Section visiting.
Context {St : Type}.
Variable test : option (list NodeType).
Variable visitor : St -> Value -> list addr -> M (Action * St).

Definition walkChildren (fuel : nat) (a : addr) (parents : list addr)
    (result : Action) : nat -> St -> nat -> M (Action * St) :=
  fix walk (rounds : nat) (st : St) (offset : nat) : M (Action * St) :=
    match rounds with
    | O => outOfFuel
    | S rounds =>
        cs <- getChildren a ;;
        match cs !! offset with
        | None => ret (result, st)
        | Some child =>
            ' (sub, st) <- visitParentsFrom test visitor fuel st child
                             (parents ++ [a]) ;;
            match sub with
            | EXIT => ret (EXIT, st)
            | _ => walk rounds st (S offset)
            end
        end
    end.

(** What [visitParents] does at [a] once the visitor has returned
    [result]. *)
Definition visitBelow (fuel : nat) (a : addr) (parents : list addr)
    (result : Action) (st : St) : M (Action * St) :=
  n <- load a ;;
  match children n, result with
  | None, _ | Some _, SKIP => ret (result, st)
  | Some _, _ => walkChildren fuel a parents result fuel st 0
  end.
End visiting.


(** The store after [new n]. *)
Definition alloc (n : Node) (w : World) : World :=
  mkWorld (<[next w := n]> (cells w)) (S (next w)).

(** How [visit] hands a node to its visitor. *)
Definition handed {St}
    (visitor : St -> Value -> option Z -> option addr -> M (Action * St))
    : St -> Value -> list addr -> M (Action * St) :=
  fun st node parents =>
    match last parents with
    | None => visitor st node None None
    | Some parent =>
        cs <- getChildren parent ;;
        visitor st node (Some (indexOf node cs)) (Some parent)
    end.

(** The test and the visitor of [moveNameAttributeToChild]. *)
Definition nameTest : option (list NodeType) :=
  Some [ty_elementNamed; ty_attributeNamed].
Definition moveName (node : Value) (index : option Z) (parent : option addr)
    : M unit :=
  match index, parent with
  | Some index, Some parent =>
      n <- deref node ;;
      if decide (type n = ty_elementNamed) then
        nm <- r.name (name n) ;;
        cs <- childrenOf n ;;
        e <- r.elem (Some nm) cs ;;
        spliceChildren parent index 1 [Some e]
      else if decide (type n = ty_attributeNamed) then
        nm <- r.name (name n) ;;
        cs <- childrenOf n ;;
        e <- r.attr (Some nm) (at_ cs 0) ;;
        spliceChildren parent index 1 [Some e]
      else ret tt
  | _, _ => ret tt
  end.

Definition validNamed (t : Tree) : Prop := namedHaveChildren t = true.

(** *** What [replaceMixedOptionalAndZeroOrMore] makes of a tree *)

(** The test and the visitor of [replaceMixedOptionalAndZeroOrMore]. *)
Definition sugarTest : option (list NodeType) :=
  Some [ty_mixed; ty_optional; ty_zeroOrMore].
Definition replaceSugar (node : Value) (index : option Z) (parent : option addr)
    : M unit :=
  match index, parent with
  | Some index, Some parent =>
      n <- deref node ;;
      match type n with
      | ty_mixed =>
          cs <- childrenOf n ;;
          t <- r.text ;;
          newNode <- r.interleave [at_ cs 0; Some t] ;;
          spliceChildren parent index 1 [Some newNode]
      | ty_optional =>
          cs <- childrenOf n ;;
          e <- r.empty ;;
          newNode <- r.choice [at_ cs 0; Some e] ;;
          spliceChildren parent index 1 [Some newNode]
      | ty_zeroOrMore =>
          cs <- childrenOf n ;;
          o <- r.oneOrMore [at_ cs 0] ;;
          e <- r.empty ;;
          newNode <- r.choice [Some o; Some e] ;;
          spliceChildren parent index 1 [Some newNode]
      | _ => ret tt
      end
  | _, _ => ret tt
  end.

(** [desugared t] is what takes the place of [t] in the [children] of
    its parent.  A [mixed], [optional] or [zeroOrMore] node is replaced
    by a new node above its first child {e object}; the walk goes on
    below the replaced node, so that child stays in its place and only
    what is below it is converted. *)
Fixpoint desugared (t : Tree) : Tree :=
  match t with
  | TUndefined => TUndefined
  | TNode (mkNode ty nm cb v dt cs) =>
      let below (c : Tree) : Tree :=
        match c with
        | TUndefined => TUndefined
        | TNode (mkNode ty' nm' cb' v' dt' cs') =>
            TNode (mkNode ty' nm' cb' v' dt'
                     match cs' with
                     | Some l => Some (map desugared l)
                     | None => None
                     end)
        end in
      let kept :=
        TNode (mkNode ty nm cb v dt
                 match cs with
                 | Some l => Some (map desugared l)
                 | None => None
                 end) in
      match ty, cs with
      | ty_mixed, Some (c :: _) => b.interleave [below c; b.text]
      | ty_optional, Some (c :: _) => b.choice [below c; b.empty]
      | ty_zeroOrMore, Some (c :: _) => b.choice [b.oneOrMore [below c]; b.empty]
      | _, _ => kept
      end
  end.

(** Every [mixed], [optional] and [zeroOrMore] node has a child. *)
Fixpoint sugarHasChild (t : Tree) : bool :=
  match t with
  | TUndefined => true
  | TNode (mkNode ty _ _ _ _ cs) =>
      match cs with
      | Some l =>
          (if bool_decide (ty ∈ [ty_mixed; ty_optional; ty_zeroOrMore])
           then negb (bool_decide (l = [])) else true)
          && forallb sugarHasChild l
      | None => negb (bool_decide (ty ∈ [ty_mixed; ty_optional; ty_zeroOrMore]))
      end
  end.
Definition validSugar (t : Tree) : Prop := sugarHasChild t = true.

(** A [mixed], [optional] or [zeroOrMore] node. *)
Definition isSugar (t : Tree) : bool :=
  match t with
  | TNode n => bool_decide (type n ∈ [ty_mixed; ty_optional; ty_zeroOrMore])
  | TUndefined => false
  end.

(** No node of the tree is a [mixed], [optional] or [zeroOrMore]. *)
Fixpoint noSugar (t : Tree) : bool :=
  match t with
  | TUndefined => true
  | TNode (mkNode ty _ _ _ _ cs) =>
      negb (bool_decide (ty ∈ [ty_mixed; ty_optional; ty_zeroOrMore]))
      && match cs with
         | Some l => forallb noSugar l
         | None => true
         end
  end.

(** No [mixed], [optional] or [zeroOrMore] node of the tree is the child
    of a [mixed], [optional] or [zeroOrMore] node. *)
Fixpoint noSugarInSugar (t : Tree) : bool :=
  match t with
  | TUndefined => true
  | TNode (mkNode ty _ _ _ _ cs) =>
      match cs with
      | Some l =>
          (if bool_decide (ty ∈ [ty_mixed; ty_optional; ty_zeroOrMore])
           then forallb (fun c => negb (isSugar c)) l else true)
          && forallb noSugarInSugar l
      | None => true
      end
  end.

(** Every [mixed], [optional] and [zeroOrMore] node has exactly one
    child, as [controlChildren] leaves them. *)
Fixpoint sugarHasOneChild (t : Tree) : bool :=
  match t with
  | TUndefined => true
  | TNode (mkNode ty _ _ _ _ cs) =>
      match cs with
      | Some l =>
          (if bool_decide (ty ∈ [ty_mixed; ty_optional; ty_zeroOrMore])
           then bool_decide (length l = 1) else true)
          && forallb sugarHasOneChild l
      | None => negb (bool_decide (ty ∈ [ty_mixed; ty_optional; ty_zeroOrMore]))
      end
  end.

(** *** The simplified form, as [simple-rngast.ts] declares it

    The types [Root], [Grammar], [Start], [Define], [Element],
    [Pattern] and [NonEmptyPattern] of [simple-rngast.ts], as
    predicates on trees.  A type [R.X] of [rngast.ts] is read as: a node
    whose [type] is [X].  [NameClass] is a parameter. *)
Section simple_form.
Variable NameClass : Tree -> bool.

Fixpoint S_NonEmptyPattern (t : Tree) : bool :=
  match t with
  | TUndefined => false
  | TNode (mkNode ty _ _ _ _ cs) =>
      match ty, cs with
      | (ty_text | ty_data | ty_value | ty_ref), _ => true
      | ty_attribute, Some [nc; p] =>
          NameClass nc && (typeIs ty_empty p || S_NonEmptyPattern p)
      | ty_oneOrMore, Some [p] => S_NonEmptyPattern p
      | ty_choice, Some [p; q] =>
          (typeIs ty_empty p || S_NonEmptyPattern p) && S_NonEmptyPattern q
      | (ty_group | ty_interleave), Some [p; q] =>
          S_NonEmptyPattern p && S_NonEmptyPattern q
      | _, _ => false
      end
  end.

(** [Pattern = R.Empty | NonEmptyPattern] *)
Definition S_Pattern (t : Tree) : bool := typeIs ty_empty t || S_NonEmptyPattern t.
(** [R.NotAllowed | Pattern], the child of a [Start] and of an
    [Element]. *)
Definition S_Top (t : Tree) : bool := typeIs ty_notAllowed t || S_Pattern t.

Definition S_Element (t : Tree) : bool :=
  match t with
  | TNode (mkNode ty_element _ _ _ _ (Some [nc; p])) => NameClass nc && S_Top p
  | _ => false
  end.
Definition S_Define (t : Tree) : bool :=
  match t with
  | TNode (mkNode ty_define _ _ _ _ (Some [e])) => S_Element e
  | _ => false
  end.
Definition S_Start (t : Tree) : bool :=
  match t with
  | TNode (mkNode ty_start _ _ _ _ (Some [p])) => S_Top p
  | _ => false
  end.
Definition S_Grammar (t : Tree) : bool :=
  match t with
  | TNode (mkNode ty_grammar _ _ _ _ (Some (start :: defines))) =>
      S_Start start && forallb S_Define defines
  | _ => false
  end.
Definition S_Root (t : Tree) : bool :=
  match t with
  | TNode (mkNode ty_root _ _ _ _ (Some [g])) => S_Grammar g
  | _ => false
  end.
End simple_form.

(** The nodes of the types that [rngast.ts] declares with [children]
    have a [children] array. *)
Fixpoint parentsHaveChildren (t : Tree) : bool :=
  match t with
  | TUndefined => true
  | TNode (mkNode ty _ _ _ _ cs) =>
      match cs with
      | Some l => forallb parentsHaveChildren l
      | None =>
          negb (bool_decide (ty ∈ [ty_root; ty_grammar; ty_start; ty_define; ty_element;
                                   ty_attribute; ty_oneOrMore; ty_choice; ty_group;
                                   ty_interleave]))
      end
  end.

(** *** The order of a post-order walk *)

(** The [children] array of every object of the tree, with its
    address. *)
Fixpoint links (p : Placed) : list (addr * option (list Value)) :=
  (addrOf p, children (cellOf p))
    :: match p with
       | PNode _ (mkNode _ _ _ _ _ (Some cs)) => flat_map links cs
       | _ => []
       end.

(** The objects of the tree are in the store and have the [children]
    arrays of the tree; their other fields are left open. *)
Definition linked (w : World) (p : Placed) : Prop :=
  forall a cs, (a, cs) ∈ links p -> children <$> cells w !! a = Some cs.

(** The nodes of the tree in post-order, each with its index and its
    parent: the children from left to right, then the node. *)
Fixpoint postOrderFrom (index : option nat) (parent : option addr) (p : Placed)
    : list (Value * option nat * option addr) :=
  match p with
  | PNode a n =>
      match children n with
      | Some cs =>
          (fix each (i : nat) (cs : list Placed) :=
             match cs with
             | [] => []
             | c :: cs' => postOrderFrom (Some i) (Some a) c ++ each (S i) cs'
             end) 0 cs
      | None => []
      end ++ [(Some a, index, parent)]
  end.
Definition postOrder : Placed -> list (Value * option nat * option addr) :=
  postOrderFrom None None.

(** The children [cs] of [a], the first of them at index [i]. *)
Definition postOrderEach (a : addr)
    : nat -> list Placed -> list (Value * option nat * option addr) :=
  fix each (i : nat) (cs : list Placed) :=
    match cs with
    | [] => []
    | c :: cs' => postOrderFrom (Some i) (Some a) c ++ each (S i) cs'
    end.

(** The call of a visitor on an entry of that list. *)
Definition called (visitor : Value -> option nat -> option addr -> M unit)
    (entry : Value * option nat * option addr) : M unit :=
  let '(node, index, parent) := entry in visitor node index parent.

(** What the loop of [visitPostOrder] does from the stack entry of [p], a
    part of [tree], until it has dropped that entry: the calls of the
    visitor below [p], in post-order. *)
Definition WalkSpec (visitor : Value -> option nat -> option addr -> M unit)
    (tree p : Placed) : Prop :=
  (forall w, linked w tree -> linked w p) ->
  forall parentCtx stack k w,
    linked w tree ->
    visitPostOrderLoop (2 * length (links p) - 1 + k) visitor
      ((slotOf p, 0, parentCtx) :: stack) w
    = bind (forEach (postOrderFrom (snd <$> parentCtx) (fst <$> parentCtx) p)
              (called visitor))
        (fun _ => visitPostOrderLoop k visitor stack) w.

(** A visitor that marks the node it is handed. *)
Definition markSeen (node : Value) (index : option nat) (parent : option addr)
    : M unit :=
  match node with
  | Some a => setName a (Some "seen")
  | None => ret tt
  end.

(** A node without children, at [a]. *)
Definition placedLeaf (a : addr) (ty : NodeType) (nm : option string) : Placed :=
  PNode a (mkNode ty nm None None None None).
(** A node with children and no other field, at [a]. *)
Definition placedParent (a : addr) (ty : NodeType) (cs : list Placed) : Placed :=
  PNode a (mkNode ty None None None None (Some cs)).


(** [root(elementNamed("a", elementNamed("b")))]: the root is at address
    3, [a] at 2, [b] at 1 and its [empty] child at 0. *)
Definition nestedElements : World :=
  storeAfter (eb <- r.elemNamed "b" [] ;;
              ea <- r.elemNamed "a" [Some eb] ;;
              r.root (Some ea)).
Definition nestedElementsTree : Placed :=
  placedParent 3 ty_root
    [PNode 2 (mkNode ty_elementNamed (Some "a") None None None
                (Some [PNode 1 (mkNode ty_elementNamed (Some "b") None None None
                                  (Some [placedLeaf 0 ty_empty None]))]))].


(** [root(optional(zeroOrMore(text())))]: the root is at address 3, the
    [optional] at 2, the [zeroOrMore] at 1 and the [text] at 0. *)
Definition nestedOptional : World :=
  storeAfter (t <- r.text ;;
              z <- r.zeroOrMore [Some t] ;;
              o <- r.optional [Some z] ;;
              r.root (Some o)).
Definition nestedOptionalTree : Placed :=
  placedParent 3 ty_root
    [placedParent 2 ty_optional
       [placedParent 1 ty_zeroOrMore [placedLeaf 0 ty_text None]]].


(** [root(grammar(start(ref("a")), define("a", element(name("p"),
    text()))))]: the root is at address 7. *)
Definition simpleGrammar : World :=
  storeAfter (ra <- r.ref "a" ;;
              s <- r.start (Some ra) ;;
              nm <- r.name (Some "p") ;;
              t <- r.text ;;
              e <- r.elem (Some nm) [Some t] ;;
              d <- r.define (Some "a") [Some e] ;;
              g <- r.grammar (Some s) [Some d] ;;
              r.root (Some g)).
Definition simpleGrammarTree : Placed :=
  placedParent 7 ty_root
    [placedParent 6 ty_grammar
       [placedParent 1 ty_start [placedLeaf 0 ty_ref (Some "a")];
        PNode 5 (mkNode ty_define (Some "a") None None None
                   (Some [placedParent 4 ty_element
                            [placedLeaf 2 ty_name (Some "p");
                             placedLeaf 3 ty_text None]]))]].

End TreeStoreSpec.

(** * Properties of the validator *)

Module ValidatorProps.
Import Validator ValidatorSpec.
Local Open Scope validator_scope.


(** Tests of [test_validate_relaxng.spec.ts], run on the model. *)
Example test_wrong_name :
  check 8 ∅ (x 0 "p" [] []) (b.elemNamed "moo" [])
  = Ok (false, [expected.elem "moo" "p"; expected.unexpectedElem "p"]).
Proof. reflexivity. Qed.

Example test_empty_expectation :
  check 8 ∅ (x 0 "p" [] [XText 1 "text"]) (b.elemNamed "p" [])
  = Ok (true, [expected.noChildren 1; expected.noText]).
Proof. reflexivity. Qed.

Example test_choice_reports_sub_problems :
  check 8 ∅ (x 0 "p" [] [])
    (b.choice [b.elemNamed "b" []; b.elemNamed "p" [b.attrNamed "foo" None]])
  = Ok (true, [expected.attr "foo"]).
Proof. reflexivity. Qed.

Example test_referenced_definition :
  check 8 (addDef (mkNode ty_define (Some "paragraph") None None None
                     (Some [b.elemNamed "b" []])) ∅)
    (x 0 "p" [] []) (b.ref "paragraph")
  = Ok (false, [expected.elem "b" "p"; expected.unexpectedElem "p"]).
Proof. vm_compute. reflexivity. Qed.

Example test_optional_in_child_spot :
  check 8 ∅ (x 0 "p" [("bar", AString "something")] [])
    (b.elemNamed "p" [b.optional [b.attrNamed "foo" (Some b.text)];
                      b.attrNamed "bar" (Some b.text)])
  = Ok (true, []).
Proof. reflexivity. Qed.

Example test_zero_or_more_many :
  check 12 ∅ (x 0 "sec" [] [x 1 "p" [] []; x 2 "p" [] []; x 3 "p" [] []])
    (b.elemNamed "sec" [b.zeroOrMore [b.elemNamed "p" []]])
  = Ok (true, []).
Proof. reflexivity. Qed.

Example test_one_or_more_no_match :
  check 12 ∅ (x 0 "sec" [] [x 1 "b" [] []])
    (b.elemNamed "sec" [b.oneOrMore [b.elemNamed "p" []]; b.elemNamed "b" []])
  = Ok (true, [expected.elem "p" "b"]).
Proof. reflexivity. Qed.



(** C10.  On a context without children the pattern [empty] matches
    with no problems, and what remains has no attributes, whatever the
    attributes of the context were; so when the content of an element is
    matched against [empty], the attributes nothing consumed are dropped:
    [unexpected] would list each of them had they remained, but the two
    writes on the element carry no problem, in particular no
    "Unexpected attribute". *)
Theorem empty_discards_attributes (defs : Defs) (fuel : nat) (attrs : Attributes) :
  validateDetails (S fuel) defs ([], attrs) [b.empty] = Ok ((true, [], ([], [])), [])
  /\ unexpected ([], attrs) = map (fun kv => "Unexpected attribute: " +:+ kv.1) attrs
  /\ forall loc X rest pattrs,
       validateDetails (S (S fuel)) defs
         (XElement loc X attrs [] :: rest, pattrs) [b.elemNamed X []]
       = Ok ((true, [], (rest, pattrs)), [(loc, []); (loc, [])]).
Proof.
  split; [reflexivity|]. split; [cbn; by rewrite app_nil_r|].
  intros loc X rest pattrs. cbn.
  rewrite decide_True by reflexivity. reflexivity.
Qed.

(** *** Choice *)

Section fallback_facts.
Variable path : Tree -> V ValidationResult.



End fallback_facts.






(** *** Recursion that does not stop *)

Lemma elemNamed_on_nothing defs n nm :
  validateDetails n defs nothing [b.elemNamed nm []] = OutOfFuel
  \/ validateDetails n defs nothing [b.elemNamed nm []]
     = Ok (invalid nothing (expected.elem nm "nothing"), []).
Proof. destruct n as [|[|n]]; cbn; auto. Qed.

Lemma optional_on_nothing defs n nm :
  validateDetails n defs nothing [b.optional [b.elemNamed nm []]] = OutOfFuel
  \/ validateDetails n defs nothing [b.optional [b.elemNamed nm []]]
     = Ok (allGood nothing, []).
Proof. destruct n as [|[|[|n]]]; cbn; auto. Qed.

(** [oneOrMore(p), b] on an empty context: [p] fails without consuming
    anything, [b] fails, and the second option of the fallback is the
    call being evaluated, on the same context. *)
Lemma oneOrMore_diverges defs fuel :
  validateDetails fuel defs nothing
    [b.oneOrMore [b.elemNamed "p" []]; b.elemNamed "b" []] = OutOfFuel.
Proof.
  induction fuel as [|fuel IH]; [reflexivity|].
  change (validateDetails (S fuel) defs nothing
            [b.oneOrMore [b.elemNamed "p" []]; b.elemNamed "b" []])
    with (chain nothing
            [ (fun ctx =>
                 bind (childrenOf (mkNode ty_oneOrMore None None None None
                                     (Some [b.elemNamed "p" []])))
                      (fun cs => validateDetails fuel defs ctx cs));
              (fun ctx =>
                 fallback
                   [ (fun _ => validateDetails fuel defs ctx [b.elemNamed "b" []]);
                     (fun _ => validateDetails fuel defs ctx
                                 [b.oneOrMore [b.elemNamed "p" []];
                                  b.elemNamed "b" []]) ]) ]).
  unfold chain, chain_from, childrenOf. cbn [children].
  unfold bind at 2. cbn -[validateDetails].
  destruct (elemNamed_on_nothing defs fuel "p") as [E|E]; rewrite E; [reflexivity|].
  cbn -[validateDetails]. unfold fallback. cbn -[validateDetails].
  destruct (elemNamed_on_nothing defs fuel "b") as [E'|E']; rewrite E'; [reflexivity|].
  cbn -[validateDetails]. rewrite IH. reflexivity.
Qed.

(** [zeroOrMore(optional(p))] on an empty context: the inner pattern is
    ok without consuming anything, so [chainIfOk] goes on to the call
    being evaluated, on the same context. *)
Lemma zeroOrMore_diverges defs fuel :
  validateDetails fuel defs nothing
    [b.zeroOrMore [b.optional [b.elemNamed "p" []]]] = OutOfFuel.
Proof.
  induction fuel as [|fuel IH]; [reflexivity|].
  change (validateDetails (S fuel) defs nothing
            [b.zeroOrMore [b.optional [b.elemNamed "p" []]]])
    with (fallback
            [ (fun _ =>
                 chainIfOk nothing
                   [ (fun ctx =>
                        bind (childrenOf (mkNode ty_zeroOrMore None None None None
                                            (Some [b.optional [b.elemNamed "p" []]])))
                             (fun cs => validateDetails fuel defs ctx cs));
                     (fun ctx => validateDetails fuel defs ctx
                                   [b.zeroOrMore [b.optional [b.elemNamed "p" []]]]) ]);
              (fun _ => validateDetails fuel defs nothing []) ]).
  unfold fallback, fallback_from, chainIfOk, chainIfOk_from, childrenOf.
  cbn [children]. unfold bind at 3. cbn -[validateDetails].
  destruct (optional_on_nothing defs fuel "p") as [E|E]; rewrite E; [reflexivity|].
  cbn -[validateDetails]. rewrite IH. reflexivity.
Qed.

(** C9.  [validateDetails] does not terminate on every finite context
    and finite pattern list.  Whatever budget it is given, the model
    uses it up on [<sec/>] against
    [elemNamed(sec, oneOrMore(elemNamed p), elemNamed b)] and on the
    content of an empty element against [zeroOrMore(optional(elemNamed p))]:
    each call leads to the same call on the same context. *)
Theorem validateDetails_recursion_unbounded (defs : Defs) (fuel : nat) :
  validateNode fuel defs (x 0 "sec" [] [])
    (b.elemNamed "sec" [b.oneOrMore [b.elemNamed "p" []]; b.elemNamed "b" []])
  = OutOfFuel
  /\ validateDetails fuel defs ([], [])
       [b.oneOrMore [b.elemNamed "p" []]; b.elemNamed "b" []] = OutOfFuel
  /\ validateDetails fuel defs ([], [])
       [b.zeroOrMore [b.optional [b.elemNamed "p" []]]] = OutOfFuel.
Proof.
  split; [|split].
  - unfold validateNode. destruct fuel as [|fuel]; [reflexivity|].
    pose proof (oneOrMore_diverges defs fuel) as H.
    cbn -[validateDetails].
    change (validateDetails (S fuel) defs ([x 0 "sec" [] []], [])
              [b.elemNamed "sec"
                 [b.oneOrMore [b.elemNamed "p" []]; b.elemNamed "b" []]])
      with (if decide (Some "sec" = Some "sec") then
              bind (childrenOf (mkNode ty_elementNamed (Some "sec") None None None
                                  (Some [b.oneOrMore [b.elemNamed "p" []];
                                         b.elemNamed "b" []])))
                (fun cs =>
                   bind (validateDetails fuel defs nothing cs)
                     (fun inner =>
                        bind (endValidationOnNode (x 0 "sec" [] []) inner)
                          (fun _ => validateDetails fuel defs ([], []) [])))
            else
              bind (validateDetails fuel defs ([x 0 "sec" [] []], []) [])
                (fun r =>
                   ret (concat2
                          (invalid ([x 0 "sec" [] []], [])
                             (expected.elem "sec" "sec")) r))).
    rewrite decide_True by reflexivity.
    unfold childrenOf. cbn [children]. unfold bind at 2.
    cbn -[validateDetails nothing]. rewrite H. reflexivity.
  - apply oneOrMore_diverges.
  - apply zeroOrMore_diverges.
Qed.

End ValidatorProps.

(** * Properties of the simplifier *)

Module SimplifierProps.
Import Simplifier SimplifierSpec.
Local Open Scope simplifier_scope.

(** *** Computations that cannot return *)

Lemma bind_not_ok_l {A B} (m : M A) (k : A -> M B) w :
  isOk (m w) = false -> isOk (bind m k w) = false.
Proof. unfold bind. destruct (m w) as [[a w']| |]; [discriminate|reflexivity..]. Qed.

Lemma bind_not_ok_r {A B} (m : M A) (k : A -> M B) w :
  (forall a w', isOk (k a w') = false) -> isOk (bind m k w) = false.
Proof. intros H. unfold bind. destruct (m w) as [[a w']| |]; [apply H|reflexivity..]. Qed.

Lemma getMapOfDefines_not_ok grammar w : isOk (getMapOfDefines grammar w) = false.
Proof.
  unfold getMapOfDefines. apply bind_not_ok_r. intros cs w'. reflexivity.
Qed.

Lemma removeUnreachableDefines_not_ok fuel tree w :
  isOk (removeUnreachableDefines fuel tree w) = false.
Proof.
  unfold removeUnreachableDefines, removeUnreachableDefinesWith.
  apply bind_not_ok_r. intros topGrammar w'.
  apply bind_not_ok_l. apply getMapOfDefines_not_ok.
Qed.

Lemma simplifyRngAst_not_ok fuel tree w : isOk (simplifyRngAst fuel tree w) = false.
Proof.
  unfold simplifyRngAst, simplifyRngAstWith.
  do 5 (apply bind_not_ok_r; intros ? ?).
  apply bind_not_ok_l. unfold canonicalDefineAndElementWith.
  apply bind_not_ok_l. apply removeUnreachableDefines_not_ok.
Qed.

(** *** The passes on sample grammars *)

(** C1.  [simplifyRngAst] does not return normally on every in-spec
    grammar: it returns on none.  Pass 4.19 starts by building the
    define table, and [getMapOfDefines] throws a [TypeError] on every
    grammar; so whatever the budget, the tree and the store, the outcome
    is never a returned tree, and on the grammar of the specification's
    own scenario 5 it is that [TypeError]. *)
Theorem simplifyRngAst_never_returns :
  (forall fuel tree w, isOk (simplifyRngAst fuel tree w) = false)
  /\ resultTree (t <- scenario5 ;; simplifyRngAst 40 t)
     = Throw "TypeError: _defines is not iterable".
Proof.
  split.
  - apply simplifyRngAst_not_ok.
  - vm_compute. reflexivity.
Qed.

(** C2.  The reachability step does not leave the start followed by
    the reachable defines.  As written it throws in [getMapOfDefines]
    before it visits anything.  Handed the table it expects, its walk
    loses a reachable define ([splice(newIndex, 1, defineToMove)]
    overwrites the define at [newIndex]: of [a] and [b], both reachable,
    only [b] is left) and keeps a define that is never reached (the
    [slice] is dropped: [c] stays). *)
Theorem reachability_step_defects :
  (forall fuel,
      resultTree (t <- chainOfDefines ;; removeUnreachableDefines fuel t ;; ret t)
      = Throw "TypeError: _defines is not iterable")
  /\ resultTree (t <- chainOfDefines ;;
                 removeUnreachableDefinesWith definesAfterStart 40 t ;; ret t)
     = Ok (b.root (b.grammar (b.start (b.ref "a"))
                     [b.define "b" [b.elem (b.name "b") []]]))
  /\ resultTree (t <- unreachableDefine ;;
                 removeUnreachableDefinesWith definesAfterStart 40 t ;; ret t)
     = Ok (b.root (b.grammar (b.start b.text)
                     [b.define "c" [b.elem (b.name "c") []]])).
Proof.
  split; [|split].
  - intros fuel. vm_compute. reflexivity.
  - vm_compute. reflexivity.
  - vm_compute. reflexivity.
Qed.

(** *** Scenario 5 *)

Lemma resultTree_not_ok (m : M addr) :
  isOk (run m) = false -> forall t, resultTree m <> Ok t.
Proof.
  unfold resultTree. intros H t.
  destruct (run m) as [[a w]| |]; [discriminate H|discriminate..].
Qed.

(** C4.  On the grammar of scenario 5 [simplifyRngAst] does not yield
    the grammar that the scenario describes, nor any other tree.  The
    passes 4.8 to 4.18 run and leave [grammar(start(choice(ref a,
    empty)), define a (element(name p, empty)))]; pass 4.19 then throws
    in [getMapOfDefines], and so does [simplifyRngAst], whatever the
    budget. *)
Theorem scenario5_throws_in_getMapOfDefines :
  resultTree (t <- scenario5 ;; passesBeforeTable 40 t ;; ret t)
  = Ok (b.root (b.grammar (b.start (b.choice [b.ref "a"; b.empty]))
                  [b.define "a" [b.elem (b.name "p") []]]))
  /\ resultTree (t <- scenario5 ;; passesBeforeTable 40 t ;;
                 canonicalDefineAndElement 40 t ;; ret t)
     = Throw "TypeError: _defines is not iterable"
  /\ resultTree (t <- scenario5 ;; simplifyRngAst 40 t)
     = Throw "TypeError: _defines is not iterable"
  /\ (forall fuel,
        resultTree (t <- scenario5 ;; simplifyRngAst fuel t) <> Ok scenario5_claimed)
  /\ (forall fuel t', resultTree (t <- scenario5 ;; simplifyRngAst fuel t) <> Ok t').
Proof.
  assert (H : forall fuel t',
             resultTree (t <- scenario5 ;; simplifyRngAst fuel t) <> Ok t').
  { intros fuel t'. apply resultTree_not_ok. unfold run.
    apply bind_not_ok_r. intros a w. apply simplifyRngAst_not_ok. }
  split; [|split; [|split; [|split]]].
  - vm_compute. reflexivity.
  - vm_compute. reflexivity.
  - vm_compute. reflexivity.
  - intros fuel. apply H.
  - exact H.
Qed.

(** *** Combine elimination *)

Section sort_facts.
Context {A : Type}.

Lemma sort_insert_perm (cmp : A -> A -> Z) p l : sort_insert cmp p l ≡ₚ p :: l.
Proof.
  induction l as [|y l IH]; cbn; [done|].
  destruct (cmp p y <? 0)%Z; [done|]. rewrite IH. apply Permutation_swap.
Qed.

Lemma sort_perm (cmp : A -> A -> Z) l : sort cmp l ≡ₚ l.
Proof.
  unfold sort.
  assert (G : forall acc,
             fold_left (fun sorted p => sort_insert cmp p sorted) l acc ≡ₚ acc ++ l).
  { induction l as [|a l IH]; intros acc; cbn; [by rewrite app_nil_r|].
    rewrite IH, sort_insert_perm. cbn. apply Permutation_middle. }
  by rewrite G.
Qed.
End sort_facts.

Lemma load_ok w a n : cells w !! a = Some n -> load a w = Ok (n, w).
Proof. intros H. unfold load. by rewrite H. Qed.

Lemma startsOf_cons w a n cs :
  cells w !! a = Some n ->
  startsOf w (Some a :: cs)
  = (if decide (type n = ty_start) then [a] else []) ++ startsOf w cs.
Proof. intros Hn. unfold startsOf. cbn. rewrite Hn. cbn. by case_decide. Qed.

Lemma startsOf_allocated w cs a :
  a ∈ startsOf w cs -> exists n, cells w !! a = Some n /\ type n = ty_start.
Proof.
  unfold startsOf. rewrite list_elem_of_omap. intros ([a'|] & _ & H); [|discriminate].
  cbn in H. destruct (cells w !! a') as [n|] eqn:E; [|discriminate]. cbn in H.
  case_decide; [|discriminate]. injection H as <-. eauto.
Qed.

Lemma collectStartsAndDefines_starts w cs :
  Forall (fun v => is_Some (nodeAt w v)) cs ->
  forall starts defs, exists defs',
    collectStartsAndDefines cs starts defs w
    = Ok ((starts ++ startsOf w cs, defs'), w).
Proof.
  induction 1 as [|v cs [n Hn] _ IH]; intros starts defs.
  - exists defs. cbn. by rewrite app_nil_r.
  - destruct v as [a|]; [|discriminate]. cbn in Hn.
    cbn [collectStartsAndDefines]. unfold bind at 1. cbn [deref].
    rewrite (load_ok _ _ _ Hn), (startsOf_cons _ _ _ _ Hn).
    destruct (decide (type n = ty_start)) as [E|E].
    + rewrite E. destruct (IH (starts ++ [a]) defs) as [d' ->].
      exists d'. by rewrite <- app_assoc.
    + destruct (IH starts (pushDefine (name n) a defs)) as [d1 H1].
      destruct (IH starts defs) as [d2 H2]. cbn [app].
      destruct (type n); try congruence; eauto.
Qed.

Lemma mapArr_keys w items :
  Forall (fun a => is_Some (cells w !! a)) items ->
  mapArr (fun a => n <- load a ;; ret (a, Ast.combine n)) items w
  = Ok (map (fun a => (a, combineAt w a)) items, w).
Proof.
  induction 1 as [|a items [n Hn] _ IH]; [reflexivity|].
  cbn [mapArr]. unfold bind at 1. unfold bind at 1.
  rewrite (load_ok _ _ _ Hn). unfold ret at 1.
  unfold bind at 1. rewrite IH. unfold ret. cbn [map].
  unfold combineAt. rewrite Hn. reflexivity.
Qed.

Lemma combine_all_absent w items builder errorName :
  2 <= length items ->
  Forall (fun a => exists n, cells w !! a = Some n /\ Ast.combine n = None) items ->
  Simplifier.combine items builder errorName w
  = Throw ("Cannot have multiple " +:+ errorName +:+ " without specifying combine").
Proof.
  intros Hlen Hall. unfold Simplifier.combine. unfold bind at 1.
  rewrite mapArr_keys
    by (eapply Forall_impl; [exact Hall|]; intros a (n & -> & _); eauto).
  set (keyed := map _ items).
  set (cmp := fun i j : addr * option CombineMethod => compare i.2 j.2).
  pose proof (sort_perm cmp keyed) as HP.
  assert (Hk : Forall (fun k : addr * option CombineMethod =>
                         exists n, cells w !! k.1 = Some n /\ Ast.combine n = None)
                 keyed).
  { subst keyed. rewrite Forall_map. eapply Forall_impl; [exact Hall|]. cbn. auto. }
  rewrite <- HP in Hk.
  assert (Hl : length (sort cmp keyed) = length items).
  { rewrite HP. subst keyed. by rewrite length_map. }
  destruct (sort cmp keyed) as [|k1 [|k2 ks]]; cbn in Hl; try lia.
  apply Forall_cons in Hk as [(n1 & H1 & C1) Hk].
  apply Forall_cons in Hk as [(n2 & H2 & C2) _].
  cbn [map reduceCombine]. unfold bind at 1. unfold combineStep.
  unfold bind at 1. rewrite (load_ok _ _ _ H1).
  unfold bind at 1. rewrite (load_ok _ _ _ H2).
  rewrite decide_True by auto. reflexivity.
Qed.

Lemma allocated_lt w a n : wellFormed w -> cells w !! a = Some n -> a < next w.
Proof.
  intros Hwf Ha. destruct (decide (a < next w)) as [|Hge]; [done|].
  rewrite Hwf in Ha by lia. discriminate.
Qed.

Lemma setCombine_ok w a n c :
  cells w !! a = Some n ->
  setCombine a c w
  = Ok (tt, mkWorld (<[a := mkNode (type n) (name n) c (value n) (dataType n)
                             (children n)]> (cells w)) (next w)).
Proof. intros H. unfold setCombine, bind. rewrite (load_ok _ _ _ H). reflexivity. Qed.

Lemma setCombine_ret_ok w a n c :
  cells w !! a = Some n ->
  bind (setCombine a c) (fun _ => ret a) w
  = Ok (a, mkWorld (<[a := mkNode (type n) (name n) c (value n) (dataType n)
                            (children n)]> (cells w)) (next w)).
Proof. intros H. unfold bind at 1. rewrite (setCombine_ok _ _ _ _ H). reflexivity. Qed.

(** Closes a case of [combineStep_inv]: the two allocations and the
    final [result.combine = ...] have been run, [c] is the common value. *)
Ltac finish_step c Hwf :=
  cbn; erewrite setCombine_ret_ok by (cbn; apply lookup_insert_eq);
  exists c;
  split; [auto|]; split; [auto|];
  split; [unfold combineAt; cbn; rewrite lookup_insert_eq; reflexivity|];
  split; [intros a Ha; cbn in *; rewrite !lookup_insert_ne by lia; apply Hwf; lia|];
  split; [cbn; lia|];
  split; [cbn; lia|];
  intros a ? ? ?; cbn; rewrite !lookup_insert_ne by lia; reflexivity.

(** One step of the fold.  When it returns, the two items agreed on
    their [combine] value [c] wherever they had one, the new node
    carries [c], and no other existing object was touched. *)
Lemma combineStep_inv w p1 p2 n1 n2 errorName :
  wellFormed w -> cells w !! p1 = Some n1 -> cells w !! p2 = Some n2 -> p1 <> p2 ->
  match combineStep startBuilder errorName p1 p2 w with
  | Ok (res, w') =>
      exists c,
        (Ast.combine n1 = Some c \/ Ast.combine n1 = None)
        /\ (Ast.combine n2 = Some c \/ Ast.combine n2 = None)
        /\ combineAt w' res = Some c
        /\ wellFormed w' /\ next w <= res /\ next w <= next w'
        /\ (forall a, a <> p1 -> a <> p2 -> a < next w ->
                      cells w' !! a = cells w !! a)
  | Throw _ => True
  | OutOfFuel => False
  end.
Proof.
  intros Hwf H1 H2 Hne.
  assert (L1 := allocated_lt _ _ _ Hwf H1).
  assert (L2 := allocated_lt _ _ _ Hwf H2).
  unfold combineStep.
  unfold bind at 1. rewrite (load_ok _ _ _ H1).
  unfold bind at 1. rewrite (load_ok _ _ _ H2).
  destruct (Ast.combine n1) as [c1|] eqn:C1, (Ast.combine n2) as [c2|] eqn:C2.
  4: { rewrite decide_True by auto. exact I. }
  all: rewrite decide_False by (intros [? ?]; discriminate).
  - (* both carry a value *)
    rewrite (decide_False (P := Some c1 = None)) by discriminate.
    unfold bind at 1. unfold ret at 1. unfold bind at 1. rewrite (load_ok _ _ _ H1).
    rewrite (decide_False (P := Some c2 = None)) by discriminate.
    unfold bind at 1. unfold ret at 1. unfold bind at 1. rewrite (load_ok _ _ _ H2).
    rewrite C1, C2.
    destruct (decide (Some c1 <> Some c2)) as [|Heq]; [exact I|].
    assert (c1 = c2) as <-
        by (destruct (decide (c1 = c2)); [done|]; exfalso; apply Heq; congruence).
    unfold childrenOf. destruct (children n1) as [cs1|]; [|exact I].
    destruct (children n2) as [cs2|]; [|exact I].
    unfold bind at 1. unfold ret at 1. unfold bind at 1. unfold ret at 1.
    destruct (decide (Some c1 = Some cm_choice)).
    all: finish_step c1 Hwf.
  - (* p2 inherits from p1 *)
    rewrite (decide_False (P := Some c1 = None)) by discriminate.
    unfold bind at 1. unfold ret at 1. unfold bind at 1. rewrite (load_ok _ _ _ H1).
    rewrite (decide_True (P := None = None)) by reflexivity.
    unfold bind at 1. rewrite (setCombine_ok _ _ _ _ H2).
    unfold bind at 1. unfold load at 1. cbn [cells]. rewrite lookup_insert_eq.
    cbn [Ast.combine]. rewrite C1.
    rewrite (decide_False (P := Some c1 <> Some c1)) by auto.
    unfold childrenOf. destruct (children n1) as [cs1|]; [|exact I].
    cbn [children]. destruct (children n2) as [cs2|]; [|exact I].
    unfold bind at 1. unfold ret at 1. unfold bind at 1. unfold ret at 1.
    destruct (decide (Some c1 = Some cm_choice)).
    all: finish_step c1 Hwf.
  - (* p1 inherits from p2 *)
    rewrite (decide_True (P := None = None)) by reflexivity.
    unfold bind at 1. rewrite (setCombine_ok _ _ _ _ H1).
    unfold bind at 1. unfold load at 1. cbn [cells]. rewrite lookup_insert_eq.
    cbn [Ast.combine].
    rewrite (decide_False (P := Some c2 = None)) by discriminate.
    unfold bind at 1. unfold ret at 1.
    unfold bind at 1. unfold load at 1. cbn [cells].
    rewrite lookup_insert_ne by done. rewrite H2, C2.
    rewrite (decide_False (P := Some c2 <> Some c2)) by auto.
    unfold childrenOf. cbn [children]. destruct (children n1) as [cs1|]; [|exact I].
    destruct (children n2) as [cs2|]; [|exact I].
    unfold bind at 1. unfold ret at 1. unfold bind at 1. unfold ret at 1.
    destruct (decide (Some c2 = Some cm_choice)).
    all: finish_step c2 Hwf.
Qed.

(** The fold.  It never runs out of budget, and when it returns, all
    the [combine] values present among the items were the same. *)
Lemma reduceCombine_inv errorName rest : forall p w,
  wellFormed w -> NoDup (p :: rest) ->
  Forall (fun a => is_Some (cells w !! a)) (p :: rest) ->
  match reduceCombine startBuilder errorName p rest w with
  | Ok _ =>
      forall x y cx cy, x ∈ p :: rest -> y ∈ p :: rest ->
        combineAt w x = Some cx -> combineAt w y = Some cy -> cx = cy
  | Throw _ => True
  | OutOfFuel => False
  end.
Proof.
  induction rest as [|p2 rest IH]; intros p w Hwf Hnd Hall.
  - cbn. intros x y cx cy Hx Hy.
    apply list_elem_of_singleton in Hx, Hy. subst. congruence.
  - apply NoDup_cons in Hnd as [Hp Hnd]. apply NoDup_cons in Hnd as [Hp2 Hnd].
    apply Forall_cons in Hall as [[n1 H1] Hall].
    apply Forall_cons in Hall as [[n2 H2] Hall].
    assert (Hne : p <> p2) by (intros ->; apply Hp; left).
    cbn [reduceCombine]. unfold bind at 1.
    pose proof (combineStep_inv w p p2 n1 n2 errorName Hwf H1 H2 Hne) as Hs.
    destruct (combineStep startBuilder errorName p p2 w) as [[res w']| |];
      [|exact I|exact Hs].
    destruct Hs as (c & A & B & Cres & Hwf' & Hle & _ & Hsame).
    assert (Hrest : forall a, a ∈ rest -> cells w' !! a = cells w !! a /\ a < next w).
    { intros a Ha. rewrite Forall_forall in Hall. destruct (Hall a Ha) as [n Hn].
      assert (a < next w) by (eapply allocated_lt; eauto).
      split; [|done]. apply Hsame; [| |done]; intros ->.
      - apply Hp. right. exact Ha.
      - apply Hp2. exact Ha. }
    assert (Hnd' : NoDup (res :: rest)).
    { apply NoDup_cons. split; [|done]. intros Hin. destruct (Hrest res Hin). lia. }
    assert (Hall' : Forall (fun a => is_Some (cells w' !! a)) (res :: rest)).
    { apply Forall_cons. split.
      - unfold combineAt in Cres. destruct (cells w' !! res); [eauto|discriminate].
      - rewrite Forall_forall in Hall |- *. intros a Ha.
        destruct (Hrest a Ha) as [-> _]. auto. }
    specialize (IH res w' Hwf' Hnd' Hall').
    destruct (reduceCombine startBuilder errorName res rest w') as [[out w'']| |];
      [|exact I|exact IH].
    assert (Hc : forall x cx, x ∈ p :: p2 :: rest -> combineAt w x = Some cx -> cx = c).
    { intros x cx Hx Hcx.
      apply elem_of_cons in Hx as [->|Hx]; [|apply elem_of_cons in Hx as [->|Hx]].
      - unfold combineAt in Hcx. rewrite H1 in Hcx. cbn in Hcx.
        destruct A as [A|A]; congruence.
      - unfold combineAt in Hcx. rewrite H2 in Hcx. cbn in Hcx.
        destruct B as [B|B]; congruence.
      - apply (IH x res cx c); [right; exact Hx|left| |exact Cres].
        unfold combineAt in *. destruct (Hrest x Hx) as [-> _]. exact Hcx. }
    intros x y cx cy Hx Hy Hcx Hcy.
    rewrite (Hc x cx Hx Hcx), (Hc y cy Hy Hcy). reflexivity.
Qed.

Lemma combine_differ w items s1 s2 c1 c2 errorName :
  wellFormed w -> NoDup items ->
  Forall (fun a => is_Some (cells w !! a)) items ->
  s1 ∈ items -> s2 ∈ items ->
  combineAt w s1 = Some c1 -> combineAt w s2 = Some c2 -> c1 <> c2 ->
  exists msg, Simplifier.combine items startBuilder errorName w = Throw msg.
Proof.
  intros Hwf Hnd Hall Hs1 Hs2 C1 C2 Hne.
  unfold Simplifier.combine. unfold bind at 1. rewrite mapArr_keys by exact Hall.
  set (keyed := map _ items).
  set (cmp := fun i j : addr * option CombineMethod => compare i.2 j.2).
  assert (HP : map fst (sort cmp keyed) ≡ₚ items).
  { rewrite sort_perm. subst keyed. rewrite map_map. cbn. by rewrite map_id. }
  destruct (map fst (sort cmp keyed)) as [|p rest] eqn:E.
  { rewrite <- HP in Hs1. by apply elem_of_nil in Hs1. }
  pose proof (reduceCombine_inv errorName rest p w Hwf) as Hinv.
  rewrite <- HP in Hnd, Hall, Hs1, Hs2. specialize (Hinv Hnd Hall).
  destruct (reduceCombine startBuilder errorName p rest w) as [[out w']|msg|].
  - exfalso. apply Hne. apply (Hinv s1 s2 c1 c2); assumption.
  - eauto.
  - contradiction.
Qed.

Lemma eliminateCombineIn_throws w g ng cs msg :
  cells w !! g = Some ng -> children ng = Some cs ->
  Forall (fun v => is_Some (nodeAt w v)) cs ->
  length (startsOf w cs) <> 0 ->
  Simplifier.combine (startsOf w cs) (fun args => r.start (at_ args 0))
    "start elements" w = Throw msg ->
  eliminateCombineIn g w = Throw msg.
Proof.
  intros Hg Hcs Hall Hne Hc.
  destruct (collectStartsAndDefines_starts w cs Hall [] []) as [defs Hcol].
  cbn [app] in Hcol.
  unfold eliminateCombineIn. unfold bind at 1. unfold getChildren.
  unfold bind at 1. rewrite (load_ok _ _ _ Hg). unfold childrenOf. rewrite Hcs.
  unfold ret at 1. unfold bind at 1. rewrite Hcol.
  rewrite decide_False by exact Hne.
  unfold bind at 1. rewrite Hc. reflexivity.
Qed.

(** C3, as stated, fails: neither of the two messages of the claim is
    what is raised.  The first error names "start elements"; the second
    is a quoted string with [${errorName}] left in it. *)
Lemma claimed_combine_messages_not_raised :
  resultTree (t <- twoStartsWithoutCombine ;; simplifyRngAst 40 t)
  = Throw "Cannot have multiple start elements without specifying combine"
  /\ resultTree (t <- twoStartsWithoutCombine ;; simplifyRngAst 40 t)
     <> Throw "Cannot have multiple starts without specifying combine"
  /\ resultTree (t <- twoStartsDifferentCombine ;; simplifyRngAst 40 t)
     = Throw "Cannot have multiple ${errorName} with different combine values"
  /\ resultTree (t <- twoStartsDifferentCombine ;; simplifyRngAst 40 t)
     <> Throw "Cannot have multiple starts with different combine values".
Proof.
  split; [|split; [|split]].
  - vm_compute. reflexivity.
  - vm_compute. discriminate.
  - vm_compute. reflexivity.
  - vm_compute. discriminate.
Qed.

(** C3, amended.  Let the pass be at a grammar [g] whose children are
    all node objects.  When two or more of them are [start] nodes and
    every [start] lacks [combine], it raises an exception whose message
    is exactly "Cannot have multiple start elements without specifying
    combine".  When two of its [start] nodes carry different [combine]
    values, it raises an exception. *)
Theorem combine_elimination_errors (w : World) (g : addr) (ng : Node)
    (cs : list Value) :
  cells w !! g = Some ng ->
  children ng = Some cs ->
  Forall (fun v => is_Some (nodeAt w v)) cs ->
  (2 <= length (startsOf w cs) ->
   Forall (fun a => combineAt w a = None) (startsOf w cs) ->
   eliminateCombineIn g w
   = Throw "Cannot have multiple start elements without specifying combine")
  /\ (forall s1 s2 c1 c2,
        wellFormed w -> NoDup (startsOf w cs) ->
        s1 ∈ startsOf w cs -> s2 ∈ startsOf w cs ->
        combineAt w s1 = Some c1 -> combineAt w s2 = Some c2 -> c1 <> c2 ->
        exists msg, eliminateCombineIn g w = Throw msg).
Proof.
  intros Hg Hcs Hall. split.
  - intros Hlen Hnone.
    apply (eliminateCombineIn_throws w g ng cs); [assumption..|lia|].
    apply combine_all_absent; [exact Hlen|].
    rewrite Forall_forall in Hnone |- *. intros a Ha.
    destruct (startsOf_allocated _ _ _ Ha) as (n & Hn & _).
    exists n. split; [exact Hn|].
    specialize (Hnone a Ha). unfold combineAt in Hnone.
    rewrite Hn in Hnone. exact Hnone.
  - intros s1 s2 c1 c2 Hwf Hnd H1 H2 C1 C2 Hne.
    destruct (combine_differ w (startsOf w cs) s1 s2 c1 c2 "start elements")
      as [msg Hmsg]; try assumption.
    { rewrite Forall_forall. intros a Ha.
      destruct (startsOf_allocated _ _ _ Ha) as (n & Hn & _). eauto. }
    exists msg.
    apply (eliminateCombineIn_throws w g ng cs); try assumption.
    intros Hlen. destruct (startsOf w cs); [|discriminate].
    by apply elem_of_nil in H1.
Qed.

Lemma twoGrammars_wellFormed : wellFormed twoGrammars.
Proof.
  intros a Ha.
  destruct (cells twoGrammars !! a) as [n|] eqn:E; [|reflexivity]. exfalso.
  apply elem_of_dom_2 in E.
  assert (Hd : dom (cells twoGrammars) = list_to_set (seq 0 10))
    by (vm_compute; reflexivity).
  rewrite Hd in E. apply elem_of_list_to_set, elem_of_seq in E.
  change (next twoGrammars) with 10 in Ha. lia.
Defined.

Lemma combine_elimination_errors_witness :
  eliminateCombineIn 4 twoGrammars
  = Throw "Cannot have multiple start elements without specifying combine"
  /\ exists msg, eliminateCombineIn 9 twoGrammars = Throw msg.
Proof.
  split.
  - refine (proj1 (combine_elimination_errors twoGrammars 4
                     (mkNode ty_grammar None None None None (Some [Some 1; Some 3]))
                     [Some 1; Some 3] _ _ _) _ _).
    + vm_compute. reflexivity.
    + reflexivity.
    + repeat (apply Forall_cons_2; [eexists; reflexivity|]). apply Forall_nil_2.
    + vm_compute. lia.
    + vm_compute. repeat constructor.
  - refine (proj2 (combine_elimination_errors twoGrammars 9
                     (mkNode ty_grammar None None None None (Some [Some 6; Some 8]))
                     [Some 6; Some 8] _ _ _) 6 8 cm_choice cm_interleave
                  twoGrammars_wellFormed _ _ _ _ _ _).
    + vm_compute. reflexivity.
    + reflexivity.
    + repeat (apply Forall_cons_2; [eexists; reflexivity|]). apply Forall_nil_2.
    + change (startsOf twoGrammars [Some 6; Some 8]) with [6; 8].
      apply NoDup_cons. split; [intros H; apply list_elem_of_singleton in H; discriminate|].
      apply NoDup_singleton.
    + change (startsOf twoGrammars [Some 6; Some 8]) with [6; 8]. left.
    + change (startsOf twoGrammars [Some 6; Some 8]) with [6; 8]. right. left.
    + vm_compute. reflexivity.
    + vm_compute. reflexivity.
    + discriminate.
Defined.

End SimplifierProps.

(** * Further properties of the validator *)

Module ValidatorLaws.
Import Validator ValidatorSpec DocumentSpec.
Local Open Scope validator_scope.

(** *** Combining results *)

Lemma last_default {A} (l : list A) (a d d' : A) :
  List.last (a :: l) d = List.last (a :: l) d'.
Proof. revert a. induction l as [|b l IH]; intros a; [reflexivity|]. apply (IH b). Qed.

Lemma fold_concat2 rs : forall r,
  fold_left concat2 rs r
  = (res_ok r && forallb res_ok rs,
     res_problems r ++ concat (map res_problems rs),
     res_ctx (List.last rs r)).
Proof.
  induction rs as [|a rs IH]; intros [[ok1 probs1] ctx1].
  - cbn. by rewrite andb_true_r, app_nil_r.
  - cbn [fold_left]. rewrite IH. destruct a as [[ok2 probs2] ctx2].
    cbn [concat2 res_ok res_problems res_ctx fst snd forallb map concat].
    rewrite andb_assoc, app_assoc. f_equal.
    destruct rs as [|v rs]; [reflexivity|]. f_equal. exact (last_default rs v _ _).
Qed.

(** X1.  [concat] of no result is [allGood()].  Otherwise it is ok
    exactly when every result is, its problems are the problems of the
    results in order, and its context is the context of the last
    result. *)
Theorem concat_of_results (r : ValidationResult) (rs : list ValidationResult) :
  concat_ [] = (true, [], ([], []))
  /\ concat_ (r :: rs)
     = (forallb res_ok (r :: rs),
        concat (map res_problems (r :: rs)),
        res_ctx (List.last rs r)).
Proof. split; [reflexivity|]. cbn [concat_]. apply fold_concat2. Qed.

(** *** Sequencing *)

Lemma V_bind_Ok {A B} (m : V A) (k : A -> V B) r lg :
  bind m k = Ok (r, lg) ->
  exists a l1 l2, m = Ok (a, l1) /\ k a = Ok (r, l2) /\ lg = l1 ++ l2.
Proof.
  unfold bind. destruct m as [[a l1]| |]; [|discriminate..].
  destruct (k a) as [[r' l2]| |] eqn:E; [|discriminate..].
  intros H. injection H as <- <-. by exists a, l1, l2.
Qed.

Lemma concat2_ok r0 r : res_ok (concat2 r0 r) = res_ok r0 && res_ok r.
Proof. by destruct r0 as [[? ?] ?], r as [[? ?] ?]. Qed.

Lemma concat2_ctx r0 r : res_ctx (concat2 r0 r) = res_ctx r.
Proof. by destruct r0 as [[? ?] ?], r as [[? ?] ?]. Qed.

Lemma chain_from_ok steps : forall ctx acc r lg,
  chain_from ctx acc steps = Ok (r, lg) -> res_ok r = true ->
  forall r0, acc = Some r0 -> res_ok r0 = true.
Proof.
  induction steps as [|step steps IH]; intros ctx acc r lg H Hok r0 ->.
  - cbn in H. by injection H as <- <-.
  - cbn [chain_from] in H. apply V_bind_Ok in H as (r1 & l1 & l2 & _ & H & _).
    specialize (IH _ _ _ _ H Hok _ eq_refl).
    rewrite concat2_ok in IH. by apply andb_true_iff in IH as [? _].
Qed.

Lemma chainIfOk_from_agrees steps : forall ctx acc r lg,
  chain_from ctx acc steps = Ok (r, lg) -> res_ok r = true ->
  chainIfOk_from ctx acc steps = Ok (r, lg).
Proof.
  induction steps as [|step steps IH]; intros ctx acc r lg H Hok; [exact H|].
  cbn [chain_from chainIfOk_from] in *.
  apply V_bind_Ok in H as (r1 & l1 & l2 & H1 & H & ->).
  unfold bind. rewrite H1.
  rewrite (chain_from_ok _ _ _ _ _ H Hok _ eq_refl).
  by rewrite (IH _ _ _ _ H Hok).
Qed.

Lemma chainIfOk_from_prefix steps : forall ctx acc r lg,
  chainIfOk_from ctx acc steps = Ok (r, lg) ->
  exists k, k <= length steps
            /\ chain_from ctx acc (take k steps) = Ok (r, lg)
            /\ (k < length steps -> res_ok r = false).
Proof.
  induction steps as [|step steps IH]; intros ctx acc r lg H.
  - exists 0. cbn. split; [lia|]. split; [exact H|lia].
  - cbn [chainIfOk_from] in H.
    apply V_bind_Ok in H as (r1 & l1 & l2 & H1 & H & ->).
    destruct (res_ok (match acc with None => r1 | Some r0 => concat2 r0 r1 end)) eqn:E.
    + apply IH in H as (k & Hk & Hc & Hlt).
      exists (S k). cbn [length take chain_from]. split; [lia|].
      split; [|intros ?; apply Hlt; lia].
      unfold bind. by rewrite H1, Hc.
    + injection H as <- <-.
      exists 1. cbn [length take chain_from]. split; [lia|]. split; [|auto].
      unfold bind. rewrite H1. destruct steps; reflexivity.
Qed.

(** X2.  [chainIfOk] returns what [chain] returns on a prefix of the
    steps, and on a proper prefix only with a result that is not ok;
    when [chain] on all the steps is ok, [chainIfOk] returns the same
    result after the same writes. *)
Theorem chainIfOk_is_chain_of_a_prefix (ctx : Context)
    (steps : list (Context -> V ValidationResult)) (r : ValidationResult) (lg : Log) :
  (chainIfOk ctx steps = Ok (r, lg) ->
   exists k, k <= length steps
             /\ chain ctx (take k steps) = Ok (r, lg)
             /\ (k < length steps -> res_ok r = false))
  /\ (chain ctx steps = Ok (r, lg) -> res_ok r = true ->
      chainIfOk ctx steps = Ok (r, lg)).
Proof.
  split.
  - apply chainIfOk_from_prefix.
  - apply chainIfOk_from_agrees.
Qed.

Lemma chainIfOk_is_chain_of_a_prefix_witness :
  let fails : Context -> V ValidationResult := fun ctx => ret (invalid ctx "no") in
  let passes : Context -> V ValidationResult := fun ctx => ret (allGood ctx) in
  (exists k, k <= 2
             /\ chain nothing (take k [fails; passes]) = Ok (invalid nothing "no", [])
             /\ (k < 2 -> res_ok (invalid nothing "no") = false))
  /\ chainIfOk nothing [passes; passes] = Ok (allGood nothing, []).
Proof.
  intros fails passes. split.
  - exact (proj1 (chainIfOk_is_chain_of_a_prefix nothing [fails; passes]
                    (invalid nothing "no") []) eq_refl).
  - exact (proj2 (chainIfOk_is_chain_of_a_prefix nothing [passes; passes]
                    (allGood nothing) []) eq_refl eq_refl).
Defined.

(** *** [chain] *)

Lemma concat2_assoc r1 r2 r3 : concat2 (concat2 r1 r2) r3 = concat2 r1 (concat2 r2 r3).
Proof.
  destruct r1 as [[? ?] ?], r2 as [[? ?] ?], r3 as [[? ?] ?]. cbn.
  by rewrite andb_assoc, app_assoc.
Qed.

Lemma chain_from_cons ctx acc step steps :
  chain_from ctx acc (step :: steps)
  = bind (step ctx)
      (fun r => chain_from (res_ctx (match acc with None => r | Some r0 => concat2 r0 r end))
                  (Some (match acc with None => r | Some r0 => concat2 r0 r end)) steps).
Proof. reflexivity. Qed.

Lemma chain_from_Some steps : forall ctx r0 step,
  chain_from ctx (Some r0) (step :: steps)
  = match chain_from ctx None (step :: steps) with
    | Ok (r, lg) => Ok (concat2 r0 r, lg)
    | Throw e => Throw e
    | OutOfFuel => OutOfFuel
    end.
Proof.
  induction steps as [|step' steps IH]; intros ctx r0 step.
  - cbn. unfold bind. destruct (step ctx) as [[r l]| |]; reflexivity.
  - rewrite (chain_from_cons ctx (Some r0)), (chain_from_cons ctx None).
    unfold bind. destruct (step ctx) as [[r l]| |]; [|reflexivity..].
    rewrite (IH _ (concat2 r0 r)), (IH _ r), concat2_ctx.
    destruct (chain_from (res_ctx r) None (step' :: steps)) as [[r' l']| |]; [|reflexivity..].
    by rewrite concat2_assoc.
Qed.

(** X3.  [chain] runs its first step on the given context and the
    remaining steps on the context that step leaves, and puts the two
    results together with [concat2]; with a single step it is that
    step.  ([concat2] is associative, so the grouping does not
    matter.) *)
Theorem chain_threads_the_context (ctx : Context)
    (step step' : Context -> V ValidationResult)
    (steps : list (Context -> V ValidationResult)) :
  chain ctx [step] = (r <- step ctx ;; ret r)
  /\ chain ctx (step :: step' :: steps)
     = (r1 <- step ctx ;;
        r2 <- chain (res_ctx r1) (step' :: steps) ;;
        ret (concat2 r1 r2))
  /\ forall r1 r2 r3, concat2 (concat2 r1 r2) r3 = concat2 r1 (concat2 r2 r3).
Proof.
  split; [reflexivity|]. split; [|apply concat2_assoc].
  unfold chain. rewrite chain_from_cons. unfold bind.
  destruct (step ctx) as [[r1 l1]| |]; [|reflexivity..].
  rewrite chain_from_Some.
  destruct (chain_from (res_ctx r1) None (step' :: steps)) as [[r2 l2]| |]; [|reflexivity..].
  cbn. by rewrite app_nil_r.
Qed.

Lemma fallback_from_failed pre rs : 
  Forall2 failsAs pre rs ->
  forall acc rest,
    fallback_from acc (pre ++ rest)
    = match fallback_from (match last rs with Some rl => Some rl.1 | None => acc end) rest with
      | Ok (r, lg) => Ok (r, concat (map snd rs) ++ lg)
      | Throw e => Throw e
      | OutOfFuel => OutOfFuel
      end.
Proof.
  induction 1 as [|opt [r l] pre rs [Hopt Hfail] _ IH]; intros acc rest.
  - cbn. by destruct (fallback_from acc rest) as [[? ?]| |].
  - cbn [app fallback_from]. unfold bind at 1. rewrite Hopt. cbn in Hfail. rewrite Hfail.
    rewrite IH. cbn [map concat snd].
    assert (E : match last rs with Some rl => Some rl.1 | None => Some r end
                = match last ((r, l) :: rs) with Some rl => Some rl.1 | None => acc end).
    { destruct rs as [|rl rs]; [reflexivity|]. cbn [last]. 
      destruct (last (rl :: rs)) eqn:E; [reflexivity|]. by apply last_None in E. }
    rewrite E. destruct (fallback_from _ rest) as [[r' l']| |]; [|reflexivity..].
    by rewrite app_assoc.
Qed.

(** X4.  [fallback] calls its options in order and returns the result
    of the first one that is ok, without calling the ones after it;
    when none is ok it returns the result of the last option; without
    options it throws.  The writes of every option it called are made,
    also those of the options whose result it did not keep. *)
Theorem fallback_returns_the_first_ok_result
    (pre post : list (unit -> V ValidationResult)) (opt : unit -> V ValidationResult)
    (rs : list (ValidationResult * Log)) (r : ValidationResult) (lg : Log) :
  Forall2 failsAs pre rs ->
  opt tt = Ok (r, lg) ->
  (res_ok r = true ->
   fallback (pre ++ opt :: post) = Ok (r, concat (map snd rs) ++ lg))
  /\ (res_ok r = false ->
      fallback (pre ++ [opt]) = Ok (r, concat (map snd rs) ++ lg))
  /\ fallback [] = Throw "Fallback should have at least one case".
Proof.
  intros Hpre Hopt. split; [|split; [|reflexivity]]; intros Hok; unfold fallback.
  - rewrite (fallback_from_failed _ _ Hpre). cbn [fallback_from]. unfold bind.
    rewrite Hopt, Hok. cbn. by rewrite app_nil_r.
  - rewrite (fallback_from_failed _ _ Hpre). cbn [fallback_from]. unfold bind.
    rewrite Hopt, Hok. cbn. by rewrite app_nil_r.
Qed.

Lemma fallback_returns_the_first_ok_result_witness :
  let p := x 0 "p" [] [] in
  let ctx : Context := ([p], []) in
  let abandoned : unit -> V ValidationResult := fun _ =>
    validateDetails 4 ∅ ctx [b.elemNamed "p" [b.attrNamed "foo" None]; b.elemNamed "q" []] in
  let kept : unit -> V ValidationResult := fun _ =>
    validateDetails 4 ∅ ctx [b.elemNamed "p" []] in
  fallback [abandoned; kept]
  = Ok ((true, [], ([], [])),
        [(0, [expected.attr "foo"]); (0, []); (0, []); (0, [])]).
Proof.
  intros p ctx abandoned kept.
  refine (proj1 (fallback_returns_the_first_ok_result [abandoned] [] kept
                   [((false, [expected.elem "q" "nothing"], ([], [])),
                     [(0, [expected.attr "foo"]); (0, [])])]
                   (true, [], ([], [])) [(0, []); (0, [])] _ _) _).
  - repeat constructor.
  - reflexivity.
  - reflexivity.
Defined.

(** *** What is left over *)

(** X5.  [unexpected] reports nothing exactly when no attribute is left
    and every child that is left is neither an element nor a text:
    comments, instructions, CDATA sections and doctypes are passed over
    in silence. *)
Theorem unexpected_reports_nothing_iff (children : list XastNode) (attrs : Attributes) :
  unexpected (children, attrs) = []
  <-> attrs = [] /\ Forall (fun ch => exists loc kind, ch = XMisc loc kind) children.
Proof.
  unfold unexpected.
  assert (G : filter (fun p : Problem => p <> "")
                (map (fun ch => match ch with
                                | XElement _ name _ _ => expected.unexpectedElem name
                                | XText _ _ => expected.noText
                                | XMisc _ _ => ""
                                end) children) = []
              <-> Forall (fun ch => exists loc kind, ch = XMisc loc kind) children).
  { induction children as [|c cs IH]; [split; [constructor|reflexivity]|].
    cbn [map]. rewrite filter_cons, Forall_cons. destruct c as [loc name a l|loc v|loc k].
    - rewrite decide_True by discriminate.
      split; [discriminate|]. intros [(? & ? & ?) _]. discriminate.
    - rewrite decide_True by discriminate.
      split; [discriminate|]. intros [(? & ? & ?) _]. discriminate.
    - rewrite decide_False by (intros H; by apply H). rewrite IH.
      split; [intros; split; eauto|tauto]. }
  split.
  - intros H. apply app_eq_nil in H as [H1 H2]. split.
    + destruct attrs; [reflexivity|discriminate].
    + by apply G.
  - intros [-> H]. cbn [map app]. by apply G.
Qed.

Lemma unexpected_reports_nothing_iff_witness :
  unexpected ([XMisc 0 xk_comment; XMisc 1 xk_instruction], []) = [].
Proof.
  apply (proj2 (unexpected_reports_nothing_iff
                  [XMisc 0 xk_comment; XMisc 1 xk_instruction] [])).
  split; [reflexivity|]. repeat (apply Forall_cons_2; [eauto|]). constructor.
Defined.

#[local] Instance remainderOf_refl : Reflexive remainderOf.
Proof. intros ctx. split; reflexivity. Qed.

#[local] Instance remainderOf_trans : Transitive remainderOf.
Proof. intros c1 c2 c3 [? ?] [? ?]. split; etrans; eauto. Qed.

Lemma elementLocs_suffix (cs' cs : list XastNode) :
  suffix cs' cs -> flat_map elementLocs cs' ⊆ flat_map elementLocs cs.
Proof.
  intros [pre ->] l Hl. rewrite flat_map_app. apply elem_of_app. by right.
Qed.

Lemma writesWithin_remainder lg ctx' ctx :
  remainderOf ctx' ctx -> writesWithin lg ctx'.1 -> writesWithin lg ctx.1.
Proof.
  intros [Hs _] H. eapply Forall_impl; [exact H|]. intros e He.
  by apply (elementLocs_suffix _ _ Hs).
Qed.

Lemma confined_seq ctx r1 l1 r2 l2 r :
  confined ctx r1 l1 -> confined (res_ctx r1) r2 l2 -> res_ctx r = res_ctx r2 ->
  confined ctx r (l1 ++ l2).
Proof.
  intros [R1 W1] [R2 W2] E. split.
  - rewrite E. by etrans.
  - apply Forall_app. split; [exact W1|]. by eapply writesWithin_remainder.
Qed.

Lemma chain_from_inv steps :
  Forall confinedStep steps ->
  forall ctx acc r lg,
    (forall r0, acc = Some r0 -> res_ctx r0 = ctx) ->
    chain_from ctx acc steps = Ok (r, lg) -> confined ctx r lg.
Proof.
  induction 1 as [|step steps Hstep _ IH]; intros ctx acc r lg Hacc H.
  - destruct acc as [r0|]; [|discriminate]. injection H as <- <-.
    rewrite <- (Hacc r0 eq_refl). split; [reflexivity|constructor].
  - cbn [chain_from] in H. apply V_bind_Ok in H as (r1 & l1 & l2 & H1 & H & ->).
    apply Hstep in H1. apply IH in H.
    + eapply confined_seq; [exact H1| |reflexivity].
      destruct acc; [by rewrite concat2_ctx in H|exact H].
    + intros r0 [= <-]. reflexivity.
Qed.

Lemma chainIfOk_from_inv steps :
  Forall confinedStep steps ->
  forall ctx acc r lg,
    (forall r0, acc = Some r0 -> res_ctx r0 = ctx) ->
    chainIfOk_from ctx acc steps = Ok (r, lg) -> confined ctx r lg.
Proof.
  induction 1 as [|step steps Hstep _ IH]; intros ctx acc r lg Hacc H.
  - destruct acc as [r0|]; [|discriminate]. injection H as <- <-.
    rewrite <- (Hacc r0 eq_refl). split; [reflexivity|constructor].
  - cbn [chainIfOk_from] in H. apply V_bind_Ok in H as (r1 & l1 & l2 & H1 & H & ->).
    apply Hstep in H1.
    destruct (res_ok (match acc with None => r1 | Some r0 => concat2 r0 r1 end)).
    + apply IH in H.
      * eapply confined_seq; [exact H1| |reflexivity].
        destruct acc; [by rewrite concat2_ctx in H|exact H].
      * intros r0 [= <-]. reflexivity.
    + injection H as <- <-. rewrite app_nil_r. destruct H1 as [R W]. split; [|exact W].
      destruct acc; [by rewrite concat2_ctx|exact R].
Qed.

Lemma fallback_from_inv ctx options :
  Forall (fun opt : unit -> V ValidationResult =>
            forall r lg, opt tt = Ok (r, lg) -> confined ctx r lg) options ->
  forall acc r lg,
    (forall r0, acc = Some r0 -> remainderOf (res_ctx r0) ctx) ->
    fallback_from acc options = Ok (r, lg) -> confined ctx r lg.
Proof.
  induction 1 as [|opt options Hopt _ IH]; intros acc r lg Hacc H.
  - destruct acc as [r0|]; [|discriminate]. injection H as <- <-.
    split; [by apply Hacc|constructor].
  - cbn [fallback_from] in H. apply V_bind_Ok in H as (r1 & l1 & l2 & H1 & H & ->).
    apply Hopt in H1 as [R1 W1]. destruct (res_ok r1).
    + injection H as <- <-. rewrite app_nil_r. by split.
    + apply IH in H as [R W]; [|by intros r0 [= <-]].
      split; [exact R|]. apply Forall_app. by split.
Qed.


Lemma chain_inv ctx steps r lg :
  Forall confinedStep steps -> chain ctx steps = Ok (r, lg) -> confined ctx r lg.
Proof. intros Hs H. by eapply chain_from_inv; [exact Hs| |exact H]. Qed.

Lemma chainIfOk_inv ctx steps r lg :
  Forall confinedStep steps -> chainIfOk ctx steps = Ok (r, lg) -> confined ctx r lg.
Proof. intros Hs H. by eapply chainIfOk_from_inv; [exact Hs| |exact H]. Qed.

Lemma fallback_inv ctx options r lg :
  Forall (fun opt : unit -> V ValidationResult =>
            forall r lg, opt tt = Ok (r, lg) -> confined ctx r lg) options ->
  fallback options = Ok (r, lg) -> confined ctx r lg.
Proof. intros Hs H. by eapply fallback_from_inv; [exact Hs| |exact H]. Qed.

Lemma childrenOf_Ok n cs lg : childrenOf n = Ok (cs, lg) -> lg = [].
Proof. unfold childrenOf. destruct (children n); [|discriminate]. by intros [= _ <-]. Qed.

Lemma childrenOfDef_Ok defs name cs lg :
  childrenOfDef defs name = Ok (cs, lg) -> lg = [].
Proof.
  unfold childrenOfDef. destruct (defs !! name); [apply childrenOf_Ok|discriminate].
Qed.

Lemma inDefs_own defs name d : defs !! name = Some d -> inDefs name defs = true.
Proof.
  intros H. unfold inDefs. rewrite H.
  rewrite bool_decide_eq_true_2 by eauto. reflexivity.
Qed.

Lemma _getRef_own defs name d :
  defs !! name = Some d -> _getRef defs name = childrenOf d.
Proof.
  intros H. unfold _getRef, childrenOfDef.
  by rewrite (inDefs_own _ _ _ H), H.
Qed.

Lemma _getRefSingle_own defs name d :
  defs !! name = Some d ->
  _getRefSingle defs name
  = bind (childrenOf d)
      (fun cs => if decide (1 < length cs)
                 then throw "Unsure how to apply definition with multiple patterns"
                 else ret (nth 0 cs TUndefined)).
Proof.
  intros H. unfold _getRefSingle, childrenOfDef.
  by rewrite (inDefs_own _ _ _ H), H.
Qed.

Lemma _getRef_Ok defs name cs lg : _getRef defs name = Ok (cs, lg) -> lg = [].
Proof.
  unfold _getRef. destruct (negb _); [discriminate|apply childrenOfDef_Ok].
Qed.

Lemma validateAttribute_Ok fuel defs attrName attrValue : forall spec r lg,
  validateAttribute fuel defs attrName attrValue spec = Ok (r, lg) -> lg = [].
Proof.
  induction fuel as [|fuel IH]; intros spec r lg H; [discriminate|].
  cbn [validateAttribute] in H. destruct spec as [|n]; [discriminate|].
  destruct (type n); try discriminate H.
  - apply V_bind_Ok in H as (d & l1 & l2 & H1 & H & ->).
    apply V_bind_Ok in H as (c & l3 & l4 & H3 & H & ->).
    apply IH in H as ->.
    assert (l3 = []) as ->.
    { unfold expectAttrContent in H3. destruct d as [|nd]; [discriminate|].
      destruct (type nd); try discriminate H3; by injection H3 as _ <-. }
    assert (l1 = []) as ->; [|reflexivity].
    unfold _getRefSingle in H1. destruct (negb _); [discriminate|].
    apply V_bind_Ok in H1 as (cs & l5 & l6 & H5 & H1 & ->).
    apply childrenOfDef_Ok in H5 as ->.
    case_decide; [discriminate|]. by injection H1 as _ <-.
  - destruct attrValue; by injection H as _ <-.
Qed.

Lemma confined_refl ctx r : res_ctx r = ctx -> confined ctx r [].
Proof. intros <-. split; [reflexivity|constructor]. Qed.

Lemma confined_after_problem ctx (m : V ValidationResult) problem r lg :
  (forall r0 l0, m = Ok (r0, l0) -> confined ctx r0 l0) ->
  bind m (fun r0 => ret (concat2 (invalid ctx problem) r0)) = Ok (r, lg) ->
  confined ctx r lg.
Proof.
  intros Hm H. apply V_bind_Ok in H as (r0 & l1 & l2 & H1 & H & ->).
  injection H as <- <-. rewrite app_nil_r.
  destruct (Hm _ _ H1) as [R W]. split; [|exact W].
  by destruct r0 as [[? ?] ?].
Qed.

Lemma confined_consumed child restChildren attrs r lg :
  confined (restChildren, attrs) r lg -> confined (child :: restChildren, attrs) r lg.
Proof.
  intros [[Hs Ha] W]. split; [split; [by apply suffix_cons_r|exact Ha]|].
  eapply Forall_impl; [exact W|]. intros e He. cbn [fst flat_map].
  apply elem_of_app. by right.
Qed.

Lemma validateDetails_inv fuel defs : forall ctx specs r lg,
  validateDetails fuel defs ctx specs = Ok (r, lg) -> confined ctx r lg.
Proof.
  induction fuel as [|fuel IH]; intros [children attrs] specs r lg H; [discriminate|].
  assert (Hstep : forall specs', confinedStep (fun ctx => validateDetails fuel defs ctx specs'))
    by (intros specs' ctx r' lg' H'; exact (IH _ _ _ _ H')).
  assert (Hinner : forall n : NodeOf Tree,
             confinedStep (fun ctx => cs <- childrenOf n ;; validateDetails fuel defs ctx cs)).
  { intros n ctx r' lg' H'. apply V_bind_Ok in H' as (cs & l1 & l2 & H1 & H' & ->).
    apply childrenOf_Ok in H1 as ->. exact (IH _ _ _ _ H'). }
  cbn [validateDetails] in H.
  destruct specs as [|[|spec] restSpecs];
    [injection H as <- <-; by apply confined_refl..|].
  destruct (type spec) eqn:Ety; try discriminate H.
  - (* elementNamed *)
    destruct children as [|[cl cname cattrs cchildren|cl v|cl k] restChildren].
    + eapply confined_after_problem; [|exact H]. intros r0 l0 Hr0. exact (IH _ _ _ _ Hr0).
    + case_decide.
      * apply V_bind_Ok in H as (cs & l0 & l0' & Hcs & H & ->).
        apply childrenOf_Ok in Hcs as ->.
        apply V_bind_Ok in H as (inner & l1 & l2 & H1 & H & ->).
        apply V_bind_Ok in H as ([] & l3 & l4 & H3 & H & ->).
        apply IH in H1 as [_ W1]. apply IH in H. cbn [app].
        apply confined_consumed with (child := XElement cl cname cattrs cchildren) in H.
        destruct H as [R W]. split; [exact R|].
        apply Forall_app. split; [|apply Forall_app; split; [|exact W]].
        -- eapply Forall_impl; [exact W1|]. intros e He.
           cbn [fst flat_map elementLocs]. apply elem_of_app. left. by right.
        -- unfold endValidationOnNode in H3. destruct inner as [[? ?] ?].
           cbn in H3. injection H3 as <-.
           repeat (apply Forall_cons_2; [cbn; left|]). constructor.
      * eapply confined_after_problem; [|exact H]. intros r0 l0 Hr0. exact (IH _ _ _ _ Hr0).
    + eapply confined_after_problem; [|exact H]. intros r0 l0 Hr0. exact (IH _ _ _ _ Hr0).
    + eapply confined_after_problem; [|exact H]. intros r0 l0 Hr0. exact (IH _ _ _ _ Hr0).
  - (* attributeNamed *)
    destruct (attr_lookup _ attrs) as [attr|].
    + apply V_bind_Ok in H as (cs & l0 & l0' & Hcs & H & ->).
      apply childrenOf_Ok in Hcs as ->.
      apply V_bind_Ok in H as (r1 & l1 & l1' & H1 & H & ->).
      apply validateAttribute_Ok in H1 as ->.
      apply V_bind_Ok in H as (r2 & l2 & l2' & H1 & H & ->).
      injection H as <- <-. rewrite app_nil_r. cbn [app].
      apply IH in H1 as [[Hs Ha] W]. split; [|exact W].
      rewrite concat2_ctx. split; [exact Hs|].
      etrans; [exact Ha|]. apply sublist_filter.
    + eapply confined_after_problem; [|exact H]. intros r0 l0 Hr0. exact (IH _ _ _ _ Hr0).
  - (* group *)
    apply V_bind_Ok in H as (cs & l1 & l2 & H1 & H & ->).
    apply childrenOf_Ok in H1 as ->. exact (IH _ _ _ _ H).
  - (* choice *)
    apply V_bind_Ok in H as (cs & l1 & l2 & H1 & H & ->).
    apply childrenOf_Ok in H1 as ->. cbn [app].
    eapply fallback_inv; [|exact H].
    apply Forall_app. split.
    + apply Forall_forall. intros opt Hopt. apply list_elem_of_fmap in Hopt as (ch & -> & _).
      intros r' lg' H'. eapply chain_inv; [|exact H'].
      repeat (apply Forall_cons_2; [apply Hstep|]). constructor.
    + apply Forall_cons_2; [|constructor]. intros r' lg' [= <- <-]. by apply confined_refl.
  - (* optional *)
    eapply fallback_inv; [|exact H].
    apply Forall_cons_2; [|apply Forall_cons_2; [|constructor]].
    + intros r' lg' H'. eapply chain_inv; [|exact H'].
      apply Forall_cons_2; [apply Hinner|]. apply Forall_cons_2; [apply Hstep|]. constructor.
    + intros r' lg' H'. exact (IH _ _ _ _ H').
  - (* zeroOrMore *)
    eapply fallback_inv; [|exact H].
    apply Forall_cons_2; [|apply Forall_cons_2; [|constructor]].
    + intros r' lg' H'. eapply chainIfOk_inv; [|exact H'].
      apply Forall_cons_2; [apply Hinner|]. apply Forall_cons_2; [apply Hstep|]. constructor.
    + intros r' lg' H'. exact (IH _ _ _ _ H').
  - (* oneOrMore *)
    eapply chain_inv; [|exact H].
    apply Forall_cons_2; [apply Hinner|]. apply Forall_cons_2; [|constructor].
    intros ctx r' lg' H'. eapply fallback_inv; [|exact H'].
    apply Forall_cons_2; [|apply Forall_cons_2; [|constructor]];
      intros r'' lg'' H''; exact (IH _ _ _ _ H'').
  - (* ref *)
    apply V_bind_Ok in H as (cs & l1 & l2 & H1 & H & ->).
    apply _getRef_Ok in H1 as ->. exact (IH _ _ _ _ H).
  - (* empty *)
    destruct children; injection H as <- <-.
    + split; [split; [apply suffix_nil|apply sublist_nil_l]|constructor].
    + by apply confined_refl.
  - (* text *)
    destruct children as [|[cl cname cattrs cchildren|cl v|cl k] restChildren].
    + eapply confined_after_problem; [|exact H]. intros r0 l0 Hr0. exact (IH _ _ _ _ Hr0).
    + eapply confined_after_problem; [|exact H]. intros r0 l0 Hr0. exact (IH _ _ _ _ Hr0).
    + apply confined_consumed. exact (IH _ _ _ _ H).
    + eapply confined_after_problem; [|exact H]. intros r0 l0 Hr0. exact (IH _ _ _ _ Hr0).
Qed.


(** X6.  What [validateDetails] returns as the remaining context is a
    part of the context it was given: the children that are left are
    the last children of the given ones, and the attributes that are
    left are attributes of the given ones, in their order. *)
Theorem validateDetails_leaves_a_remainder (fuel : nat) (defs : Defs)
    (ctx : Context) (specs : list Tree) (r : ValidationResult) (lg : Log) :
  validateDetails fuel defs ctx specs = Ok (r, lg) ->
  suffix (res_ctx r).1 ctx.1 /\ sublist (res_ctx r).2 ctx.2.
Proof. intros H. exact (proj1 (validateDetails_inv _ _ _ _ _ _ H)). Qed.

Lemma validateDetails_leaves_a_remainder_witness :
  let a := x 1 "a" [] [] in
  let b' := x 2 "b" [] [] in
  let ctx : Context := ([a; b'], [("id", AString "i"); ("kind", AString "k")]) in
  let specs := [b.attrNamed "kind" None; b.elemNamed "a" []] in
  validateDetails 3 ∅ ctx specs
  = Ok ((true, [], ([b'], [("id", AString "i")])), [(1, []); (1, [])])
  /\ suffix [b'] [a; b']
  /\ sublist [("id", AString "i")] [("id", AString "i"); ("kind", AString "k")].
Proof.
  intros a b' ctx specs.
  assert (H : validateDetails 3 ∅ ctx specs
              = Ok ((true, [], ([b'], [("id", AString "i")])), [(1, []); (1, [])]))
    by (vm_compute; reflexivity).
  split; [exact H|].
  exact (validateDetails_leaves_a_remainder 3 ∅ ctx specs _ _ H).
Defined.

(** X7.  [validateDetails] writes problems only on elements of the
    document it is matching: on one of the children of the context or
    on an element below one.  Text nodes (and the other kinds of node)
    never receive a problem. *)
Theorem validateDetails_writes_on_elements_of_the_context (fuel : nat) (defs : Defs)
    (ctx : Context) (specs : list Tree) (r : ValidationResult) (lg : Log) :
  validateDetails fuel defs ctx specs = Ok (r, lg) ->
  Forall (fun e => e.1 ∈ flat_map elementLocs ctx.1) lg.
Proof. intros H. exact (proj2 (validateDetails_inv _ _ _ _ _ _ H)). Qed.

Lemma validateDetails_writes_on_elements_of_the_context_witness :
  let doc := x 0 "sec" [] [XText 1 "t"; x 2 "p" [] [XText 3 "u"]] in
  let spec := b.elemNamed "sec" [b.text; b.elemNamed "p" []] in
  validateDetails 4 ∅ ([doc], []) [spec]
  = Ok ((true, [], ([], [])),
        [(2, [expected.noChildren 1]); (2, [expected.noText]); (0, []); (0, [])])
  /\ Forall (fun e : nat * list Problem => e.1 ∈ [0; 2])
       [(2, [expected.noChildren 1]); (2, [expected.noText]); (0, []); (0, [])].
Proof.
  intros doc spec.
  assert (H : validateDetails 4 ∅ ([doc], []) [spec]
              = Ok ((true, [], ([], [])),
                    [(2, [expected.noChildren 1]); (2, [expected.noText]);
                     (0, []); (0, [])]))
    by (vm_compute; reflexivity).
  split; [exact H|].
  exact (validateDetails_writes_on_elements_of_the_context 4 ∅ ([doc], []) [spec] _ _ H).
Defined.

(** *** Collecting the problems *)

Lemma collectProblems_flat log node :
  map snd (collectProblems log true node) = flat_map (problemsAt log) (locs node).
Proof.
  induction node as [loc name attrs children IH|loc value|loc kind]
    using XastNode_nested_ind.
  - cbn [collectProblems locs flat_map]. rewrite map_app, map_map. cbn [snd].
    rewrite map_id. f_equal.
    induction IH as [|c cs Hc _ IHcs]; [reflexivity|].
    cbn [map concat flat_map]. rewrite map_app, flat_map_app, Hc. f_equal. exact IHcs.
  - cbn. by rewrite map_map, map_id, app_nil_r.
  - cbn. by rewrite map_map, map_id, app_nil_r.
Qed.

Lemma flat_map_nil {A B} (l : list A) : flat_map (fun _ => @nil B) l = [].
Proof. induction l; auto. Qed.

Lemma flat_map_app_perm {A B} (g h : A -> list B) l :
  flat_map (fun a => g a ++ h a) l ≡ₚ flat_map g l ++ flat_map h l.
Proof.
  induction l as [|a l IH]; [reflexivity|]. cbn. rewrite IH.
  rewrite <- !app_assoc. apply Permutation_app_head.
  rewrite !app_assoc. apply Permutation_app_tail. apply Permutation_app_comm.
Qed.

Lemma flat_map_at_one {B} (x : nat) (ys : list B) (l : list nat) :
  NoDup l -> x ∈ l ->
  flat_map (fun a => if decide (x = a) then ys else []) l = ys.
Proof.
  induction 1 as [|a l Ha _ IH]; intros Hx; [by apply elem_of_nil in Hx|].
  cbn. destruct (decide (x = a)) as [->|Hne].
  - assert (E : flat_map (fun a0 => if decide (a = a0) then ys else []) l = []).
    { clear IH Hx. induction l as [|c l IHl]; [reflexivity|]. cbn.
      rewrite decide_False by (intros ->; apply Ha; left).
      apply IHl. intros H. apply Ha. by right. }
    by rewrite E, app_nil_r.
  - apply elem_of_cons in Hx as [->|Hx]; [done|]. by apply IH.
Qed.

Lemma problemsAt_perm (log : Log) (l : list nat) :
  NoDup l -> Forall (fun e => e.1 ∈ l) log ->
  flat_map (problemsAt log) l ≡ₚ concat (map snd log).
Proof.
  intros Hnd. induction 1 as [|e log He _ IH].
  - unfold problemsAt. cbn. by rewrite flat_map_nil.
  - assert (E : flat_map (problemsAt (e :: log)) l
                = flat_map (fun a => (if decide (e.1 = a) then e.2 else [])
                                     ++ problemsAt log a) l).
    { apply flat_map_ext. intros a. unfold problemsAt, Log.
      rewrite filter_cons. by case_decide. }
    rewrite E, flat_map_app_perm, flat_map_at_one, IH by done. reflexivity.
Qed.

(** X8.  When the nodes of a document are distinct objects,
    [collectProblems] returns every problem written on one of them
    exactly once: its list is a rearrangement of the problems of all
    the writes.  Without recursion it returns the problems written on
    the node itself. *)
Theorem collectProblems_returns_each_problem_once (log : Log) (node : XastNode) :
  (NoDup (locs node) -> Forall (fun e => e.1 ∈ locs node) log ->
   map snd (collectProblems log true node) ≡ₚ concat (map snd log))
  /\ map snd (collectProblems log false node) = validation log node.
Proof.
  split.
  - intros Hnd Hin. rewrite collectProblems_flat. by apply problemsAt_perm.
  - destruct node; cbn; by rewrite map_map, map_id.
Qed.

Lemma collectProblems_returns_each_problem_once_witness :
  let doc := x 0 "sec" [] [XText 1 "t"; x 2 "p" [] []] in
  let log : Log := [(2, ["c"]); (0, ["a"; "b"]); (2, ["d"])] in
  map snd (collectProblems log true doc) ≡ₚ ["c"; "a"; "b"; "d"].
Proof.
  intros doc log.
  refine (proj1 (collectProblems_returns_each_problem_once log doc) _ _).
  - apply (bool_decide_unpack _). vm_compute. reflexivity.
  - repeat (apply Forall_cons_2; [cbn; apply (bool_decide_unpack _); vm_compute; reflexivity|]).
    constructor.
Defined.

Lemma elementLocs_locs node : elementLocs node ⊆ locs node.
Proof.
  induction node as [loc name attrs children IH|loc value|loc kind]
    using XastNode_nested_ind; [|intros l Hl; by apply elem_of_nil in Hl..].
  intros l Hl. cbn in *. apply elem_of_cons in Hl as [->|Hl]; [left|right].
  induction IH as [|c cs Hc _ IHcs]; [done|].
  cbn in *. apply elem_of_app in Hl as [Hl|Hl]; apply elem_of_app; auto.
Qed.

(** X9.  [validateNode] followed by [collectProblems]: when the nodes
    of the target are distinct objects, the problems collected from the
    target are, up to their order, the problems of all the writes the
    validation made. *)
Theorem validateNode_reports_each_problem_once (fuel : nat) (defs : Defs)
    (target : XastNode) (spec : Tree) (ok : bool) (lg : Log) :
  NoDup (locs target) ->
  validateNode fuel defs target spec = Ok (ok, lg) ->
  map snd (collectProblems lg true target) ≡ₚ concat (map snd lg).
Proof.
  intros Hnd H. rewrite collectProblems_flat. apply problemsAt_perm; [exact Hnd|].
  unfold validateNode in H.
  apply V_bind_Ok in H as (result & l1 & l2 & H1 & H & ->).
  apply V_bind_Ok in H as ([] & l3 & l4 & H3 & H & ->). injection H as _ <-.
  apply validateDetails_inv in H1 as [_ W].
  apply Forall_app. split; [|apply Forall_app; split; [|constructor]].
  - eapply Forall_impl; [exact W|]. intros e He. cbn in He. rewrite app_nil_r in He.
    by apply elementLocs_locs.
  - unfold endValidationOnNode in H3. destruct result as [[? ?] ?].
    cbn in H3. injection H3 as <-.
    assert (Hl : xloc target ∈ locs target) by (destruct target; left).
    repeat (apply Forall_cons_2; [exact Hl|]). constructor.
Qed.

Lemma validateNode_reports_each_problem_once_witness :
  let doc := x 0 "sec" [("id", AString "s")] [x 1 "p" [] [XText 2 "u"]; XText 3 "t"] in
  let spec := b.elemNamed "sec" [b.elemNamed "p" []] in
  let lg : Log :=
    [(1, [expected.noChildren 1]); (1, [expected.noText]);
     (0, []); (0, ["Unexpected attribute: id"; expected.noText]); (0, []); (0, [])] in
  validateNode 4 ∅ doc spec = Ok (true, lg)
  /\ map snd (collectProblems lg true doc) ≡ₚ concat (map snd lg).
Proof.
  intros doc spec lg.
  assert (H : validateNode 4 ∅ doc spec = Ok (true, lg)) by (vm_compute; reflexivity).
  split; [exact H|].
  refine (validateNode_reports_each_problem_once 4 ∅ doc spec true lg _ H).
  apply (bool_decide_unpack _). vm_compute. reflexivity.
Defined.

(** *** Attributes *)

(** X10.  [validateAttribute] reads of the attribute's value only its
    [typeof]: two values of the same type, such as any two strings,
    give the same outcome, whatever the pattern. *)
Theorem validateAttribute_reads_only_the_type (fuel : nat) (defs : Defs)
    (attrName : string) (v1 v2 : AttrValue) (spec : Tree) :
  typeof v1 = typeof v2 ->
  validateAttribute fuel defs attrName v1 spec
  = validateAttribute fuel defs attrName v2 spec.
Proof.
  intros Hty. revert spec. induction fuel as [|fuel IH]; intros spec; [reflexivity|].
  cbn [validateAttribute]. destruct spec as [|n]; [reflexivity|].
  destruct (type n); try reflexivity.
  - unfold bind. destruct (_getRefSingle defs _) as [[d l1]| |]; try reflexivity.
    destruct (expectAttrContent d) as [[c l2]| |]; try reflexivity.
    by rewrite IH.
  - destruct v1, v2; try reflexivity; cbn in Hty |- *;
      repeat case_decide; try discriminate Hty; reflexivity.
Qed.

Lemma validateAttribute_reads_only_the_type_witness :
  validateAttribute 1 ∅ "id" (AString "a") b.text
  = validateAttribute 1 ∅ "id" (AString "b") b.text.
Proof. exact (validateAttribute_reads_only_the_type 1 ∅ "id" _ _ b.text eq_refl). Defined.

(** X11.  An attribute pattern whose content is neither [text] nor a
    [ref] makes the validation throw as soon as the document has the
    attribute; and a [ref] to a definition that holds a [value], a
    [data] or a [choice] is let through by [expectAttrContent] and then
    makes [validateAttribute] throw in the same way. *)
Theorem attribute_content_other_than_text_throws (fuel : nat) (defs : Defs) :
  (forall children attrs restSpecs attrName v (p : NodeOf Tree),
      attr_lookup attrName attrs = Some v ->
      type p <> ty_text -> type p <> ty_ref ->
      validateDetails (S (S fuel)) defs (children, attrs)
        (b.attrNamed attrName (Some (TNode p)) :: restSpecs)
      = Throw ("Unhandled validateAttribute: " +:+ type_name (type p)))
  /\ (forall attrName v name (d c : NodeOf Tree),
        defs !! name = Some d -> children d = Some [TNode c] ->
        type c ∈ [ty_value; ty_data; ty_choice] ->
        validateAttribute (S (S fuel)) defs attrName v (b.ref name)
        = Throw ("Unhandled validateAttribute: " +:+ type_name (type c))).
Proof.
  split.
  - intros children attrs restSpecs attrName v p Hv Ht Hr.
    cbn. rewrite Hv. cbn. destruct (type p); try reflexivity; congruence.
  - intros attrName v name d c Hd Hc Hty.
    cbn. rewrite (_getRefSingle_own _ _ _ Hd). unfold childrenOf. rewrite Hc.
    destruct c as [ty cname ccombine cvalue cdataType cchildren]. cbn in Hty |- *.
    repeat (apply elem_of_cons in Hty as [->|Hty]; [reflexivity|]).
    by apply elem_of_nil in Hty.
Qed.

Lemma attribute_content_other_than_text_throws_witness :
  validateDetails 2 ∅ ([], [("kind", AString "note")])
    [b.attrNamed "kind" (Some (b.value "note"))]
  = Throw "Unhandled validateAttribute: value"
  /\ validateAttribute 2 (addDef (mkNode ty_define (Some "kinds") None None None
                                    (Some [b.choice [b.value "a"; b.value "b"]])) ∅)
       "kind" (AString "a") (b.ref "kinds")
     = Throw "Unhandled validateAttribute: choice".
Proof.
  split.
  - refine (proj1 (attribute_content_other_than_text_throws 0 ∅)
              [] [("kind", AString "note")] [] "kind" (AString "note")
              (mkNode ty_value None None (Some "note") None None) _ _ _);
      [reflexivity|discriminate..].
  - refine (proj2 (attribute_content_other_than_text_throws 0 _)
              "kind" (AString "a") "kinds" _
              (mkNode ty_choice None None None None (Some [b.value "a"; b.value "b"]))
              _ _ _).
    + vm_compute. reflexivity.
    + reflexivity.
    + right. right. left.
Defined.

Lemma bind_returnsOrThrows {A B} (m : V A) (k : A -> V B) :
  returnsOrThrows m -> (forall a lg, m = Ok (a, lg) -> returnsOrThrows (k a)) ->
  returnsOrThrows (bind m k).
Proof.
  unfold returnsOrThrows, bind. intros Hm Hk.
  destruct m as [[a lg]| |]; [|discriminate|contradiction].
  specialize (Hk a lg eq_refl). by destruct (k a) as [[? ?]| |].
Qed.

Lemma childrenOf_returnsOrThrows n : returnsOrThrows (childrenOf n).
Proof. unfold childrenOf. by destruct (children n). Qed.

Lemma chain_from_returnsOrThrows steps :
  Forall (fun step : Context -> V ValidationResult =>
            forall ctx, returnsOrThrows (step ctx)) steps ->
  forall ctx acc, returnsOrThrows (chain_from ctx acc steps).
Proof.
  induction 1 as [|step steps Hstep _ IH]; intros ctx acc.
  - by destruct acc.
  - cbn [chain_from]. apply bind_returnsOrThrows; [apply Hstep|]. intros; apply IH.
Qed.

Lemma chainIfOk_from_returnsOrThrows steps :
  Forall (fun step : Context -> V ValidationResult =>
            forall ctx, returnsOrThrows (step ctx)) steps ->
  forall ctx acc, returnsOrThrows (chainIfOk_from ctx acc steps).
Proof.
  induction 1 as [|step steps Hstep _ IH]; intros ctx acc.
  - by destruct acc.
  - cbn [chainIfOk_from]. apply bind_returnsOrThrows; [apply Hstep|].
    intros r lg _. destruct (res_ok _); [apply IH|discriminate].
Qed.

Lemma fallback_from_returnsOrThrows options :
  Forall (fun opt : unit -> V ValidationResult => returnsOrThrows (opt tt)) options ->
  forall acc, returnsOrThrows (fallback_from acc options).
Proof.
  induction 1 as [|opt options Hopt _ IH]; intros acc.
  - by destruct acc.
  - cbn [fallback_from]. apply bind_returnsOrThrows; [apply Hopt|].
    intros r lg _. destruct (res_ok r); [discriminate|apply IH].
Qed.

Lemma weights_app l1 l2 : weights (l1 ++ l2) = weights l1 + weights l2.
Proof. unfold weights. by rewrite map_app, list_sum_app. Qed.

Lemma weights_cons_node ty nm cb vl dt cs rest :
  weights (TNode (mkNode ty nm cb vl dt cs) :: rest)
  = 2 + match cs with None => 0 | Some cs => weights cs end + weights rest.
Proof. by destruct cs. Qed.

Lemma weights_one ch : weights [ch] = weight ch.
Proof. unfold weights. cbn. lia. Qed.

Lemma straight_node ty nm cb vl dt cs :
  straight (TNode (mkNode ty nm cb vl dt cs)) = true ->
  ty <> ty_oneOrMore /\ ty <> ty_zeroOrMore /\ ty <> ty_ref
  /\ forall l, cs = Some l -> forallb straight l = true.
Proof.
  cbn [straight]. intros H. apply andb_true_iff in H as [Hty Hcs].
  apply negb_true_iff, bool_decide_eq_false in Hty.
  repeat split; try (intros ->; apply Hty; set_solver).
  intros l ->. exact Hcs.
Qed.

Lemma weight_in ch cs : ch ∈ cs -> weight ch <= weights cs.
Proof.
  induction 1 as [ch cs|ch c cs _ IH]; unfold weights, list_sum in *;
    cbn [map fold_right]; lia.
Qed.

Lemma validateAttribute_returnsOrThrows fuel defs attrName attrValue spec :
  straight spec = true ->
  returnsOrThrows (validateAttribute (S fuel) defs attrName attrValue spec).
Proof.
  intros Hs. cbn [validateAttribute]. destruct spec as [|[ty nm cb vl dt cs]]; [discriminate|].
  apply straight_node in Hs as (_ & _ & Href & _). cbn [type].
  destruct ty; try discriminate; [congruence|]. by destruct attrValue.
Qed.

Lemma validateDetails_returnsOrThrows defs fuel : forall ctx specs,
  forallb straight specs = true -> weights specs < fuel ->
  returnsOrThrows (validateDetails fuel defs ctx specs).
Proof.
  induction fuel as [|fuel IH]; intros [children attrs] specs Hs Hw; [lia|].
  cbn [validateDetails].
  destruct specs as [|[|[ty nm cb vl dt cs]] restSpecs]; [discriminate..|].
  cbn [forallb] in Hs. apply andb_true_iff in Hs as [Hspec Hrest].
  apply straight_node in Hspec as (H1 & H0 & Href & Hcs).
  assert (Hwr : weights restSpecs + 2 + match cs with
                                        | None => 0
                                        | Some cs => weights cs
                                        end <= fuel).
  { rewrite weights_cons_node in Hw. lia. }
  assert (Hr : forall ctx, returnsOrThrows (validateDetails fuel defs ctx restSpecs))
    by (intros ctx; apply IH; [exact Hrest|lia]).
  assert (Hproblem : forall ctx problem,
             returnsOrThrows
               (r <- validateDetails fuel defs ctx restSpecs ;;
                ret (concat2 (invalid ctx problem) r))).
  { intros ctx problem. apply bind_returnsOrThrows; [apply Hr|discriminate]. }
  assert (Hinner : forall ctx,
             returnsOrThrows
               (cs' <- childrenOf (mkNode ty nm cb vl dt cs) ;;
                validateDetails fuel defs ctx cs')).
  { intros ctx. apply bind_returnsOrThrows; [apply childrenOf_returnsOrThrows|].
    intros cs' lg Hc. unfold childrenOf in Hc. cbn in Hc.
    destruct cs as [l|]; [|discriminate]. injection Hc as <- _.
    apply IH; [by apply Hcs|lia]. }
  cbn [type name].
  destruct ty; try discriminate; try congruence.
  - (* elementNamed *)
    destruct children as [|[cl cname cattrs cchildren|cl v|cl k] restChildren];
      try apply Hproblem.
    case_decide; [|apply Hproblem].
    apply bind_returnsOrThrows; [apply childrenOf_returnsOrThrows|].
    intros cs' lg Hc. unfold childrenOf in Hc. cbn in Hc.
    destruct cs as [l|]; [|discriminate]. injection Hc as <- _.
    apply bind_returnsOrThrows; [apply IH; [by apply Hcs|lia]|]. intros inner lg' _.
    apply bind_returnsOrThrows; [by destruct inner as [[? ?] ?]|]. intros; apply Hr.
  - (* attributeNamed *)
    destruct (attr_lookup _ attrs) as [attr|]; [|apply Hproblem].
    apply bind_returnsOrThrows; [apply childrenOf_returnsOrThrows|].
    intros cs' lg Hc. unfold childrenOf in Hc. cbn in Hc.
    destruct cs as [l|]; [|discriminate]. injection Hc as <- _.
    destruct fuel as [|fuel']; [lia|].
    apply bind_returnsOrThrows.
    + apply validateAttribute_returnsOrThrows.
      specialize (Hcs l eq_refl). destruct l as [|c l]; [reflexivity|].
      cbn in Hcs |- *. by apply andb_true_iff in Hcs as [? _].
    + intros r1 lg1 _. apply bind_returnsOrThrows; [apply Hr|discriminate].
  - (* group *)
    apply bind_returnsOrThrows; [apply childrenOf_returnsOrThrows|].
    intros cs' lg Hc. unfold childrenOf in Hc. cbn in Hc.
    destruct cs as [l|]; [|discriminate]. injection Hc as <- _.
    apply IH; [|rewrite weights_app; lia].
    rewrite forallb_app, Hrest, (Hcs l eq_refl). reflexivity.
  - (* choice *)
    apply bind_returnsOrThrows; [apply childrenOf_returnsOrThrows|].
    intros cs' lg Hc. unfold childrenOf in Hc. cbn in Hc.
    destruct cs as [l|]; [|discriminate]. injection Hc as <- _.
    apply fallback_from_returnsOrThrows. apply Forall_app. split.
    + apply Forall_forall. intros opt Hopt.
      apply list_elem_of_fmap in Hopt as (ch & -> & Hch).
      apply chain_from_returnsOrThrows.
      apply Forall_cons_2; [|apply Forall_cons_2; [exact Hr|constructor]].
      intros ctx. apply IH.
      * cbn. rewrite andb_true_r. specialize (Hcs l eq_refl).
        rewrite forallb_forall in Hcs. by apply Hcs, list_elem_of_In.
      * pose proof (weight_in _ _ Hch). rewrite weights_one. lia.
    + apply Forall_cons_2; [discriminate|constructor].
  - (* optional *)
    apply fallback_from_returnsOrThrows.
    apply Forall_cons_2; [|apply Forall_cons_2; [apply Hr|constructor]].
    apply chain_from_returnsOrThrows.
    apply Forall_cons_2; [exact Hinner|apply Forall_cons_2; [exact Hr|constructor]].
  - (* empty *)
    by destruct children.
  - (* text *)
    destruct children as [|[cl cname cattrs cchildren|cl v|cl k] restChildren];
      try apply Hproblem. apply Hr.
Qed.

(** X12.  On patterns without [oneOrMore], [zeroOrMore] and [ref] the
    validator stops: with a budget above the size of the patterns (two
    for each node) [validateDetails] returns or throws, on every
    document and with every table of definitions. *)
Theorem validateDetails_stops_without_repetition (fuel : nat) (defs : Defs)
    (ctx : Context) (specs : list Tree) :
  forallb straight specs = true ->
  list_sum (map weight specs) < fuel ->
  validateDetails fuel defs ctx specs <> OutOfFuel.
Proof. apply validateDetails_returnsOrThrows. Qed.

Lemma validateDetails_stops_without_repetition_witness :
  let specs :=
    [b.elemNamed "sec" [b.optional [b.attrNamed "id" None];
                        b.choice [b.elemNamed "p" [b.text]; b.elemNamed "q" []]]] in
  validateDetails 21 ∅ ([x 0 "sec" [] [x 1 "q" [] []]], []) specs <> OutOfFuel.
Proof.
  intros specs.
  apply (validateDetails_stops_without_repetition 21 ∅ _ specs); [reflexivity|].
  vm_compute. lia.
Defined.

(** *** The constructor *)

Lemma checkDefines_defines defs :
  Forall (fun d : NodeOf Tree => type d = ty_define) defs ->
  checkDefines (TNode <$> defs) = Ok defs.
Proof.
  induction 1 as [|d defs Hd _ IH]; [reflexivity|].
  cbn. rewrite decide_False by (intros Hne; by apply Hne). cbn in IH. by rewrite IH.
Qed.

Lemma last_cons_cons {A} (a b : A) l : last (a :: b :: l) = last (b :: l).
Proof. reflexivity. Qed.

Lemma addDefs_lookup defs : forall (table : Defs) nm,
  addDefs defs table !! nm
  = match last (filter (fun d => str_of (name d) = nm) defs) with
    | Some d => Some d
    | None => table !! nm
    end.
Proof.
  induction defs as [|d defs IH]; intros table nm; [reflexivity|].
  unfold addDefs in *. cbn [fold_left]. rewrite IH, filter_cons. unfold addDef.
  destruct (decide (str_of (name d) = nm)) as [<-|Hne].
  - destruct (filter _ defs) as [|d' l]; [by rewrite lookup_insert_eq|].
    rewrite last_cons_cons. destruct (last (d' :: l)) eqn:E; [reflexivity|].
    by apply last_None in E.
  - by rewrite lookup_insert_ne.
Qed.

(** X13.  The constructor of [RelaxNgValidator].  On a grammar that
    begins with a [start] and goes on with [define]s it returns a
    validator whose table holds, under each name, the last [define] of
    that name (own entries of [this.defs]; a [define] named [__proto__]
    would not become one).  It throws "Grammar should begin with start"
    when the first child is another node, and "Should not have multiple
    starts" when a later child is anything but a [define]. *)
Theorem constructor_keeps_the_last_define (first : NodeOf Tree)
    (defs : list (NodeOf Tree)) :
  (type first = ty_start ->
   Forall (fun d => type d = ty_define) defs ->
   Forall (fun d => name d <> Some "__proto__") defs ->
   exists this,
     constructor (b.root (b.grammar (TNode first) (TNode <$> defs))) = Ok this
     /\ this_specStart this = first
     /\ forall nm, this_defs this !! nm
                   = last (filter (fun d => str_of (name d) = nm) defs))
  /\ (forall rest,
        type first <> ty_start ->
        constructor (b.root (b.grammar (TNode first) rest))
        = Throw "Grammar should begin with start")
  /\ (forall (other : NodeOf Tree) rest,
        type first = ty_start ->
        Forall (fun d => type d = ty_define) defs ->
        type other <> ty_define ->
        constructor (b.root (b.grammar (TNode first)
                               ((TNode <$> defs) ++ TNode other :: rest)))
        = Throw "Should not have multiple starts").
Proof.
  split; [|split].
  - intros Hs Hd _. eexists. cbn.
    rewrite decide_False by (intros Hne; by apply Hne).
    pose proof (checkDefines_defines defs Hd) as Hc. cbn in Hc. rewrite Hc.
    split; [reflexivity|]. split; [reflexivity|]. intros nm. cbn.
    rewrite addDefs_lookup, lookup_empty. by destruct (last _).
  - intros rest Hs. cbn. by rewrite decide_True.
  - intros other rest Hs Hd Ho. cbn.
    rewrite decide_False by (intros Hne; by apply Hne).
    assert (E : checkDefines ((TNode <$> defs) ++ TNode other :: rest)
                = Throw "Should not have multiple starts").
    { induction Hd as [|d defs' Hd' _ IH].
      - cbn. by rewrite decide_True.
      - cbn. rewrite decide_False by (intros Hne; by apply Hne). cbn in IH. by rewrite IH. }
    cbn in E. by rewrite E.
Qed.

Lemma constructor_keeps_the_last_define_witness :
  let first := mkNode ty_start None None None None (Some [b.ref "doc"]) in
  let define n p := mkNode ty_define (Some n) None None None (Some [p]) in
  let defs := [define "doc" (b.elemNamed "a" []); define "par" (b.elemNamed "p" []);
               define "doc" (b.elemNamed "b" [])] in
  exists this,
    constructor (b.root (b.grammar (TNode first) (TNode <$> defs))) = Ok this
    /\ this_specStart this = first
    /\ forall nm, this_defs this !! nm
                  = last (filter (fun d => str_of (name d) = nm) defs).
Proof.
  intros first define defs.
  apply (proj1 (constructor_keeps_the_last_define first defs)).
  - reflexivity.
  - repeat (apply Forall_cons_2; [reflexivity|]). constructor.
  - repeat (apply Forall_cons_2; [discriminate|]). constructor.
Defined.

End ValidatorLaws.

(** * Further properties of the simplifier *)

Module SimplifierLaws.
Import Simplifier SimplifierSpec StoreSpec.
Local Open Scope simplifier_scope.

(** *** New names *)

Lemma to_uint_not_nil n : Nat.to_uint n <> Decimal.Nil.
Proof.
  intros H. pose proof (Unsigned.of_to n) as E. rewrite H in E. cbn in E. subst n.
  discriminate H.
Qed.

Lemma show_nat_inj : Inj eq eq show_nat.
Proof.
  intros a b H. unfold show_nat in H. apply Unsigned.to_uint_inj.
  apply (f_equal NilZero.uint_of_string) in H.
  rewrite !NilZero.usu in H by apply to_uint_not_nil. by injection H.
Qed.

Lemma candidate_inj name : Inj eq eq (candidate name).
Proof.
  intros a b H. unfold candidate in H.
  apply String.app_inj, String.app_inj in H. by apply show_nat_inj.
Qed.

Lemma determineNewNameFrom_finds (name : option string) (names : gset (option string)) w : forall fuel n k,
  n < k -> k - n <= fuel ->
  (forall j, n < j < k -> Some (candidate name j) ∈ names) ->
  Some (candidate name k) ∉ names ->
  determineNewNameFrom fuel n name names w = Ok (candidate name k, w).
Proof.
  induction fuel as [|fuel IH]; intros n k Hlt Hfuel Hbelow Hk; [lia|].
  cbn [determineNewNameFrom]. fold (candidate name (S n)).
  destruct (decide (S n = k)) as [<-|Hne].
  - by rewrite decide_False.
  - rewrite decide_True by (apply Hbelow; lia).
    apply IH; [lia..| |exact Hk]. intros j Hj. apply Hbelow. lia.
Qed.

(** Among the first [m] candidates either one is free, and then there
    is a first such, or all are taken. *)
Lemma first_free_candidate (name : option string) (names : gset (option string)) m :
  (exists k, 1 <= k <= m /\ (Some (candidate name k) ∉ names)
             /\ (forall j, 1 <= j < k -> Some (candidate name j) ∈ names))
  \/ (forall j, 1 <= j <= m -> Some (candidate name j) ∈ names).
Proof.
  induction m as [|m [(k & Hk & Hfree & Hbelow)|Hall]].
  - right. intros j Hj. lia.
  - left. exists k. split; [lia|]. by split.
  - destruct (decide (Some (candidate name (S m)) ∈ names)) as [Hin|Hout].
    + right. intros j Hj. destruct (decide (j = S m)) as [->|]; [exact Hin|].
      apply Hall. lia.
    + left. exists (S m). split; [lia|]. split; [exact Hout|].
      intros j Hj. apply Hall. lia.
Qed.

Lemma not_all_candidates_taken (name : option string) (names : gset (option string)) :
  ~ (forall j, 1 <= j <= S (size names) -> Some (candidate name j) ∈ names).
Proof.
  intros Hall.
  set (l := (fun j => Some (candidate name j)) <$> seq 1 (S (size names))).
  assert (Hnd : NoDup l).
  { apply NoDup_fmap_2; [|apply NoDup_seq].
    intros a b [= H]. by apply candidate_inj in H. }
  assert (Hsub : (list_to_set l : gset (option string)) ⊆ names).
  { intros x Hx. apply elem_of_list_to_set, list_elem_of_fmap in Hx as (j & -> & Hj).
    apply elem_of_seq in Hj. apply Hall. lia. }
  apply subseteq_size in Hsub. rewrite size_list_to_set in Hsub by exact Hnd.
  subst l. rewrite length_fmap, length_seq in Hsub. lia.
Qed.

(** X14.  [determineNewName] returns the first of the names [name__1],
    [name__2], ... that is not in [names]: it is not in [names], every
    earlier one is, and it is found within one more round than [names]
    has elements.  The store is not touched. *)
Theorem determineNewName_returns_the_first_free_name (fuel : nat)
    (name : option string) (names : gset (option string)) (w : World) :
  size names < fuel ->
  exists k,
    1 <= k <= S (size names)
    /\ determineNewName fuel name names w = Ok (candidate name k, w)
    /\ (Some (candidate name k) ∉ names)
    /\ (forall j, 1 <= j < k -> Some (candidate name j) ∈ names).
Proof.
  intros Hfuel.
  destruct (first_free_candidate name names (S (size names)))
    as [(k & Hk & Hfree & Hbelow)|Hall]; [|by apply not_all_candidates_taken in Hall].
  exists k. split; [exact Hk|]. split; [|by split].
  apply determineNewNameFrom_finds; [lia..| |exact Hfree].
  intros j Hj. apply Hbelow. lia.
Qed.

Lemma determineNewName_returns_the_first_free_name_witness :
  exists k,
    1 <= k <= 3
    /\ determineNewName 3 (Some "p") {[Some "p"; Some "p__1"]} emptyWorld
       = Ok (candidate (Some "p") k, emptyWorld)
    /\ (Some (candidate (Some "p") k) ∉ ({[Some "p"; Some "p__1"]} : gset (option string)))
    /\ (forall j, 1 <= j < k ->
                  Some (candidate (Some "p") j)
                  ∈ ({[Some "p"; Some "p__1"]} : gset (option string))).
Proof.
  assert (Hs : size ({[Some "p"; Some "p__1"]} : gset (option string)) = 2)
    by (vm_compute; reflexivity).
  pose proof (determineNewName_returns_the_first_free_name 3 (Some "p")
                {[Some "p"; Some "p__1"]} emptyWorld) as H.
  rewrite Hs in H. apply H. lia.
Defined.


(** *** The closest grammar *)

Lemma findClosestGrammarIn_nth w l : forall skip : bool,
  Forall (fun a => is_Some (cells w !! a)) l ->
  findClosestGrammarIn l skip w
  = match filter (fun a => typeAt w a = Some ty_grammar) l
          !! (if skip then 1 else 0) with
    | Some g => Ok (g, w)
    | None => Throw "Each ref or parentRef must be within a grammar"
    end.
Proof.
  induction l as [|a l IH]; intros skip Hall; [by destruct skip|].
  apply Forall_cons in Hall as [[n Hn] Hall].
  cbn [findClosestGrammarIn]. unfold bind. rewrite (SimplifierProps.load_ok _ _ _ Hn).
  rewrite filter_cons.
  assert (Ht : typeAt w a = Some (type n)) by (unfold typeAt; by rewrite Hn).
  destruct (decide (type n = ty_grammar)) as [E|E].
  - rewrite decide_True by (by rewrite Ht, E).
    destruct skip; [|reflexivity]. by rewrite IH.
  - rewrite decide_False by (rewrite Ht; intros [= ?]; done). by apply IH.
Qed.

(** X15.  [findClosestGrammar] returns, for a [ref], the innermost
    ancestor that is a grammar and, for a [parentRef], the one after it
    going outwards; it throws when there is none. *)
Theorem findClosestGrammar_returns_the_enclosing_grammar (w : World)
    (ancestors : list addr) (refType : NodeType) :
  Forall (fun a => is_Some (cells w !! a)) ancestors ->
  findClosestGrammar ancestors refType w
  = match filter (fun a => typeAt w a = Some ty_grammar) (rev ancestors)
          !! (if decide (refType = ty_parentRef) then 1 else 0) with
    | Some g => Ok (g, w)
    | None => Throw "Each ref or parentRef must be within a grammar"
    end.
Proof.
  intros Hall. unfold findClosestGrammar. rewrite findClosestGrammarIn_nth.
  - unfold bool_decide. by destruct (decide_rel _ _ _).
  - apply Forall_forall. intros a Ha. rewrite Forall_forall in Hall. apply Hall.
    by apply list_elem_of_In, in_rev, list_elem_of_In.
Qed.

Lemma findClosestGrammar_returns_the_enclosing_grammar_witness :
  findClosestGrammar [4; 3; 9; 8] ty_ref twoGrammars = Ok (9, twoGrammars)
  /\ findClosestGrammar [4; 3; 9; 8] ty_parentRef twoGrammars = Ok (4, twoGrammars).
Proof.
  assert (Hall : Forall (fun a => is_Some (cells twoGrammars !! a)) [4; 3; 9; 8]).
  { repeat (apply Forall_cons_2; [eexists; vm_compute; reflexivity|]). constructor. }
  split.
  - refine (eq_trans (findClosestGrammar_returns_the_enclosing_grammar
                        twoGrammars [4; 3; 9; 8] ty_ref Hall) _).
    vm_compute. reflexivity.
  - refine (eq_trans (findClosestGrammar_returns_the_enclosing_grammar
                        twoGrammars [4; 3; 9; 8] ty_parentRef Hall) _).
    vm_compute. reflexivity.
Defined.


(** *** The top-level grammar *)

(** X16.  When [ensureTopLevelGrammar] returns, what it returns is a
    grammar and the only child of the root; and a second call returns
    the same grammar and leaves the store as it is.  (The passes call
    it once each and rely on getting the same grammar.) *)
Theorem ensureTopLevelGrammar_is_idempotent (w w' : World) (tree g : addr) :
  wellFormed w ->
  ensureTopLevelGrammar tree w = Ok (g, w') ->
  typeAt w' g = Some ty_grammar
  /\ childrenAt w' tree = Some [Some g]
  /\ ensureTopLevelGrammar tree w' = Ok (g, w').
Proof.
  intros Hwf H. unfold ensureTopLevelGrammar, getChildren in H.
  unfold bind at 1 in H. unfold bind at 1 in H. unfold load at 1 in H.
  destruct (cells w !! tree) as [n|] eqn:Hn; [|discriminate].
  unfold childrenOf at 1 in H. destruct (children n) as [cs|] eqn:Hcs; [|discriminate].
  unfold ret at 1 in H.
  destruct (decide (length cs <> 1)) as [|Hlen]; [discriminate|].
  destruct cs as [|v [|? ?]]; try (exfalso; apply Hlen; cbn; lia).
  cbn [at_ lookup list_lookup mjoin option_join] in H.
  destruct v as [c|]; [|discriminate].
  unfold bind at 1 in H. cbn [deref] in H. unfold load at 1 in H.
  destruct (cells w !! c) as [nc|] eqn:Hc; [|discriminate].
  assert (Hlt : tree < next w) by (eapply SimplifierProps.allocated_lt; eauto).
  destruct (decide (type nc <> ty_grammar)) as [Hty|Hty].
  - (* a grammar is put around the pattern *)
    cbn in H. unfold bind, setChildren, bind, load, store in H. cbn [cells next] in H.
    rewrite !lookup_insert_ne in H by lia. rewrite Hn in H. cbn in H.
    injection H as <- <-.
    unfold typeAt, childrenAt. cbn [cells].
    rewrite lookup_insert_ne, !lookup_insert_eq by lia.
    split; [reflexivity|]. split; [reflexivity|].
    unfold ensureTopLevelGrammar, getChildren, bind, load. cbn [cells].
    rewrite lookup_insert_eq. cbn -[lookup insert].
    rewrite decide_False by (intros Hne; by apply Hne).
    change (at_ [Some (S (next w))] 0) with (Some (S (next w))).
    cbn [deref]. unfold load. cbn [cells].
    rewrite lookup_insert_ne, lookup_insert_eq by lia. cbn [type].
    by rewrite decide_False by (intros Hne; by apply Hne).
  - assert (E : type nc = ty_grammar)
      by (destruct (decide (type nc = ty_grammar)); [done|contradiction]).
    injection H as <- <-.
    split; [unfold typeAt; by rewrite Hc, <- E|].
    split; [unfold childrenAt; by rewrite Hn|].
    unfold ensureTopLevelGrammar, getChildren, bind, load. rewrite Hn.
    unfold childrenOf. rewrite Hcs. unfold ret at 1.
    rewrite (decide_False (P := length [Some c] <> 1)) by exact Hlen.
    change (at_ [Some c] 0) with (Some c). cbn [deref]. unfold load. rewrite Hc.
    by rewrite decide_False.
Qed.

Lemma wellFormed_from_dom w :
  dom (cells w) = list_to_set (seq 0 (next w)) -> wellFormed w.
Proof.
  intros Hd a Ha. destruct (cells w !! a) as [n|] eqn:E; [|reflexivity]. exfalso.
  apply elem_of_dom_2 in E. rewrite Hd in E.
  apply elem_of_list_to_set, elem_of_seq in E. lia.
Qed.

Lemma ensureTopLevelGrammar_is_idempotent_witness :
  exists w',
    ensureTopLevelGrammar 1 bareText = Ok (3, w')
    /\ typeAt w' 3 = Some ty_grammar
    /\ childrenAt w' 1 = Some [Some 3]
    /\ ensureTopLevelGrammar 1 w' = Ok (3, w').
Proof.
  eexists. split; [vm_compute; reflexivity|].
  apply (ensureTopLevelGrammar_is_idempotent bareText).
  - apply wellFormed_from_dom. vm_compute. reflexivity.
  - vm_compute. reflexivity.
Defined.


(** *** Combine elimination on a grammar without duplicates *)

Lemma pushDefine_fresh k c (m : list (option string * list addr)) :
  k ∉ m.*1 -> pushDefine k c m = m ++ [(k, [c])].
Proof.
  induction m as [|[k' defs] m IH]; intros Hk; [reflexivity|].
  cbn [pushDefine]. rewrite decide_False by (intros ->; apply Hk; left).
  cbn. rewrite IH; [reflexivity|]. intros H. apply Hk. by right.
Qed.

Lemma definesOf_cons w a n cs :
  cells w !! a = Some n ->
  definesOf w (Some a :: cs)
  = (if decide (type n = ty_define) then [a] else []) ++ definesOf w cs.
Proof. intros Hn. unfold definesOf. cbn. rewrite Hn. cbn. by case_decide. Qed.

Lemma definesOf_allocated w cs a :
  a ∈ definesOf w cs -> exists n, cells w !! a = Some n /\ type n = ty_define.
Proof.
  unfold definesOf. rewrite list_elem_of_omap. intros ([a'|] & _ & H); [|discriminate].
  cbn in H. destruct (cells w !! a') as [n|] eqn:E; [|discriminate]. cbn in H.
  case_decide; [|discriminate]. injection H as <-. eauto.
Qed.

Lemma collectStartsAndDefines_distinct w cs :
  Forall (fun v => is_Some (nodeAt w v)) cs ->
  forall starts defs,
    NoDup (defs.*1 ++ (nameAt w <$> definesOf w cs)) ->
    collectStartsAndDefines cs starts defs w
    = Ok ((starts ++ startsOf w cs,
           defs ++ ((fun d => (nameAt w d, [d])) <$> definesOf w cs)), w).
Proof.
  induction 1 as [|v cs [n Hn] _ IH]; intros starts defs Hnd.
  - cbn. by rewrite !app_nil_r.
  - destruct v as [a|]; [|discriminate]. cbn in Hn.
    cbn [collectStartsAndDefines]. unfold bind at 1. cbn [deref].
    rewrite (SimplifierProps.load_ok _ _ _ Hn).
    rewrite (SimplifierProps.startsOf_cons _ _ _ _ Hn), (definesOf_cons _ _ _ _ Hn).
    rewrite (definesOf_cons _ _ _ _ Hn) in Hnd.
    destruct (decide (type n = ty_start)) as [E|E].
    + rewrite E in Hnd |- *. rewrite decide_False in Hnd |- * by discriminate.
      cbn [app] in Hnd |- *. rewrite IH by exact Hnd. by rewrite <- app_assoc.
    + destruct (decide (type n = ty_define)) as [E'|E'].
      * rewrite E'. cbn [app fmap list_fmap] in Hnd |- *.
        assert (Hname : nameAt w a = name n) by (unfold nameAt; by rewrite Hn).
        rewrite Hname in Hnd |- *.
        rewrite pushDefine_fresh.
        2:{ apply NoDup_app in Hnd as (_ & Hd & _). intros Hin. apply (Hd _ Hin). left. }
        rewrite IH.
        -- by rewrite <- app_assoc.
        -- rewrite fmap_app, <- app_assoc. exact Hnd.
      * cbn [app] in Hnd |- *.
        destruct (type n); try congruence; by rewrite IH.
Qed.

Lemma combine_single w a n builder errorName :
  cells w !! a = Some n -> Simplifier.combine [a] builder errorName w = Ok (a, w).
Proof.
  intros Hn. unfold Simplifier.combine. cbn [mapArr]. unfold bind.
  rewrite (SimplifierProps.load_ok _ _ _ Hn). reflexivity.
Qed.

Lemma mapArr_combine_singles w (ds : list addr) :
  Forall (fun d => is_Some (cells w !! d)) ds ->
  mapArr (fun kd : option string * list addr =>
            Simplifier.combine kd.2 (fun defs => r.define kd.1 defs)
              ("defines for name " +:+ str_of kd.1))
    ((fun d => (nameAt w d, [d])) <$> ds) w
  = Ok (ds, w).
Proof.
  induction 1 as [|d ds [n Hn] _ IH]; [reflexivity|].
  cbn [fmap list_fmap mapArr]. unfold bind at 1. cbn [snd].
  rewrite (combine_single _ _ _ _ _ Hn). unfold bind at 1.
  cbn [fmap list_fmap] in IH. by rewrite IH.
Qed.

(** X17.  On a grammar with one [start] and no two [define]s of the same
    name, the combine-elimination pass only rearranges the children:
    the [start] comes first and the [define]s follow in their order.
    Children that are neither are dropped, no node is created and no
    other node is changed, so a [combine] attribute that was there
    stays. *)
Theorem eliminateCombineIn_without_duplicates (w : World) (g : addr) (ng : Node)
    (cs : list Value) (s : addr) :
  cells w !! g = Some ng ->
  children ng = Some cs ->
  Forall (fun v => is_Some (nodeAt w v)) cs ->
  startsOf w cs = [s] ->
  NoDup (nameAt w <$> definesOf w cs) ->
  eliminateCombineIn g w
  = Ok (tt, mkWorld
              (<[g := mkNode (type ng) (name ng) (Ast.combine ng) (value ng)
                        (dataType ng) (Some (Some s :: (Some <$> definesOf w cs)))]>
                 (cells w))
              (next w)).
Proof.
  intros Hg Hcs Hall Hs Hnd.
  unfold eliminateCombineIn, getChildren. unfold bind at 1. unfold bind at 1.
  rewrite (SimplifierProps.load_ok _ _ _ Hg). unfold childrenOf. rewrite Hcs.
  unfold ret at 1. unfold bind at 1.
  rewrite (collectStartsAndDefines_distinct w cs Hall [] []) by exact Hnd.
  cbn [app]. rewrite Hs. rewrite decide_False by discriminate.
  assert (Hsn : is_Some (cells w !! s)).
  { destruct (SimplifierProps.startsOf_allocated w cs s) as (n & Hn & _); [|eauto].
    rewrite Hs. left. }
  destruct Hsn as [n Hn].
  unfold bind at 1. rewrite (combine_single _ _ _ _ _ Hn).
  unfold bind at 1. rewrite mapArr_combine_singles.
  - unfold setChildren, bind, store. rewrite (SimplifierProps.load_ok _ _ _ Hg).
    reflexivity.
  - apply Forall_forall. intros d Hd.
    destruct (definesOf_allocated _ _ _ Hd) as (nd & Hnd' & _). eauto.
Qed.

Lemma eliminateCombineIn_without_duplicates_witness :
  eliminateCombineIn 9 unorderedGrammar
  = Ok (tt, mkWorld
              (<[9 := mkNode ty_grammar None None None None
                        (Some [Some 1; Some 4; Some 8])]>
                 (cells unorderedGrammar))
              (next unorderedGrammar))
  /\ combineAt unorderedGrammar 4 = Some cm_choice.
Proof.
  split; [|vm_compute; reflexivity].
  refine (eliminateCombineIn_without_duplicates unorderedGrammar 9
            (mkNode ty_grammar None None None None
               (Some [Some 4; Some 5; Some 1; Some 8]))
            [Some 4; Some 5; Some 1; Some 8] 1 _ _ _ _ _).
  - vm_compute. reflexivity.
  - reflexivity.
  - repeat (apply Forall_cons_2; [eexists; vm_compute; reflexivity|]). constructor.
  - vm_compute. reflexivity.
  - apply (bool_decide_unpack _). vm_compute. reflexivity.
Defined.

End SimplifierLaws.

(** * Properties of the converter *)

Module ConverterProps.
Import XastToRngast ConverterSpec.

Section filtering_facts.
Variable test : string -> bool.
Variable isValid : XastNode -> bool.

Lemma omap_filter_map {A B} (keep : A -> bool) (f : A -> B) (l : list A) :
  omap (fun a => if keep a then Some (f a) else None) l
  = map f (filter (fun a => keep a) l).
Proof.
  induction l as [|a l IH]; [reflexivity|].
  cbn [omap]. rewrite filter_cons.
  destruct (keep a) eqn:E.
  - rewrite decide_True by done. cbn. rewrite E. cbn. f_equal. exact IH.
  - rewrite decide_False by (intros []). cbn. rewrite E. exact IH.
Qed.

Lemma filterBelow_element loc name attrs children :
  filterBelow test isValid (XElement loc name attrs children)
  = XElement loc name attrs
      (map (filterBelow test isValid) (filter (fun ch => keepBelow test isValid "element" ch) children)).
Proof.
  cbn [filterBelow]. f_equal.
  apply (omap_filter_map (keepBelow test isValid "element")).
Qed.
End filtering_facts.


(** *** The clean-up passes *)

Lemma noBlankText_valid n : noBlankText n = true -> isValidWS n = true.
Proof. destruct n; cbn; auto. Qed.

Lemma removeWhiteSpace_below n :
  isValidWS n = true ->
  noBlankText (filterBelow testWS isValidWS n) = true.
Proof.
  induction n as [loc name attrs children IH|loc value|loc kind]
    using XastNode_nested_ind; intros Hv; [|exact Hv|reflexivity].
  rewrite filterBelow_element. cbn [noBlankText].
  rewrite forallb_forall. intros c' Hc'.
  apply in_map_iff in Hc' as (c & <- & Hc).
  apply list_elem_of_In, list_elem_of_filter in Hc as [Hk Hc].
  rewrite Forall_forall in IH. apply IH; [exact Hc|].
  unfold keepBelow in Hk. cbn in Hk. by apply Is_true_true_1.
Qed.

Lemma removeWhiteSpace_clean n :
  noBlankText n = true ->
  filterBelow testWS isValidWS n = n.
Proof.
  induction n as [loc name attrs children IH|loc value|loc kind]
    using XastNode_nested_ind; intros Hn; [|reflexivity..].
  rewrite filterBelow_element. f_equal. cbn [noBlankText] in Hn.
  rewrite forallb_forall in Hn.
  induction children as [|c cs IHcs]; [reflexivity|].
  apply Forall_cons in IH as [IHc IH].
  rewrite filter_cons, decide_True.
  - cbn [map]. rewrite IHc by (apply Hn; left; reflexivity).
    f_equal. apply IHcs; [exact IH|]. intros x Hx. apply Hn. right. exact Hx.
  - unfold keepBelow. cbn. apply Is_true_true_2, noBlankText_valid, Hn. left. reflexivity.
Qed.


Lemma root_ext t1 t2 : rootChildren t1 = rootChildren t2 -> t1 = t2.
Proof. destruct t1, t2. cbn. by intros ->. Qed.

Lemma filterTree_children test isValid tree :
  rootChildren (filterTree test isValid tree)
  = map (filterBelow test isValid)
      (filter (fun ch => keepBelow test isValid "root" ch) (rootChildren tree)).
Proof. apply (omap_filter_map (keepBelow test isValid "root")). Qed.

Lemma removeWhiteSpace_root_clean cs :
  forallb noBlankText cs = true ->
  map (filterBelow testWS isValidWS)
    (filter (fun ch => keepBelow testWS isValidWS
                         "root" ch) cs) = cs.
Proof.
  rewrite forallb_forall. intros Hn.
  induction cs as [|c cs IH]; [reflexivity|].
  rewrite filter_cons, decide_True.
  - cbn [map]. rewrite removeWhiteSpace_clean by (apply Hn; left; reflexivity).
    f_equal. apply IH. intros x Hx. apply Hn. right. exact Hx.
  - unfold keepBelow. cbn. apply Is_true_true_2, noBlankText_valid, Hn. left. reflexivity.
Qed.

Lemma removeWhiteSpace_root_post cs :
  forallb noBlankText
    (map (filterBelow testWS isValidWS)
       (filter (fun ch => keepBelow testWS isValidWS
                            "root" ch) cs)) = true.
Proof.
  rewrite forallb_forall. intros c' Hc'.
  apply in_map_iff in Hc' as (c & <- & Hc).
  apply list_elem_of_In, list_elem_of_filter in Hc as [Hk Hc].
  apply removeWhiteSpace_below. unfold keepBelow in Hk. cbn in Hk. by apply Is_true_true_1.
Qed.

(** X18.  After [removeWhiteSpaceNodes] no text node that trims to the
    empty string is left, at any depth; a tree without such a text node
    is returned as it is; so the pass changes nothing when it is run a
    second time. *)
Theorem removeWhiteSpaceNodes_removes_blank_text (tree : XastRoot) :
  forallb noBlankText (rootChildren (removeWhiteSpaceNodes tree)) = true
  /\ (forallb noBlankText (rootChildren tree) = true ->
      removeWhiteSpaceNodes tree = tree)
  /\ removeWhiteSpaceNodes (removeWhiteSpaceNodes tree) = removeWhiteSpaceNodes tree.
Proof.
  assert (Hclean : forall t, forallb noBlankText (rootChildren t) = true ->
                             removeWhiteSpaceNodes t = t).
  { intros t H. apply root_ext. unfold removeWhiteSpaceNodes.
    rewrite filterTree_children. by apply removeWhiteSpace_root_clean. }
  assert (Hpost : forall t,
             forallb noBlankText (rootChildren (removeWhiteSpaceNodes t)) = true).
  { intros t. unfold removeWhiteSpaceNodes. rewrite filterTree_children.
    apply removeWhiteSpace_root_post. }
  split; [apply Hpost|]. split; [apply Hclean|]. apply Hclean, Hpost.
Qed.

Lemma removeWhiteSpaceNodes_removes_blank_text_witness :
  let tree := mkXastRoot [XElement 0 "start" [] [XText 1 "a b"; XElement 2 "text" [] []]] in
  forallb noBlankText (rootChildren tree) = true
  /\ removeWhiteSpaceNodes tree = tree.
Proof.
  intros tree.
  assert (H : forallb noBlankText (rootChildren tree) = true) by reflexivity.
  split; [exact H|].
  exact (proj1 (proj2 (removeWhiteSpaceNodes_removes_blank_text tree)) H).
Defined.

(** *** Documentation nodes *)

Lemma filterBelow_isElementOtherThan test isValid nm n :
  isElementOtherThan nm (filterBelow test isValid n) = isElementOtherThan nm n.
Proof. destruct n; reflexivity. Qed.

Lemma removeDocumentation_below n :
  elementsOnly (filterBelow testDoc isValidDoc n) = true.
Proof.
  induction n as [loc name attrs children IH|loc value|loc kind]
    using XastNode_nested_ind; [|reflexivity..].
  rewrite filterBelow_element. cbn [elementsOnly].
  rewrite forallb_forall. intros c' Hc'.
  apply in_map_iff in Hc' as (c & <- & Hc).
  apply list_elem_of_In, list_elem_of_filter in Hc as [Hk Hc].
  rewrite Forall_forall in IH. rewrite (IH c Hc), andb_true_r.
  rewrite filterBelow_isElementOtherThan.
  unfold keepBelow in Hk. cbn in Hk. by apply Is_true_true_1.
Qed.

Lemma removeDocumentation_clean n :
  elementsOnly n = true ->
  filterBelow testDoc isValidDoc n = n.
Proof.
  induction n as [loc name attrs children IH|loc value|loc kind]
    using XastNode_nested_ind; intros Hn; [|reflexivity..].
  rewrite filterBelow_element. f_equal. cbn [elementsOnly] in Hn.
  rewrite forallb_forall in Hn.
  induction children as [|c cs IHcs]; [reflexivity|].
  apply Forall_cons in IH as [IHc IH].
  assert (Hc : isElementOtherThan "a:documentation" c && elementsOnly c = true)
    by (apply Hn; left; reflexivity).
  apply andb_true_iff in Hc as [Hc1 Hc2].
  rewrite filter_cons, decide_True.
  - cbn [map]. rewrite IHc by exact Hc2.
    f_equal. apply IHcs; [exact IH|]. intros x Hx. apply Hn. right. exact Hx.
  - unfold keepBelow. cbn. by apply Is_true_true_2.
Qed.

Lemma removeDocumentation_children tree :
  rootChildren (removeDocumentationNodes tree)
  = map (filterBelow testDoc isValidDoc) (rootChildren tree).
Proof.
  unfold removeDocumentationNodes. rewrite filterTree_children. f_equal.
  induction (rootChildren tree) as [|c cs IH]; [reflexivity|].
  rewrite filter_cons, decide_True by (unfold keepBelow; cbn; done). by rewrite IH.
Qed.

(** X19.  [removeDocumentationNodes] keeps every child of the root, and
    below each of them it leaves, as children of an element, only
    elements that are not named [a:documentation]: text, comments and
    the other kinds of node inside an element are dropped with the
    documentation.  Run a second time it changes nothing. *)
Theorem removeDocumentationNodes_keeps_elements_only (tree : XastRoot) :
  length (rootChildren (removeDocumentationNodes tree)) = length (rootChildren tree)
  /\ forallb elementsOnly (rootChildren (removeDocumentationNodes tree)) = true
  /\ removeDocumentationNodes (removeDocumentationNodes tree)
     = removeDocumentationNodes tree.
Proof.
  split; [|split].
  - by rewrite removeDocumentation_children, length_map.
  - rewrite removeDocumentation_children, forallb_forall. intros c' Hc'.
    apply in_map_iff in Hc' as (c & <- & _). apply removeDocumentation_below.
  - apply root_ext. rewrite !removeDocumentation_children, map_map.
    apply map_ext. intros c.
    apply removeDocumentation_clean, removeDocumentation_below.
Qed.


(** *** The conversion *)

Local Open Scope converter_scope.

Lemma R_bind_Ok {A B} (m : Res A) (k : A -> Res B) y :
  bind m k = Ok y -> exists a, m = Ok a /\ k a = Ok y.
Proof. destruct m as [a| |]; cbn; [eauto|discriminate..]. Qed.

Lemma mapRes_Ok {A B} (f : A -> Res B) l ys :
  mapRes f l = Ok ys -> Forall2 (fun a y => f a = Ok y) l ys.
Proof.
  revert ys. induction l as [|a l IH]; intros ys H; cbn in H.
  - injection H as <-. constructor.
  - apply R_bind_Ok in H as (y & Hy & H). apply R_bind_Ok in H as (ys' & Hys & H).
    injection H as <-. constructor; auto.
Qed.

Lemma elementsOnly_children loc name attrs children :
  elementsOnly (XElement loc name attrs children) = true ->
  Forall (fun ch => isElementOtherThan "a:documentation" ch = true
                    /\ elementsOnly ch = true) children.
Proof.
  cbn [elementsOnly]. rewrite forallb_forall, Forall_forall.
  intros H c Hc. apply andb_true_iff, H, list_elem_of_In, Hc.
Qed.

Lemma mapRes_valuesEmpty children cs :
  Forall valuesEmptyWhenConverted children ->
  Forall (fun ch => isElementOtherThan "a:documentation" ch = true
                    /\ elementsOnly ch = true) children ->
  mapRes convertPatternNode children = Ok cs ->
  forallb valuesEmpty cs = true.
Proof.
  intros IH Hel H. apply mapRes_Ok in H.
  induction H as [|c t children cs Hc _ IHl]; [reflexivity|].
  apply Forall_cons in IH as [IHc IH]. apply Forall_cons in Hel as [[_ Hc2] Hel].
  cbn. rewrite (proj1 (IHc Hc2) t Hc). cbn. auto.
Qed.

Lemma convertToValue_valuesEmpty children t :
  Forall (fun ch => isElementOtherThan "a:documentation" ch = true
                    /\ elementsOnly ch = true) children ->
  convertToValue children = Ok t -> valuesEmpty t = true.
Proof.
  intros Hel H. destruct children as [|c cs]; cbn in H.
  - by injection H as <-.
  - apply Forall_cons in Hel as [[Hc _] _]. destruct c; try discriminate.
Qed.

Lemma convertToRef_valuesEmpty attrs t :
  convertToRef attrs = Ok t -> valuesEmpty t = true.
Proof.
  unfold convertToRef. intros H. apply R_bind_Ok in H as (nm & _ & H).
  by injection H as <-.
Qed.

Lemma convert_valuesEmpty n : valuesEmptyWhenConverted n.
Proof.
  induction n as [loc name attrs children IH|loc value|loc kind]
    using XastNode_nested_ind; intros Hn; [|split; intros t H; discriminate..].
  pose proof (elementsOnly_children _ _ _ _ Hn) as Hel.
  split; intros t H.
  - cbn [convertPatternNode] in H.
    repeat case_decide;
      try (by injection H as <-);
      try (by eapply convertToValue_valuesEmpty);
      try (by eapply convertToRef_valuesEmpty);
      try (apply R_bind_Ok in H as (cs & Hcs & H); injection H as <-;
           apply (mapRes_valuesEmpty _ _ IH Hel) in Hcs; cbn; by rewrite Hcs).
    + (* element *)
      apply R_bind_Ok in H as (nm & _ & H). apply R_bind_Ok in H as (cs & Hcs & H).
      injection H as <-. apply (mapRes_valuesEmpty _ _ IH Hel) in Hcs.
      destruct cs; [reflexivity|]. cbn in *. by rewrite Hcs.
    + (* attribute *)
      apply R_bind_Ok in H as (nm & _ & H).
      destruct children as [|c [|c' cs]]; [by injection H as <-| |discriminate].
      apply R_bind_Ok in H as (content & Hc & H). injection H as <-.
      apply Forall_cons in IH as [IHc _]. apply Forall_cons in Hel as [[_ Hc2] _].
      cbn. by rewrite (proj2 (IHc Hc2) content Hc).
  - cbn [convertAttributeContent] in H.
    repeat case_decide;
      try (by eapply convertToValue_valuesEmpty);
      try (by eapply convertToRef_valuesEmpty);
      try discriminate.
    + apply R_bind_Ok in H as (cs & Hcs & H); injection H as <-.
      apply (mapRes_valuesEmpty _ _ IH Hel) in Hcs. cbn. by rewrite Hcs.
    + apply R_bind_Ok in H as (ty & _ & H). unfold data in H.
      destruct (isDataType ty); [|discriminate]. by injection H as <-.
Qed.


Lemma convertPattern_valuesEmpty o t :
  (forall n, o = Some n -> elementsOnly n = true) ->
  convertPattern o = Ok t -> valuesEmpty t = true.
Proof.
  destruct o as [n|]; [|discriminate]. intros Hn H.
  apply (proj1 (convert_valuesEmpty n (Hn n eq_refl)) t H).
Qed.

Lemma convertToDef_valuesEmpty n t :
  elementsOnly n = true -> convertToDef n = Ok t -> valuesEmpty t = true.
Proof.
  intros Hn H. destruct n as [loc name attrs children| |]; try discriminate.
  cbn in H. case_decide; [discriminate|].
  destruct (attribute attrs "name") as [nm| | |]; try discriminate.
  apply R_bind_Ok in H as (cs & Hcs & H). injection H as <-.
  pose proof (elementsOnly_children _ _ _ _ Hn) as Hel.
  assert (IH : Forall valuesEmptyWhenConverted children)
    by (apply Forall_forall; intros; apply convert_valuesEmpty).
  apply (mapRes_valuesEmpty _ _ IH Hel) in Hcs. cbn. by rewrite Hcs.
Qed.

Lemma convertXastToRngAst_valuesEmpty tree spec :
  forallb elementsOnly (rootChildren tree) = true ->
  convertXastToRngAst tree = Ok spec -> valuesEmpty spec = true.
Proof.
  intros Hall H. unfold convertXastToRngAst in H.
  destruct (rootChildren tree) as [|[loc name attrs children| |] rest]; try discriminate.
  cbn [forallb] in Hall. apply andb_true_iff in Hall as [Hn _].
  pose proof (elementsOnly_children _ _ _ _ Hn) as Hel.
  apply R_bind_Ok in H as (g & Hg & H). injection H as <-.
  unfold convertToGrammarElement in Hg.
  apply R_bind_Ok in Hg as (st & Hst & Hg). apply R_bind_Ok in Hg as (defs & Hdefs & Hg).
  injection Hg as <-.
  assert (Hs : valuesEmpty st = true).
  { destruct children as [|[sloc sname sattrs schildren| |] cs]; try discriminate.
    cbn in Hst. case_decide; [discriminate|].
    apply R_bind_Ok in Hst as (child & Hchild & Hst). injection Hst as <-.
    apply Forall_cons in Hel as [[_ Hs] _].
    pose proof (elementsOnly_children _ _ _ _ Hs) as Hsel.
    assert (Hc : valuesEmpty child = true).
    { apply (convertPattern_valuesEmpty (head schildren)); [|exact Hchild].
      intros n Hhd. destruct schildren as [|c cs']; [discriminate|].
      injection Hhd as ->. by apply Forall_cons in Hsel as [[_ ?] _]. }
    cbn. by rewrite Hc. }
  assert (Hd : forallb valuesEmpty defs = true).
  { apply mapRes_Ok in Hdefs.
    assert (Hel' : Forall (fun ch => elementsOnly ch = true) (tail children)).
    { destruct children; [constructor|]. apply Forall_cons in Hel as [_ Hel].
      eapply Forall_impl; [exact Hel|]. cbn. by intros ? [_ ?]. }
    induction Hdefs as [|c d cs ds Hc _ IHl]; [reflexivity|].
    apply Forall_cons in Hel' as [Hc' Hel'].
    cbn. rewrite (convertToDef_valuesEmpty _ _ Hc' Hc). cbn. auto. }
  cbn. by rewrite Hs, Hd.
Qed.

(** X20.  No [value] pattern that [parsePreTextSpec] returns carries a
    text: [removeDocumentationNodes] has dropped the text nodes inside
    every element before the conversion reads them, so each [<value>]
    becomes [value('')].  The conversion itself takes the text of a
    [<value>] when it is there. *)
Theorem parsePreTextSpec_values_are_empty :
  (forall tree spec, parsePreTextSpec tree = Ok spec -> valuesEmpty spec = true)
  /\ (forall loc text rest, convertToValue (XText loc text :: rest) = Ok (b.value text)).
Proof.
  split; [|reflexivity].
  intros tree spec H. unfold parsePreTextSpec, dropPositions in H.
  set (cleaned := removeDocumentationNodes (removeWhiteSpaceNodes tree)) in H.
  assert (Hall : forallb elementsOnly (rootChildren cleaned) = true).
  { subst cleaned. rewrite removeDocumentation_children, forallb_forall. intros c' Hc'.
    apply in_map_iff in Hc' as (c & <- & _). apply removeDocumentation_below. }
  destruct (rootChildren cleaned) as [|c cs] eqn:E; [discriminate|].
  assert (Hskip : forall t, convertXastToRngAst (mkXastRoot cs) = Ok t ->
                            valuesEmpty t = true).
  { intros t. apply convertXastToRngAst_valuesEmpty. cbn [rootChildren].
    cbn [forallb] in Hall. by apply andb_true_iff in Hall as [_ ?]. }
  assert (Hkeep : forall t, convertXastToRngAst cleaned = Ok t -> valuesEmpty t = true).
  { intros t. apply convertXastToRngAst_valuesEmpty. by rewrite E. }
  destruct c as [| |loc []]; auto.
Qed.

Lemma parsePreTextSpec_values_are_empty_witness :
  let tree :=
    mkXastRoot
      [XMisc 0 xk_instruction;
       XElement 1 "grammar" []
         [XText 2 " ";
          XElement 3 "start" []
            [XElement 4 "attribute" [("name", AString "kind")]
               [XElement 5 "value" [] [XText 6 "note"]]]]] in
  let spec := b.root (b.grammar (b.start (b.attrNamed "kind" (Some (b.value "")))) []) in
  parsePreTextSpec tree = Ok spec /\ valuesEmpty spec = true.
Proof.
  intros tree spec.
  assert (H : parsePreTextSpec tree = Ok spec) by reflexivity.
  split; [exact H|].
  exact (proj1 parsePreTextSpec_values_are_empty tree spec H).
Defined.

(** *** The converter and the validator's constructor *)

Lemma convertToDef_define n d :
  convertToDef n = Ok d -> exists nd, d = TNode nd /\ type nd = ty_define.
Proof.
  destruct n as [loc name attrs children| |]; try discriminate.
  cbn. case_decide; [discriminate|].
  destruct (attribute attrs "name") as [nm| | |]; try discriminate.
  intros Hd. apply R_bind_Ok in Hd as (cs & _ & Hd). injection Hd as <-. eauto.
Qed.

Lemma checkDefines_converted l defs :
  Forall2 (fun n d => convertToDef n = Ok d) l defs ->
  exists ds, Validator.checkDefines defs = Ok ds.
Proof.
  induction 1 as [|n d l defs Hd _ [ds IH]]; [by exists []|].
  apply convertToDef_define in Hd as (nd & -> & Hty).
  exists (nd :: ds). cbn. rewrite decide_False by (intros Hne; by apply Hne). by rewrite IH.
Qed.

(** X21.  Whatever [convertXastToRngAst] returns, the constructor of
    [RelaxNgValidator] accepts: the grammar it finds begins with a
    [start] holding exactly one pattern and goes on with [define]s
    only. *)
Theorem converted_grammar_is_accepted (tree : XastRoot) (spec : Tree) :
  convertXastToRngAst tree = Ok spec ->
  exists this pattern,
    Validator.constructor spec = Ok this
    /\ type (Validator.this_specStart this) = ty_start
    /\ children (Validator.this_specStart this) = Some [pattern].
Proof.
  intros H. unfold convertXastToRngAst in H.
  destruct (rootChildren tree) as [|[loc name attrs children| |] rest]; try discriminate.
  apply R_bind_Ok in H as (g & Hg & H). injection H as <-.
  unfold convertToGrammarElement in Hg.
  apply R_bind_Ok in Hg as (st & Hst & Hg). apply R_bind_Ok in Hg as (defs & Hdefs & Hg).
  injection Hg as <-.
  destruct (head children) as [[sloc sname sattrs schildren| |]|]; try discriminate.
  cbn in Hst. case_decide; [discriminate|].
  apply R_bind_Ok in Hst as (child & _ & Hst). injection Hst as <-.
  apply mapRes_Ok, checkDefines_converted in Hdefs as [ds Hds].
  eexists _, child. cbn. rewrite Hds. split; [reflexivity|]. split; reflexivity.
Qed.

Lemma converted_grammar_is_accepted_witness :
  let tree :=
    mkXastRoot
      [XElement 0 "grammar" []
         [XElement 1 "start" [] [XElement 2 "ref" [("name", AString "doc")] []];
          XElement 3 "define" [("name", AString "doc")]
            [XElement 4 "element" [("name", AString "doc")] [XElement 5 "text" [] []]]]] in
  let spec :=
    b.root (b.grammar (b.start (b.ref "doc"))
              [b.define "doc" [b.elemNamed "doc" [b.text]]]) in
  convertXastToRngAst tree = Ok spec
  /\ exists this pattern,
       Validator.constructor spec = Ok this
       /\ type (Validator.this_specStart this) = ty_start
       /\ children (Validator.this_specStart this) = Some [pattern].
Proof.
  intros tree spec.
  assert (H : convertXastToRngAst tree = Ok spec) by reflexivity.
  split; [exact H|].
  exact (converted_grammar_is_accepted tree spec H).
Defined.


(** *** Attribute content *)

(** X22.  An [<attribute>] without content is converted with the
    default content [text()].  With a [<text>] (or [<data>]) element as
    content it is converted as [data]: the conversion succeeds exactly
    when that element has a [type] attribute holding one of [integer],
    [double] and [string], and throws otherwise, so [<text/>] written
    out as the content of an attribute is refused. *)
Theorem attribute_content_text_is_converted_as_data (loc cloc : nat)
    (attrs cattrs : Attributes) (cname attrName : string) (cchildren : list XastNode) :
  attribute attrs "name" = AString attrName ->
  cname = "text" \/ cname = "data" ->
  convertPatternNode (XElement loc "attribute" attrs [])
  = Ok (b.attrNamed attrName (Some b.text))
  /\ convertPatternNode
       (XElement loc "attribute" attrs [XElement cloc cname cattrs cchildren])
     = match attribute cattrs "type" with
       | AString dataType =>
           if bool_decide (dataType ∈ ["integer"; "double"; "string"])
           then Ok (b.attrNamed attrName (Some (b.data dataType)))
           else Throw ("Unknown data type: " +:+ dataType)
       | _ => Throw "Data elements must have @type"
       end.
Proof.
  intros Hname Hc. split.
  - cbn. unfold ensureAttr. by rewrite Hname.
  - cbn [convertPatternNode]. repeat (rewrite decide_False by discriminate).
    rewrite decide_True by reflexivity. unfold ensureAttr at 1. rewrite Hname.
    cbn [bind convertAttributeContent].
    rewrite (decide_False (P := cname = "choice")) by (destruct Hc; subst; discriminate).
    rewrite (decide_False (P := cname = "value")) by (destruct Hc; subst; discriminate).
    rewrite (decide_False (P := cname = "ref")) by (destruct Hc; subst; discriminate).
    rewrite decide_True by exact Hc.
    unfold ensureAttr. destruct (attribute cattrs "type") as [dataType| | |]; try reflexivity.
    cbn [bind]. unfold data, isDataType. by destruct (bool_decide _).
Qed.

Lemma attribute_content_text_is_converted_as_data_witness :
  convertPatternNode (XElement 0 "attribute" [("name", AString "id")] [])
  = Ok (b.attrNamed "id" (Some b.text))
  /\ convertPatternNode
       (XElement 0 "attribute" [("name", AString "id")] [XElement 1 "text" [] []])
     = Throw "Data elements must have @type".
Proof.
  exact (attribute_content_text_is_converted_as_data 0 1 [("name", AString "id")] []
           "text" "id" [] eq_refl (or_introl eq_refl)).
Defined.

End ConverterProps.

(** * The validation and the texts of a document *)

Module ValidatorBlind.
Import Validator ValidatorSpec DocumentSpec BlankSpec.
Local Open Scope validator_scope.

Lemma validateAttribute_same_type fuel defs attrName v1 v2 : forall spec,
  typeof v1 = typeof v2 ->
  validateAttribute fuel defs attrName v1 spec
  = validateAttribute fuel defs attrName v2 spec.
Proof.
  intros spec Hty. revert spec. induction fuel as [|fuel IH]; intros spec; [reflexivity|].
  cbn [validateAttribute]. destruct spec as [|n]; [reflexivity|].
  destruct (type n); try reflexivity.
  - unfold bind. destruct (_getRefSingle defs _) as [[d l1]| |]; try reflexivity.
    destruct (expectAttrContent d) as [[c l2]| |]; try reflexivity.
    by rewrite IH.
  - destruct v1, v2; try reflexivity; cbn in Hty |- *;
      repeat case_decide; try discriminate Hty; reflexivity.
Qed.

Lemma typeof_blankValue v : typeof (blankValue v) = typeof v.
Proof. by destruct v. Qed.

Lemma attr_lookup_blank k attrs :
  attr_lookup k (blankAttributes attrs) = blankValue <$> attr_lookup k attrs.
Proof.
  unfold attr_lookup, blankAttributes.
  induction attrs as [|[k' v] attrs IH].
  - cbn. by case_decide.
  - cbn. destruct (String.eqb k' k); [reflexivity|exact IH].
Qed.

Lemma attr_rest_blank k attrs :
  attr_rest k (blankAttributes attrs) = blankAttributes (attr_rest k attrs).
Proof.
  unfold attr_rest, blankAttributes, Attributes.
  induction attrs as [|[k' v] attrs IH]; [reflexivity|].
  cbn [map]. rewrite !filter_cons. cbn [fst snd].
  destruct (decide (k' <> k)); cbn [map fst snd]; by rewrite IH.
Qed.

Lemma xtype_blank c : xtype (blankNode c) = xtype c.
Proof. by destruct c. Qed.

Lemma unexpected_blank ctx : unexpected (blankContext ctx) = unexpected ctx.
Proof.
  destruct ctx as [children attrs]. unfold unexpected, blankContext, blankAttributes.
  cbn [fst snd]. rewrite !map_map. cbn [fst]. f_equal. f_equal.
  apply map_ext. by intros [].
Qed.

Lemma endValidationOnNode_blank el r :
  endValidationOnNode (blankNode el) (blankResult r) = endValidationOnNode el r.
Proof.
  destruct r as [[ok probs] ctx]. unfold endValidationOnNode, blankResult. cbn [fst snd].
  rewrite unexpected_blank. unfold addProblems. by destruct el.
Qed.

Lemma concat2_blank r1 r2 :
  concat2 (blankResult r1) (blankResult r2) = blankResult (concat2 r1 r2).
Proof. by destruct r1 as [[? ?] ?], r2 as [[? ?] ?]. Qed.

Lemma concat2_blank_r r1 r2 :
  concat2 r1 (blankResult r2) = blankResult (concat2 r1 r2).
Proof. by destruct r1 as [[? ?] ?], r2 as [[? ?] ?]. Qed.

Lemma bind_blank {A} (m : V A) (k k' : A -> V ValidationResult) :
  (forall a, k' a = blankOutcome (k a)) ->
  bind m k' = blankOutcome (bind m k).
Proof.
  intros Hk. unfold bind. destruct m as [[a l]| |]; [|reflexivity..].
  rewrite Hk. by destruct (k a) as [[? ?]| |].
Qed.

Lemma bind_blank_l {B} (m : V ValidationResult) (k k' : ValidationResult -> V B) :
  (forall r, k' (blankResult r) = k r) ->
  bind (blankOutcome m) k' = bind m k.
Proof.
  intros Hk. unfold bind. destruct m as [[r l]| |]; [|reflexivity..].
  cbn. by rewrite Hk.
Qed.

Lemma chain_from_blank steps :
  Forall blindStep steps ->
  forall ctx acc,
    chain_from (blankContext ctx) (blankResult <$> acc) steps
    = blankOutcome (chain_from ctx acc steps).
Proof.
  induction 1 as [|step steps Hstep _ IH]; intros ctx acc.
  - by destruct acc.
  - cbn [chain_from]. rewrite Hstep. unfold bind.
    destruct (step ctx) as [[r l]| |]; [|reflexivity..]. cbn [blankOutcome].
    assert (E : match blankResult <$> acc with
                | Some r0 => concat2 r0 (blankResult r)
                | None => blankResult r
                end
                = blankResult match acc with Some r0 => concat2 r0 r | None => r end).
    { destruct acc; [apply concat2_blank|reflexivity]. }
    rewrite E.
    specialize (IH (res_ctx match acc with Some r0 => concat2 r0 r | None => r end)
                  (Some match acc with Some r0 => concat2 r0 r | None => r end)).
    cbn [fmap option_fmap option_map] in IH.
    change (res_ctx (blankResult ?r)) with (blankContext (res_ctx r)).
    rewrite IH. clear. by destruct (chain_from _ _ steps) as [[? ?]| |].
Qed.

Lemma chainIfOk_from_blank steps :
  Forall blindStep steps ->
  forall ctx acc,
    chainIfOk_from (blankContext ctx) (blankResult <$> acc) steps
    = blankOutcome (chainIfOk_from ctx acc steps).
Proof.
  induction 1 as [|step steps Hstep _ IH]; intros ctx acc.
  - by destruct acc.
  - cbn [chainIfOk_from]. rewrite Hstep. unfold bind.
    destruct (step ctx) as [[r l]| |]; [|reflexivity..]. cbn [blankOutcome].
    assert (E : match blankResult <$> acc with
                | Some r0 => concat2 r0 (blankResult r)
                | None => blankResult r
                end
                = blankResult match acc with Some r0 => concat2 r0 r | None => r end).
    { destruct acc; [apply concat2_blank|reflexivity]. }
    rewrite E.
    change (res_ok (blankResult ?r)) with (res_ok r).
    destruct (res_ok _); [|reflexivity].
    specialize (IH (res_ctx match acc with Some r0 => concat2 r0 r | None => r end)
                  (Some match acc with Some r0 => concat2 r0 r | None => r end)).
    cbn [fmap option_fmap option_map] in IH.
    change (res_ctx (blankResult ?r)) with (blankContext (res_ctx r)).
    rewrite IH. clear. by destruct (chainIfOk_from _ _ steps) as [[? ?]| |].
Qed.

Lemma fallback_from_blank options' options :
  Forall2 (fun o' o : unit -> V ValidationResult => o' tt = blankOutcome (o tt))
    options' options ->
  forall acc,
    fallback_from (blankResult <$> acc) options'
    = blankOutcome (fallback_from acc options).
Proof.
  induction 1 as [|o' o options' options Ho _ IH]; intros acc.
  - by destruct acc.
  - cbn [fallback_from]. rewrite Ho. unfold bind.
    destruct (o tt) as [[r l]| |]; [|reflexivity..]. cbn [blankOutcome].
    change (res_ok (blankResult r)) with (res_ok r).
    destruct (res_ok r); [reflexivity|].
    specialize (IH (Some r)). cbn [fmap option_fmap option_map] in IH.
    rewrite IH. clear. by destruct (fallback_from _ options) as [[? ?]| |].
Qed.

Lemma bind_blankOutcome (m : V ValidationResult)
    (k k' : ValidationResult -> V ValidationResult) :
  (forall r, k' (blankResult r) = blankOutcome (k r)) ->
  bind (blankOutcome m) k' = blankOutcome (bind m k).
Proof.
  intros Hk. unfold bind. destruct m as [[r l]| |]; [|reflexivity..].
  cbn [blankOutcome]. rewrite Hk. by destruct (k r) as [[? ?]| |].
Qed.

Lemma chain_blank steps ctx :
  Forall blindStep steps ->
  chain (blankContext ctx) steps = blankOutcome (chain ctx steps).
Proof. intros H. exact (chain_from_blank steps H ctx None). Qed.

Lemma chainIfOk_blank steps ctx :
  Forall blindStep steps ->
  chainIfOk (blankContext ctx) steps = blankOutcome (chainIfOk ctx steps).
Proof. intros H. exact (chainIfOk_from_blank steps H ctx None). Qed.

Lemma fallback_blank options' options :
  Forall2 (fun o' o : unit -> V ValidationResult => o' tt = blankOutcome (o tt))
    options' options ->
  fallback options' = blankOutcome (fallback options).
Proof. intros H. exact (fallback_from_blank _ _ H None). Qed.

Ltac reblank c0 :=
  lazymatch c0 with
  | (?a, ?b) =>
      try change (map blankNode a, blankAttributes b) with (blankContext (a, b))
  end.

Lemma validateDetails_blank fuel defs : forall ctx specs,
  validateDetails fuel defs (blankContext ctx) specs
  = blankOutcome (validateDetails fuel defs ctx specs).
Proof.
  induction fuel as [|fuel IH]; intros ctx specs; [reflexivity|].
  assert (Hself : forall specs, blindStep (fun ctx => validateDetails fuel defs ctx specs)).
  { intros specs' ctx'. apply IH. }
  assert (Hkids : forall spec, blindStep (fun ctx => bind (childrenOf spec)
                   (fun cs => validateDetails fuel defs ctx cs))).
  { intros spec ctx'. apply bind_blank. intros cs. apply IH. }
  assert (Hcat : forall ctx0 p rest,
            bind (validateDetails fuel defs (blankContext ctx0) rest)
                 (fun r => ret (concat2 (invalid (blankContext ctx0) p) r))
            = blankOutcome (bind (validateDetails fuel defs ctx0 rest)
                 (fun r => ret (concat2 (invalid ctx0 p) r)))).
  { intros ctx0 p rest. rewrite IH. apply bind_blankOutcome.
    by intros [[? ?] ?]. }
  destruct ctx as [children attrs].
  destruct specs as [|[|spec] restSpecs]; [reflexivity..|].
  cbn [validateDetails]. unfold blankContext at 1. cbn [fst snd].
  destruct (type spec) eqn:Hty.
  all: try reflexivity.
  - (* elementNamed *)
    destruct children as [|[l cname cattrs cc|l v|l k] rest]; cbn [map blankNode xtype].
    + exact (Hcat ([], attrs) _ _).
    + destruct (decide (Some cname = name spec)).
      * apply bind_blank. intros cs. unfold elemCtx.
        reblank (cc, cattrs). rewrite IH. apply bind_blankOutcome. intros inner.
        change (XElement l cname (blankAttributes cattrs) (map blankNode cc))
          with (blankNode (XElement l cname cattrs cc)).
        rewrite endValidationOnNode_blank. apply bind_blank. intros _.
        exact (IH (rest, attrs) _).
      * exact (Hcat (XElement l cname cattrs cc :: rest, attrs) _ _).
    + exact (Hcat (XText l v :: rest, attrs) _ _).
    + exact (Hcat (XMisc l k :: rest, attrs) _ _).
  - (* attributeNamed *)
    rewrite attr_lookup_blank.
    destruct (attr_lookup (str_of (name spec)) attrs) as [attr|];
      cbn [fmap option_fmap option_map].
    + apply bind_blank. intros cs.
      rewrite (validateAttribute_same_type fuel defs _ (blankValue attr) attr)
        by apply typeof_blankValue.
      apply bind_blank. intros r1. rewrite attr_rest_blank.
      reblank (children, attr_rest (str_of (name spec)) attrs).
      rewrite IH. apply bind_blankOutcome. intros r2. unfold ret.
      cbn [blankOutcome]. by rewrite concat2_blank_r.
    + exact (Hcat (children, attrs) _ _).
  - (* group *)
    apply bind_blank. intros cs. exact (IH (children, attrs) _).
  - (* choice *)
    apply bind_blank. intros cs. apply fallback_blank.
    apply Forall2_app.
    + apply Forall2_fmap, Forall_Forall2_diag, Forall_forall. intros ch _.
      unfold choicePath. reblank (children, attrs). apply chain_blank.
      repeat constructor; apply Hself.
    + repeat constructor.
  - (* optional *)
    apply fallback_blank. repeat constructor.
    + reblank (children, attrs). apply chain_blank.
      repeat constructor; [apply Hkids|apply Hself].
    + exact (IH (children, attrs) _).
  - (* zeroOrMore *)
    apply fallback_blank. repeat constructor.
    + reblank (children, attrs). apply chainIfOk_blank.
      repeat constructor; [apply Hkids|apply Hself].
    + exact (IH (children, attrs) _).
  - (* oneOrMore *)
    reblank (children, attrs). apply chain_blank.
    repeat constructor; [apply Hkids|].
    intros ctx'. apply fallback_blank. repeat constructor; apply IH.
  - (* ref *)
    apply bind_blank. intros cs. exact (IH (children, attrs) _).
  - (* empty *)
    destruct children as [|c cs]; [reflexivity|].
    unfold ret, invalid, blankOutcome, blankResult, blankContext.
    cbn [fst snd]. by rewrite !length_map.
  - (* text *)
    destruct children as [|[l cname cattrs cc|l v|l k] rest]; cbn [map blankNode xtype].
    + exact (Hcat ([], attrs) _ _).
    + exact (Hcat (XElement l cname cattrs cc :: rest, attrs) _ _).
    + exact (IH (rest, attrs) _).
    + exact (Hcat (XMisc l k :: rest, attrs) _ _).
Qed.

(** X23.  The validation does not look at the text of a document or at
    the values of its attributes: [validateNode] and [validate] give the
    same verdict, and [validateNode] makes the same writes, on a
    document and on the same document with every text and every
    attribute value replaced by the empty string. *)
Theorem validation_ignores_text_and_attribute_values (fuel : nat) (defs : Defs)
    (this : RelaxNgValidator) (target : XastNode) (spec : Tree) :
  validateNode fuel defs (blankNode target) spec = validateNode fuel defs target spec
  /\ validate fuel this (blankNode target) = validate fuel this target.
Proof.
  split.
  - unfold validateNode.
    change ([blankNode target], []) with (blankContext ([target], [])).
    rewrite validateDetails_blank. apply bind_blank_l. intros r.
    rewrite endValidationOnNode_blank. reflexivity.
  - unfold validate. unfold bind at 1 3.
    destruct (childrenOf (this_specStart this)) as [[cs l]| |]; [|reflexivity..].
    change ([blankNode target], []) with (blankContext ([target], [])).
    rewrite validateDetails_blank.
    by destruct (validateDetails fuel (this_defs this) ([target], []) cs) as [[[[? ?] ?] ?]| |].
Qed.

End ValidatorBlind.

(** * Walks that replace nodes *)

Module TreeStoreFacts.
Import Simplifier SimplifierSpec StoreSpec TreeStoreSpec.
Local Open Scope simplifier_scope.

Lemma visitParentsFrom_S {St} test visitor fuel (st : St) node parents :
  visitParentsFrom test visitor (S fuel) st node parents
  = (hit <- passesTest test node ;;
     ' (result, st) <- (if hit : bool then visitor st node parents
                        else ret (CONTINUE, st)) ;;
     match result with
     | EXIT => ret (EXIT, st)
     | _ =>
         match node with
         | None => TypeError "Cannot use 'in' operator to search for 'children' in undefined"
         | Some a => visitBelow test visitor fuel a parents result st
         end
     end).
Proof. reflexivity. Qed.

(** *** Steps of a program *)

Lemma bind_ok {A B} (m : M A) (k : A -> M B) w a w' :
  m w = Ok (a, w') -> bind m k w = k a w'.
Proof. intros H. unfold bind. by rewrite H. Qed.

Lemma stored_lt w a n : wellFormed w -> cells w !! a = Some n -> a < next w.
Proof.
  intros Hwf Ha. destruct (decide (a < next w)) as [|Hge]; [done|].
  rewrite Hwf in Ha by lia. discriminate.
Qed.

Lemma load_stored w a n : cells w !! a = Some n -> load a w = Ok (n, w).
Proof. intros H. unfold load. by rewrite H. Qed.

Lemma getChildren_stored w a n cs :
  cells w !! a = Some n -> children n = Some cs -> getChildren a w = Ok (cs, w).
Proof.
  intros Ha Hcs. unfold getChildren. rewrite (bind_ok _ _ _ _ _ (load_stored _ _ _ Ha)).
  unfold childrenOf. by rewrite Hcs.
Qed.

Lemma setChildren_stored w a n cs :
  cells w !! a = Some n ->
  setChildren a cs w = Ok (tt, put a (withChildren n cs) w).
Proof.
  intros Ha. unfold setChildren. by rewrite (bind_ok _ _ _ _ _ (load_stored _ _ _ Ha)).
Qed.

Lemma splice_replace {A} i (x : A) l :
  i < length l -> splice (Z.of_nat i) 1 [x] l = <[i := x]> l.
Proof.
  intros Hi. unfold splice.
  replace (Z.of_nat i <? 0)%Z with false by (symmetry; apply Z.ltb_ge; lia).
  rewrite Z.min_l by lia. rewrite Nat2Z.id.
  replace (Nat.min 1 (length l - i)) with 1 by lia.
  rewrite insert_take_drop by done. cbn [app]. do 3 f_equal. lia.
Qed.

Lemma insert_middle {A} (pre post : list A) x y :
  <[length pre := y]> (pre ++ x :: post) = pre ++ y :: post.
Proof. rewrite insert_app_r_alt by lia. by rewrite Nat.sub_diag. Qed.

Lemma spliceChildren_replace w a n pre post x y :
  cells w !! a = Some n -> children n = Some (pre ++ x :: post) ->
  spliceChildren a (Z.of_nat (length pre)) 1 [y] w
  = Ok (tt, put a (withChildren n (pre ++ y :: post)) w).
Proof.
  intros Ha Hcs. unfold spliceChildren.
  rewrite (bind_ok _ _ _ _ _ (getChildren_stored _ _ _ _ Ha Hcs)).
  rewrite (setChildren_stored _ _ _ _ Ha). rewrite splice_replace.
  - by rewrite insert_middle.
  - rewrite length_app. cbn. lia.
Qed.

Lemma indexOf_from_middle {A} `{EqDecision A} (x : A) pre post : forall k,
  x ∉ pre -> indexOf_from k x (pre ++ x :: post) = Z.of_nat (k + length pre).
Proof.
  induction pre as [|y pre IH]; intros k Hx; cbn.
  - rewrite decide_True by done. f_equal. lia.
  - rewrite decide_False by (intros ->; apply Hx; left).
    rewrite IH by (intros ?; apply Hx; by right). f_equal. lia.
Qed.

Lemma indexOf_middle {A} `{EqDecision A} (x : A) pre post :
  x ∉ pre -> indexOf x (pre ++ x :: post) = Z.of_nat (length pre).
Proof. intros Hx. unfold indexOf. by rewrite indexOf_from_middle. Qed.

Lemma withChildren_twice n cs cs' :
  withChildren (withChildren n cs) cs' = withChildren n cs'.
Proof. reflexivity. Qed.

Lemma withChildren_same n cs : children n = Some cs -> withChildren n cs = n.
Proof. destruct n. cbn. by intros ->. Qed.

(** *** Trees of objects *)

Lemma objects_PNode a n :
  objects (PNode a n)
  = (a, cellOf (PNode a n)) :: flat_map objects (default [] (children n)).
Proof. destruct n as [? ? ? ? ? [cs|]]; reflexivity. Qed.

Lemma addrs_flat_map cs :
  (flat_map objects cs).*1 = flat_map addrs cs.
Proof.
  induction cs as [|c cs IH]; [reflexivity|].
  cbn [flat_map]. rewrite fmap_app. by rewrite IH.
Qed.

Lemma addrs_PNode a n :
  addrs (PNode a n) = a :: flat_map addrs (default [] (children n)).
Proof. unfold addrs. rewrite objects_PNode. cbn. by rewrite addrs_flat_map. Qed.

Lemma addrOf_in p : addrOf p ∈ addrs p.
Proof. destruct p as [a n]. rewrite addrs_PNode. left. Qed.

Lemma elem_of_flat_map {A B} (f : A -> list B) l y :
  y ∈ flat_map f l <-> exists x, x ∈ l /\ y ∈ f x.
Proof.
  induction l as [|a l IH]; cbn [flat_map].
  - split; [intros H; inversion H|intros (x & H & _); inversion H].
  - rewrite elem_of_app, IH. split.
    + intros [H|(x & H1 & H2)]; [exists a; split; [left|done]|exists x; split; [by right|done]].
    + intros (x & H1 & H2). apply elem_of_cons in H1 as [->|H1]; [by left|right; eauto].
Qed.

Lemma inStore_PNode w a n :
  inStore w (PNode a n)
  <-> cells w !! a = Some (cellOf (PNode a n))
      /\ Forall (inStore w) (default [] (children n)).
Proof.
  unfold inStore. rewrite objects_PNode. split.
  - intros H. split; [apply H; left|].
    apply Forall_forall. intros c Hc a' n' Hin. apply H. right.
    apply elem_of_flat_map. eauto.
  - intros [Ha Hcs] a' n' Hin. apply elem_of_cons in Hin as [[= -> ->]|Hin]; [done|].
    apply elem_of_flat_map in Hin as (c & Hc & Hin).
    rewrite Forall_forall in Hcs. by apply (Hcs c).
Qed.

Lemma inStore_frame w w' p :
  (forall x, x ∈ addrs p -> cells w' !! x = cells w !! x) ->
  inStore w p -> inStore w' p.
Proof.
  intros Hsame Hp a n Hin. rewrite Hsame; [by apply Hp|].
  unfold addrs. apply list_elem_of_fmap. by exists (a, n).
Qed.

Lemma inStore_stored w p x :
  inStore w p -> x ∈ addrs p -> is_Some (cells w !! x).
Proof.
  intros Hp Hx. unfold addrs in Hx. apply list_elem_of_fmap in Hx as ([a n] & -> & Hin).
  cbn. rewrite (Hp a n Hin). eauto.
Qed.

Lemma inStore_lt w p x :
  wellFormed w -> inStore w p -> x ∈ addrs p -> x < next w.
Proof.
  intros Hwf Hp Hx. destruct (inStore_stored w p x Hp Hx) as [n Hn].
  by eapply stored_lt.
Qed.

Lemma inStore_root w p : inStore w p -> cells w !! addrOf p = Some (cellOf p).
Proof. destruct p as [a n]. intros H. by apply inStore_PNode in H as [? _]. Qed.


Lemma NoDup_flat_map_cons c cs :
  NoDup (flat_map addrs (c :: cs))
  <-> NoDup (addrs c) /\ (forall x, x ∈ addrs c -> x ∉ flat_map addrs cs)
      /\ NoDup (flat_map addrs cs).
Proof. cbn [flat_map]. apply NoDup_app. Qed.

Section replacing_facts.
Variable test : option (list NodeType).
Variable visitor : unit -> Value -> list addr -> M (Action * unit).
Variable live : Tree -> Tree.
Variable valid : Tree -> Prop.

Lemma walkChildren_S fuel a parents result rounds st offset :
  walkChildren test visitor fuel a parents result (S rounds) st offset
  = (cs <- getChildren a ;;
     match cs !! offset with
     | None => ret (result, st)
     | Some child =>
         ' (sub, st) <- visitParentsFrom test visitor fuel st child (parents ++ [a]) ;;
         match sub with
         | EXIT => ret (EXIT, st)
         | _ => walkChildren test visitor fuel a parents result rounds st (S offset)
         end
     end).
Proof. reflexivity. Qed.

Lemma walk_spec a : forall todo,
  Forall (VisitSpec test visitor live valid) todo ->
  forall fuel rounds w parents n0 pre,
    length todo < rounds ->
    Forall (fun c => length (objects c) < fuel) todo ->
    wellFormed w ->
    Forall (inStore w) todo ->
    NoDup (flat_map addrs todo) ->
    Forall (fun c => valid (treeOf c)) todo ->
    a ∉ flat_map addrs todo ->
    cells w !! a = Some (withChildren n0 (pre ++ map slotOf todo)) ->
    (forall x, x ∈ flat_map addrs todo -> Some x ∉ pre) ->
    exists w' ls ds,
      walkChildren test visitor fuel a parents CONTINUE rounds tt (length pre) w
      = Ok ((CONTINUE, tt), w')
      /\ cells w' !! a = Some (withChildren n0 (pre ++ map slotOf ls))
      /\ ReplacedChildren live w todo w' ls
      /\ KeptChildren live w todo w' ds
      /\ (forall x, x < next w -> x ∉ flat_map addrs todo -> x <> a ->
          cells w' !! x = cells w !! x)
      /\ wellFormed w' /\ next w <= next w'.
Proof.
  induction 1 as [|c rest Hc _ IH];
    intros fuel rounds w parents n0 pre Hrounds Hfuel Hwf Hin Hsep Hvalid Ha Hcell Hpre.
  - destruct rounds as [|rounds]; [cbn in Hrounds; lia|].
    exists w, [], []. rewrite walkChildren_S.
    rewrite (bind_ok _ _ _ _ _ (getChildren_stored _ _ _ _ Hcell eq_refl)).
    cbn [map]. rewrite lookup_ge_None_2 by (rewrite length_app; cbn; lia).
    assert (Hnone : forall x : addr, x ∈ flat_map addrs [] -> x ∈ flat_map addrs [] \/ next w <= x)
      by (intros x Hx; inversion Hx).
    split; [done|]. split; [done|].
    split; [repeat split; try done; constructor|].
    split; [repeat split; try done; constructor|]. done.
  - destruct rounds as [|rounds]; [cbn in Hrounds; lia|].
    cbn [length] in Hrounds.
    apply Forall_cons in Hfuel as [Hfc Hfuel].
    apply Forall_cons in Hin as [Hinc Hin].
    apply Forall_cons in Hvalid as [Hvc Hvalid].
    apply NoDup_flat_map_cons in Hsep as (Hsepc & Hdisj & Hsep).
    cbn [flat_map] in Ha, Hpre. rewrite not_elem_of_app in Ha. destruct Ha as [Hac Har].
    cbn [map] in Hcell.
    assert (Halt : a < next w) by (by eapply stored_lt).
    assert (Hcpre : slotOf c ∉ pre).
    { apply Hpre, elem_of_app. left. apply addrOf_in. }
    destruct (Hc fuel w parents a (withChildren n0 (pre ++ slotOf c :: map slotOf rest))
                pre (map slotOf rest) Hfc Hwf Hinc Hsepc Hvc Hac Hcell eq_refl Hcpre)
      as (w1 & pl & pd & Hrun & Hrepl & Hkept).
    destruct Hrepl as [Hl_in Hl_tree Hl_sep Hl_addrs Hl_slot].
    destruct Hkept as [Hd_in Hd_at Hd_tree Hd_sep Hd_addrs Hframe1 Hwf1 Hnext1].
    rewrite withChildren_twice in Hl_slot.
    assert (Hrest_lt : forall x, x ∈ flat_map addrs rest -> x < next w).
    { intros x Hx. apply elem_of_flat_map in Hx as (q & Hq & Hx).
      rewrite Forall_forall in Hin.
      apply (inStore_lt w q); [done|by apply Hin|done]. }
    destruct (IH fuel rounds w1 parents n0 (pre ++ [slotOf pl])) as
      (w' & ls & ds & Hwalk & Hcell' & Hls & Hds & Hframe & Hwf' & Hnext'); try done.
    + lia.
    + apply Forall_forall. intros q Hq. rewrite Forall_forall in Hin.
      apply (inStore_frame w); [|by apply Hin].
      intros x Hx.
      assert (x ∈ flat_map addrs rest) by (apply elem_of_flat_map; eauto).
      apply Hframe1; [by apply Hrest_lt| |by intros ->].
      intros Hxc. by apply (Hdisj x).
    + rewrite Hl_slot. f_equal. f_equal. by rewrite <- app_assoc.
    + intros x Hx Hin'. apply elem_of_app in Hin' as [Hin'|Hin'].
      * apply (Hpre x); [apply elem_of_app; by right|done].
      * apply list_elem_of_singleton in Hin'. injection Hin' as ->.
        destruct (Hl_addrs (addrOf pl) (addrOf_in pl)) as [Hxc|Hge].
        -- by apply (Hdisj (addrOf pl)).
        -- apply Hrest_lt in Hx. lia.
    + (* the trees of the first child are carried through the rest of the walk *)
      assert (Hcarry : forall q,
                 inStore w1 q ->
                 (forall x, x ∈ addrs q -> x ∈ addrs c \/ next w <= x) ->
                 inStore w' q
                 /\ forall x, x ∈ addrs q -> x < next w1 /\ (x ∉ flat_map addrs rest)).
      { intros q Hq Hqa.
        assert (Hfacts : forall x, x ∈ addrs q ->
                   x < next w1 /\ (x ∉ flat_map addrs rest) /\ x <> a).
        { intros x Hx. split; [by eapply inStore_lt|].
          destruct (Hqa x Hx) as [Hxc|Hge].
          - split; [by apply Hdisj|by intros ->].
          - split; [intros Hxr; apply Hrest_lt in Hxr; lia|lia]. }
        split.
        - apply (inStore_frame w1); [|done]. intros x Hx.
          destruct (Hfacts x Hx) as (? & ? & ?). by apply Hframe.
        - intros x Hx. destruct (Hfacts x Hx) as (? & ? & ?). done. }
      destruct (Hcarry pl Hl_in Hl_addrs) as [Hl_in' Hl_facts].
      destruct (Hcarry pd Hd_in Hd_addrs) as [Hd_in' Hd_facts].
      destruct Hls as (Hls_tree & Hls_in & Hls_sep & Hls_addrs).
      destruct Hds as (Hds_tree & Hds_in & Hds_sep & Hds_addrs).
      exists w', (pl :: ls), (pd :: ds).
      rewrite walkChildren_S.
      rewrite (bind_ok _ _ _ _ _ (getChildren_stored _ _ _ _ Hcell eq_refl)).
      rewrite list_lookup_middle by done.
      rewrite (bind_ok _ _ _ _ _ Hrun).
      replace (S (length pre)) with (length (pre ++ [slotOf pl]))
        by (rewrite length_app; cbn; lia).
      split; [exact Hwalk|].
      split; [rewrite Hcell'; cbn [map]; by rewrite <- app_assoc|].
      split; [|split; [|split; [|split; [done|lia]]]].
      * split; [by constructor|]. split; [by constructor|]. split.
        -- apply NoDup_flat_map_cons. repeat split; try done.
           intros x Hx Hx'. destruct (Hl_facts x Hx) as [Hlt Hnr].
           destruct (Hls_addrs x Hx') as [?|?]; [done|lia].
        -- intros x Hx. cbn [flat_map] in *. rewrite !elem_of_app in *.
           destruct Hx as [Hx|Hx].
           ++ destruct (Hl_addrs x Hx); [left; by left|by right].
           ++ destruct (Hls_addrs x Hx); [left; by right|right; lia].
      * split; [by constructor|]. split; [by constructor|]. split.
        -- apply NoDup_flat_map_cons. repeat split; try done.
           intros x Hx Hx'. destruct (Hd_facts x Hx) as [Hlt Hnr].
           destruct (Hds_addrs x Hx') as [?|?]; [done|lia].
        -- intros x Hx. cbn [flat_map] in *. rewrite !elem_of_app in *.
           destruct Hx as [Hx|Hx].
           ++ destruct (Hd_addrs x Hx); [left; by left|by right].
           ++ destruct (Hds_addrs x Hx); [left; by right|right; lia].
      * intros x Hlt Hnot Hxa. cbn [flat_map] in Hnot.
        rewrite not_elem_of_app in Hnot. destruct Hnot as [Hnc Hnr].
        rewrite Hframe by (done || lia). by apply Hframe1.
Qed.


Hypothesis valid_children : forall a n cs,
  valid (treeOf (PNode a n)) -> children n = Some cs ->
  Forall (fun c => valid (treeOf c)) cs.

Lemma length_objects_pos p : 0 < length (objects p).
Proof. destruct p as [a n]. rewrite objects_PNode. cbn. lia. Qed.

Lemma length_flat_map_objects cs :
  length cs <= length (flat_map objects cs)
  /\ Forall (fun c => length (objects c) <= length (flat_map objects cs)) cs.
Proof.
  induction cs as [|c cs [IH1 IH2]]; [split; [done|constructor]|].
  cbn [flat_map]. rewrite length_app. pose proof (length_objects_pos c). split.
  - cbn. lia.
  - constructor; [lia|]. eapply Forall_impl; [exact IH2|]. cbn. intros. lia.
Qed.

Lemma map_treeOf_replaced cs ls :
  Forall2 (fun c l => treeOf l = live (treeOf c)) cs ls ->
  map treeOf ls = map live (map treeOf cs).
Proof. induction 1; cbn; congruence. Qed.

Lemma map_treeOf_kept cs ds :
  Forall2 (fun c d => addrOf d = addrOf c /\ treeOf d = keepNode live (treeOf c)) cs ds ->
  map treeOf ds = map (keepNode live) (map treeOf cs)
  /\ map slotOf ds = map slotOf cs.
Proof.
  induction 1 as [|c d cs ds [Ha Ht] _ [IH1 IH2]]; [done|].
  cbn. unfold slotOf at 1 3. rewrite Ha, Ht, IH1, IH2. done.
Qed.

Lemma below_spec p :
  (forall cs, placedChildren p = Some cs ->
              Forall (VisitSpec test visitor live valid) cs) ->
  forall fuel w parents,
    length (objects p) <= fuel ->
    wellFormed w -> inStore w p -> NoDup (addrs p) -> valid (treeOf p) ->
    exists w' pd ds,
      visitBelow test visitor fuel (addrOf p) parents CONTINUE tt w
      = Ok ((CONTINUE, tt), w')
      /\ Kept live (fun _ => True) w p w' pd
      /\ KeptChildren live w (default [] (placedChildren p)) w' ds.
Proof.
  destruct p as [a n]. intros IH fuel w parents Hfuel Hwf Hin Hsep Hvalid.
  pose proof (inStore_root _ _ Hin) as Hcell. cbn [addrOf] in *.
  unfold visitBelow. rewrite (bind_ok _ _ _ _ _ (load_stored _ _ _ Hcell)).
  destruct n as [ty nm cb v dt [cs|]]; cbn [cellOf children fmap option_fmap option_map
                                              placedChildren from_option id].
  - specialize (IH cs eq_refl).
    rewrite objects_PNode in Hfuel. cbn [length children from_option id] in Hfuel.
    destruct (length_flat_map_objects cs) as [Hlen Hsizes].
    rewrite addrs_PNode in Hsep. cbn [children from_option id] in Hsep.
    apply NoDup_cons in Hsep as [Ha Hsep].
    apply inStore_PNode in Hin as [_ Hin]. cbn [children from_option id] in Hin.
    destruct (walk_spec a cs IH fuel fuel w parents
                (cellOf (PNode a (mkNode ty nm cb v dt (Some cs)))) [])
      as (w' & ls & ds & Hwalk & Hcell' & Hls & Hds & Hframe & Hwf' & Hnext'); try done.
    + lia.
    + eapply Forall_impl; [exact Hsizes|]. cbn. intros. lia.
    + by eapply valid_children.
    + intros x _ Hx. inversion Hx.
    + destruct Hls as (Hls_tree & Hls_in & Hls_sep & Hls_addrs).
      exists w', (PNode a (mkNode ty nm cb v dt (Some ls))), ds.
      split; [exact Hwalk|]. split; [|done].
      assert (Halt : a < next w) by (by eapply stored_lt).
      constructor; try done.
      * apply inStore_PNode. by split.
      * cbn. by rewrite (map_treeOf_replaced _ _ Hls_tree).
      * rewrite addrs_PNode. cbn [children from_option id]. apply NoDup_cons. split; [|done].
        intros Hx. destruct (Hls_addrs a Hx); [done|lia].
      * intros x. rewrite !addrs_PNode. cbn [children from_option id].
        rewrite !elem_of_cons. intros [->|Hx]; [by left; left|].
        destruct (Hls_addrs x Hx); [left; by right|by right].
      * intros x Hlt Hx _. rewrite addrs_PNode in Hx. cbn [children from_option id] in Hx.
        apply not_elem_of_cons in Hx as [? ?]. by apply Hframe.
  - exists w, (PNode a (mkNode ty nm cb v dt None)), [].
    split; [done|]. split.
    + constructor; try done. intros x Hx. by left.
    + split; [constructor|]. split; [constructor|]. split; [constructor|].
      intros x Hx. inversion Hx.
Qed.

Lemma bind_assoc {A B C} (m : M A) (f : A -> M B) (g : B -> M C) w :
  bind m (fun a => bind (f a) g) w = bind (bind m f) g w.
Proof. unfold bind. by destruct (m w) as [[? ?]| |]. Qed.

(** The walk at [p] once the test and the visitor have led from [w] to
    [w1]. *)
Lemma visit_after p :
  (forall cs, placedChildren p = Some cs ->
              Forall (VisitSpec test visitor live valid) cs) ->
  forall fuel w w1 parents,
    length (objects p) < fuel ->
    bind (passesTest test (slotOf p))
         (fun hit => if hit : bool then visitor tt (slotOf p) parents
                     else ret (CONTINUE, tt)) w
    = Ok ((CONTINUE, tt), w1) ->
    wellFormed w1 -> inStore w1 p -> NoDup (addrs p) -> valid (treeOf p) ->
    exists w' pd ds,
      visitParentsFrom test visitor fuel tt (slotOf p) parents w
      = Ok ((CONTINUE, tt), w')
      /\ Kept live (fun _ => True) w1 p w' pd
      /\ KeptChildren live w1 (default [] (placedChildren p)) w' ds.
Proof.
  intros IH fuel w w1 parents Hfuel Hstep Hwf Hin Hsep Hvalid.
  destruct fuel as [|fuel]; [lia|].
  destruct (below_spec p IH fuel w1 parents ltac:(lia) Hwf Hin Hsep Hvalid)
    as (w' & pd & ds & Hrun & Hkept & Hds).
  exists w', pd, ds. split; [|done].
  rewrite visitParentsFrom_S. rewrite bind_assoc.
  by rewrite (bind_ok _ _ _ _ _ Hstep).
Qed.

Lemma Kept_since (stable : addr -> Prop) w w1 p w' pd :
  Kept live (fun _ => True) w1 p w' pd ->
  next w <= next w1 ->
  (forall x, x < next w -> stable x -> cells w1 !! x = cells w !! x) ->
  Kept live stable w p w' pd.
Proof.
  intros [H1 H2 H3 H4 H5 H6 H7 H8] Hnext Hsame. constructor; try done.
  - intros x Hx. destruct (H5 x Hx); [by left|right; lia].
  - intros x Hlt Hx Hst. rewrite H6 by (done || lia). by apply Hsame.
  - lia.
Qed.

(** The walk at a node that does not pass the test. *)
Lemma visit_missed p :
  (forall cs, placedChildren p = Some cs ->
              Forall (VisitSpec test visitor live valid) cs) ->
  live (treeOf p) = keepNode live (treeOf p) ->
  forall fuel w parents par pn pre post,
    passesTest test (slotOf p) w = Ok (false, w) ->
    length (objects p) < fuel ->
    wellFormed w -> inStore w p -> NoDup (addrs p) -> valid (treeOf p) ->
    par ∉ addrs p ->
    cells w !! par = Some pn ->
    children pn = Some (pre ++ slotOf p :: post) ->
    exists w' pl pd,
      visitParentsFrom test visitor fuel tt (slotOf p) (parents ++ [par]) w
      = Ok ((CONTINUE, tt), w')
      /\ Replaced live w par pn pre post p w' pl
      /\ Kept live (fun x => x <> par) w p w' pd.
Proof.
  intros IH Hlive fuel w parents par pn pre post Htest Hfuel Hwf Hin Hsep Hvalid
    Hpar Hpn Hpcs.
  destruct (visit_after p IH fuel w w (parents ++ [par]) Hfuel) as
    (w' & pd & ds & Hrun & Hkept & _); try done.
  { by rewrite (bind_ok _ _ _ _ _ Htest). }
  exists w', pd, pd. split; [done|].
  split; [|by apply (Kept_since _ w w)].
  destruct Hkept as [H1 H2 H3 H4 H5 H6 H7 H8]. constructor; try done.
  - congruence.
  - rewrite H6; [|by eapply stored_lt|done..].
    rewrite Hpn. unfold slotOf. rewrite H2. f_equal. symmetry.
    by apply withChildren_same.
Qed.

Lemma flat_map_take_drop {A B} (f : A -> list B) k l :
  flat_map f l = flat_map f (take k l) ++ flat_map f (drop k l).
Proof. rewrite <- flat_map_app. by rewrite take_drop. Qed.

Lemma children_addrs p x :
  x ∈ flat_map addrs (default [] (placedChildren p)) -> x ∈ addrs p.
Proof. destruct p as [a n]. rewrite addrs_PNode. cbn. by right. Qed.

(** The replacement [pl] that a visitor has put in the slot of [p]: new
    objects ([fresh]) above kept trees of the first [k] children. *)
Lemma Replaced_fresh w w1 w' par pn pre post p pd ds pl fresh k :
  wellFormed w -> inStore w p -> next w <= next w1 ->
  Kept live (fun _ => True) w1 p w' pd ->
  KeptChildren live w1 (default [] (placedChildren p)) w' ds ->
  par ∉ addrs p -> par < next w ->
  cells w1 !! par = Some (withChildren pn (pre ++ slotOf pl :: post)) ->
  objects pl ≡ₚ fresh ++ flat_map objects (take k ds) ->
  Forall (fun xc => next w <= xc.1 < next w1 /\ cells w1 !! xc.1 = Some xc.2) fresh ->
  NoDup fresh.*1 ->
  treeOf pl = live (treeOf p) ->
  Replaced live w par pn pre post p w' pl.
Proof.
  intros Hwf Hin Hnext [_ _ _ _ _ Hframe Hwf' Hnext'] (Hds_rel & Hds_in & Hds_sep & Hds_addrs)
    Hpar Hparlt Hslot Hobj Hfresh Hfresh_sep Htree.
  rewrite Forall_forall in Hfresh.
  assert (Hp_lt : forall x, x ∈ addrs p -> x < next w)
    by (intros x Hx; by eapply inStore_lt).
  assert (Hk_in : forall x, x ∈ flat_map addrs (take k ds) -> x ∈ flat_map addrs ds).
  { intros x Hx. rewrite (flat_map_take_drop addrs k ds). apply elem_of_app. by left. }
  assert (Haddrs : addrs pl ≡ₚ fresh.*1 ++ flat_map addrs (take k ds)).
  { unfold addrs. rewrite Hobj, fmap_app. by rewrite addrs_flat_map. }
  constructor; try done.
  - intros x c Hxc. rewrite Hobj in Hxc. apply elem_of_app in Hxc as [Hxc|Hxc].
    + destruct (Hfresh _ Hxc) as [[Hge Hlt] Hcell]. cbn in *.
      rewrite Hframe; [done|done| |done].
      intros Hx. apply Hp_lt in Hx. lia.
    + apply elem_of_flat_map in Hxc as (d & Hd & Hxc).
      rewrite Forall_forall in Hds_in. apply (Hds_in d); [|done].
      by apply (subseteq_take k ds).
  - rewrite Haddrs. apply NoDup_app. split; [done|]. split.
    + intros x Hx Hx'. apply list_elem_of_fmap in Hx as (xc & -> & Hxc).
      destruct (Hfresh _ Hxc) as [[Hge Hlt] _].
      destruct (Hds_addrs _ (Hk_in _ Hx')) as [Hc|Hc]; [|lia].
      apply children_addrs, Hp_lt in Hc. lia.
    + rewrite (flat_map_take_drop addrs k ds) in Hds_sep.
      by apply NoDup_app in Hds_sep as [? _].
  - intros x Hx. rewrite Haddrs in Hx. apply elem_of_app in Hx as [Hx|Hx].
    + apply list_elem_of_fmap in Hx as (xc & -> & Hxc).
      destruct (Hfresh _ Hxc) as [[Hge Hlt] _]. by right.
    + destruct (Hds_addrs _ (Hk_in _ Hx)) as [Hc|Hc].
      * left. by apply children_addrs.
      * right. lia.
  - rewrite Hframe; [done|lia|done|done].
Qed.

(** The walk at a node that the visitor replaces. *)
Lemma visit_replaced p :
  (forall cs, placedChildren p = Some cs ->
              Forall (VisitSpec test visitor live valid) cs) ->
  forall fuel w w1 parents par pn pre post mk fresh k,
    passesTest test (slotOf p) w = Ok (true, w) ->
    visitor tt (slotOf p) (parents ++ [par]) w = Ok ((CONTINUE, tt), w1) ->
    Replaces live w p par pn pre post w1 mk fresh k ->
    length (objects p) < fuel ->
    wellFormed w -> inStore w p -> NoDup (addrs p) -> valid (treeOf p) ->
    par ∉ addrs p ->
    cells w !! par = Some pn ->
    exists w' pl pd,
      visitParentsFrom test visitor fuel tt (slotOf p) (parents ++ [par]) w
      = Ok ((CONTINUE, tt), w')
      /\ Replaced live w par pn pre post p w' pl
      /\ Kept live (fun x => x <> par) w p w' pd.
Proof.
  intros IH fuel w w1 parents par pn pre post mk fresh k Htest Hvisitor
    (Hwf1 & Hnext1 & Hsame & Hfresh & Hfresh_sep & Hmk)
    Hfuel Hwf Hin Hsep Hvalid Hpar Hpn.
  pose proof (stored_lt _ _ _ Hwf Hpn) as Hparlt.
  assert (Hin1 : inStore w1 p).
  { apply (inStore_frame w); [|done]. intros x Hx. apply Hsame.
    - by eapply inStore_lt.
    - by intros ->. }
  destruct (visit_after p IH fuel w w1 (parents ++ [par]) Hfuel) as
    (w' & pd & ds & Hrun & Hkept & Hds); try done.
  { rewrite (bind_ok _ _ _ _ _ Htest). exact Hvisitor. }
  destruct (Hmk ds) as (Hslot & Hobj & Htree); [apply Hds|].
  exists w', (mk ds), pd. split; [done|]. split.
  - by eapply Replaced_fresh.
  - apply (Kept_since _ w w1); [done..|]. intros x Hlt Hx. by apply Hsame.
Qed.

Lemma visitParents_spec :
  (forall node w, visitor tt node [] w = Ok ((CONTINUE, tt), w)) ->
  (forall p, VisitSpec test visitor live valid p) ->
  forall p fuel w,
    length (objects p) < fuel ->
    wellFormed w -> inStore w p -> NoDup (addrs p) -> valid (treeOf p) ->
    exists w' pd,
      visitParents test visitor fuel tt (addrOf p) w = Ok (tt, w')
      /\ Kept live (fun _ => True) w p w' pd.
Proof.
  intros Hroot Hall p fuel w Hfuel Hwf Hin Hsep Hvalid.
  destruct fuel as [|fuel]; [lia|].
  destruct (below_spec p (fun cs _ => proj2 (Forall_forall _ _) (fun c _ => Hall c))
              fuel w [] ltac:(lia) Hwf Hin Hsep Hvalid)
    as (w' & pd & ds & Hrun & Hkept & _).
  exists w', pd. split; [|done].
  unfold visitParents. rewrite visitParentsFrom_S.
  pose proof (inStore_root _ _ Hin) as Hcell.
  assert (Htest : exists hit, passesTest test (Some (addrOf p)) w = Ok (hit, w)).
  { unfold passesTest. destruct test; [|by eexists].
    rewrite (bind_ok _ _ _ _ _ (load_stored _ _ _ Hcell)). by eexists. }
  destruct Htest as [hit Htest].
  unfold bind at 1. unfold bind at 1. unfold bind at 1. rewrite Htest.
  destruct hit; [rewrite Hroot|unfold ret at 1]; by rewrite Hrun.
Qed.

End replacing_facts.

End TreeStoreFacts.

Module PassLaws.
Import Simplifier SimplifierSpec StoreSpec TreeStoreSpec TreeStoreFacts.
Local Open Scope simplifier_scope.

Lemma visit_handed {St} fuel test visitor (st : St) tree :
  visit fuel test visitor st tree
  = visitParents test (handed visitor) fuel st tree.
Proof. reflexivity. Qed.

Lemma moveNameAttributeToChild_visit fuel three :
  moveNameAttributeToChild fuel three
  = visitParents nameTest (handed (plain moveName)) fuel tt three.
Proof. reflexivity. Qed.

(** *** The store after [new] and after a write *)

Lemma new_alloc n w : new n w = Ok (next w, alloc n w).
Proof. reflexivity. Qed.

Lemma lookup_alloc_old n w x : x < next w -> cells (alloc n w) !! x = cells w !! x.
Proof. intros. cbn. apply lookup_insert_ne. lia. Qed.

Lemma lookup_alloc_new n w : cells (alloc n w) !! next w = Some n.
Proof. cbn. apply lookup_insert_eq. Qed.

Lemma wellFormed_alloc n w : wellFormed w -> wellFormed (alloc n w).
Proof.
  intros Hwf x Hx. cbn in *. rewrite lookup_insert_ne by lia. apply Hwf. lia.
Qed.

Lemma lookup_put_other a n w x : x <> a -> cells (put a n w) !! x = cells w !! x.
Proof. intros. cbn. by apply lookup_insert_ne. Qed.

Lemma lookup_put_same a n w : cells (put a n w) !! a = Some n.
Proof. cbn. apply lookup_insert_eq. Qed.

Lemma wellFormed_put a n w : a < next w -> wellFormed w -> wellFormed (put a n w).
Proof.
  intros Ha Hwf x Hx. cbn in *. rewrite lookup_insert_ne by lia. by apply Hwf.
Qed.


Lemma passesTest_stored tys w a n :
  cells w !! a = Some n ->
  passesTest (Some tys) (Some a) w = Ok (bool_decide (type n ∈ tys), w).
Proof.
  intros Ha. unfold passesTest. by rewrite (bind_ok _ _ _ _ _ (load_stored _ _ _ Ha)).
Qed.

Lemma handed_child {St} (visitor : St -> Value -> option Z -> option addr -> M (Action * St))
    st node parents par pn pre post w :
  cells w !! par = Some pn ->
  children pn = Some (pre ++ node :: post) ->
  node ∉ pre ->
  handed visitor st node (parents ++ [par]) w
  = visitor st node (Some (Z.of_nat (length pre))) (Some par) w.
Proof.
  intros Hpar Hpcs Hpre. unfold handed. rewrite last_snoc.
  rewrite (bind_ok _ _ _ _ _ (getChildren_stored _ _ _ _ Hpar Hpcs)).
  by rewrite indexOf_middle.
Qed.

(** *** [moveNameAttributeToChild] *)

Lemma validNamed_children a n cs :
  validNamed (treeOf (PNode a n)) -> children n = Some cs ->
  Forall (fun c => validNamed (treeOf c)) cs.
Proof.
  destruct n as [ty nm cb v dt cs0]. cbn [children]. intros Hv ->.
  unfold validNamed in *. cbn in Hv. rewrite forallb_forall in Hv.
  apply Forall_forall. intros c Hc. apply Hv, in_map. by apply list_elem_of_In.
Qed.

Lemma moveName_element w a n v vs par pn pre post :
  wellFormed w ->
  cells w !! a = Some n -> type n = ty_elementNamed ->
  children n = Some (v :: vs) ->
  cells w !! par = Some pn -> children pn = Some (pre ++ Some a :: post) ->
  moveName (Some a) (Some (Z.of_nat (length pre))) (Some par) w
  = Ok (tt, put par (withChildren pn (pre ++ Some (S (next w)) :: post))
              (alloc (mkNode ty_element None None None None
                        (Some (Some (next w) :: v :: vs)))
                 (alloc (mkNode ty_name (name n) None None None None) w))).
Proof.
  intros Hwf Ha Hty Hvs Hpar Hpcs.
  pose proof (stored_lt _ _ _ Hwf Hpar) as Hlt.
  unfold moveName, deref. rewrite (bind_ok _ _ _ _ _ (load_stored _ _ _ Ha)).
  rewrite decide_True by done.
  unfold r.name. rewrite (bind_ok _ _ _ _ _ (new_alloc _ _)).
  unfold childrenOf. rewrite Hvs. unfold ret at 1, bind at 1.
  unfold r.elem, r.parent. unfold ret at 1, bind at 1, bind at 1.
  rewrite new_alloc.
  erewrite spliceChildren_replace; [reflexivity| |exact Hpcs].
  rewrite !lookup_alloc_old by (cbn; lia). done.
Qed.


Lemma moveName_element_empty w a n par pn pre post :
  wellFormed w ->
  cells w !! a = Some n -> type n = ty_elementNamed ->
  children n = Some [] ->
  cells w !! par = Some pn -> children pn = Some (pre ++ Some a :: post) ->
  moveName (Some a) (Some (Z.of_nat (length pre))) (Some par) w
  = Ok (tt, put par (withChildren pn (pre ++ Some (S (S (next w))) :: post))
              (alloc (mkNode ty_element None None None None
                        (Some [Some (next w); Some (S (next w))]))
                 (alloc (mkNode ty_empty None None None None None)
                    (alloc (mkNode ty_name (name n) None None None None) w)))).
Proof.
  intros Hwf Ha Hty Hvs Hpar Hpcs.
  pose proof (stored_lt _ _ _ Hwf Hpar) as Hlt.
  unfold moveName, deref. rewrite (bind_ok _ _ _ _ _ (load_stored _ _ _ Ha)).
  rewrite decide_True by done.
  unfold r.name. rewrite (bind_ok _ _ _ _ _ (new_alloc _ _)).
  unfold childrenOf. rewrite Hvs. unfold ret at 1, bind at 1.
  unfold r.elem, r.parent, r.empty, r.leaf.
  unfold bind at 1, bind at 1, bind at 1. rewrite new_alloc. unfold ret at 1.
  rewrite new_alloc.
  erewrite spliceChildren_replace; [reflexivity| |exact Hpcs].
  rewrite !lookup_alloc_old by (cbn; lia). done.
Qed.

Lemma moveName_attribute w a n c vs par pn pre post :
  wellFormed w ->
  cells w !! a = Some n -> type n = ty_attributeNamed ->
  children n = Some (Some c :: vs) ->
  cells w !! par = Some pn -> children pn = Some (pre ++ Some a :: post) ->
  moveName (Some a) (Some (Z.of_nat (length pre))) (Some par) w
  = Ok (tt, put par (withChildren pn (pre ++ Some (S (next w)) :: post))
              (alloc (mkNode ty_attribute None None None None
                        (Some [Some (next w); Some c]))
                 (alloc (mkNode ty_name (name n) None None None None) w))).
Proof.
  intros Hwf Ha Hty Hvs Hpar Hpcs.
  pose proof (stored_lt _ _ _ Hwf Hpar) as Hlt.
  unfold moveName, deref. rewrite (bind_ok _ _ _ _ _ (load_stored _ _ _ Ha)).
  rewrite decide_False by (rewrite Hty; discriminate).
  rewrite decide_True by done.
  unfold r.name. rewrite (bind_ok _ _ _ _ _ (new_alloc _ _)).
  unfold childrenOf. rewrite Hvs. unfold ret at 1, bind at 1.
  unfold r.attr, r.parent. cbn [at_ lookup list_lookup mjoin option_join].
  unfold ret at 1, bind at 1, bind at 1.
  rewrite new_alloc.
  erewrite spliceChildren_replace; [reflexivity| |exact Hpcs].
  rewrite !lookup_alloc_old by (cbn; lia). done.
Qed.

Lemma moveName_attribute_empty w a n par pn pre post :
  wellFormed w ->
  cells w !! a = Some n -> type n = ty_attributeNamed ->
  children n = Some [] ->
  cells w !! par = Some pn -> children pn = Some (pre ++ Some a :: post) ->
  moveName (Some a) (Some (Z.of_nat (length pre))) (Some par) w
  = Ok (tt, put par (withChildren pn (pre ++ Some (S (S (next w))) :: post))
              (alloc (mkNode ty_attribute None None None None
                        (Some [Some (next w); Some (S (next w))]))
                 (alloc (mkNode ty_text None None None None None)
                    (alloc (mkNode ty_name (name n) None None None None) w)))).
Proof.
  intros Hwf Ha Hty Hvs Hpar Hpcs.
  pose proof (stored_lt _ _ _ Hwf Hpar) as Hlt.
  unfold moveName, deref. rewrite (bind_ok _ _ _ _ _ (load_stored _ _ _ Ha)).
  rewrite decide_False by (rewrite Hty; discriminate).
  rewrite decide_True by done.
  unfold r.name. rewrite (bind_ok _ _ _ _ _ (new_alloc _ _)).
  unfold childrenOf. rewrite Hvs. unfold ret at 1, bind at 1.
  unfold r.attr, r.parent, r.text, r.leaf. cbn [at_ lookup list_lookup mjoin option_join].
  unfold bind at 1, bind at 1, bind at 1. rewrite new_alloc. unfold ret at 1.
  rewrite new_alloc.
  erewrite spliceChildren_replace; [reflexivity| |exact Hpcs].
  rewrite !lookup_alloc_old by (cbn; lia). done.
Qed.


Ltac store_lookup :=
  unfold put, alloc; cbn [cells next];
  repeat (rewrite lookup_insert_eq || rewrite lookup_insert_ne by lia).

Ltac fresh_store Hwf :=
  split; [apply wellFormed_put; [cbn; lia|repeat apply wellFormed_alloc; exact Hwf]|];
  split; [cbn; lia|];
  split; [intros ? ? ?; store_lookup; reflexivity|];
  split; [repeat (constructor; [cbn [fst snd]; split; [cbn; lia|store_lookup; reflexivity]|]);
          constructor|];
  split; [cbn [fmap list_fmap fst];
          repeat (constructor; [rewrite ?not_elem_of_cons; repeat split; try lia;
                                apply not_elem_of_nil|]);
          constructor|].

Lemma converted_other ty nm cb v dt cs :
  ty ∉ [ty_elementNamed; ty_attributeNamed] ->
  converted (TNode (mkNode ty nm cb v dt cs))
  = keepNode converted (TNode (mkNode ty nm cb v dt cs)).
Proof.
  intros Hty. destruct ty; try reflexivity; exfalso; apply Hty; set_solver.
Qed.

Lemma moveName_visits :
  forall p, VisitSpec nameTest (handed (plain moveName)) converted validNamed p.
Proof.
  induction p as [a n IH] using Placed_nested_ind.
  intros fuel w parents par pn pre post Hfuel Hwf Hin Hsep Hvalid Hpar Hpn Hpcs Hpre.
  assert (IH' : forall cs, placedChildren (PNode a n) = Some cs ->
                  Forall (VisitSpec nameTest (handed (plain moveName)) converted validNamed) cs).
  { cbn. intros cs Hcs. by rewrite Hcs in IH. }
  clear IH.
  pose proof (inStore_root _ _ Hin) as Hcell. cbn [addrOf] in Hcell.
  pose proof (stored_lt _ _ _ Hwf Hpn) as Hparlt.
  assert (Htest : passesTest nameTest (slotOf (PNode a n)) w
                  = Ok (bool_decide (type (cellOf (PNode a n))
                                       ∈ [ty_elementNamed; ty_attributeNamed]), w))
    by exact (passesTest_stored _ _ _ _ Hcell).
  destruct (decide (type n ∈ [ty_elementNamed; ty_attributeNamed])) as [Hhit|Hmiss].
  2: { apply (visit_missed _ _ _ _ validNamed_children); try done.
       - destruct n. by apply converted_other.
       - rewrite Htest. destruct n. cbn in *. by rewrite bool_decide_eq_false_2. }
  assert (Hvis : forall w1,
            moveName (Some a) (Some (Z.of_nat (length pre))) (Some par) w = Ok (tt, w1) ->
            handed (plain moveName) tt (slotOf (PNode a n)) (parents ++ [par]) w
            = Ok ((CONTINUE, tt), w1)).
  { intros w1 Hw1. rewrite (handed_child _ _ _ _ _ pn pre post) by done.
    unfold plain. by rewrite (bind_ok _ _ _ _ _ Hw1). }
  assert (Htest' : passesTest nameTest (slotOf (PNode a n)) w = Ok (true, w)).
  { rewrite Htest. destruct n. cbn in *. by rewrite bool_decide_eq_true_2. }
  destruct n as [ty nm cb v dt cs]. cbn [type] in Hhit.
  destruct cs as [cs|]; cycle 1.
  { unfold validNamed in Hvalid. cbn in Hvalid.
    rewrite bool_decide_eq_true_2 in Hvalid by done. discriminate. }
  apply elem_of_cons in Hhit as [->|Hhit];
    [|apply list_elem_of_singleton in Hhit as ->].
  - (* elementNamed *)
    destruct cs as [|c cs].
    + eapply (visit_replaced _ _ _ _ validNamed_children _ IH' fuel w _ parents par pn pre post
                (fun _ => placedParent (S (S (next w))) ty_element
                            [placedLeaf (next w) ty_name nm;
                             placedLeaf (S (next w)) ty_empty None])
                [(S (S (next w)), mkNode ty_element None None None None (Some [Some (next w); Some (S (next w))]));
                 (next w, mkNode ty_name nm None None None None); (S (next w), mkNode ty_empty None None None None None)] 0); try done.
      * apply Hvis. by eapply (moveName_element_empty w a _ par pn pre post).
      * fresh_store Hwf. intros ds Hds. split; [store_lookup; reflexivity|].
        split; [|reflexivity]. cbn. reflexivity.
    + eapply (visit_replaced _ _ _ _ validNamed_children _ IH' fuel w _ parents par pn pre post
                (fun ds => placedParent (S (next w)) ty_element
                             (placedLeaf (next w) ty_name nm :: ds))
                [(S (next w), mkNode ty_element None None None None (Some (Some (next w) :: map slotOf (c :: cs))));
                 (next w, mkNode ty_name nm None None None None)] (length (c :: cs))); try done.
      * apply Hvis. by eapply (moveName_element w a _ (slotOf c) (map slotOf cs) par pn pre post).
      * fresh_store Hwf. intros ds Hds.
        destruct (map_treeOf_kept _ _ _ Hds) as [Htrees Hslots].
        cbn [placedChildren children from_option id] in Hds.
        rewrite take_ge by (by rewrite <- (Forall2_length _ _ _ Hds)).
        split; [store_lookup; reflexivity|].
        split.
        -- unfold placedParent. rewrite objects_PNode.
           cbn [children from_option id flat_map objects placedLeaf app cellOf
                  fmap option_fmap option_map map type name value dataType Ast.combine addrOf].
           rewrite Hslots. reflexivity.
        -- cbn [placedChildren children from_option id] in Htrees.
           cbn [treeOf placedParent placedLeaf map]. rewrite Htrees. reflexivity.
  - (* attributeNamed *)
    destruct cs as [|c cs].
    + eapply (visit_replaced _ _ _ _ validNamed_children _ IH' fuel w _ parents par pn pre post
                (fun _ => placedParent (S (S (next w))) ty_attribute
                            [placedLeaf (next w) ty_name nm;
                             placedLeaf (S (next w)) ty_text None])
                [(S (S (next w)), mkNode ty_attribute None None None None (Some [Some (next w); Some (S (next w))]));
                 (next w, mkNode ty_name nm None None None None); (S (next w), mkNode ty_text None None None None None)] 0); try done.
      * apply Hvis. by eapply (moveName_attribute_empty w a _ par pn pre post).
      * fresh_store Hwf. intros ds Hds. split; [store_lookup; reflexivity|].
        split; [|reflexivity]. cbn. reflexivity.
    + eapply (visit_replaced _ _ _ _ validNamed_children _ IH' fuel w _ parents par pn pre post
                (fun ds => placedParent (S (next w)) ty_attribute
                             (placedLeaf (next w) ty_name nm :: take 1 ds))
                [(S (next w), mkNode ty_attribute None None None None (Some [Some (next w); slotOf c]));
                 (next w, mkNode ty_name nm None None None None)] 1); try done.
      * apply Hvis.
        by eapply (moveName_attribute w a _ (addrOf c) (map slotOf cs) par pn pre post).
      * fresh_store Hwf. intros ds Hds.
        destruct (map_treeOf_kept _ _ _ Hds) as [Htrees Hslots].
        cbn [placedChildren children from_option id] in Hds, Htrees, Hslots.
        destruct ds as [|d ds]; [inversion Hds|].
        cbn [map] in Htrees, Hslots. injection Htrees as Htree _. injection Hslots as Hslot _.
        split; [store_lookup; reflexivity|].
        split.
        -- unfold placedParent. rewrite objects_PNode.
           cbn [take children from_option id flat_map objects placedLeaf app cellOf
                  fmap option_fmap option_map map type name value dataType Ast.combine addrOf].
           unfold slotOf at 2. rewrite Hslot. reflexivity.
        -- cbn [take treeOf placedParent placedLeaf map]. rewrite Htree. reflexivity.
Qed.


(** *** Reading a tree of objects *)

Lemma height_child c cs :
  c ∈ cs -> height c <= foldr (fun c h => Nat.max (height c) h) 0 cs.
Proof.
  induction 1 as [c cs|c c' cs _ IH]; cbn [foldr]; lia.
Qed.

Lemma reify_inStore w : forall p depth,
  inStore w p -> height (treeOf p) <= depth ->
  reify depth w (Some (addrOf p)) = Some (treeOf p).
Proof.
  induction p as [a n IH] using Placed_nested_ind. intros depth Hin Hh.
  apply inStore_PNode in Hin as [Hcell Hin].
  destruct n as [ty nm cb v dt cs]. cbn [children from_option id] in *.
  destruct depth as [|depth]; [cbn in Hh; lia|].
  cbn [reify addrOf]. rewrite Hcell. cbn [mbind option_bind cellOf children type name
                                           Ast.combine value dataType].
  destruct cs as [cs|]; [|reflexivity].
  cbn [fmap option_fmap option_map].
  assert (Hall : mapM (reify depth w) (map slotOf cs) = Some (map treeOf cs)).
  { apply mapM_Some. apply Forall2_fmap, Forall_Forall2_diag.
    rewrite Forall_forall in IH, Hin. apply Forall_forall. intros c Hc.
    apply IH; [done|by apply Hin|].
    cbn in Hh.
    assert (Hle : height (treeOf c)
                  <= foldr (fun c h => Nat.max (height c) h) 0 (map treeOf cs))
      by (by apply height_child, list_elem_of_fmap_2).
    lia. }
  rewrite Hall. reflexivity.
Qed.

Lemma inStore_objects w p :
  Forall (fun an => cells w !! an.1 = Some an.2) (objects p) -> inStore w p.
Proof. intros H a n Hin. rewrite Forall_forall in H. exact (H (a, n) Hin). Qed.

(** *** What [moveNameAttributeToChild] leaves *)

Lemma moveNameAttributeToChild_kept (w : World) (p : Placed) (fuel : nat) :
  wellFormed w -> inStore w p -> separate p ->
  namedHaveChildren (treeOf p) = true ->
  length (objects p) < fuel ->
  exists w' pd,
    moveNameAttributeToChild fuel (addrOf p) w = Ok (tt, w')
    /\ Kept converted (fun _ => True) w p w' pd.
Proof.
  intros Hwf Hin Hsep Hvalid Hfuel. rewrite moveNameAttributeToChild_visit.
  apply (visitParents_spec _ _ _ validNamed validNamed_children); try done.
  intros p'. apply moveName_visits.
Qed.

(** X24.  [moveNameAttributeToChild], run on a tree of distinct objects
    in which every [elementNamed] and [attributeNamed] has a [children]
    array, returns.  The tree it leaves below [three] is
    [keepNode converted] of the tree it found: a named node is replaced
    by an [element] or [attribute] with a [name] child, except where its
    parent is itself a named node: such a node stays as it is, and only
    what is below it is converted.  No object outside the tree is
    changed. *)
Theorem moveNameAttributeToChild_converts (w : World) (p : Placed) (fuel : nat) :
  wellFormed w -> inStore w p -> separate p ->
  namedHaveChildren (treeOf p) = true ->
  length (objects p) < fuel ->
  exists w',
    moveNameAttributeToChild fuel (addrOf p) w = Ok (tt, w')
    /\ (forall depth,
          height (keepNode converted (treeOf p)) <= depth ->
          reify depth w' (Some (addrOf p)) = Some (keepNode converted (treeOf p)))
    /\ (forall x, x < next w -> x ∉ addrs p -> cells w' !! x = cells w !! x).
Proof.
  intros Hwf Hin Hsep Hvalid Hfuel.
  destruct (moveNameAttributeToChild_kept w p fuel Hwf Hin Hsep Hvalid Hfuel)
    as (w' & pd & Hrun & [H1 H2 H3 H4 H5 H6 H7 H8]).
  exists w'. split; [done|]. split.
  - intros depth Hd. rewrite <- H2, <- H3. apply reify_inStore; [done|]. by rewrite H3.
  - intros x Hlt Hx. by apply H6.
Qed.

Lemma moveNameAttributeToChild_converts_witness :
  exists w',
    moveNameAttributeToChild 5 3 nestedElements = Ok (tt, w')
    /\ (forall depth,
          4 <= depth ->
          reify depth w' (Some 3)
          = Some (b.root (b.elem (TNode (mkNode ty_name (Some "a") None None None None))
                            [b.elemNamed "b" []])))
    /\ (forall x, x < 4 -> x ∉ [3; 2; 1; 0] -> cells w' !! x = cells nestedElements !! x).
Proof.
  apply (moveNameAttributeToChild_converts nestedElements nestedElementsTree 5).
  - apply SimplifierLaws.wellFormed_from_dom. vm_compute. reflexivity.
  - apply inStore_objects. repeat constructor.
  - apply (bool_decide_unpack _). vm_compute. reflexivity.
  - reflexivity.
  - cbn. lia.
Defined.


(** *** When no named node is left *)

Lemma forallb_map {A B} (f : A -> B) (g : B -> bool) l :
  forallb g (map f l) = forallb (fun x => g (f x)) l.
Proof. induction l as [|x l IH]; cbn; [done|by rewrite IH]. Qed.

Lemma forallb_ext_in {A} (f g : A -> bool) l :
  Forall (fun x => f x = g x) l -> forallb f l = forallb g l.
Proof. induction 1 as [|x l Hx _ IH]; cbn; [done|by rewrite Hx, IH]. Qed.

Lemma forallb_andb {A} (f g : A -> bool) l :
  forallb (fun x => f x && g x) l = forallb f l && forallb g l.
Proof.
  induction l as [|x l IH]; cbn; [done|]. rewrite IH.
  destruct (f x), (g x), (forallb f l); reflexivity.
Qed.

Lemma namedAsBuilt_haveChildren t : namedAsBuilt t = true -> namedHaveChildren t = true.
Proof.
  induction t as [|n IH] using Tree_nested_ind; [done|].
  destruct n as [ty nm cb v dt [cs|]]; cbn [children] in IH; cbn; [|done].
  intros H. apply andb_true_iff in H as [_ H].
  rewrite forallb_forall in H. apply forallb_forall. intros c Hc.
  rewrite Forall_forall in IH. apply IH; [by apply list_elem_of_In|by apply H].
Qed.

(** Where a node is kept, no named node is left below it exactly when
    it is not itself named and none was below another one; where it is
    converted, exactly when none was below another one. *)
Lemma noNamed_converted t :
  namedAsBuilt t = true ->
  noNamed (converted t) = noNamedInNamed t
  /\ noNamed (keepNode converted t)
     = negb (isNamed t) && forallb noNamedInNamed (SimplifierSpec.kids t).
Proof.
  induction t as [|n IH] using Tree_nested_ind; [done|].
  destruct n as [ty nm cb v dt cs]. cbn [children] in IH. intros Hb.
  assert (Hkept : noNamed (keepNode converted (TNode (mkNode ty nm cb v dt cs)))
                  = negb (isNamed (TNode (mkNode ty nm cb v dt cs)))
                    && forallb noNamedInNamed
                         (SimplifierSpec.kids (TNode (mkNode ty nm cb v dt cs)))).
  { cbn. destruct cs as [cs|]; [|done]. f_equal. rewrite forallb_map.
    apply forallb_ext_in. cbn in Hb. apply andb_true_iff in Hb as [_ Hb].
    rewrite forallb_forall in Hb. rewrite Forall_forall in IH |- *.
    intros c Hc. apply IH; [done|]. by apply Hb, list_elem_of_In. }
  split; [|exact Hkept].
  destruct (decide (ty ∈ [ty_elementNamed; ty_attributeNamed])) as [Hty|Hty].
  2: { rewrite converted_other by done. rewrite Hkept. cbn.
       rewrite bool_decide_eq_false_2 by done. by destruct cs. }
  destruct cs as [cs|]; [|cbn in Hb; by rewrite bool_decide_eq_true_2 in Hb].
  assert (Hcs : forallb (fun c => noNamed (keepNode converted c)) cs
                = forallb (fun c => negb (isNamed c)) cs && forallb noNamedInNamed cs).
  { rewrite <- forallb_andb. apply forallb_ext_in.
    cbn in Hb. apply andb_true_iff in Hb as [_ Hb].
    rewrite forallb_forall in Hb. rewrite Forall_forall in IH |- *.
    intros c Hc. destruct (IH c Hc) as [_ Hc']; [by apply Hb, list_elem_of_In|].
    rewrite Hc'. destruct c as [|[ty' nm' cb' v' dt' cs']]; [done|].
    cbn. destruct (bool_decide _); [done|]. by destruct cs'. }
  cbn [noNamedInNamed]. rewrite bool_decide_eq_true_2 by done. rewrite <- Hcs.
  apply elem_of_cons in Hty as [->|Hty];
    [|apply list_elem_of_singleton in Hty as ->].
  - cbn [converted]. destruct cs as [|c cs]; [reflexivity|].
    cbn -[keepNode]. by rewrite forallb_map.
  - cbn [converted]. destruct cs as [|c [|c' cs]]; [reflexivity| |].
    + cbn -[keepNode]. by rewrite !andb_true_r.
    + cbn in Hb. discriminate.
Qed.

(** X25.  What [moveNameAttributeToChild] leaves below the root has no
    [elementNamed] and no [attributeNamed] node exactly when, below the
    root of the tree it found, no such node was the child of another
    one.  (The named nodes being as the builders make them.) *)
Theorem moveNameAttributeToChild_leaves_no_named_node_iff (w : World) (p : Placed)
    (fuel : nat) :
  wellFormed w -> inStore w p -> separate p ->
  namedAsBuilt (treeOf p) = true ->
  length (objects p) < fuel ->
  exists w' t',
    moveNameAttributeToChild fuel (addrOf p) w = Ok (tt, w')
    /\ reify (height t') w' (Some (addrOf p)) = Some t'
    /\ (forallb noNamed (SimplifierSpec.kids t') = true
        <-> forallb noNamedInNamed (SimplifierSpec.kids (treeOf p)) = true).
Proof.
  intros Hwf Hin Hsep Hbuilt Hfuel.
  destruct (moveNameAttributeToChild_kept w p fuel Hwf Hin Hsep
              (namedAsBuilt_haveChildren _ Hbuilt) Hfuel)
    as (w' & pd & Hrun & [H1 H2 H3 H4 H5 H6 H7 H8]).
  exists w', (keepNode converted (treeOf p)). split; [done|]. split.
  - rewrite <- H2, <- H3. by apply reify_inStore.
  - destruct (treeOf p) as [|[ty nm cb v dt [cs|]]] eqn:Ht; [done| |done].
    cbn [keepNode SimplifierSpec.kids children from_option id].
    rewrite forallb_map.
    replace (forallb (fun x => noNamed (converted x)) cs) with (forallb noNamedInNamed cs);
      [done|].
    apply forallb_ext_in, Forall_forall. intros c Hc. symmetry.
    apply noNamed_converted. cbn in Hbuilt. apply andb_true_iff in Hbuilt as [_ Hb].
    rewrite forallb_forall in Hb. by apply Hb, list_elem_of_In.
Qed.

Lemma moveNameAttributeToChild_leaves_no_named_node_iff_witness :
  exists w' t',
    moveNameAttributeToChild 5 3 nestedElements = Ok (tt, w')
    /\ reify (height t') w' (Some 3) = Some t'
    /\ (forallb noNamed (SimplifierSpec.kids t') = true
        <-> forallb noNamedInNamed (SimplifierSpec.kids (treeOf nestedElementsTree)) = true).
Proof.
  apply (moveNameAttributeToChild_leaves_no_named_node_iff nestedElements
           nestedElementsTree 5).
  - apply SimplifierLaws.wellFormed_from_dom. vm_compute. reflexivity.
  - apply inStore_objects. repeat constructor.
  - apply (bool_decide_unpack _). vm_compute. reflexivity.
  - reflexivity.
  - cbn. lia.
Defined.

End PassLaws.

Module SugarLaws.
Import Simplifier SimplifierSpec StoreSpec TreeStoreSpec TreeStoreFacts PassLaws.
Local Open Scope simplifier_scope.

(** *** [replaceMixedOptionalAndZeroOrMore] *)

Lemma replaceMixedOptionalAndZeroOrMore_visit fuel tree :
  replaceMixedOptionalAndZeroOrMore fuel tree
  = visitParents sugarTest (handed (plain replaceSugar)) fuel tt tree.
Proof. reflexivity. Qed.

Lemma validSugar_children a n cs :
  validSugar (treeOf (PNode a n)) -> children n = Some cs ->
  Forall (fun c => validSugar (treeOf c)) cs.
Proof.
  destruct n as [ty nm cb v dt cs0]. cbn [children]. intros Hv ->.
  unfold validSugar in *. cbn in Hv. apply andb_true_iff in Hv as [_ Hv].
  rewrite forallb_forall in Hv.
  apply Forall_forall. intros c Hc. apply Hv, in_map. by apply list_elem_of_In.
Qed.

Lemma replaceSugar_mixed w a n c vs par pn pre post :
  wellFormed w ->
  cells w !! a = Some n -> type n = ty_mixed ->
  children n = Some (Some c :: vs) ->
  cells w !! par = Some pn -> children pn = Some (pre ++ Some a :: post) ->
  replaceSugar (Some a) (Some (Z.of_nat (length pre))) (Some par) w
  = Ok (tt, put par (withChildren pn (pre ++ Some (S (next w)) :: post))
              (alloc (mkNode ty_interleave None None None None
                        (Some [Some c; Some (next w)]))
                 (alloc (mkNode ty_text None None None None None) w))).
Proof.
  intros Hwf Ha Hty Hvs Hpar Hpcs.
  pose proof (stored_lt _ _ _ Hwf Hpar) as Hlt.
  unfold replaceSugar, deref. rewrite (bind_ok _ _ _ _ _ (load_stored _ _ _ Ha)).
  rewrite Hty. unfold childrenOf. rewrite Hvs. unfold ret at 1, bind at 1.
  unfold r.text, r.leaf. rewrite (bind_ok _ _ _ _ _ (new_alloc _ _)).
  unfold r.interleave, r.parent. cbn [at_ lookup list_lookup mjoin option_join].
  rewrite (bind_ok _ _ _ _ _ (new_alloc _ _)).
  erewrite spliceChildren_replace; [reflexivity| |exact Hpcs].
  rewrite !lookup_alloc_old by (cbn; lia). done.
Qed.

Lemma replaceSugar_optional w a n c vs par pn pre post :
  wellFormed w ->
  cells w !! a = Some n -> type n = ty_optional ->
  children n = Some (Some c :: vs) ->
  cells w !! par = Some pn -> children pn = Some (pre ++ Some a :: post) ->
  replaceSugar (Some a) (Some (Z.of_nat (length pre))) (Some par) w
  = Ok (tt, put par (withChildren pn (pre ++ Some (S (next w)) :: post))
              (alloc (mkNode ty_choice None None None None
                        (Some [Some c; Some (next w)]))
                 (alloc (mkNode ty_empty None None None None None) w))).
Proof.
  intros Hwf Ha Hty Hvs Hpar Hpcs.
  pose proof (stored_lt _ _ _ Hwf Hpar) as Hlt.
  unfold replaceSugar, deref. rewrite (bind_ok _ _ _ _ _ (load_stored _ _ _ Ha)).
  rewrite Hty. unfold childrenOf. rewrite Hvs. unfold ret at 1, bind at 1.
  unfold r.empty, r.leaf. rewrite (bind_ok _ _ _ _ _ (new_alloc _ _)).
  unfold r.choice, r.parent. cbn [at_ lookup list_lookup mjoin option_join].
  rewrite (bind_ok _ _ _ _ _ (new_alloc _ _)).
  erewrite spliceChildren_replace; [reflexivity| |exact Hpcs].
  rewrite !lookup_alloc_old by (cbn; lia). done.
Qed.

Lemma replaceSugar_zeroOrMore w a n c vs par pn pre post :
  wellFormed w ->
  cells w !! a = Some n -> type n = ty_zeroOrMore ->
  children n = Some (Some c :: vs) ->
  cells w !! par = Some pn -> children pn = Some (pre ++ Some a :: post) ->
  replaceSugar (Some a) (Some (Z.of_nat (length pre))) (Some par) w
  = Ok (tt, put par (withChildren pn (pre ++ Some (S (S (next w))) :: post))
              (alloc (mkNode ty_choice None None None None
                        (Some [Some (next w); Some (S (next w))]))
                 (alloc (mkNode ty_empty None None None None None)
                    (alloc (mkNode ty_oneOrMore None None None None (Some [Some c])) w)))).
Proof.
  intros Hwf Ha Hty Hvs Hpar Hpcs.
  pose proof (stored_lt _ _ _ Hwf Hpar) as Hlt.
  unfold replaceSugar, deref. rewrite (bind_ok _ _ _ _ _ (load_stored _ _ _ Ha)).
  rewrite Hty. unfold childrenOf. rewrite Hvs. unfold ret at 1, bind at 1.
  unfold r.oneOrMore, r.empty, r.leaf, r.choice, r.parent.
  cbn [at_ lookup list_lookup mjoin option_join].
  rewrite (bind_ok _ _ _ _ _ (new_alloc _ _)).
  rewrite (bind_ok _ _ _ _ _ (new_alloc _ _)).
  rewrite (bind_ok _ _ _ _ _ (new_alloc _ _)).
  erewrite spliceChildren_replace; [reflexivity| |exact Hpcs].
  rewrite !lookup_alloc_old by (cbn; lia). done.
Qed.

Lemma desugared_other ty nm cb v dt cs :
  ty ∉ [ty_mixed; ty_optional; ty_zeroOrMore] ->
  desugared (TNode (mkNode ty nm cb v dt cs))
  = keepNode desugared (TNode (mkNode ty nm cb v dt cs)).
Proof.
  intros Hty. destruct ty; try reflexivity; exfalso; apply Hty; set_solver.
Qed.

Lemma replaceSugar_visits :
  forall p, VisitSpec sugarTest (handed (plain replaceSugar)) desugared validSugar p.
Proof.
  induction p as [a n IH] using Placed_nested_ind.
  intros fuel w parents par pn pre post Hfuel Hwf Hin Hsep Hvalid Hpar Hpn Hpcs Hpre.
  assert (IH' : forall cs, placedChildren (PNode a n) = Some cs ->
                  Forall (VisitSpec sugarTest (handed (plain replaceSugar)) desugared
                            validSugar) cs).
  { cbn. intros cs Hcs. by rewrite Hcs in IH. }
  clear IH.
  pose proof (inStore_root _ _ Hin) as Hcell. cbn [addrOf] in Hcell.
  pose proof (stored_lt _ _ _ Hwf Hpn) as Hparlt.
  assert (Htest : passesTest sugarTest (slotOf (PNode a n)) w
                  = Ok (bool_decide (type (cellOf (PNode a n))
                                       ∈ [ty_mixed; ty_optional; ty_zeroOrMore]), w))
    by exact (passesTest_stored _ _ _ _ Hcell).
  destruct (decide (type n ∈ [ty_mixed; ty_optional; ty_zeroOrMore])) as [Hhit|Hmiss].
  2: { apply (visit_missed _ _ _ _ validSugar_children); try done.
       - destruct n. by apply desugared_other.
       - rewrite Htest. destruct n. cbn in *. by rewrite bool_decide_eq_false_2. }
  assert (Hvis : forall w1,
            replaceSugar (Some a) (Some (Z.of_nat (length pre))) (Some par) w = Ok (tt, w1) ->
            handed (plain replaceSugar) tt (slotOf (PNode a n)) (parents ++ [par]) w
            = Ok ((CONTINUE, tt), w1)).
  { intros w1 Hw1. rewrite (handed_child _ _ _ _ _ pn pre post) by done.
    unfold plain. by rewrite (bind_ok _ _ _ _ _ Hw1). }
  assert (Htest' : passesTest sugarTest (slotOf (PNode a n)) w = Ok (true, w)).
  { rewrite Htest. destruct n. cbn in *. by rewrite bool_decide_eq_true_2. }
  destruct n as [ty nm cb v dt cs]. cbn [type] in Hhit.
  assert (Hcs : exists c cs', cs = Some (c :: cs')).
  { unfold validSugar in Hvalid. cbn in Hvalid.
    rewrite bool_decide_eq_true_2 in Hvalid by done.
    destruct cs as [[|c cs']|]; [done|by eauto|done]. }
  destruct Hcs as (c & cs' & ->).
  rewrite !elem_of_cons in Hhit. destruct Hhit as [->|[->|[->|Hhit]]];
    [| | |by apply elem_of_nil in Hhit].
  - (* mixed *)
    eapply (visit_replaced _ _ _ _ validSugar_children _ IH' fuel w _ parents par pn pre post
              (fun ds => placedParent (S (next w)) ty_interleave
                           (take 1 ds ++ [placedLeaf (next w) ty_text None]))
              [(S (next w), mkNode ty_interleave None None None None
                              (Some [slotOf c; Some (next w)]));
               (next w, mkNode ty_text None None None None None)] 1); try done.
    + apply Hvis.
      by eapply (replaceSugar_mixed w a _ (addrOf c) (map slotOf cs') par pn pre post).
    + fresh_store Hwf. intros ds Hds.
      destruct (map_treeOf_kept _ _ _ Hds) as [Htrees Hslots].
      cbn [placedChildren children from_option id] in Hds, Htrees, Hslots.
      destruct ds as [|d ds]; [inversion Hds|].
      cbn [map] in Htrees, Hslots. injection Htrees as Htree _. injection Hslots as Hslot _.
      split; [store_lookup; reflexivity|].
      split.
      * unfold placedParent. rewrite objects_PNode.
        cbn [take children from_option id flat_map objects placedLeaf app cellOf
               fmap option_fmap option_map map type name value dataType Ast.combine addrOf].
        unfold slotOf at 1. rewrite Hslot. rewrite !app_nil_r.
        constructor. apply Permutation_app_comm.
      * cbn [take treeOf placedParent placedLeaf map app]. rewrite Htree. reflexivity.
  - (* optional *)
    eapply (visit_replaced _ _ _ _ validSugar_children _ IH' fuel w _ parents par pn pre post
              (fun ds => placedParent (S (next w)) ty_choice
                           (take 1 ds ++ [placedLeaf (next w) ty_empty None]))
              [(S (next w), mkNode ty_choice None None None None
                              (Some [slotOf c; Some (next w)]));
               (next w, mkNode ty_empty None None None None None)] 1); try done.
    + apply Hvis.
      by eapply (replaceSugar_optional w a _ (addrOf c) (map slotOf cs') par pn pre post).
    + fresh_store Hwf. intros ds Hds.
      destruct (map_treeOf_kept _ _ _ Hds) as [Htrees Hslots].
      cbn [placedChildren children from_option id] in Hds, Htrees, Hslots.
      destruct ds as [|d ds]; [inversion Hds|].
      cbn [map] in Htrees, Hslots. injection Htrees as Htree _. injection Hslots as Hslot _.
      split; [store_lookup; reflexivity|].
      split.
      * unfold placedParent. rewrite objects_PNode.
        cbn [take children from_option id flat_map objects placedLeaf app cellOf
               fmap option_fmap option_map map type name value dataType Ast.combine addrOf].
        unfold slotOf at 1. rewrite Hslot. rewrite !app_nil_r.
        constructor. apply Permutation_app_comm.
      * cbn [take treeOf placedParent placedLeaf map app]. rewrite Htree. reflexivity.
  - (* zeroOrMore *)
    eapply (visit_replaced _ _ _ _ validSugar_children _ IH' fuel w _ parents par pn pre post
              (fun ds => placedParent (S (S (next w))) ty_choice
                           [placedParent (next w) ty_oneOrMore (take 1 ds);
                            placedLeaf (S (next w)) ty_empty None])
              [(S (S (next w)), mkNode ty_choice None None None None
                                  (Some [Some (next w); Some (S (next w))]));
               (next w, mkNode ty_oneOrMore None None None None (Some [slotOf c]));
               (S (next w), mkNode ty_empty None None None None None)] 1); try done.
    + apply Hvis.
      by eapply (replaceSugar_zeroOrMore w a _ (addrOf c) (map slotOf cs') par pn pre post).
    + fresh_store Hwf. intros ds Hds.
      destruct (map_treeOf_kept _ _ _ Hds) as [Htrees Hslots].
      cbn [placedChildren children from_option id] in Hds, Htrees, Hslots.
      destruct ds as [|d ds]; [inversion Hds|].
      cbn [map] in Htrees, Hslots. injection Htrees as Htree _. injection Hslots as Hslot _.
      split; [store_lookup; reflexivity|].
      split.
      * unfold placedParent. rewrite !objects_PNode.
        cbn [take children from_option id flat_map objects placedLeaf app cellOf
               fmap option_fmap option_map map type name value dataType Ast.combine addrOf].
        change (take 0 ds) with (@nil Placed).
        cbn [map flat_map slotOf addrOf placedLeaf]. unfold slotOf. rewrite Hslot.
        rewrite !app_nil_r. do 2 constructor. apply Permutation_app_comm.
      * cbn [take treeOf placedParent placedLeaf map app]. rewrite Htree. reflexivity.
Qed.


Lemma replaceMixedOptionalAndZeroOrMore_kept (w : World) (p : Placed) (fuel : nat) :
  wellFormed w -> inStore w p -> separate p ->
  sugarHasChild (treeOf p) = true ->
  length (objects p) < fuel ->
  exists w' pd,
    replaceMixedOptionalAndZeroOrMore fuel (addrOf p) w = Ok (tt, w')
    /\ Kept desugared (fun _ => True) w p w' pd.
Proof.
  intros Hwf Hin Hsep Hvalid Hfuel. rewrite replaceMixedOptionalAndZeroOrMore_visit.
  apply (visitParents_spec _ _ _ validSugar validSugar_children); try done.
  intros p'. apply replaceSugar_visits.
Qed.

(** X26.  [replaceMixedOptionalAndZeroOrMore], run on a tree of distinct
    objects in which every [mixed], [optional] and [zeroOrMore] has a
    child, returns.  The tree it leaves below [tree] is
    [keepNode desugared] of the tree it found: such a node is replaced
    by an [interleave] with [text] or a [choice] with [empty] above its
    first child, except where its parent is itself such a node: then it
    stays as it is, and only what is below it is converted.  No object
    outside the tree is changed. *)
Theorem replaceMixedOptionalAndZeroOrMore_converts (w : World) (p : Placed)
    (fuel : nat) :
  wellFormed w -> inStore w p -> separate p ->
  sugarHasChild (treeOf p) = true ->
  length (objects p) < fuel ->
  exists w',
    replaceMixedOptionalAndZeroOrMore fuel (addrOf p) w = Ok (tt, w')
    /\ (forall depth,
          height (keepNode desugared (treeOf p)) <= depth ->
          reify depth w' (Some (addrOf p)) = Some (keepNode desugared (treeOf p)))
    /\ (forall x, x < next w -> x ∉ addrs p -> cells w' !! x = cells w !! x).
Proof.
  intros Hwf Hin Hsep Hvalid Hfuel.
  destruct (replaceMixedOptionalAndZeroOrMore_kept w p fuel Hwf Hin Hsep Hvalid Hfuel)
    as (w' & pd & Hrun & [H1 H2 H3 H4 H5 H6 H7 H8]).
  exists w'. split; [done|]. split.
  - intros depth Hd. rewrite <- H2, <- H3. apply reify_inStore; [done|]. by rewrite H3.
  - intros x Hlt Hx. by apply H6.
Qed.

Lemma replaceMixedOptionalAndZeroOrMore_converts_witness :
  exists w',
    replaceMixedOptionalAndZeroOrMore 5 3 nestedOptional = Ok (tt, w')
    /\ (forall depth,
          4 <= depth ->
          reify depth w' (Some 3)
          = Some (b.root (b.choice [b.zeroOrMore [b.text]; b.empty])))
    /\ (forall x, x < 4 -> x ∉ [3; 2; 1; 0] -> cells w' !! x = cells nestedOptional !! x).
Proof.
  apply (replaceMixedOptionalAndZeroOrMore_converts nestedOptional nestedOptionalTree 5).
  - apply SimplifierLaws.wellFormed_from_dom. vm_compute. reflexivity.
  - apply inStore_objects. repeat constructor.
  - apply (bool_decide_unpack _). vm_compute. reflexivity.
  - reflexivity.
  - cbn. lia.
Defined.

Lemma sugarHasOneChild_hasChild t : sugarHasOneChild t = true -> sugarHasChild t = true.
Proof.
  induction t as [|n IH] using Tree_nested_ind; [done|].
  destruct n as [ty nm cb v dt [cs|]]; cbn [children] in IH; cbn; [|done].
  intros H. apply andb_true_iff in H as [H1 H].
  apply andb_true_iff. split.
  - destruct (bool_decide (ty ∈ _)); [|done].
    apply bool_decide_eq_true in H1. by destruct cs.
  - rewrite forallb_forall in H. apply forallb_forall. intros c Hc.
    rewrite Forall_forall in IH. apply IH; [by apply list_elem_of_In|by apply H].
Qed.

Lemma noSugar_desugared t :
  sugarHasOneChild t = true ->
  noSugar (desugared t) = noSugarInSugar t
  /\ noSugar (keepNode desugared t)
     = negb (isSugar t) && forallb noSugarInSugar (SimplifierSpec.kids t).
Proof.
  induction t as [|n IH] using Tree_nested_ind; [done|].
  destruct n as [ty nm cb v dt cs]. cbn [children] in IH. intros Hb.
  assert (Hkept : noSugar (keepNode desugared (TNode (mkNode ty nm cb v dt cs)))
                  = negb (isSugar (TNode (mkNode ty nm cb v dt cs)))
                    && forallb noSugarInSugar
                         (SimplifierSpec.kids (TNode (mkNode ty nm cb v dt cs)))).
  { cbn. destruct cs as [cs|]; [|done]. f_equal. rewrite forallb_map.
    apply forallb_ext_in. cbn in Hb. apply andb_true_iff in Hb as [_ Hb].
    rewrite forallb_forall in Hb. rewrite Forall_forall in IH |- *.
    intros c Hc. apply IH; [done|]. by apply Hb, list_elem_of_In. }
  split; [|exact Hkept].
  destruct (decide (ty ∈ [ty_mixed; ty_optional; ty_zeroOrMore])) as [Hty|Hty].
  2: { rewrite desugared_other by done. rewrite Hkept. cbn.
       rewrite bool_decide_eq_false_2 by done. by destruct cs. }
  cbn in Hb. rewrite bool_decide_eq_true_2 in Hb by done.
  destruct cs as [[|c [|c' cs]]|]; try discriminate Hb.
  apply andb_true_iff in Hb as [_ Hb]. cbn [forallb] in Hb.
  rewrite andb_true_r in Hb. cbn [children] in IH.
  apply Forall_cons in IH as [IHc _]. destruct (IHc Hb) as [_ Hc].
  cbn [noSugarInSugar forallb]. rewrite bool_decide_eq_true_2 by done.
  rewrite !andb_true_r.
  assert (Hc' : noSugar (keepNode desugared c) = negb (isSugar c) && noSugarInSugar c).
  { rewrite Hc. destruct c as [|[ty' nm' cb' v' dt' cs']]; [done|].
    cbn. destruct (bool_decide _); [done|]. by destruct cs'. }
  rewrite <- Hc'.
  rewrite !elem_of_cons in Hty. destruct Hty as [->|[->|[->|Hty]]];
    [| | |by apply elem_of_nil in Hty].
  all: cbn -[keepNode]; by rewrite ?andb_true_r.
Qed.

(** X27.  What [replaceMixedOptionalAndZeroOrMore] leaves below the root
    has no [mixed], no [optional] and no [zeroOrMore] node exactly when,
    below the root of the tree it found, no such node was the child of
    another one.  (Each of these nodes having one child, as
    [controlChildren] leaves them.) *)
Theorem replaceMixedOptionalAndZeroOrMore_leaves_none_iff (w : World) (p : Placed)
    (fuel : nat) :
  wellFormed w -> inStore w p -> separate p ->
  sugarHasOneChild (treeOf p) = true ->
  length (objects p) < fuel ->
  exists w' t',
    replaceMixedOptionalAndZeroOrMore fuel (addrOf p) w = Ok (tt, w')
    /\ reify (height t') w' (Some (addrOf p)) = Some t'
    /\ (forallb noSugar (SimplifierSpec.kids t') = true
        <-> forallb noSugarInSugar (SimplifierSpec.kids (treeOf p)) = true).
Proof.
  intros Hwf Hin Hsep Hbuilt Hfuel.
  destruct (replaceMixedOptionalAndZeroOrMore_kept w p fuel Hwf Hin Hsep
              (sugarHasOneChild_hasChild _ Hbuilt) Hfuel)
    as (w' & pd & Hrun & [H1 H2 H3 H4 H5 H6 H7 H8]).
  exists w', (keepNode desugared (treeOf p)). split; [done|]. split.
  - rewrite <- H2, <- H3. by apply reify_inStore.
  - destruct (treeOf p) as [|[ty nm cb v dt [cs|]]] eqn:Ht; [done| |done].
    cbn [keepNode SimplifierSpec.kids children from_option id].
    rewrite forallb_map.
    replace (forallb (fun x => noSugar (desugared x)) cs) with (forallb noSugarInSugar cs);
      [done|].
    apply forallb_ext_in, Forall_forall. intros c Hc. symmetry.
    apply noSugar_desugared. cbn in Hbuilt. apply andb_true_iff in Hbuilt as [_ Hb].
    rewrite forallb_forall in Hb. by apply Hb, list_elem_of_In.
Qed.

Lemma replaceMixedOptionalAndZeroOrMore_leaves_none_iff_witness :
  exists w' t',
    replaceMixedOptionalAndZeroOrMore 5 3 nestedOptional = Ok (tt, w')
    /\ reify (height t') w' (Some 3) = Some t'
    /\ (forallb noSugar (SimplifierSpec.kids t') = true
        <-> forallb noSugarInSugar (SimplifierSpec.kids (treeOf nestedOptionalTree)) = true).
Proof.
  apply (replaceMixedOptionalAndZeroOrMore_leaves_none_iff nestedOptional
           nestedOptionalTree 5).
  - apply SimplifierLaws.wellFormed_from_dom. vm_compute. reflexivity.
  - apply inStore_objects. repeat constructor.
  - apply (bool_decide_unpack _). vm_compute. reflexivity.
  - reflexivity.
  - cbn. lia.
Defined.

End SugarLaws.

(** * The checker of the simplified form *)

Module CheckerLaws.
Import Simplifier SimplifierSpec StoreSpec TreeStoreSpec TreeStoreFacts PassLaws.
Local Open Scope simplifier_scope.

(** *** The checker of the simplified form *)

Lemma deref_placed w p : inStore w p -> deref (slotOf p) w = Ok (cellOf p, w).
Proof. intros Hin. apply load_stored. by apply inStore_root. Qed.

Lemma type_cellOf p : type (cellOf p) = match treeOf p with TNode n => type n | _ => ty_root end.
Proof. by destruct p as [a [? ? ? ? ? ?]]. Qed.

Lemma isOfType_placed ty w p :
  inStore w p -> isOfType ty (slotOf p) w = Ok (typeIs ty (treeOf p), w).
Proof.
  intros Hin. unfold isOfType. rewrite (bind_ok _ _ _ _ _ (deref_placed _ _ Hin)).
  by destruct p as [a [? ? ? ? ? ?]].
Qed.

Lemma andAlso_ok (a b : M bool) w x :
  a w = Ok (x, w) -> andAlso a b w = if x then b w else Ok (false, w).
Proof. intros Ha. unfold andAlso. rewrite (bind_ok _ _ _ _ _ Ha). by destruct x. Qed.

Lemma orElse_ok (a b : M bool) w x :
  a w = Ok (x, w) -> orElse a b w = if x then Ok (true, w) else b w.
Proof. intros Ha. unfold orElse. rewrite (bind_ok _ _ _ _ _ Ha). by destruct x. Qed.

Lemma hasLength_ok k (n : Node) cs w :
  children n = Some cs -> hasLength k n w = Ok (bool_decide (length cs = k), w).
Proof. intros H. unfold hasLength, childrenOf. by rewrite H. Qed.

Lemma child_ok (n : Node) cs i w :
  children n = Some cs -> child n i w = Ok (at_ cs i, w).
Proof. intros H. unfold child, childrenOf. by rewrite H. Qed.

Section checking.
Variable w : World.

Lemma isPattern_of fuel p b :
  inStore w p ->
  isNonEmptyPattern fuel (slotOf p) w = Ok (b, w) ->
  orElse (isEmpty (slotOf p)) (isNonEmptyPattern fuel (slotOf p)) w
  = Ok (typeIs ty_empty (treeOf p) || b, w).
Proof.
  intros Hin Hb. rewrite (orElse_ok _ _ _ _ (isOfType_placed ty_empty _ _ Hin)).
  by destruct (typeIs ty_empty (treeOf p)).
Qed.

Lemma isNonEmptyPattern_placed : forall p fuel,
  inStore w p -> parentsHaveChildren (treeOf p) = true ->
  height (treeOf p) <= fuel ->
  isNonEmptyPattern fuel (slotOf p) w
  = Ok (S_NonEmptyPattern (fun _ => true) (treeOf p), w).
Proof.
  induction p as [a n IH] using Placed_nested_ind. intros fuel Hin Hread Hfuel.
  destruct fuel as [|fuel]; [destruct n; cbn in Hfuel; lia|].
  cbn [isNonEmptyPattern]. rewrite (bind_ok _ _ _ _ _ (deref_placed _ _ Hin)).
  pose proof Hin as Hin'. apply inStore_PNode in Hin' as [_ Hkids].
  destruct n as [ty nm cb v dt cs]. cbn [children from_option id] in *.
  assert (Hchild : forall c, c ∈ default [] cs ->
            isNonEmptyPattern fuel (slotOf c) w
            = Ok (S_NonEmptyPattern (fun _ => true) (treeOf c), w)
            /\ inStore w c).
  { intros c Hc. destruct cs as [cs|]; [|inversion Hc]. cbn in Hc.
    rewrite Forall_forall in IH, Hkids. split; [|by apply Hkids].
    apply IH; [done|by apply Hkids| |].
    - cbn in Hread. rewrite forallb_forall in Hread.
      by apply Hread, in_map, list_elem_of_In.
    - cbn in Hfuel.
      assert (height (treeOf c)
              <= foldr (fun c h => Nat.max (height c) h) 0 (map treeOf cs))
        by (by apply height_child, list_elem_of_fmap_2).
      lia. }
  clear IH Hkids Hfuel.
  cbn [cellOf type children fmap option_fmap option_map treeOf S_NonEmptyPattern].
  destruct ty; try reflexivity.
  all: destruct cs as [cs|]; [|cbn in Hread; discriminate].
  all: cbn [fmap option_fmap option_map].
  all: erewrite andAlso_ok by (by apply hasLength_ok).
  all: rewrite length_map.
  - (* attribute *)
    destruct cs as [|nc [|p [|? ?]]]; try reflexivity.
    cbn [length map bool_decide decide_rel]. rewrite bool_decide_eq_true_2 by done.
    destruct (Hchild p) as [Hp Hinp]; [cbn; repeat constructor|].
    erewrite andAlso_ok; [|by erewrite bind_ok by (by apply child_ok)].
    erewrite bind_ok by (by apply child_ok).
    cbn [at_ lookup list_lookup mjoin option_join map].
    by rewrite (isPattern_of _ _ _ Hinp Hp).
  - (* group *)
    destruct cs as [|p [|q [|? ?]]]; try reflexivity.
    cbn [length map]. rewrite bool_decide_eq_true_2 by done.
    destruct (Hchild p) as [Hp Hinp]; [cbn; repeat constructor|].
    destruct (Hchild q) as [Hq Hinq]; [cbn; repeat constructor|].
    erewrite andAlso_ok;
      [|erewrite bind_ok by (by apply child_ok); exact Hp].
    destruct (S_NonEmptyPattern _ (treeOf p)); [|reflexivity].
    erewrite bind_ok by (by apply child_ok). exact Hq.
  - (* interleave *)
    destruct cs as [|p [|q [|? ?]]]; try reflexivity.
    cbn [length map]. rewrite bool_decide_eq_true_2 by done.
    destruct (Hchild p) as [Hp Hinp]; [cbn; repeat constructor|].
    destruct (Hchild q) as [Hq Hinq]; [cbn; repeat constructor|].
    erewrite andAlso_ok;
      [|erewrite bind_ok by (by apply child_ok); exact Hp].
    destruct (S_NonEmptyPattern _ (treeOf p)); [|reflexivity].
    erewrite bind_ok by (by apply child_ok). exact Hq.
  - (* choice *)
    destruct cs as [|p [|q [|? ?]]]; try reflexivity.
    cbn [length map]. rewrite bool_decide_eq_true_2 by done.
    destruct (Hchild p) as [Hp Hinp]; [cbn; repeat constructor|].
    destruct (Hchild q) as [Hq Hinq]; [cbn; repeat constructor|].
    erewrite andAlso_ok;
      [|erewrite bind_ok by (by apply child_ok);
        cbn [at_ lookup list_lookup mjoin option_join map];
        exact (isPattern_of _ _ _ Hinp Hp)].
    destruct (typeIs ty_empty (treeOf p) || S_NonEmptyPattern _ (treeOf p)); [|reflexivity].
    erewrite bind_ok by (by apply child_ok). exact Hq.
  - (* oneOrMore *)
    destruct cs as [|p [|? ?]]; try reflexivity.
    cbn [length map]. rewrite bool_decide_eq_true_2 by done.
    destruct (Hchild p) as [Hp Hinp]; [cbn; repeat constructor|].
    erewrite bind_ok by (by apply child_ok). exact Hp.
Qed.


Lemma isTop_placed p fuel :
  inStore w p -> parentsHaveChildren (treeOf p) = true ->
  height (treeOf p) <= fuel ->
  isTop fuel (slotOf p) w = Ok (S_Top (fun _ => true) (treeOf p), w).
Proof.
  intros Hin Hread Hfuel. unfold isTop, isNotAllowed, isPattern.
  rewrite (orElse_ok _ _ _ _ (isOfType_placed ty_notAllowed _ _ Hin)).
  unfold S_Top, S_Pattern. destruct (typeIs ty_notAllowed (treeOf p)); [done|].
  cbn [orb]. apply isPattern_of; [done|]. by apply isNonEmptyPattern_placed.
Qed.

(** What the hypotheses on a node give for its children. *)
Lemma placed_children a ty nm cb v dt cs fuel :
  inStore w (PNode a (mkNode ty nm cb v dt (Some cs))) ->
  parentsHaveChildren (treeOf (PNode a (mkNode ty nm cb v dt (Some cs)))) = true ->
  height (treeOf (PNode a (mkNode ty nm cb v dt (Some cs)))) <= fuel ->
  Forall (fun c => inStore w c /\ parentsHaveChildren (treeOf c) = true
                   /\ height (treeOf c) <= fuel) cs.
Proof.
  intros Hin Hread Hfuel. apply inStore_PNode in Hin as [_ Hkids].
  cbn in Hkids, Hread, Hfuel. rewrite forallb_forall in Hread.
  rewrite Forall_forall in Hkids |- *. intros c Hc.
  split; [by apply Hkids|]. split; [by apply Hread, in_map, list_elem_of_In|].
  assert (height (treeOf c)
          <= foldr (fun c h => Nat.max (height c) h) 0 (map treeOf cs))
    by (by apply height_child, list_elem_of_fmap_2).
  lia.
Qed.

Lemma isElement_placed p fuel :
  inStore w p -> parentsHaveChildren (treeOf p) = true ->
  height (treeOf p) <= fuel ->
  isElement fuel (slotOf p) w = Ok (S_Element (fun _ => true) (treeOf p), w).
Proof.
  intros Hin Hread Hfuel. unfold isElement.
  rewrite (bind_ok _ _ _ _ _ (deref_placed _ _ Hin)).
  destruct p as [a [ty nm cb v dt cs]].
  erewrite andAlso_ok by reflexivity.
  cbn [cellOf type children treeOf S_Element].
  destruct (decide (ty = ty_element)) as [->|Hty];
    [|rewrite bool_decide_eq_false_2 by done; by destruct ty].
  rewrite bool_decide_eq_true_2 by done.
  destruct cs as [cs|]; [|cbn in Hread; discriminate].
  pose proof (placed_children _ _ _ _ _ _ _ _ Hin Hread Hfuel) as Hcs.
  cbn [fmap option_fmap option_map].
  erewrite andAlso_ok by (by apply hasLength_ok). rewrite length_map.
  destruct cs as [|nc [|q [|? ?]]]; try reflexivity.
  cbn [length map]. rewrite bool_decide_eq_true_2 by done.
  apply Forall_cons in Hcs as [_ Hcs]. apply Forall_cons in Hcs as [(Hq1 & Hq2 & Hq3) _].
  erewrite andAlso_ok; [|by erewrite bind_ok by (by apply child_ok)].
  erewrite bind_ok by (by apply child_ok).
  cbn [at_ lookup list_lookup mjoin option_join map]. by apply isTop_placed.
Qed.

Lemma isDefine_placed p fuel :
  inStore w p -> parentsHaveChildren (treeOf p) = true ->
  height (treeOf p) <= fuel ->
  isDefine fuel (slotOf p) w = Ok (S_Define (fun _ => true) (treeOf p), w).
Proof.
  intros Hin Hread Hfuel. unfold isDefine.
  rewrite (bind_ok _ _ _ _ _ (deref_placed _ _ Hin)).
  destruct p as [a [ty nm cb v dt cs]].
  erewrite andAlso_ok by reflexivity.
  cbn [cellOf type children treeOf S_Define].
  destruct (decide (ty = ty_define)) as [->|Hty];
    [|rewrite bool_decide_eq_false_2 by done; by destruct ty].
  rewrite bool_decide_eq_true_2 by done.
  destruct cs as [cs|]; [|cbn in Hread; discriminate].
  pose proof (placed_children _ _ _ _ _ _ _ _ Hin Hread Hfuel) as Hcs.
  cbn [fmap option_fmap option_map].
  erewrite andAlso_ok by (by apply hasLength_ok). rewrite length_map.
  destruct cs as [|e [|? ?]]; try reflexivity.
  cbn [length map]. rewrite bool_decide_eq_true_2 by done.
  apply Forall_cons in Hcs as [(He1 & He2 & He3) _].
  erewrite bind_ok by (by apply child_ok).
  cbn [at_ lookup list_lookup mjoin option_join map]. by apply isElement_placed.
Qed.

Lemma isStart_placed p fuel :
  inStore w p -> parentsHaveChildren (treeOf p) = true ->
  height (treeOf p) <= fuel ->
  isStart fuel (slotOf p) w = Ok (S_Start (fun _ => true) (treeOf p), w).
Proof.
  intros Hin Hread Hfuel. unfold isStart.
  rewrite (bind_ok _ _ _ _ _ (deref_placed _ _ Hin)).
  destruct p as [a [ty nm cb v dt cs]].
  erewrite andAlso_ok by reflexivity.
  cbn [cellOf type children treeOf S_Start].
  destruct (decide (ty = ty_start)) as [->|Hty];
    [|rewrite bool_decide_eq_false_2 by done; by destruct ty].
  rewrite bool_decide_eq_true_2 by done.
  destruct cs as [cs|]; [|cbn in Hread; discriminate].
  pose proof (placed_children _ _ _ _ _ _ _ _ Hin Hread Hfuel) as Hcs.
  cbn [fmap option_fmap option_map].
  erewrite andAlso_ok by (by apply hasLength_ok). rewrite length_map.
  destruct cs as [|e [|? ?]]; try reflexivity.
  cbn [length map]. rewrite bool_decide_eq_true_2 by done.
  apply Forall_cons in Hcs as [(He1 & He2 & He3) _].
  erewrite bind_ok by (by apply child_ok).
  cbn [at_ lookup list_lookup mjoin option_join map]. by apply isTop_placed.
Qed.

Lemma every_isDefine fuel cs :
  Forall (fun c => inStore w c /\ parentsHaveChildren (treeOf c) = true
                   /\ height (treeOf c) <= fuel) cs ->
  every (isDefine fuel) (map slotOf cs) w
  = Ok (forallb (S_Define (fun _ => true)) (map treeOf cs), w).
Proof.
  induction 1 as [|c cs (H1 & H2 & H3) _ IH]; [reflexivity|].
  cbn [map every forallb]. rewrite (andAlso_ok _ _ _ _ (isDefine_placed _ _ H1 H2 H3)).
  by destruct (S_Define _ (treeOf c)).
Qed.

Lemma isGrammar_placed p fuel :
  inStore w p -> parentsHaveChildren (treeOf p) = true ->
  height (treeOf p) <= fuel ->
  isGrammar fuel (slotOf p) w = Ok (S_Grammar (fun _ => true) (treeOf p), w).
Proof.
  intros Hin Hread Hfuel. unfold isGrammar.
  rewrite (bind_ok _ _ _ _ _ (deref_placed _ _ Hin)).
  destruct p as [a [ty nm cb v dt cs]].
  cbn [cellOf type children treeOf S_Grammar].
  destruct (decide (ty <> ty_grammar)) as [Hty|Hty]; [by destruct ty|].
  assert (ty = ty_grammar) as -> by (by destruct (decide (ty = ty_grammar))).
  destruct cs as [cs|]; [|cbn in Hread; discriminate].
  pose proof (placed_children _ _ _ _ _ _ _ _ Hin Hread Hfuel) as Hcs.
  cbn [fmap option_fmap option_map]. unfold childrenOf at 1.
  cbn [children]. unfold ret at 1, bind at 1.
  destruct cs as [|s ds]; [reflexivity|].
  apply Forall_cons in Hcs as [(Hs1 & Hs2 & Hs3) Hds].
  cbn [map]. rewrite (andAlso_ok _ _ _ _ (isStart_placed _ _ Hs1 Hs2 Hs3)).
  destruct (S_Start _ (treeOf s)); [|reflexivity].
  by apply every_isDefine.
Qed.

End checking.

(** A tree of a declared type stays of that type when more nodes count
    as name classes. *)
Section name_classes.
Variable NameClass : Tree -> bool.

Lemma S_NonEmptyPattern_mono t :
  S_NonEmptyPattern NameClass t = true -> S_NonEmptyPattern (fun _ => true) t = true.
Proof.
  induction t as [|n IH] using Tree_nested_ind; [done|].
  destruct n as [ty nm cb v dt cs]. cbn [children] in IH.
  destruct ty; try done; cbn.
  all: destruct cs as [[|p [|q [|? ?]]]|]; try done.
  all: repeat (apply Forall_cons in IH as [? IH]).
  all: rewrite ?andb_true_iff, ?orb_true_iff; intuition.
Qed.

Lemma S_Top_mono t : S_Top NameClass t = true -> S_Top (fun _ => true) t = true.
Proof.
  unfold S_Top, S_Pattern. rewrite !orb_true_iff.
  pose proof (S_NonEmptyPattern_mono t). intuition.
Qed.

Lemma S_Element_mono t :
  S_Element NameClass t = true -> S_Element (fun _ => true) t = true.
Proof.
  destruct t as [|[ty nm cb v dt [[|nc [|q [|? ?]]]|]]]; try done; destruct ty; try done.
  cbn. rewrite andb_true_iff. intros [_ H]. by apply S_Top_mono.
Qed.

Lemma S_Define_mono t :
  S_Define NameClass t = true -> S_Define (fun _ => true) t = true.
Proof.
  destruct t as [|[ty nm cb v dt [[|e [|? ?]]|]]]; try done; destruct ty; try done.
  cbn. apply S_Element_mono.
Qed.

Lemma S_Root_mono t : S_Root NameClass t = true -> S_Root (fun _ => true) t = true.
Proof.
  destruct t as [|[ty nm cb v dt [[|g [|? ?]]|]]]; try done; destruct ty; try done.
  cbn [S_Root].
  destruct g as [|[ty nm' cb' v' dt' [[|s ds]|]]]; try done; destruct ty; try done.
  cbn [S_Grammar]. rewrite !andb_true_iff. intros [Hs Hds]. split.
  - destruct s as [|[ty nm'' cb'' v'' dt'' [[|q [|? ?]]|]]]; try done; destruct ty; try done.
    by apply S_Top_mono.
  - rewrite forallb_forall in Hds. apply forallb_forall. intros d Hd.
    by apply S_Define_mono, Hds.
Qed.
End name_classes.

(** X28.  [isRoot], on a tree of objects whose root is a [root] node,
    returns whether the tree has the declared type [Root] of the
    simplified form, every node counting as a name class (the name
    classes are not looked at); it changes nothing.  So it accepts every
    tree of type [Root], whatever a name class is. *)
Theorem isRoot_checks_the_declared_form (w : World) (p : Placed) (fuel : nat) :
  inStore w p ->
  typeIs ty_root (treeOf p) = true ->
  parentsHaveChildren (treeOf p) = true ->
  height (treeOf p) <= fuel ->
  isRoot fuel (addrOf p) w = Ok (S_Root (fun _ => true) (treeOf p), w)
  /\ forall NameClass,
       S_Root NameClass (treeOf p) = true -> isRoot fuel (addrOf p) w = Ok (true, w).
Proof.
  intros Hin Hroot Hread Hfuel.
  assert (Hrun : isRoot fuel (addrOf p) w = Ok (S_Root (fun _ => true) (treeOf p), w)).
  { unfold isRoot.
    rewrite (bind_ok _ _ _ _ _ (load_stored _ _ _ (inStore_root _ _ Hin))).
    destruct p as [a [ty nm cb v dt cs]].
    cbn in Hroot. apply bool_decide_eq_true in Hroot as ->.
    destruct cs as [cs|]; [|cbn in Hread; discriminate].
    pose proof (placed_children _ _ _ _ _ _ _ _ _ Hin Hread Hfuel) as Hcs.
    cbn [cellOf type children treeOf S_Root fmap option_fmap option_map].
    erewrite andAlso_ok by (by apply hasLength_ok). rewrite length_map.
    destruct cs as [|g [|? ?]]; try reflexivity.
    cbn [length map]. rewrite bool_decide_eq_true_2 by done.
    apply Forall_cons in Hcs as [(Hg1 & Hg2 & Hg3) _].
    erewrite bind_ok by (by apply child_ok).
    cbn [at_ lookup list_lookup mjoin option_join map]. by apply isGrammar_placed. }
  split; [exact Hrun|].
  intros NameClass HS. rewrite Hrun. by rewrite (S_Root_mono NameClass _ HS).
Qed.

Lemma isRoot_checks_the_declared_form_witness :
  isRoot 5 7 simpleGrammar = Ok (true, simpleGrammar)
  /\ forall NameClass,
       S_Root NameClass (treeOf simpleGrammarTree) = true ->
       isRoot 5 7 simpleGrammar = Ok (true, simpleGrammar).
Proof.
  apply (isRoot_checks_the_declared_form simpleGrammar simpleGrammarTree 5).
  - apply inStore_objects. repeat constructor.
  - reflexivity.
  - reflexivity.
  - cbn. lia.
Defined.

End CheckerLaws.

(** * The converter and the simplifier *)

Module ConverterLaws.
Import XastToRngast ConverterSpec TreeStoreSpec ConverterProps.

(** *** The trees of the converter, as input of the simplifier *)

Lemma mapRes_namedAsBuilt children cs :
  Forall (fun n => (forall t, convertPatternNode n = Ok t -> namedAsBuilt t = true)
                   /\ (forall t, convertAttributeContent n = Ok t -> namedAsBuilt t = true))
    children ->
  mapRes convertPatternNode children = Ok cs ->
  forallb namedAsBuilt cs = true.
Proof.
  intros IH H. apply mapRes_Ok in H.
  induction H as [|c t children cs Hc _ IHl]; [reflexivity|].
  apply Forall_cons in IH as [IHc IH].
  cbn. rewrite (proj1 IHc t Hc). cbn. auto.
Qed.

Lemma convertToValue_namedAsBuilt children t :
  convertToValue children = Ok t -> namedAsBuilt t = true.
Proof.
  destruct children as [|[| |] cs]; cbn; intros H; try discriminate; by injection H as <-.
Qed.

Lemma convertToRef_namedAsBuilt attrs t :
  convertToRef attrs = Ok t -> namedAsBuilt t = true.
Proof.
  unfold convertToRef. intros H. apply R_bind_Ok in H as (nm & _ & H).
  by injection H as <-.
Qed.

Lemma convert_namedAsBuilt n :
  (forall t, convertPatternNode n = Ok t -> namedAsBuilt t = true)
  /\ (forall t, convertAttributeContent n = Ok t -> namedAsBuilt t = true).
Proof.
  induction n as [loc name attrs children IH|loc value|loc kind]
    using XastNode_nested_ind; [|split; intros t H; discriminate..].
  split; intros t H.
  - cbn [convertPatternNode] in H.
    repeat case_decide;
      try discriminate;
      try (by injection H as <-);
      try exact (convertToValue_namedAsBuilt _ _ H);
      try exact (convertToRef_namedAsBuilt _ _ H);
      try (apply R_bind_Ok in H as (cs & Hcs & H); injection H as <-;
           apply (mapRes_namedAsBuilt _ _ IH) in Hcs; cbn; by rewrite Hcs).
    + (* element *)
      apply R_bind_Ok in H as (nm & _ & H). apply R_bind_Ok in H as (cs & Hcs & H).
      injection H as <-. apply (mapRes_namedAsBuilt _ _ IH) in Hcs.
      destruct cs; [reflexivity|]. cbn in *. by rewrite Hcs.
    + (* attribute *)
      apply R_bind_Ok in H as (nm & _ & H).
      destruct children as [|c [|c' cs]]; [by injection H as <-| |discriminate].
      apply R_bind_Ok in H as (content & Hc & H). injection H as <-.
      apply Forall_cons in IH as [IHc _].
      cbn. by rewrite (proj2 IHc content Hc).
  - cbn [convertAttributeContent] in H.
    repeat case_decide;
      try exact (convertToValue_namedAsBuilt _ _ H);
      try exact (convertToRef_namedAsBuilt _ _ H);
      try discriminate.
    + apply R_bind_Ok in H as (cs & Hcs & H); injection H as <-.
      apply (mapRes_namedAsBuilt _ _ IH) in Hcs. cbn. by rewrite Hcs.
    + apply R_bind_Ok in H as (ty & _ & H). unfold data in H.
      destruct (isDataType ty); [|discriminate]. by injection H as <-.
Qed.

Lemma convertToDef_namedAsBuilt n t :
  convertToDef n = Ok t -> namedAsBuilt t = true.
Proof.
  intros H. destruct n as [loc name attrs children| |]; try discriminate.
  cbn in H. case_decide; [discriminate|].
  destruct (attribute attrs "name") as [nm| | |]; try discriminate.
  apply R_bind_Ok in H as (cs & Hcs & H). injection H as <-.
  assert (IH : Forall (fun n =>
                 (forall t, convertPatternNode n = Ok t -> namedAsBuilt t = true)
                 /\ (forall t, convertAttributeContent n = Ok t -> namedAsBuilt t = true))
                children)
    by (apply Forall_forall; intros; apply convert_namedAsBuilt).
  apply (mapRes_namedAsBuilt _ _ IH) in Hcs. cbn. by rewrite Hcs.
Qed.

(** X29.  In every tree that [convertXastToRngAst] returns, the named
    nodes are as [moveNameAttributeToChild] needs them: each
    [elementNamed] has a [children] array and each [attributeNamed] has
    one with at most one entry. *)
Theorem converted_trees_have_named_nodes_as_built (tree : XastRoot) (spec : Tree) :
  convertXastToRngAst tree = Ok spec ->
  namedAsBuilt spec = true /\ namedHaveChildren spec = true.
Proof.
  intros H.
  assert (Hbuilt : namedAsBuilt spec = true).
  { unfold convertXastToRngAst in H.
    destruct (rootChildren tree) as [|[loc name attrs children| |] rest]; try discriminate.
    apply R_bind_Ok in H as (g & Hg & H). injection H as <-.
    unfold convertToGrammarElement in Hg.
    apply R_bind_Ok in Hg as (s & Hs & Hg). apply R_bind_Ok in Hg as (ds & Hds & Hg).
    injection Hg as <-.
    assert (Hstart : namedAsBuilt s = true).
    { unfold convertToStart in Hs.
      destruct (head children) as [[loc' name' attrs' children'| |]|]; try discriminate.
      case_decide; [discriminate|].
      apply R_bind_Ok in Hs as (c & Hc & Hs). injection Hs as <-.
      unfold convertPattern in Hc. destruct (head children') as [n|]; [|discriminate].
      cbn. by rewrite (proj1 (convert_namedAsBuilt n) c Hc). }
    assert (Hdefs : forallb namedAsBuilt ds = true).
    { apply mapRes_Ok in Hds. clear -Hds.
      induction Hds as [|d t ds' ts Hd _ IH]; [reflexivity|].
      cbn. by rewrite (convertToDef_namedAsBuilt d t Hd). }
    cbn. by rewrite Hstart, Hdefs. }
  split; [exact Hbuilt|].
  clear H. revert Hbuilt.
  induction spec as [|n IH] using Tree_nested_ind; [done|].
  destruct n as [ty nm cb v dt [cs|]]; cbn [children] in IH; cbn; [|done].
  intros H. apply andb_true_iff in H as [_ H].
  rewrite forallb_forall in H. apply forallb_forall. intros c Hc.
  rewrite Forall_forall in IH. apply IH; [by apply list_elem_of_In|by apply H].
Qed.

Lemma converted_trees_have_named_nodes_as_built_witness :
  namedAsBuilt (b.root (b.grammar (b.start (b.elemNamed "a" [b.attrNamed "b" None])) []))
  = true
  /\ namedHaveChildren
       (b.root (b.grammar (b.start (b.elemNamed "a" [b.attrNamed "b" None])) [])) = true.
Proof.
  apply (converted_trees_have_named_nodes_as_built
           (mkXastRoot
              [XElement 0 "grammar" []
                 [XElement 1 "start" []
                    [XElement 2 "element" [("name", AString "a")]
                       [XElement 3 "attribute" [("name", AString "b")] []]]]])).
  vm_compute. reflexivity.
Defined.

End ConverterLaws.

(** * The post-order walk *)

Module PostOrderLaws.
Import Simplifier SimplifierSpec StoreSpec TreeStoreSpec TreeStoreFacts PassLaws.
Local Open Scope simplifier_scope.

(** *** [visitPostOrder] *)

Lemma postOrderFrom_PNode index parent a n :
  postOrderFrom index parent (PNode a n)
  = postOrderEach a 0 (default [] (children n)) ++ [(Some a, index, parent)].
Proof. by destruct n as [? ? ? ? ? [cs|]]. Qed.

Lemma links_PNode a n :
  links (PNode a n)
  = (a, children (cellOf (PNode a n))) :: flat_map links (default [] (children n)).
Proof. destruct n as [? ? ? ? ? [cs|]]; reflexivity. Qed.

Lemma bind_ext {A B} (m : M A) (k1 k2 : A -> M B) w :
  (forall a w', k1 a w' = k2 a w') -> bind m k1 w = bind m k2 w.
Proof. intros H. unfold bind. destruct (m w) as [[a w']| |]; [apply H|reflexivity..]. Qed.

Lemma bind_ext_ok {A B} (m : M A) (k1 k2 : A -> M B) w :
  (forall a w', m w = Ok (a, w') -> k1 a w' = k2 a w') -> bind m k1 w = bind m k2 w.
Proof. intros H. unfold bind. destruct (m w) as [[a w']| |]; [by apply H|reflexivity..]. Qed.

Lemma forEach_app {A} (l1 l2 : list A) (f : A -> M unit) (k : unit -> M unit) w :
  bind (forEach (l1 ++ l2) f) k w
  = bind (forEach l1 f) (fun _ => bind (forEach l2 f) k) w.
Proof.
  revert w. induction l1 as [|a l1 IH]; intros w; [reflexivity|].
  cbn [app forEach]. rewrite <- !bind_assoc. apply bind_ext. intros _ w1. apply IH.
Qed.

Lemma visitPostOrderLoop_S fuel visitor node pass parentCtx stack :
  visitPostOrderLoop (S fuel) visitor ((node, pass, parentCtx) :: stack)
  = match node with
    | None => TypeError "Cannot use 'in' operator to search for 'children' in undefined"
    | Some a =>
        n <- load a ;;
        match children n with
        | Some cs =>
            if decide (pass < length cs) then
              visitPostOrderLoop fuel visitor
                ((at_ cs pass, 0, Some (a, pass)) :: (node, S pass, parentCtx) :: stack)
            else
              visitor node (snd <$> parentCtx) (fst <$> parentCtx) ;;
              visitPostOrderLoop fuel visitor stack
        | None =>
            visitor node (snd <$> parentCtx) (fst <$> parentCtx) ;;
            visitPostOrderLoop fuel visitor stack
        end
    end.
Proof. reflexivity. Qed.

Section post_order.
Variable visitor : Value -> option nat -> option addr -> M unit.
(** The whole tree. *)
Variable tree : Placed.
Hypothesis keeps : forall node index parent w0 w1,
  linked w0 tree -> visitor node index parent w0 = Ok (tt, w1) -> linked w1 tree.

Lemma forEach_keeps l : forall w w',
  linked w tree -> forEach l (called visitor) w = Ok (tt, w') -> linked w' tree.
Proof.
  induction l as [|[[node index] parent] l IH]; intros w w' Hw H.
  - by injection H as <-.
  - cbn [forEach] in H. unfold bind in H. cbn [called] in H.
    destruct (visitor node index parent w) as [[[] w1]| |] eqn:E; try discriminate.
    eapply IH; [|exact H]. by eapply keeps.
Qed.

Lemma length_links_pos p : 0 < length (links p).
Proof. destruct p as [a n]. rewrite links_PNode. cbn. lia. Qed.

Lemma walk_children a (n : Node) all parentCtx stack k : forall todo,
  Forall (WalkSpec visitor tree) todo ->
  forall done w,
    all = done ++ todo ->
    (forall w, linked w tree ->
       children <$> cells w !! a = Some (Some (map slotOf all))
       /\ Forall (linked w) todo) ->
    linked w tree ->
    visitPostOrderLoop (2 * length (flat_map links todo) + 1 + k) visitor
      ((Some a, length done, parentCtx) :: stack) w
    = bind (forEach (postOrderEach a (length done) todo
                       ++ [(Some a, snd <$> parentCtx, fst <$> parentCtx)])
              (called visitor))
        (fun _ => visitPostOrderLoop k visitor stack) w.
Proof.
  induction 1 as [|c rest Hc _ IH]; intros done w Hall Hlinks Hw.
  - destruct (Hlinks w Hw) as [Ha _].
    destruct (cells w !! a) as [na|] eqn:Hna; [|discriminate].
    cbn in Ha. injection Ha as Ha.
    cbn [flat_map length Nat.mul Nat.add]. rewrite visitPostOrderLoop_S.
    rewrite (bind_ok _ _ _ _ _ (load_stored _ _ _ Hna)). rewrite Ha.
    rewrite decide_False by (rewrite length_map, Hall, length_app; cbn; lia).
    cbn [postOrderEach app forEach called]. unfold bind.
    destruct (visitor _ _ _ w) as [[[] w1]| |]; reflexivity.
  - destruct (Hlinks w Hw) as [Ha Htodo].
    destruct (cells w !! a) as [na|] eqn:Hna; [|discriminate].
    cbn in Ha. injection Ha as Ha.
    apply Forall_cons in Htodo as [Hlc _].
    cbn [flat_map]. rewrite length_app.
    pose proof (length_links_pos c) as Hpos.
    replace (2 * (length (links c) + length (flat_map links rest)) + 1 + k)
      with (S (2 * length (links c) - 1
               + (2 * length (flat_map links rest) + 1 + k))) by lia.
    rewrite visitPostOrderLoop_S.
    rewrite (bind_ok _ _ _ _ _ (load_stored _ _ _ Hna)). rewrite Ha.
    rewrite decide_True by (rewrite length_map, Hall, length_app; cbn; lia).
    assert (Hat : at_ (map slotOf all) (length done) = slotOf c).
    { unfold at_. rewrite Hall, map_app. cbn [map].
      rewrite list_lookup_middle by (by rewrite length_map). done. }
    rewrite Hat.
    rewrite Hc; [| |done].
    2: { intros w0 Hw0. destruct (Hlinks w0 Hw0) as [_ H0].
         by apply Forall_cons in H0 as [? _]. }
    cbn [fmap option_fmap option_map fst snd postOrderEach].
    rewrite <- app_assoc. rewrite forEach_app.
    apply bind_ext_ok. intros [] w1 E.
    pose proof (forEach_keeps _ _ _ Hw E) as Hw1.
    specialize (IH (done ++ [c]) w1).
    rewrite length_app in IH. cbn [length] in IH.
    replace (length done + 1) with (S (length done)) in IH by lia.
    apply IH; [by rewrite <- app_assoc| |done].
    intros w0 Hw0. destruct (Hlinks w0 Hw0) as [H1 H2]. split; [done|].
    by apply Forall_cons in H2 as [_ ?].
Qed.

Lemma linked_PNode w a n :
  linked w (PNode a n)
  -> children <$> cells w !! a = Some (children (cellOf (PNode a n)))
     /\ Forall (linked w) (default [] (children n)).
Proof.
  unfold linked. rewrite links_PNode. intros H. split; [apply H; left|].
  apply Forall_forall. intros c Hc a' cs' Hin. apply H. right.
  apply elem_of_flat_map. eauto.
Qed.

Lemma walk_subtree : forall p, WalkSpec visitor tree p.
Proof.
  induction p as [a n IH] using Placed_nested_ind.
  intros Hpart parentCtx stack k w Hw.
  rewrite postOrderFrom_PNode. rewrite links_PNode. cbn [length].
  destruct n as [ty nm cb v dt [cs|]]; cbn [children from_option id] in *.
  - replace (2 * S (length (flat_map links cs)) - 1 + k)
      with (2 * length (flat_map links cs) + 1 + k) by lia.
    apply (walk_children a (cellOf (PNode a (mkNode ty nm cb v dt (Some cs)))) cs
             parentCtx stack k cs IH [] w); [done| |done].
    intros w0 Hw0. apply Hpart in Hw0. by apply linked_PNode in Hw0.
  - cbn [flat_map length]. replace (2 * 1 - 1 + k) with (S k) by lia.
    unfold slotOf. cbn [addrOf].
    destruct (linked_PNode _ _ _ (Hpart w Hw)) as [Ha _].
    destruct (cells w !! a) as [na|] eqn:Hna; [|discriminate].
    cbn in Ha. injection Ha as Ha.
    rewrite visitPostOrderLoop_S.
    rewrite (bind_ok _ _ _ _ _ (load_stored _ _ _ Hna)). rewrite Ha.
    cbn [postOrderEach app forEach called]. unfold bind.
    destruct (visitor _ _ _ w) as [[[] w1]| |]; reflexivity.
Qed.

End post_order.

(** X30.  [visitPostOrder] with a visitor that leaves the [children]
    arrays of the tree as they are: it calls the visitor on every node
    of the tree once, in post-order (the children of a node from left to
    right, then the node), with the index of the node and its parent,
    and [undefined] for both at the root.  It returns when the visitor
    has returned from these calls, and throws when one of them
    throws. *)
Theorem visitPostOrder_visits_in_post_order
    (visitor : Value -> option nat -> option addr -> M unit)
    (w : World) (p : Placed) (fuel : nat) :
  linked w p ->
  (forall node index parent w0 w1,
     linked w0 p -> visitor node index parent w0 = Ok (tt, w1) -> linked w1 p) ->
  2 * length (links p) <= fuel ->
  visitPostOrder fuel visitor (addrOf p) w
  = forEach (postOrder p) (called visitor) w.
Proof.
  intros Hw Hkeeps Hfuel. unfold visitPostOrder, postOrder.
  pose proof (length_links_pos p) as Hpos.
  replace fuel with (2 * length (links p) - 1 + S (fuel - 2 * length (links p))) by lia.
  rewrite (walk_subtree visitor p Hkeeps p (fun _ H => H) None [] _ w Hw).
  cbn [fmap option_fmap option_map]. unfold bind.
  by destruct (forEach _ _ w) as [[[] w1]| |].
Qed.


Lemma linked_links w p :
  Forall (fun ac => children <$> cells w !! ac.1 = Some ac.2) (links p) -> linked w p.
Proof. intros H a cs Hin. rewrite Forall_forall in H. exact (H (a, cs) Hin). Qed.

Lemma markSeen_keeps p node index parent w0 w1 :
  linked w0 p -> markSeen node index parent w0 = Ok (tt, w1) -> linked w1 p.
Proof.
  intros Hp H. destruct node as [a|]; [|by injection H as <-].
  cbn [markSeen] in H. unfold setName, bind, load, store in H.
  destruct (cells w0 !! a) as [n|] eqn:Hn; [|discriminate].
  injection H as <-. intros x cs Hin. specialize (Hp x cs Hin). cbn [cells].
  destruct (decide (x = a)) as [->|Hx].
  - rewrite lookup_insert_eq. rewrite Hn in Hp. exact Hp.
  - by rewrite lookup_insert_ne.
Qed.

Lemma visitPostOrder_visits_in_post_order_witness :
  visitPostOrder 8 markSeen 3 nestedElements
  = forEach [(Some 0, Some 0, Some 1); (Some 1, Some 0, Some 2);
             (Some 2, Some 0, Some 3); (Some 3, None, None)]
      (called markSeen) nestedElements.
Proof.
  apply (visitPostOrder_visits_in_post_order markSeen nestedElements
           nestedElementsTree 8).
  - apply linked_links. repeat constructor.
  - intros node index parent w0 w1. apply markSeen_keeps.
  - cbn. lia.
Defined.

End PostOrderLaws.
